(** * dotai installer: the sync engine of [install.py]

    A shallow embedding of the engine functions of [install.py]
    (backup, smart install, removal, snapshot restore, settings merge,
    the install run) together with the properties the specification
    states about them.

    The file system is a finite map from paths to file contents, the
    Python objects the settings code mutates live in an explicit store,
    and every engine function is a computation in a state-and-exception
    monad over that world. *)

From Stdlib Require Import ZArith Ascii String List Lia.
From stdpp Require Import gmap strings list fin_maps pretty.

Set Warnings "-register-all,-clear-no-such-hyp".
Local Open Scope string_scope.
Local Open Scope Z_scope.
Local Open Scope nat_scope.
Local Open Scope list_scope.

(* ===================================================================== *)
(** * Paths *)
(* ===================================================================== *)

(** A [pathlib.Path] is its list of components, root first. *)
Abbreviation Path := (list string).
Abbreviation bytes := string (only parsing).

Module PathOps.

(** [path.parent] *)
Definition parent (p : Path) : Path := removelast p.

(** [path.name]; the root has the empty name *)
Definition name (p : Path) : string := default "" (last p).

(** [path / child] *)
Definition child (p : Path) (c : string) : Path := p ++ [c].

(** [str(path)] for an absolute path on a POSIX platform *)
Definition path_str (p : Path) : string :=
  foldr (fun c acc => "/" +:+ c +:+ acc) "" p.

(** [str(rel)] for a relative path *)
Definition rel_str (p : Path) : string := String.concat "/" p.

(** [p.relative_to(base)]: the remainder of [p] below [base], or
    [ValueError] (here [None]) when [base] is not a prefix of [p]. *)
Fixpoint relative_to (p base : Path) : option Path :=
  match base, p with
  | [], _ => Some p
  | b :: base', c :: p' => if String.eqb b c then relative_to p' base' else None
  | _ :: _, [] => None
  end.

(** Lexical resolution of a path: [.] is dropped and [..] leaves the
    directory reached so far (the root is its own parent). On a tree
    without symbolic links this is what [Path.resolve] computes. *)
Fixpoint resolve_from (acc : Path) (p : Path) : Path :=
  match p with
  | [] => acc
  | c :: p' =>
      if String.eqb c "." then resolve_from acc p'
      else if String.eqb c ".." then resolve_from (removelast acc) p'
      else resolve_from (acc ++ [c]) p'
  end.

Definition resolve_lexical (p : Path) : Path := resolve_from [] p.

End PathOps.
Export PathOps.

Infix "//" := child (at level 40, left associativity).

(* ===================================================================== *)
(** * The world: files, clock, log, store *)
(* ===================================================================== *)

(** The status tags of a log entry. *)
Inductive status :=
| st_installed | st_updated | st_removed | st_current
| st_skipped | st_snapshot | st_restored | st_warning.

Abbreviation entry := (status * string)%type.

(** A mutation of the file system, recorded in the order performed. *)
Inductive fsop :=
| Wr (p : Path)   (* a file created or overwritten *)
| Rm (p : Path).  (* a file unlinked *)

(** The exceptions the modelled code can raise. [SystemError] stands for
    a reference to no object of the store, which no program below
    produces. *)
Inductive exn :=
| FileNotFoundError | SameFileError | UnicodeDecodeError | JSONDecodeError
| AttributeError | TypeError | KeyError | ValueError | RecursionError
| SystemError.

(** [isinstance(e, OSError)] *)
Definition is_OSError (e : exn) : bool :=
  match e with
  | FileNotFoundError | SameFileError => true
  | _ => false
  end.

Definition is_JSONDecodeError (e : exn) : bool :=
  match e with
  | JSONDecodeError => true
  | _ => false
  end.

(** Settings documents (JSON values as [json.loads] returns them).
    Numbers are the integers; floating point numbers are not modelled. *)
Inductive json :=
| JNull
| JBool (b : bool)
| JInt (n : Z)
| JStr (s : string)
| JList (l : list json)
| JDict (d : list (string * json)).

(** The Python objects of the settings code. A dict maps its keys, in
    insertion order, to values; a value is a scalar or a reference to a
    dict or list object of the store. No function of the engine looks
    inside or mutates an element of a list, so the elements of a list
    object are kept as values. *)
Abbreviation loc := nat (only parsing).

Inductive val :=
| VNone
| VBool (b : bool)
| VInt (n : Z)
| VStr (s : string)
| VRef (l : loc).

Inductive obj :=
| ODict (items : list (string * val))
| OList (elems : list json).

Abbreviation store := (list obj).

(** Files are regular files only: directories are implicit, so that
    [mkdir(parents=True, exist_ok=True)] changes nothing here. [ticks]
    counts the readings of the clock. *)
Record world := World {
  files : gmap Path bytes;
  trace : list fsop;
  ticks : nat;
  log   : list entry;
  heap  : store;
}.

Definition set_files (f : gmap Path bytes -> gmap Path bytes) (w : world) : world :=
  World (f (files w)) (trace w) (ticks w) (log w) (heap w).
Definition set_trace (f : list fsop -> list fsop) (w : world) : world :=
  World (files w) (f (trace w)) (ticks w) (log w) (heap w).
Definition set_ticks (f : nat -> nat) (w : world) : world :=
  World (files w) (trace w) (f (ticks w)) (log w) (heap w).
Definition set_log (f : list entry -> list entry) (w : world) : world :=
  World (files w) (trace w) (ticks w) (f (log w)) (heap w).
Definition set_heap (f : store -> store) (w : world) : world :=
  World (files w) (trace w) (ticks w) (log w) (f (heap w)).

(** What the engine takes from its platform and libraries. *)
Record platform := Platform {
  (** [datetime.now().strftime("%Y%m%d-%H%M%S")] at the n-th reading *)
  strftime_now : nat -> string;
  (** decoding of file contents as UTF-8 text; [None] is [UnicodeDecodeError] *)
  decode_utf8 : bytes -> option string;
  (** encoding of text written with [write_text] *)
  encode_utf8 : string -> bytes;
  (** [json.loads]; [None] is [json.JSONDecodeError] *)
  json_loads : string -> option json;
  (** [json.dumps(_, indent=2)] *)
  json_dumps : json -> string;
  (** [str] of a value that is not a string, and of an exception *)
  py_repr : json -> string;
  exn_str : exn -> string;
  (** the room on the call stack ([sys.getrecursionlimit()]) *)
  recursion_limit : nat;
  (** [Path.resolve] *)
  resolve : Path -> Path;
  (** [Path.home()] *)
  USER_HOME : Path;
  (** the directory of the installer script *)
  SCRIPT_DIR : Path;
}.

(* ===================================================================== *)
(** * The monad of engine computations *)
(* ===================================================================== *)

Inductive res (A : Type) :=
| Ok (a : A)
| Raise (e : exn).
Arguments Ok {A} a.
Arguments Raise {A} e.

(** Computations over a state [S] that return or raise. *)
Definition ST (S A : Type) : Type := S -> res A * S.

Definition ret {S A} (a : A) : ST S A := fun s => (Ok a, s).

Definition bind {S A B} (m : ST S A) (k : A -> ST S B) : ST S B :=
  fun s => match m s with
           | (Ok a, s') => k a s'
           | (Raise e, s') => (Raise e, s')
           end.

Definition raise {S A} (e : exn) : ST S A := fun s => (Raise e, s).

(** [try: m  except handled as e: h e] *)
Definition try_except {S A} (m : ST S A) (handled : exn -> bool) (h : exn -> ST S A)
  : ST S A :=
  fun s => match m s with
           | (Ok a, s') => (Ok a, s')
           | (Raise e, s') => if handled e then h e s' else (Raise e, s')
           end.

Declare Scope py_scope.
Delimit Scope py_scope with py.
Notation "x <- c1 ;; c2" := (bind c1 (fun x => c2))
  (at level 100, c1 at next level, right associativity) : py_scope.
Notation "c1 ;;; c2" := (bind c1 (fun _ => c2))
  (at level 100, right associativity) : py_scope.
Local Open Scope py_scope.

Definition gets {S A} (f : S -> A) : ST S A := fun s => (Ok (f s), s).
Definition modify {S} (f : S -> S) : ST S unit := fun s => (Ok tt, f s).

(** [for x in xs: body x] *)
Fixpoint for_each {S A} (xs : list A) (body : A -> ST S unit) : ST S unit :=
  match xs with
  | [] => ret tt
  | x :: xs' => body x ;;; for_each xs' body
  end.

(** Engine computations run on the world, store computations on the
    store alone. *)
Abbreviation M := (ST world).
Abbreviation HM := (ST store).

Definition lift_heap {A} (m : HM A) : M A :=
  fun w => let '(r, h') := m (heap w) in (r, set_heap (fun _ => h') w).

(* ===================================================================== *)
(** * Text helpers (the [str] and [re] operations the engine uses) *)
(* ===================================================================== *)

Module Text.

(** [c.isspace()], on the 8-bit characters *)
Definition is_space (c : ascii) : bool :=
  let n := nat_of_ascii c in
  ((9 <=? n) && (n <=? 13)) || ((28 <=? n) && (n <=? 32))
  || (n =? 133) || (n =? 160).

(** the line boundaries of [str.splitlines], on the 8-bit characters *)
Definition is_line_boundary (c : ascii) : bool :=
  let n := nat_of_ascii c in
  ((10 <=? n) && (n <=? 13)) || ((28 <=? n) && (n <=? 30)) || (n =? 133).

Fixpoint lstrip (s : string) : string :=
  match s with
  | String c s' => if is_space c then lstrip s' else s
  | EmptyString => EmptyString
  end.

Definition rev_string (s : string) : string :=
  string_of_list_ascii (rev (list_ascii_of_string s)).

Definition rstrip (s : string) : string := rev_string (lstrip (rev_string s)).

(** [s.strip()] *)
Definition strip (s : string) : string := rstrip (lstrip s).

(** [s.splitlines()]: [after_cr] tells that the previous character was
    a carriage return, whose following line feed belongs to the same
    boundary; [cur] is the line read so far. *)
Fixpoint splitlines_from (after_cr : bool) (cur : string) (s : string) : list string :=
  match s with
  | EmptyString => if String.eqb cur "" then [] else [cur]
  | String c s' =>
      if after_cr && Ascii.eqb c "010" then splitlines_from false cur s'
      else if is_line_boundary c
           then cur :: splitlines_from (Ascii.eqb c "013") "" s'
           else splitlines_from false (cur +:+ String c "") s'
  end.

Definition splitlines (s : string) : list string := splitlines_from false "" s.

(** [s.startswith(p)] *)
Definition startswith (p s : string) : bool := String.prefix p s.

(** the index of the first occurrence of [pat] in [s] *)
Fixpoint find (pat s : string) : option nat :=
  if String.prefix pat s then Some 0
  else match s with
       | EmptyString => None
       | String _ s' => S <$> find pat s'
       end.

(** [pat in s] *)
Definition contains (pat s : string) : bool :=
  match find pat s with Some _ => true | None => false end.

Fixpoint drop_string (n : nat) (s : string) : string :=
  match n, s with
  | S n', String _ s' => drop_string n' s'
  | _, _ => s
  end.

(** [re.sub(r"<!--.*?-->", "", s, flags=re.DOTALL)]: every leftmost
    comment, from an opening mark to the first closing mark after it,
    is removed; [skip] counts the characters of the comment being
    removed that are still to be dropped. *)
Fixpoint sub_comments (skip : nat) (s : string) : string :=
  match s with
  | EmptyString => EmptyString
  | String c s' =>
      match skip with
      | S k => sub_comments k s'
      | O =>
          if String.prefix "<!--" s then
            match find "-->" (drop_string 4 s) with
            | Some n => sub_comments (n + 6) s'
            | None => String c (sub_comments 0 s')
            end
          else String c (sub_comments 0 s')
      end
  end.

(** the characters of a string, each as a string ([for ch in s]) *)
Fixpoint chars (s : string) : list string :=
  match s with
  | EmptyString => []
  | String c s' => String c "" :: chars s'
  end.

End Text.

(* ===================================================================== *)
(** * Settings documents as values *)
(* ===================================================================== *)

(** Dicts keep their items in insertion order, one item per key. *)
Section Dict.
Context {V : Type}.

(** [d.get(k)] *)
Fixpoint dict_get (k : string) (d : list (string * V)) : option V :=
  match d with
  | [] => None
  | (k', v) :: d' => if String.eqb k k' then Some v else dict_get k d'
  end.

(** [d[k] = v]: an existing key keeps its place, a new one goes last *)
Fixpoint dict_set (k : string) (v : V) (d : list (string * V)) : list (string * V) :=
  match d with
  | [] => [(k, v)]
  | (k', v') :: d' =>
      if String.eqb k k' then (k, v) :: d' else (k', v') :: dict_set k v d'
  end.

Definition dict_keys (d : list (string * V)) : list string := map fst d.

Definition dict_has (k : string) (d : list (string * V)) : bool :=
  match dict_get k d with Some _ => true | None => false end.
End Dict.

(** Python's [==] on documents: [True == 1] and [False == 0], sequences
    are compared element by element, mappings key by key whatever the
    order of their items. *)
Fixpoint py_eq (a b : json) {struct a} : bool :=
  match a, b with
  | JNull, JNull => true
  | JBool x, JBool y => Bool.eqb x y
  | JBool x, JInt n => Z.eqb (if x then 1 else 0) n
  | JInt n, JBool x => Z.eqb n (if x then 1 else 0)
  | JInt n, JInt m => Z.eqb n m
  | JStr s, JStr t => String.eqb s t
  | JList l, JList l' =>
      (fix go (l l' : list json) : bool :=
         match l, l' with
         | [], [] => true
         | x :: l, y :: l' => py_eq x y && go l l'
         | _, _ => false
         end) l l'
  | JDict d, JDict d' =>
      Nat.eqb (length d) (length d') &&
      (fix go (d : list (string * json)) : bool :=
         match d with
         | [] => true
         | (k, v) :: d =>
             match dict_get k d' with
             | Some v' => py_eq v v'
             | None => false
             end && go d
         end) d
  | _, _ => false
  end.

(** The same document, item by item: what an object met again is. *)
Fixpoint json_eqb (a b : json) {struct a} : bool :=
  match a, b with
  | JNull, JNull => true
  | JBool x, JBool y => Bool.eqb x y
  | JInt n, JInt m => Z.eqb n m
  | JStr s, JStr t => String.eqb s t
  | JList l, JList l' =>
      (fix go (l l' : list json) : bool :=
         match l, l' with
         | [], [] => true
         | x :: l, y :: l' => json_eqb x y && go l l'
         | _, _ => false
         end) l l'
  | JDict d, JDict d' =>
      (fix go (d d' : list (string * json)) : bool :=
         match d, d' with
         | [], [] => true
         | (k, v) :: d, (k', v') :: d' => String.eqb k k' && json_eqb v v' && go d d'
         | _, _ => false
         end) d d'
  | _, _ => false
  end.

(** [x in l] for a list [l]: some element is [x] itself or equals it
    ([x is e or x == e]). *)
Definition py_in (x : json) (l : list json) : bool :=
  existsb (fun e => json_eqb x e || py_eq x e) l.

(** [for item in v: if item not in l: l.append(item)] on values *)
Fixpoint list_extend_new (l v : list json) : list json :=
  match v with
  | [] => l
  | item :: v' => list_extend_new (if py_in item l then l else l ++ [item]) v'
  end.

(** the items that loop appends *)
Fixpoint list_new_items (l v : list json) : list json :=
  match v with
  | [] => []
  | item :: v' =>
      if py_in item l then list_new_items l v'
      else item :: list_new_items (l ++ [item]) v'
  end.

(** [bool(x)] *)
Definition truthy (x : json) : bool :=
  match x with
  | JNull => false
  | JBool b => b
  | JInt n => negb (Z.eqb n 0)
  | JStr s => negb (String.eqb s "")
  | JList l => match l with [] => false | _ => true end
  | JDict d => match d with [] => false | _ => true end
  end.

(** The merge of section 4.4 of the specification, on values: for a key
    of [overlay] that [base] has too, two mappings are merged
    recursively and two sequences are extended without duplicates; in
    every other case the value of [overlay] is taken. *)
Fixpoint merge_into (overlay : json) (merged : list (string * json))
  {struct overlay} : list (string * json) :=
  match overlay with
  | JDict items =>
      (fix go (items : list (string * json)) (merged : list (string * json)) :=
         match items with
         | [] => merged
         | (key, value) :: items' =>
             go items'
                (match dict_get key merged, value with
                 | Some (JDict b), JDict _ => dict_set key (JDict (merge_into value b)) merged
                 | Some (JList l), JList v => dict_set key (JList (list_extend_new l v)) merged
                 | _, _ => dict_set key value merged
                 end)
         end) items merged
  | _ => merged
  end.

Definition merge (base overlay : list (string * json)) : list (string * json) :=
  merge_into (JDict overlay) base.

(** The nesting depth of the mappings of a document. *)
Fixpoint dict_depth (t : json) : nat :=
  match t with
  | JDict d =>
      S ((fix go (d : list (string * json)) : nat :=
            match d with
            | [] => 0
            | (_, v) :: d' => Nat.max (dict_depth v) (go d')
            end) d)
  | _ => 0
  end.

(** Hereditarily, no mapping has two items with the same key. *)
Fixpoint wf_json (t : json) : Prop :=
  match t with
  | JDict d =>
      NoDup (map fst d) /\
      (fix go (d : list (string * json)) : Prop :=
         match d with
         | [] => True
         | (_, v) :: d' => wf_json v /\ go d'
         end) d
  | _ => True
  end.

(* ===================================================================== *)
(** * The store of Python objects *)
(* ===================================================================== *)

Module Store.

(** What a value is, looked up in the store. *)
Inductive view :=
| IsDict (l : loc) (items : list (string * val))
| IsList (l : loc) (elems : list json)
| IsScalar (j : json).

Definition view_of (h : store) (v : val) : option view :=
  match v with
  | VNone => Some (IsScalar JNull)
  | VBool b => Some (IsScalar (JBool b))
  | VInt n => Some (IsScalar (JInt n))
  | VStr s => Some (IsScalar (JStr s))
  | VRef l =>
      match h !! l with
      | Some (ODict items) => Some (IsDict l items)
      | Some (OList elems) => Some (IsList l elems)
      | None => None
      end
  end.

Definition look (v : val) : HM view :=
  fun h => match view_of h v with
           | Some vw => (Ok vw, h)
           | None => (Raise SystemError, h)
           end.

(** a new object *)
Definition alloc (o : obj) : HM val :=
  fun h => (Ok (VRef (length h)), h ++ [o]).

Definition store_at (l : loc) (o : obj) : HM unit :=
  modify (fun h => <[l := o]> h).

(** [isinstance(v, dict)], [isinstance(v, list)] *)
Definition is_dict (v : val) : HM bool :=
  vw <- look v ;;
  ret (match vw with IsDict _ _ => true | _ => false end).

Definition is_list (v : val) : HM bool :=
  vw <- look v ;;
  ret (match vw with IsList _ _ => true | _ => false end).

(** [dict(v)]. The store holds documents, whose mappings have string
    keys: an empty sequence or string gives the empty dict as in
    Python, a non-empty string raises as in Python, and a non-empty
    list (which Python converts when its elements are pairs) is
    refused. *)
Definition dict_of (v : val) : HM val :=
  vw <- look v ;;
  match vw with
  | IsDict _ items => alloc (ODict items)
  | IsList _ [] => alloc (ODict [])
  | IsList _ (_ :: _) => raise ValueError
  | IsScalar (JStr s) => if String.eqb s "" then alloc (ODict []) else raise ValueError
  | IsScalar _ => raise TypeError
  end.

(** [v.items()] *)
Definition items_of (v : val) : HM (list (string * val)) :=
  vw <- look v ;;
  match vw with
  | IsDict _ items => ret items
  | _ => raise AttributeError
  end.

(** [item in v] *)
Definition py_contains (v : val) (item : json) : HM bool :=
  vw <- look v ;;
  match vw with
  | IsDict _ items =>
      match item with
      | JStr k => ret (dict_has k items)
      | JList _ | JDict _ => raise TypeError  (* unhashable *)
      | _ => ret false
      end
  | IsList _ elems => ret (py_in item elems)
  | IsScalar (JStr s) =>
      match item with
      | JStr t => ret (Text.contains t s)
      | _ => raise TypeError
      end
  | IsScalar _ => raise TypeError
  end.

(** [v[k]] for a string [k] *)
Definition py_getitem (v : val) (k : string) : HM val :=
  vw <- look v ;;
  match vw with
  | IsDict _ items =>
      match dict_get k items with
      | Some x => ret x
      | None => raise KeyError
      end
  | _ => raise TypeError
  end.

(** [v[k] = x] for a string [k] *)
Definition py_setitem (v : val) (k : string) (x : val) : HM unit :=
  vw <- look v ;;
  match vw with
  | IsDict l items => store_at l (ODict (dict_set k x items))
  | _ => raise TypeError
  end.

(** [v.get(k, dflt)] *)
Definition py_get (v : val) (k : string) (dflt : val) : HM val :=
  vw <- look v ;;
  match vw with
  | IsDict _ items => ret (default dflt (dict_get k items))
  | _ => raise AttributeError
  end.

(** [v.setdefault(k, dflt)] *)
Definition py_setdefault (v : val) (k : string) (dflt : val) : HM val :=
  vw <- look v ;;
  match vw with
  | IsDict l items =>
      match dict_get k items with
      | Some x => ret x
      | None => store_at l (ODict (dict_set k dflt items)) ;;; ret dflt
      end
  | _ => raise AttributeError
  end.

(** [v.append(item)] *)
Definition py_append (v : val) (item : json) : HM unit :=
  vw <- look v ;;
  match vw with
  | IsList l elems => store_at l (OList (elems ++ [item]))
  | _ => raise AttributeError
  end.

(** the items [for item in v] goes through *)
Definition py_iter (v : val) : HM (list json) :=
  vw <- look v ;;
  match vw with
  | IsList _ elems => ret elems
  | IsDict _ items => ret (map (fun kv => JStr (fst kv)) items)
  | IsScalar (JStr s) => ret (map JStr (Text.chars s))
  | IsScalar _ => raise TypeError
  end.

(** [for item in src: if item not in dst: dst.append(item)] *)
Definition extend_new (dst src : val) : HM unit :=
  items <- py_iter src ;;
  for_each items (fun item =>
    present <- py_contains dst item ;;
    if negb present then py_append dst item else ret tt).

(** A document read by [json.loads] is built of new objects. *)
Fixpoint alloc_json (t : json) (h : store) {struct t} : val * store :=
  match t with
  | JNull => (VNone, h)
  | JBool b => (VBool b, h)
  | JInt n => (VInt n, h)
  | JStr s => (VStr s, h)
  | JList l => (VRef (length h), h ++ [OList l])
  | JDict d =>
      let '(items, h') :=
        (fix go (d : list (string * json)) (h : store) : list (string * val) * store :=
           match d with
           | [] => ([], h)
           | (k, t') :: d' =>
               let '(v, h1) := alloc_json t' h in
               let '(rest, h2) := go d' h1 in
               ((k, v) :: rest, h2)
           end) d h in
      (VRef (length h'), h' ++ [ODict items])
  end.

Definition new_json (t : json) : HM val :=
  fun h => let '(v, h') := alloc_json t h in (Ok v, h').

(** The document a value stands for; [fuel] bounds the nesting. *)
Fixpoint reify (fuel : nat) (h : store) (v : val) : option json :=
  match v with
  | VNone => Some JNull
  | VBool b => Some (JBool b)
  | VInt n => Some (JInt n)
  | VStr s => Some (JStr s)
  | VRef l =>
      match fuel with
      | O => None
      | S fuel' =>
          match h !! l with
          | Some (OList elems) => Some (JList elems)
          | Some (ODict items) =>
              JDict <$> mapM (fun kv => pair (fst kv) <$> reify fuel' h (snd kv)) items
          | None => None
          end
      end
  end.

(** The document of a value of the store, by a traversal that has
    room for [depth] nested calls. *)
Definition document (depth : nat) (v : val) : HM json :=
  fun h => match reify depth h v with
           | Some t => (Ok t, h)
           | None => (Raise RecursionError, h)
           end.

(** [bool(v)] *)
Definition py_truthy (v : val) : HM bool :=
  vw <- look v ;;
  ret (match vw with
       | IsDict _ items => match items with [] => false | _ => true end
       | IsList _ elems => match elems with [] => false | _ => true end
       | IsScalar j => truthy j
       end).

(** [a == b] *)
Definition py_equal (depth : nat) (a b : val) : HM bool :=
  ta <- document depth a ;;
  tb <- document depth b ;;
  ret (py_eq ta tb).

End Store.

(* ===================================================================== *)
(** * The engine *)
(* ===================================================================== *)

(** [MANDATORY_RULES], [MANDATORY_AGENTS] (install.py, lines 76-77) *)
Definition MANDATORY_RULES : gset string := {[ "security.md" ]}.
Definition MANDATORY_AGENTS : gset string :=
  {[ "security-auditor.md"; "compliance-reviewer.md" ]}.

(** [MODEL_CHOICES.get(token)] (lines 84-89): the entry of [none] is
    [None], as is the result for a token that is no key. *)
Definition MODEL_CHOICES_get (token : string) : option string :=
  if String.eqb token "sonnet" then Some "us.anthropic.claude-sonnet-4-6"
  else if String.eqb token "opus" then Some "us.anthropic.claude-opus-4-6-v1"
  else if String.eqb token "haiku" then Some "us.anthropic.claude-haiku-4-5-20251001-v1:0"
  else None.

(** [AUTO_READ_PERMISSIONS] (lines 91-103) *)
Definition AUTO_READ_ALLOW : list json :=
  [JStr "Read"; JStr "Glob"; JStr "Grep"; JStr "Bash(ls:*)";
   JStr "Bash(git diff:*)"; JStr "Bash(git log:*)"; JStr "Bash(git status:*)"].

Definition AUTO_READ_PERMISSIONS : json :=
  JDict [("permissions", JDict [("allow", JList AUTO_READ_ALLOW)])].

(** An item of the catalog, as [build_file_info] records it (the fields
    the engine reads). *)
Record item := Item {
  item_name : string;
  item_src : Path;
}.

Inductive scope := scope_global | scope_project | scope_both | scope_restore.

(** The state of the application that [run_install] reads. *)
Record app := App {
  app_scope : scope;
  rule_info : list item;
  agent_info : list item;
  selected_rules : gset string;
  selected_agents : gset string;
  create_global_tasks : bool;
  create_project_tasks : bool;
  auto_read : bool;
  selected_model : string;
  app_cwd : Path;
}.

Section Engine.

Variable P : platform.

(** The constants of lines 63-82. *)
Definition HOME_DIR : Path := SCRIPT_DIR P // "standards" // "home".
Definition HOME_CLAUDE_MD : Path := HOME_DIR // "CLAUDE.md".
Definition TASKS_DIR : Path := SCRIPT_DIR P // "standards" // "tasks".
Definition CLAUDE_HOME : Path := USER_HOME P // ".claude".
Definition CLAUDE_MD : Path := CLAUDE_HOME // "CLAUDE.md".
Definition CLAUDE_RULES : Path := CLAUDE_HOME // "rules".
Definition CLAUDE_AGENTS : Path := CLAUDE_HOME // "agents".
Definition BACKUPS_DIR : Path := CLAUDE_HOME // "backups".
Definition HOME_SETTINGS_JSON : Path := HOME_DIR // "settings.json".
Definition HOME_STATUSLINE : Path := HOME_DIR // "statusline.sh".
Definition CLAUDE_SETTINGS : Path := CLAUDE_HOME // "settings.json".
Definition CLAUDE_STATUSLINE : Path := CLAUDE_HOME // "statusline.sh".

(** ** File primitives *)

(** [path.exists()] for a path that is a file or nothing *)
Definition exists_ (p : Path) : M bool :=
  gets (fun w => bool_decide (is_Some (files w !! p))).

(** [path.exists()] for a path that may be a directory: some file is
    the path or lies below it *)
Definition below (d p : Path) : bool :=
  match relative_to p d with Some _ => true | None => false end.

Definition exists_dir (d : Path) : M bool :=
  gets (fun w => existsb (fun kv => below d (fst kv)) (map_to_list (files w))).

(** [path.read_bytes()] *)
Definition read_bytes (p : Path) : M bytes :=
  fun w => match files w !! p with
           | Some b => (Ok b, w)
           | None => (Raise FileNotFoundError, w)
           end.

(** [path.read_text(encoding="utf-8")] *)
Definition read_text (p : Path) : M string :=
  b <- read_bytes p ;;
  match decode_utf8 P b with
  | Some t => ret t
  | None => raise UnicodeDecodeError
  end.

Definition write_bytes (p : Path) (b : bytes) : M unit :=
  modify (fun w => set_trace (fun t => t ++ [Wr p]) (set_files (insert p b) w)).

(** [path.write_text(text, encoding="utf-8")] *)
Definition write_text (p : Path) (t : string) : M unit :=
  write_bytes p (encode_utf8 P t).

(** [shutil.copy2(src, dst)] *)
Definition copy2 (src dst : Path) : M unit :=
  b <- read_bytes src ;;
  if decide (src = dst) then raise SameFileError
  else write_bytes dst b.

(** [path.unlink()] *)
Definition unlink (p : Path) : M unit :=
  fun w => match files w !! p with
           | Some _ => (Ok tt, set_trace (fun t => t ++ [Rm p]) (set_files (delete p) w))
           | None => (Raise FileNotFoundError, w)
           end.

(** [datetime.now().strftime("%Y%m%d-%H%M%S")] *)
Definition timestamp : M string :=
  fun w => (Ok (strftime_now P (ticks w)), set_ticks S w).

(** [log.append((status, label))] *)
Definition log_append (s : status) (label : string) : M unit :=
  modify (set_log (fun l => l ++ [(s, label)])).

(** ** Backup, install, remove *)

(** The backup path [path.parent / f"{path.name}.bak.{ts}"]. *)
Definition backup_path (p : Path) (ts : string) : Path :=
  parent p // (name p +:+ ".bak." +:+ ts).

(** [backup_file] (lines 178-182) *)
Definition backup_file (path : Path) : M Path :=
  ts <- timestamp ;;
  let backup := backup_path path ts in
  copy2 path backup ;;;
  ret backup.

(** [file_status] (lines 271-283) *)
Definition file_status (src dest : Path) : M string :=
  e <- exists_ dest ;;
  if negb e then ret "new"
  else
    src_bytes <- read_bytes src ;;
    dest_bytes <- read_bytes dest ;;
    ret (if String.eqb src_bytes dest_bytes then "installed" else "update").

(** [smart_install] (lines 345-356) *)
Definition smart_install (src dest : Path) (label : string) : M unit :=
  e <- exists_ dest ;;
  if negb e then
    copy2 src dest ;;;
    log_append st_installed label
  else
    s <- read_bytes src ;;
    d <- read_bytes dest ;;
    if negb (String.eqb s d) then
      bak <- backup_file dest ;;
      copy2 src dest ;;;
      log_append st_updated (label +:+ " (backed up -> " +:+ name bak +:+ ")")
    else
      log_append st_current label.

(** [remove_with_log] (lines 359-364) *)
Definition remove_with_log (dest : Path) (label : string) : M unit :=
  e <- exists_ dest ;;
  if e then
    bak <- backup_file dest ;;
    unlink dest ;;;
    log_append st_removed (label +:+ " (backed up -> " +:+ name bak +:+ ")")
  else ret tt.

(** [file_has_content] (lines 141-147) *)
Definition has_content (text : string) : bool :=
  let text := Text.strip text in
  let text := Text.sub_comments 0 text in
  let lines :=
    List.filter (fun l => negb (String.eqb (Text.strip l) "")
                     && negb (Text.startswith "#" (Text.strip l)))
           (Text.splitlines text) in
  0 <? length lines.

Definition file_has_content (path : Path) : M bool :=
  e <- exists_ path ;;
  if negb e then ret false
  else
    text <- read_text path ;;
    ret (has_content text).

(** The installation of the task templates (lines 545-552 and
    563-570): [prefix] is the prefix of the labels. *)
Definition install_task_templates (tasks_dir : Path) (prefix : string) : M unit :=
  for_each ["lessons.md"; "todo.md"] (fun tpl =>
    let src := TASKS_DIR // tpl in
    let dest := tasks_dir // tpl in
    e <- exists_ dest ;;
    c <- (if e then file_has_content dest else ret false) ;;
    if c then log_append st_skipped (prefix +:+ tpl +:+ " (has content)")
    else
      copy2 src dest ;;;
      log_append st_installed (prefix +:+ tpl)).

(** ** Snapshots *)

(** the files directly in a directory ([d.iterdir()] with [is_file]) *)
Definition iterdir_files (d : Path) (w : world) : list Path :=
  List.filter (fun p => bool_decide (p <> [] /\ parent p = d)) (map fst (map_to_list (files w))).

(** the files anywhere below a directory ([d.rglob("*")] with [is_file]) *)
Definition rglob_files (d : Path) (w : world) : list Path :=
  List.filter (fun p => match relative_to p d with
                   | Some (_ :: _) => true
                   | _ => false
                   end) (map fst (map_to_list (files w))).

(** [create_snapshot] (lines 185-225) *)
Definition create_snapshot : M (option Path) :=
  top <- gets (fun w =>
           List.filter (fun p => bool_decide (is_Some (files w !! p)))
                  [CLAUDE_HOME // "CLAUDE.md"; CLAUDE_HOME // "settings.json";
                   CLAUDE_HOME // "statusline.sh"]) ;;
  sub <- gets (fun w =>
           concat (map (fun subdir => iterdir_files (CLAUDE_HOME // subdir) w)
                       ["rules"; "agents"; "tasks"])) ;;
  let files_to_snap := top ++ sub in
  match files_to_snap with
  | [] => ret None
  | _ =>
      ts <- timestamp ;;
      let snap_dir := BACKUPS_DIR // ts in
      for_each files_to_snap (fun f =>
        match relative_to f CLAUDE_HOME with
        | Some rel => copy2 f (snap_dir ++ rel)
        | None => raise ValueError
        end) ;;;
      ret (Some snap_dir)
  end.

(** One round of the loop of [restore_snapshot] (lines 246-263). *)
Definition restore_item (snap_dir : Path) (item : Path) : M unit :=
  match relative_to item snap_dir with
  | None => raise ValueError
  | Some rel =>
      let dest := CLAUDE_HOME ++ rel in
      match relative_to (resolve P dest) (resolve P CLAUDE_HOME) with
      | None => ret tt
      | Some _ =>
          let finish :=
            copy2 item dest ;;;
            log_append st_restored ("~/.claude/" +:+ rel_str rel) in
          e <- exists_ dest ;;
          if e then
            d <- read_bytes dest ;;
            i <- read_bytes item ;;
            if String.eqb d i then
              log_append st_current ("~/.claude/" +:+ rel_str rel)
            else
              backup_file dest ;;;
              finish
          else finish
      end
  end.

(** [restore_snapshot] (lines 239-264); its log is a new list. *)
Definition restore_snapshot (snap_dir : Path) : M (list entry) :=
  modify (set_log (fun _ => [])) ;;;
  items <- gets (rglob_files snap_dir) ;;
  for_each items (restore_item snap_dir) ;;;
  gets log.

(** [is_git_repo] (lines 119-127): the search goes up from the
    resolved path to the root. *)
Fixpoint git_above (n : nat) (current : Path) : M bool :=
  g <- exists_dir (current // ".git") ;;
  if g then ret true
  else if decide (parent current = current) then ret false
       else match n with
            | O => ret false
            | S n' => git_above n' (parent current)
            end.

Definition is_git_repo (path : Path) : M bool :=
  let current := resolve P path in
  git_above (length current) current.


(** ** The settings merge *)

(** [key in merged and isinstance(merged[key], T) and isinstance(value, T)] *)
Definition both_are (is_T : val -> HM bool) (merged : val) (key : string) (value : val)
  : HM bool :=
  has <- Store.py_contains merged (JStr key) ;;
  if has then
    mk <- Store.py_getitem merged key ;;
    t1 <- is_T mk ;;
    if t1 then is_T value else ret false
  else ret false.

(** One round of the loop of [deep_merge_settings] (lines 404-411);
    [rec] is the function itself, with the room the call has left. *)
Definition merge_item (rec : val -> val -> HM val) (merged : val) (kv : string * val)
  : HM unit :=
  let key := fst kv in
  let value := snd kv in
  dicts <- both_are Store.is_dict merged key value ;;
  if dicts then
    mk <- Store.py_getitem merged key ;;
    r <- rec mk value ;;
    Store.py_setitem merged key r
  else
    lists <- both_are Store.is_list merged key value ;;
    if lists then
      elems <- Store.py_iter value ;;
      for_each elems (fun item =>
        mk <- Store.py_getitem merged key ;;
        present <- Store.py_contains mk item ;;
        if negb present then
          mk' <- Store.py_getitem merged key ;;
          Store.py_append mk' item
        else ret tt)
    else Store.py_setitem merged key value.

(** [deep_merge_settings] (lines 400-412). [depth] is the room left
    on Python's call stack; running out of it is [RecursionError]. *)
Fixpoint deep_merge_settings (depth : nat) (base overlay : val) : HM val :=
  match depth with
  | O => raise RecursionError
  | S depth' =>
      merged <- Store.dict_of base ;;
      items <- Store.items_of overlay ;;
      for_each items (merge_item (deep_merge_settings depth') merged) ;;;
      ret merged
  end.

(** [json.loads(text)] *)
Definition loads (text : string) : HM val :=
  match json_loads P text with
  | Some t => Store.new_json t
  | None => raise JSONDecodeError
  end.

(** [json.dumps(v, indent=2)] *)
Definition dumps (v : val) : HM string :=
  t <- Store.document (recursion_limit P) v ;;
  ret (json_dumps P t).

(** [str(v)] *)
Definition py_str (v : val) : HM string :=
  match v with
  | VStr s => ret s
  | _ => t <- Store.document (recursion_limit P) v ;; ret (py_repr P t)
  end.

(** Lines 382-385 of [install_auto_read]: the loop over the tools, with
    the list [added] built so far. *)
Fixpoint add_missing (allow : val) (tools : list json) (added : list json)
  : HM (list json) :=
  match tools with
  | [] => ret added
  | tool :: tools' =>
      present <- Store.py_contains allow tool ;;
      if negb present then
        Store.py_append allow tool ;;;
        add_missing allow tools' (added ++ [tool])
      else add_missing allow tools' added
  end.

(** Lines 379-385 of [install_auto_read]: the permissions are added to
    the document; the result is the list [added]. *)
Definition add_auto_read (existing : val) : HM (list json) :=
  dflt <- Store.alloc (ODict []) ;;
  perms <- Store.py_setdefault existing "permissions" dflt ;;
  dflt' <- Store.alloc (OList []) ;;
  allow <- Store.py_setdefault perms "allow" dflt' ;;
  add_missing allow AUTO_READ_ALLOW [].

(** [install_auto_read] (lines 367-397) *)
Definition install_auto_read (cwd : Path) : M unit :=
  let settings_dir := cwd // ".claude" in
  let settings_file := settings_dir // "settings.json" in
  e <- exists_ settings_file ;;
  if e then
    existing <- try_except
                  (text <- read_text settings_file ;; lift_heap (loads text))
                  (fun e => is_JSONDecodeError e || is_OSError e)
                  (fun _ => lift_heap (Store.alloc (ODict []))) ;;
    added <- lift_heap (add_auto_read existing) ;;
    match added with
    | _ :: _ =>
        text <- lift_heap (dumps existing) ;;
        write_text settings_file (text +:+ String "010" "") ;;;
        log_append st_installed
          (".claude/settings.json (added " +:+ pretty (length added) +:+ " permissions)")
    | [] =>
        log_append st_current ".claude/settings.json (permissions already present)"
    end
  else
    write_text settings_file (json_dumps P AUTO_READ_PERMISSIONS +:+ String "010" "") ;;;
    log_append st_installed ".claude/settings.json (auto-approve read)".

(** [check_aws_profile] (lines 415-424) *)
Definition check_aws_profile (profile : val) : M bool :=
  let aws_config := USER_HOME P // ".aws" // "config" in
  e <- exists_ aws_config ;;
  if negb e then ret false
  else
    try_except
      (text <- read_text aws_config ;;
       name <- lift_heap (py_str profile) ;;
       ret (Text.contains ("[profile " +:+ name +:+ "]") text))
      is_OSError
      (fun _ => ret false).

(** [default_model != "none" and MODEL_CHOICES.get(default_model)] *)
Definition model_selected (default_model : string) : option string :=
  if String.eqb default_model "none" then None
  else match MODEL_CHOICES_get default_model with
       | Some m => if String.eqb m "" then None else Some m
       | None => None
       end.

(** The merge of [install_global_settings] (lines 452-474), block by
    block. *)

(** Lines 456-459 *)
Definition merge_env (template merged : val) : HM unit :=
  has_env <- Store.py_contains template (JStr "env") ;;
  if has_env then
    dflt <- Store.alloc (ODict []) ;;
    menv <- Store.py_get merged "env" dflt ;;
    tenv <- Store.py_getitem template "env" ;;
    r <- deep_merge_settings (recursion_limit P) menv tenv ;;
    Store.py_setitem merged "env" r
  else ret tt.

(** Lines 462-466, for one [perm_key] *)
Definition merge_permission_list (template merged : val) (perm_key : string) : HM unit :=
  tperms <- Store.py_getitem template "permissions" ;;
  has_key <- Store.py_contains tperms (JStr perm_key) ;;
  if has_key then
    dflt <- Store.alloc (ODict []) ;;
    mperms <- Store.py_setdefault merged "permissions" dflt ;;
    dflt' <- Store.alloc (OList []) ;;
    base_list <- Store.py_setdefault mperms perm_key dflt' ;;
    tperms' <- Store.py_getitem template "permissions" ;;
    tlist <- Store.py_getitem tperms' perm_key ;;
    Store.extend_new base_list tlist
  else ret tt.

(** Lines 469-470, for one [scalar_key] *)
Definition merge_permission_scalar (template merged : val) (scalar_key : string) : HM unit :=
  dflt <- Store.alloc (ODict []) ;;
  tperms <- Store.py_get template "permissions" dflt ;;
  has_key <- Store.py_contains tperms (JStr scalar_key) ;;
  if has_key then
    tperms' <- Store.py_getitem template "permissions" ;;
    x <- Store.py_getitem tperms' scalar_key ;;
    dflt' <- Store.alloc (ODict []) ;;
    mperms <- Store.py_setdefault merged "permissions" dflt' ;;
    Store.py_setitem mperms scalar_key x
  else ret tt.

(** Lines 460-470 *)
Definition merge_permissions (template merged : val) : HM unit :=
  has_perms <- Store.py_contains template (JStr "permissions") ;;
  if has_perms then
    for_each ["allow"; "deny"; "ask"] (merge_permission_list template merged) ;;;
    for_each ["defaultMode"; "disableBypassPermissionsMode"]
             (merge_permission_scalar template merged)
  else ret tt.

(** Lines 473-474 *)
Definition merge_model (default_model : string) (merged : val) : HM unit :=
  match model_selected default_model with
  | Some m => Store.py_setitem merged "model" (VStr m)
  | None => ret tt
  end.

Definition settings_merge (default_model : string) (template existing : val) : HM val :=
  merged <- deep_merge_settings (recursion_limit P) template existing ;;
  merge_env template merged ;;;
  merge_permissions template merged ;;;
  merge_model default_model merged ;;;
  ret merged.

(** [install_global_settings] (lines 427-504), block by block. *)

(** Lines 431-436: the template, or [None] after the warning. *)
Definition load_template : M (option val) :=
  try_except
    (text <- read_text HOME_SETTINGS_JSON ;;
     t <- lift_heap (loads text) ;;
     ret (Some t))
    (fun e => is_JSONDecodeError e || is_OSError e)
    (fun e =>
       log_append st_warning
         ("~/.claude/settings.json (failed to read template: "
          +:+ exn_str P e +:+ ")") ;;;
       ret None).

(** Lines 438-440 *)
Definition inject_model (default_model : string) (template : val) : M unit :=
  lift_heap (match model_selected default_model with
             | Some m => Store.py_setitem template "model" (VStr m)
             | None => ret tt
             end).

(** Lines 442-450 *)
Definition load_existing : M val :=
  empty <- lift_heap (Store.alloc (ODict [])) ;;
  e <- exists_ CLAUDE_SETTINGS ;;
  if e then
    try_except
      (text <- read_text CLAUDE_SETTINGS ;; lift_heap (loads text))
      is_JSONDecodeError
      (fun _ =>
         bak <- backup_file CLAUDE_SETTINGS ;;
         log_append st_warning
           ("~/.claude/settings.json (malformed JSON, backed up -> "
            +:+ path_str bak +:+ ")") ;;;
         lift_heap (Store.alloc (ODict [])))
  else ret empty.

(** Lines 476-490 *)
Definition write_settings (existing merged : val) : M unit :=
  same <- lift_heap (Store.py_equal (recursion_limit P) existing merged) ;;
  if same then log_append st_current "~/.claude/settings.json"
  else
    e <- exists_ CLAUDE_SETTINGS ;;
    nonempty <- (if e then lift_heap (Store.py_truthy existing) else ret false) ;;
    if nonempty then
      bak <- backup_file CLAUDE_SETTINGS ;;
      text <- lift_heap (dumps merged) ;;
      write_text CLAUDE_SETTINGS (text +:+ String "010" "") ;;;
      log_append st_updated
        ("~/.claude/settings.json (backed up -> " +:+ path_str bak +:+ ")")
    else
      text <- lift_heap (dumps merged) ;;
      write_text CLAUDE_SETTINGS (text +:+ String "010" "") ;;;
      log_append st_installed "~/.claude/settings.json".

(** Lines 492-497 *)
Definition warn_aws_profile (template : val) : M unit :=
  dflt <- lift_heap (Store.alloc (ODict [])) ;;
  env <- lift_heap (Store.py_get template "env" dflt) ;;
  aws_profile <- lift_heap (Store.py_get env "AWS_PROFILE" (VStr "default")) ;;
  found <- check_aws_profile aws_profile ;;
  if negb found then
    profile <- lift_heap (py_str aws_profile) ;;
    log_append st_warning
      ("AWS profile '" +:+ profile +:+ "' not found in ~/.aws/config — "
       +:+ "run: aws configure sso --profile " +:+ profile)
  else ret tt.

(** Lines 499-504; the change of the permission bits of the script is
    not modelled. *)
Definition install_statusline : M unit :=
  s <- exists_ HOME_STATUSLINE ;;
  if s then
    smart_install HOME_STATUSLINE CLAUDE_STATUSLINE "~/.claude/statusline.sh"
  else ret tt.

(** Lines 452-504: what follows the reading of the two documents. *)
Definition finish_global_settings (default_model : string) (template existing : val)
  : M unit :=
  merged <- lift_heap (settings_merge default_model template existing) ;;
  write_settings existing merged ;;;
  warn_aws_profile template ;;;
  install_statusline.

Definition install_global_settings (default_model : string) : M unit :=
  loaded <- load_template ;;
  match loaded with
  | None => ret tt
  | Some template =>
      inject_model default_model template ;;;
      existing <- load_existing ;;
      finish_global_settings default_model template existing
  end.

(** The loop of [run_install] over a catalog (lines 522-529 and
    532-539): the selected items are installed, the others removed. *)
Definition install_selection (dir : Path) (prefix : string)
    (info : list item) (selected : gset string) : M unit :=
  for_each info (fun it =>
    let name := item_name it in
    let dest := dir // name in
    if decide (name ∈ selected) then
      smart_install (item_src it) dest (prefix +:+ name)
    else
      remove_with_log dest (prefix +:+ name)).

Definition in_global (s : scope) : bool :=
  match s with scope_global | scope_both => true | _ => false end.

Definition in_project (s : scope) : bool :=
  match s with scope_project | scope_both => true | _ => false end.

(** [run_install] (lines 507-577) *)
Definition run_install (a : app) : M (list entry) :=
  modify (set_log (fun _ => [])) ;;;
  (if in_global (app_scope a) then
     snap <- create_snapshot ;;
     match snap with
     | Some d => log_append st_snapshot ("Backed up to " +:+ path_str d)
     | None => ret tt
     end
   else ret tt) ;;;
  (if in_global (app_scope a) then
     smart_install HOME_CLAUDE_MD CLAUDE_MD "~/.claude/CLAUDE.md" ;;;
     install_selection CLAUDE_RULES "~/.claude/rules/" (rule_info a) (selected_rules a) ;;;
     install_selection CLAUDE_AGENTS "~/.claude/agents/" (agent_info a) (selected_agents a) ;;;
     (if create_global_tasks a then
        install_task_templates (CLAUDE_HOME // "tasks") "~/.claude/tasks/"
      else ret tt) ;;;
     install_global_settings (selected_model a)
   else ret tt) ;;;
  (if in_project (app_scope a) then
     let cwd := app_cwd a in
     g <- is_git_repo cwd ;;
     if g then
       (if create_project_tasks a then
          install_task_templates (cwd // "tasks") "tasks/"
        else ret tt) ;;;
       (if auto_read a then install_auto_read cwd else ret tt)
     else log_append st_skipped "Project install (not in a git repo)"
   else ret tt) ;;;
  gets log.

End Engine.

(** ** The selection screens *)

(** [enforce_mandatory] of [RulesScreen] and of [AgentsScreen] (lines
    806-811 and 868-873), the handler of every toggle of the selection
    list: [selected] is the set of the selected names. *)
Definition enforce_mandatory (mandatory selected : gset string) : gset string :=
  foldl (fun sel name => if decide (name ∈ sel) then sel else {[ name ]} ∪ sel)
        selected (elements mandatory).

(** A toggle of an entry of the selection list, followed by its handler. *)
Definition toggle (name : string) (selected : gset string) : gset string :=
  if decide (name ∈ selected) then selected ∖ {[ name ]} else {[ name ]} ∪ selected.

Definition toggled (mandatory : gset string) (name : string) (selected : gset string)
  : gset string :=
  enforce_mandatory mandatory (toggle name selected).
(* ===================================================================== *)
(** * Notions used in the statements *)
(* ===================================================================== *)

(** The world after [backup_file] has copied a file of bytes [b]. *)
Definition backed_up (P : platform) (path : Path) (b : bytes) (w : world) : world :=
  let bak := backup_path path (strftime_now P (ticks w)) in
  World (<[bak := b]> (files w)) (trace w ++ [Wr bak]) (S (ticks w)) (log w) (heap w).

(** The file writes and removals a computation has added to the trace. *)
Definition new_ops (w w' : world) : list fsop := drop (length (trace w)) (trace w').

(** ** A platform to run the engine on *)

(** A compact serialisation of documents. *)
Definition quoted (s : string) : string := String "034" s +:+ String "034" "".

Fixpoint demo_dumps (t : json) : string :=
  match t with
  | JNull => "null"
  | JBool b => if b then "true" else "false"
  | JInt n => pretty n
  | JStr s => quoted s
  | JList l =>
      "[" +:+ (fix go (l : list json) : string :=
                 match l with
                 | [] => ""
                 | [x] => demo_dumps x
                 | x :: l' => demo_dumps x +:+ "," +:+ go l'
                 end) l +:+ "]"
  | JDict d =>
      "{" +:+ (fix go (d : list (string * json)) : string :=
                 match d with
                 | [] => ""
                 | [(k, v)] => quoted k +:+ ":" +:+ demo_dumps v
                 | (k, v) :: d' => quoted k +:+ ":" +:+ demo_dumps v +:+ "," +:+ go d'
                 end) d +:+ "}"
  end.

(** The documents the examples read: a text is parsed when it is the
    serialisation of one of them. *)
Definition doc_existing : json :=
  JDict [("model", JStr "x"); ("permissions", JDict [("allow", JList [JStr "Read"])])].

Definition doc_template : json :=
  JDict [("model", JStr "y");
         ("permissions", JDict [("allow", JList [JStr "Read"; JStr "Grep"])])].

Definition demo_documents : list json := [JDict []; doc_existing; doc_template].

Definition demo_loads (text : string) : option json :=
  List.find (fun t => String.eqb (demo_dumps t) text) demo_documents.

Definition demo : platform :=
  {| strftime_now := fun n => "20260101-12000" +:+ pretty n;
     decode_utf8 := Some;
     encode_utf8 := fun t => t;
     json_loads := demo_loads;
     json_dumps := demo_dumps;
     py_repr := demo_dumps;
     exn_str := fun _ => "error";
     recursion_limit := 1000;
     resolve := resolve_lexical;
     USER_HOME := ["home"; "u"];
     SCRIPT_DIR := ["opt"; "dotai"] |}.

Definition world_of (fs : list (Path * bytes)) : world :=
  World (list_to_map fs) [] 0 [] [].

(** A computation adds to the trace only operations that satisfy [ok],
    whether it returns or raises, and leaves alone every file that no
    added operation names. *)
Definition only_adds (ok : fsop -> Prop) {A} (m : M A) : Prop :=
  forall w r w', m w = (r, w') ->
    exists ops, trace w' = trace w ++ ops /\ Forall ok ops /\
                forall p, Wr p ∉ ops -> Rm p ∉ ops -> files w' !! p = files w !! p.

(** The operations that create or overwrite a file. *)
Definition is_write (op : fsop) : Prop := exists p, op = Wr p.

(** ** The store along a computation *)

(** From [h] to [h']: the store has grown, every list object has only
    been appended to, every dict object has kept its keys and, for the
    entries that [prot] protects, its values. *)
Definition stable (prot : loc -> string -> Prop) (h h' : store) : Prop :=
  length h <= length h' /\
  forall l o, h !! l = Some o ->
    match o with
    | OList es => exists ex, h' !! l = Some (OList (es ++ ex))
    | ODict it =>
        exists it', h' !! l = Some (ODict it') /\
          (forall k, is_Some (dict_get k it) -> is_Some (dict_get k it')) /\
          (forall k v, prot l k -> dict_get k it = Some v -> dict_get k it' = Some v)
    end.

(** A store computation started on a store of at least [n] objects
    changes the store in that way, whether it returns or raises. *)
Definition keeps (n : nat) (prot : loc -> string -> Prop) {A} (m : HM A) : Prop :=
  forall h r h', n <= length h -> m h = (r, h') -> stable prot h h'.

(** [v[k]] read in a store, when [v] is a dict that has the key. *)
Definition field (h : store) (v : val) (k : string) : option val :=
  match Store.view_of h v with
  | Some (Store.IsDict _ items) => dict_get k items
  | _ => None
  end.

(** [x in v] holds in a store. *)
Definition holds_in (h : store) (v : val) (x : json) : Prop :=
  Store.py_contains v x h = (Ok true, h).


(** The dict that a value refers to has one item per key, as every dict
    of Python has. *)
Definition dict_wf (h : store) (v : val) : Prop :=
  forall l it, v = VRef l -> h !! l = Some (ODict it) -> NoDup (map fst it).

(** ** The operations that overwrite or remove a destination after a
    backup *)

Inductive operation :=
| Op_smart_install (src dest : Path) (label : string)
| Op_remove_with_log (dest : Path) (label : string)
| Op_restore_item (snap_dir item : Path)
| Op_install_global_settings (default_model : string).

Definition run_op (P : platform) (op : operation) : M unit :=
  match op with
  | Op_smart_install src dest label => smart_install P src dest label
  | Op_remove_with_log dest label => remove_with_log P dest label
  | Op_restore_item snap_dir item => restore_item P snap_dir item
  | Op_install_global_settings default_model => install_global_settings P default_model
  end.

(** The file an operation installs, removes or restores. *)
Definition destination (P : platform) (op : operation) : Path :=
  match op with
  | Op_smart_install _ dest _ => dest
  | Op_remove_with_log dest _ => dest
  | Op_restore_item snap_dir item =>
      CLAUDE_HOME P ++ default [] (relative_to item snap_dir)
  | Op_install_global_settings _ => CLAUDE_SETTINGS P
  end.

(** The settings are backed up unless the document read from them is
    the empty mapping. *)
Definition backs_up (P : platform) (op : operation) (d : bytes) : Prop :=
  match op with
  | Op_install_global_settings _ =>
      forall text, decode_utf8 P d = Some text -> json_loads P text <> Some (JDict [])
  | _ => True
  end.

(** What the end of [install_global_settings] writes: files other than
    the settings and their backups. *)
Definition tail_ok (P : platform) (op : fsop) : Prop :=
  exists p, op = Wr p /\ p <> CLAUDE_SETTINGS P /\
            forall ts, p <> backup_path (CLAUDE_SETTINGS P) ts.


(** ** Worlds and inputs of the examples *)

Definition ex_rule_src : Path := ["opt"; "dotai"; "standards"; "home"; "rules"; "security.md"].
Definition ex_rule_dest : Path := ["home"; "u"; ".claude"; "rules"; "security.md"].

(** The source tree has the rule [security.md]; the rule is installed. *)
Definition ex_world : world :=
  world_of [(["opt"; "dotai"; "standards"; "home"; "CLAUDE.md"], "# standards");
            (ex_rule_src, "# Security rule");
            (ex_rule_dest, "# Security rule")].

(** A global install whose selection of rules is empty. *)
Definition ex_app : app :=
  {| app_scope := scope_global;
     rule_info := [Item "security.md" ex_rule_src];
     agent_info := [];
     selected_rules := ∅;
     selected_agents := ∅;
     create_global_tasks := false;
     create_project_tasks := false;
     auto_read := false;
     selected_model := "none";
     app_cwd := ["home"; "u"; "proj"] |}.

(** The selections of an application, as the screens set them. *)
Definition set_selected_rules (sel : gset string) (a : app) : app :=
  {| app_scope := app_scope a; rule_info := rule_info a; agent_info := agent_info a;
     selected_rules := sel; selected_agents := selected_agents a;
     create_global_tasks := create_global_tasks a;
     create_project_tasks := create_project_tasks a; auto_read := auto_read a;
     selected_model := selected_model a; app_cwd := app_cwd a |}.

Definition set_selected_agents (sel : gset string) (a : app) : app :=
  {| app_scope := app_scope a; rule_info := rule_info a; agent_info := agent_info a;
     selected_rules := selected_rules a; selected_agents := sel;
     create_global_tasks := create_global_tasks a;
     create_project_tasks := create_project_tasks a; auto_read := auto_read a;
     selected_model := selected_model a; app_cwd := app_cwd a |}.

(** An installed rule that differs from its source. *)
Definition ex_world_update : world :=
  world_of [(ex_rule_src, "# Security rule, v2"); (ex_rule_dest, "# Security rule")].

(** A project whose task file holds a heading and nothing else, and a
    run that installs the task templates of the project. *)
Definition ex_project : Path := ["home"; "u"; "proj"].
Definition ex_world_project : world :=
  world_of [(["opt"; "dotai"; "standards"; "tasks"; "lessons.md"], "# Lessons template");
            (["opt"; "dotai"; "standards"; "tasks"; "todo.md"], "# Todo template");
            (ex_project // ".git" // "HEAD", "ref: refs/heads/main");
            (ex_project // "tasks" // "lessons.md", "# My lessons")].

Definition ex_app_project : app :=
  {| app_scope := scope_project; rule_info := []; agent_info := [];
     selected_rules := ∅; selected_agents := ∅;
     create_global_tasks := false; create_project_tasks := true; auto_read := false;
     selected_model := "none"; app_cwd := ex_project |}.

(** A global run with an empty catalog. *)
Definition ex_app_global : app :=
  {| app_scope := scope_global; rule_info := []; agent_info := [];
     selected_rules := ∅; selected_agents := ∅;
     create_global_tasks := false; create_project_tasks := false; auto_read := false;
     selected_model := "none"; app_cwd := ex_project |}.

(** The files of a world that are named as the backups of [dest] are:
    the siblings whose names begin with [<name>.bak.]. *)
Definition backups_of (dest : Path) (w : world) : list Path :=
  List.filter (fun p => bool_decide (parent p = parent dest)
                        && String.prefix (name dest +:+ ".bak.") (name p))
              (map fst (map_to_list (files w))).

(** A snapshot with an entry whose path leaves the target root. *)
Definition ex_snap_dir : Path := ["home"; "u"; ".claude"; "backups"; "20260101-120000"].
Definition ex_escape : Path := [".."; ".."; "etc"; "passwd"].

(** The template of the settings and the installed settings. *)
Definition ex_world_settings (existing : json) : world :=
  world_of [(HOME_CLAUDE_MD demo, "# standards");
            (HOME_SETTINGS_JSON demo, demo_dumps doc_template);
            (CLAUDE_SETTINGS demo, demo_dumps existing)].


(** Two dicts, [VRef 1] and [VRef 3], with a list each under the key [k]. *)
Definition ex_store_lists : store :=
  [OList [JStr "a"; JStr "b"]; ODict [("k", VRef 0); ("only", VInt 1)];
   OList [JStr "b"; JStr "c"]; ODict [("k", VRef 2)]].

(** ** Documents in the store *)

(** The value [v] stands in the store [h] for the document [t], as a
    tree: [F] is the set of the objects it is made of, and no object is
    used twice. *)
Fixpoint repr (h : store) (t : json) (F : gset loc) (v : val) {struct t} : Prop :=
  match t with
  | JNull => v = VNone /\ F = ∅
  | JBool b => v = VBool b /\ F = ∅
  | JInt n => v = VInt n /\ F = ∅
  | JStr s => v = VStr s /\ F = ∅
  | JList es => exists l, v = VRef l /\ h !! l = Some (OList es) /\ F = {[ l ]}
  | JDict d =>
      exists l items Fi,
        v = VRef l /\ h !! l = Some (ODict items) /\ F = {[ l ]} ∪ Fi /\
        (fix go (d : list (string * json)) (Fi : gset loc) (items : list (string * val))
           : Prop :=
           match d, items with
           | [], [] => Fi = ∅
           | (k, t') :: d', (k', v') :: items' =>
               k' = k /\
               exists F1 F2, repr h t' F1 v' /\ go d' F2 items' /\ F1 ## F2 /\ Fi = F1 ∪ F2
           | _, _ => False
           end) d Fi items
  end.

(** The items of a dict stand for the items of a mapping. *)
Fixpoint repr_items (h : store) (d : list (string * json)) (Fi : gset loc)
    (items : list (string * val)) : Prop :=
  match d, items with
  | [], [] => Fi = ∅
  | (k, t) :: d', (k', v) :: items' =>
      k' = k /\
      exists F1 F2, repr h t F1 v /\ repr_items h d' F2 items' /\ F1 ## F2 /\ Fi = F1 ∪ F2
  | _, _ => False
  end.

(** One round of the loop of [deep_merge_settings] on documents. *)
Definition merge_step (key : string) (value : json) (merged : list (string * json))
  : list (string * json) :=
  match dict_get key merged, value with
  | Some (JDict b), JDict _ => dict_set key (JDict (merge_into value b)) merged
  | Some (JList l), JList v => dict_set key (JList (list_extend_new l v)) merged
  | _, _ => dict_set key value merged
  end.

(** The value [v] stands in [h] for the document [t]: the traversal of
    [v], with room for the nesting of [t], gives [t]. *)
Definition stands_for (h : store) (v : val) (t : json) : Prop :=
  Store.reify (S (dict_depth t)) h v = Some t.

(** [deep_merge_settings] gives the document [m] for the documents [b]
    and [o]: called, with room for [depth] nested calls, on [b] and [o]
    as [json.loads] builds them, one after the other, in whatever
    store, it returns a value that stands for [m]. *)
Definition merged_to (depth : nat) (b o m : json) : Prop :=
  forall h : store,
    let '(base, h1) := Store.alloc_json b h in
    let '(overlay, h2) := Store.alloc_json o h1 in
    exists r h3,
      deep_merge_settings depth base overlay h2 = (Ok r, h3) /\ stands_for h3 r m.

(** The documents [{"k": ["a", "b"]}] and [{"k": ["b", "c"]}]. *)
Definition doc_ab : list (string * json) := [("k", JList [JStr "a"; JStr "b"])].
Definition doc_bc : list (string * json) := [("k", JList [JStr "b"; JStr "c"])].

(* ===================================================================== *)
(** * Proof tactics *)
(* ===================================================================== *)

(** The monad and the file primitives unfolded. *)
Ltac unfold_m :=
  cbv beta iota zeta delta
    [bind ret raise gets modify try_except
     exists_ read_bytes read_text write_text write_bytes copy2 unlink
     timestamp log_append backup_file lift_heap] in *.

Ltac wsimpl :=
  cbv beta iota delta [set_files set_trace set_ticks set_log set_heap]; simpl.

(** Membership in an explicit list. *)
Ltac list_elem :=
  vm_compute; repeat first [apply list_elem_of_here | apply list_elem_of_further].

(** ** The shape of settings documents *)


(** The permission lists of the settings. *)
Definition permission_lists : list string := ["allow"; "deny"; "ask"].





(** The same in the store: a reference to a list; a dict whose
    permission lists are lists; a dict that has such permissions. *)
Definition is_list_ref (h : store) (v : val) : Prop :=
  exists l es, v = VRef l /\ h !! l = Some (OList es).

Definition perms_dict (h : store) (v : val) : Prop :=
  exists l items,
    v = VRef l /\ h !! l = Some (ODict items) /\
    forall pk x, pk ∈ permission_lists -> dict_get pk items = Some x -> is_list_ref h x.

Definition has_perms (h : store) (v : val) : Prop :=
  exists l items pv,
    v = VRef l /\ h !! l = Some (ODict items) /\
    dict_get "permissions" items = Some pv /\ perms_dict h pv.





(* ===================================================================== *)
(** * The catalog and the command line *)
(* ===================================================================== *)

From Stdlib Require Import Sorted.

(** ** Names, lines and sorting *)

Module Names.

(** [name.rfind(".")]: the index of the last dot of a name *)
Fixpoint rfind_dot (s : string) : option nat :=
  match s with
  | EmptyString => None
  | String c s' =>
      match rfind_dot s' with
      | Some i => Some (S i)
      | None => if Ascii.eqb c "." then Some 0 else None
      end
  end.

(** [0 < i < len(name) - 1], the test of [PurePath.suffix] and of
    [PurePath.stem] on the index [i] of the last dot (pathlib of
    Python 3.8 to 3.13) *)
Definition splits_at (i : nat) (name : string) : bool :=
  (0 <? i) && (S i <? String.length name).

(** [path.suffix], from the name of the path *)
Definition suffix (name : string) : string :=
  match rfind_dot name with
  | Some i => if splits_at i name then Text.drop_string i name else ""
  | None => ""
  end.

(** [path.stem], from the name of the path *)
Definition stem (name : string) : string :=
  match rfind_dot name with
  | Some i => if splits_at i name then String.substring 0 i name else name
  | None => name
  end.

(** [c] is one of the digits that [\d] matches among the 8-bit
    characters *)
Definition is_digit (c : ascii) : bool :=
  let n := nat_of_ascii c in (48 <=? n) && (n <=? 57).

(** [re.match(r'^\d{8}-\d{6}$', name)]: eight digits, a hyphen and six
    digits; the end of the pattern also matches before a line feed
    that ends the name. *)
Definition is_snapshot_name (name : string) : bool :=
  let cs := list_ascii_of_string name in
  forallb is_digit (take 8 cs) && (length (take 8 cs) =? 8)
  && match drop 8 cs with
     | hyphen :: rest =>
         Ascii.eqb hyphen "-"
         && forallb is_digit (take 6 rest) && (length (take 6 rest) =? 6)
         && match drop 6 rest with
            | [] => true
            | [c] => Ascii.eqb c "010"
            | _ => false
            end
     | [] => false
     end.

End Names.

Module Lines.

(** [line.lstrip("#")] *)
Fixpoint lstrip_hash (s : string) : string :=
  match s with
  | String c s' => if Ascii.eqb c "#" then lstrip_hash s' else s
  | EmptyString => EmptyString
  end.

(** [line.split(":", 1)[1]], for a line that holds a colon: what
    follows the first colon *)
Fixpoint after_colon (s : string) : string :=
  match s with
  | String c s' => if Ascii.eqb c ":" then s' else after_colon s'
  | EmptyString => EmptyString
  end.

(** The loop of [get_heading] (lines 151-153): the heading of the first
    line that starts with [#], if there is one. *)
Definition heading_of (lines : list string) : option string :=
  match List.find (Text.startswith "#") lines with
  | Some line => Some (Text.strip (lstrip_hash line))
  | None => None
  end.

(** The loop of [get_frontmatter_field] (lines 162-167) over the lines
    that follow the opening delimiter; a line that starts with the
    field and a colon holds a colon. *)
Fixpoint scan_frontmatter (field : string) (lines : list string) : string :=
  match lines with
  | [] => ""
  | line :: rest =>
      if String.eqb (Text.strip line) "---" then ""
      else if Text.startswith (field +:+ ":") line then Text.strip (after_colon line)
           else scan_frontmatter field rest
  end.

(** [get_frontmatter_field] (lines 159-167) on the lines of the file *)
Definition frontmatter_field (field : string) (lines : list string) : string :=
  match lines with
  | [] => ""
  | first :: rest =>
      if negb (String.eqb (Text.strip first) "---") then ""
      else scan_frontmatter field rest
  end.

End Lines.

(** [sorted(l, key=...)]: a stable sort, by insertion; [le x y] tells
    that the key of [x] is not above the key of [y]. With
    [reverse=True] the order of the keys is the opposite one, and the
    sort is stable as well. *)
Fixpoint insert_sorted {A} (le : A -> A -> bool) (x : A) (l : list A) : list A :=
  match l with
  | [] => [x]
  | y :: l' => if le x y then x :: l else y :: insert_sorted le x l'
  end.

Definition sorted {A} (le : A -> A -> bool) (l : list A) : list A :=
  foldr (insert_sorted le) [] l.

(** The order of the first components, and its opposite. *)
Definition by_name (x y : string * Path) : bool := String.leb (fst x) (fst y).
Definition by_name_reversed (x y : string * Path) : bool := String.leb (fst y) (fst x).

(** [for x in xs: ys.append(f(x))] *)
Fixpoint map_m {S A B} (f : A -> ST S B) (xs : list A) : ST S (list B) :=
  match xs with
  | [] => ret []
  | x :: xs' => y <- f x ;; ys <- map_m f xs' ;; ret (y :: ys)
  end.

(** An entry of the catalog as [build_file_info] builds it (lines
    301-309). *)
Record file_info := FileInfo {
  info_name : string;
  info_src : Path;
  info_status : string;
  info_mandatory : bool;
  info_heading : string;
  info_description : string;
  info_model : string;
}.

(** The fields of an entry that the engine reads. *)
Definition catalog_item (i : file_info) : item := Item (info_name i) (info_src i).

(** The arguments of the command line that [run_cli] reads. *)
Record cli_args := CliArgs {
  arg_both : bool;
  arg_scope_project : bool;
  arg_no_tasks : bool;
  arg_auto_read : bool;
  arg_model : string;
}.

Section Catalog.

Variable P : platform.

(** The constants of lines 66-67. *)
Definition HOME_RULES_DIR : Path := HOME_DIR P // "rules".
Definition AGENTS_DIR : Path := SCRIPT_DIR P // "standards" // "agents".

(** The directories directly in a directory ([d.iterdir()] with
    [is_dir]): a directory is there when a file lies below it. *)
Definition iterdir_dirs (d : Path) (w : world) : list Path :=
  remove_dups
    (omap (fun p => match relative_to p d with
                    | Some (c :: _ :: _) => Some (d // c)
                    | _ => None
                    end) (map fst (map_to_list (files w)))).


(** [discover_files] (lines 109-116); the directory is a directory or
    nothing. *)
Definition discover_files (directory : Path) : M (list (string * Path)) :=
  e <- exists_dir directory ;;
  if negb e then ret []
  else
    fs <- gets (iterdir_files directory) ;;
    ret (sorted by_name
           (map (fun f => (name f, f))
                (List.filter (fun f => String.eqb (Names.suffix (name f)) ".md") fs))).

(** [get_repo_name] (lines 130-138): the search of [is_git_repo], with
    the name of the directory found or, at the root, of the path
    given. *)
Fixpoint repo_above (n : nat) (path current : Path) : M string :=
  g <- exists_dir (current // ".git") ;;
  if g then ret (name current)
  else if decide (parent current = current) then ret (name path)
       else match n with
            | O => ret (name path)
            | S n' => repo_above n' path (parent current)
            end.

Definition get_repo_name (path : Path) : M string :=
  let current := resolve P path in
  repo_above (length current) path current.

(** [get_heading] (lines 150-154) *)
Definition get_heading (path : Path) : M string :=
  text <- read_text P path ;;
  ret (default (Names.stem (name path)) (Lines.heading_of (Text.splitlines text))).

(** [get_frontmatter_field] (lines 157-167) *)
Definition get_frontmatter_field (path : Path) (field : string) : M string :=
  text <- read_text P path ;;
  ret (Lines.frontmatter_field field (Text.splitlines text)).

(** [get_description], [get_model] (lines 170-175) *)
Definition get_description (path : Path) : M string :=
  get_frontmatter_field path "description".

Definition get_model (path : Path) : M string :=
  get_frontmatter_field path "model".

(** [discover_snapshots] (lines 228-236) *)
Definition discover_snapshots : M (list (string * Path)) :=
  e <- exists_dir (BACKUPS_DIR P) ;;
  if negb e then ret []
  else
    ds <- gets (iterdir_dirs (BACKUPS_DIR P)) ;;
    ret (sorted by_name_reversed
           (map (fun d => (name d, d))
                (List.filter (fun d => Names.is_snapshot_name (name d)) ds))).

(** [is_fresh_install] (lines 286-288) *)
Definition is_fresh_install : M bool :=
  e <- exists_ (CLAUDE_MD P) ;;
  ret (negb e).

(** [build_file_info] (lines 291-310) *)
Definition build_file_info (source_files : list (string * Path)) (install_dir : Path)
    (mandatory : gset string) : M (list file_info) :=
  map_m (fun '(name, src) =>
    let dest := install_dir // name in
    status <- file_status src dest ;;
    heading <- get_heading src ;;
    description <- get_description src ;;
    model <- get_model src ;;
    ret {| info_name := name; info_src := src; info_status := status;
           info_mandatory := bool_decide (name ∈ mandatory);
           info_heading := heading; info_description := description;
           info_model := model |}) source_files.

(** ** The command line *)

(** The scope of [run_cli] (lines 1388-1393). *)
Definition cli_scope (args : cli_args) : scope :=
  if arg_both args then scope_both
  else if arg_scope_project args then scope_project
       else scope_global.

(** The loops of [run_cli] over a catalog (lines 1416-1418 and
    1422-1424): every item is installed. *)
Definition install_all (dir : Path) (prefix : string) (info : list file_info) : M unit :=
  for_each info (fun it =>
    let dest := dir // info_name it in
    smart_install P (info_src it) dest (prefix +:+ info_name it)).

(** [run_cli] (lines 1382-1511) in the directory [cwd]; the result is
    the log, whose printing is not modelled. *)
Definition run_cli (args : cli_args) (cwd : Path) : M (list entry) :=
  in_repo <- is_git_repo P cwd ;;
  let scope := cli_scope args in
  (if in_global scope then create_snapshot P ;;; ret tt else ret tt) ;;;
  rules <- discover_files HOME_RULES_DIR ;;
  agents <- discover_files AGENTS_DIR ;;
  rule_info <- build_file_info rules (CLAUDE_RULES P) MANDATORY_RULES ;;
  agent_info <- build_file_info agents (CLAUDE_AGENTS P) MANDATORY_AGENTS ;;
  modify (set_log (fun _ => [])) ;;;
  (if in_global scope then
     smart_install P (HOME_CLAUDE_MD P) (CLAUDE_MD P) "~/.claude/CLAUDE.md" ;;;
     install_all (CLAUDE_RULES P) "~/.claude/rules/" rule_info ;;;
     install_all (CLAUDE_AGENTS P) "~/.claude/agents/" agent_info ;;;
     (if negb (arg_no_tasks args) then
        install_task_templates P (CLAUDE_HOME P // "tasks") "~/.claude/tasks/"
      else ret tt) ;;;
     install_global_settings P (arg_model args)
   else ret tt) ;;;
  (if in_project scope then
     if in_repo then
       (if negb (arg_no_tasks args) then
          install_task_templates P (cwd // "tasks") "tasks/"
        else ret tt) ;;;
       (if arg_auto_read args then install_auto_read P cwd else ret tt)
     else log_append st_skipped "Project install (not in a git repo)"
   else ret tt) ;;;
  gets log.




(** The snapshot that [run_restore_cli] restores (lines 1569-1585):
    [restore] is the value of the option when it is a string. *)
Definition chosen_snapshot (restore : option string) (snapshots : list (string * Path))
  : option Path :=
  let target := match restore with
                | Some t => if String.eqb t "" then None else Some t
                | None => None
                end in
  match target with
  | Some t => snd <$> List.find (fun s => String.eqb (fst s) t) snapshots
  | None => snd <$> head snapshots
  end.

(** [run_restore_cli] (lines 1561-1607); the result is the log of the
    restore, or [None] when no snapshot is restored. The printing is
    not modelled. *)
Definition run_restore_cli (restore : option string) : M (option (list entry)) :=
  snapshots <- discover_snapshots ;;
  match snapshots with
  | [] => ret None
  | _ :: _ =>
      match chosen_snapshot restore snapshots with
      | Some snap_dir =>
          log <- restore_snapshot P snap_dir ;;
          ret (Some log)
      | None => ret None
      end
  end.

End Catalog.

(** ** The selection screens, from their first display *)

(** The entries that [compose] of [RulesScreen] and of [AgentsScreen]
    checks (lines 778-782 and 841-845). *)
Definition checked (fresh : bool) (i : file_info) : bool :=
  fresh || negb (String.eqb (info_status i) "new") || info_mandatory i.

Definition preselected (fresh : bool) (info : list file_info) : gset string :=
  list_to_set (map info_name (List.filter (checked fresh) info)).

(** The selection that [action_next] stores (lines 819-822): the
    entries checked at first, after the toggles of the user. *)
Definition selection_after (mandatory : gset string) (fresh : bool)
    (info : list file_info) (toggles : list string) : gset string :=
  foldl (fun sel name => toggled mandatory name sel) (preselected fresh info) toggles.

(** ** Notions used in the statements about the catalog *)

(** Something is at the path [d]: a file is the path or lies below it. *)
Definition present (d : Path) (w : world) : Prop :=
  exists p, is_Some (files w !! p) /\ d `prefix_of` p.

(** The directory [d] holds files: a file lies below it. *)
Definition holds_files (d : Path) (w : world) : Prop :=
  exists p c rest, is_Some (files w !! p) /\ p = d ++ c :: rest.

(** The names of a list go up, or down, from each entry to the next. *)
Definition ascending (l : list (string * Path)) : Prop :=
  Sorted (fun x y => String.ltb (fst x) (fst y) = true) l.

Definition descending (l : list (string * Path)) : Prop :=
  Sorted (fun x y => String.ltb (fst y) (fst x) = true) l.

(** The paths, relative to [~/.claude], of the files that the installer
    manages and [create_snapshot] copies: three files, and the files
    directly in three directories. *)
Definition managed (rel : Path) : Prop :=
  rel ∈ [["CLAUDE.md"]; ["settings.json"]; ["statusline.sh"]]
  \/ exists subdir n, subdir ∈ ["rules"; "agents"; "tasks"] /\ rel = [subdir; n].

(** One round of the loop of [install_task_templates]. *)
Definition task_round (P : platform) (tasks_dir : Path) (prefix tpl : string) : M unit :=
  let src := TASKS_DIR P // tpl in
  let dest := tasks_dir // tpl in
  e <- exists_ dest ;;
  c <- (if e then file_has_content P dest else ret false) ;;
  if c then log_append st_skipped (prefix +:+ tpl +:+ " (has content)")
  else
    copy2 src dest ;;;
    log_append st_installed (prefix +:+ tpl).


(** The files that [create_snapshot] collects (lines 195-210). *)
Definition files_to_snap (P : platform) (w : world) : list Path :=
  List.filter (fun p => bool_decide (is_Some (files w !! p)))
              [CLAUDE_HOME P // "CLAUDE.md"; CLAUDE_HOME P // "settings.json";
               CLAUDE_HOME P // "statusline.sh"]
  ++ concat (map (fun subdir => iterdir_files (CLAUDE_HOME P // subdir) w)
                 ["rules"; "agents"; "tasks"]).




(** A computation that leaves the world as it is, whether it returns or
    raises. *)
Definition readonly {A} (m : M A) : Prop :=
  forall w r w', m w = (r, w') -> w' = w.

(** A write of a file directly in the directory [d], and a write of a
    file at or below [d]. *)
Definition writes_in (d : Path) (op : fsop) : Prop := exists n, op = Wr (d // n).

Definition writes_below (d : Path) (op : fsop) : Prop :=
  exists p, op = Wr p /\ d `prefix_of` p.

(** The files of the settings: the settings and the status line script
    in [~/.claude], and the siblings that are their backups. *)
Definition settings_file (P : platform) (p : Path) : Prop :=
  p = CLAUDE_SETTINGS P \/ p = CLAUDE_STATUSLINE P \/
  exists ts, p = backup_path (CLAUDE_SETTINGS P) ts \/
             p = backup_path (CLAUDE_STATUSLINE P) ts.

(** A write of a run of the command line: below [~/.claude] when the
    scope takes in the global install, below the working directory when
    it takes in the project. *)
Definition cli_write (P : platform) (args : cli_args) (cwd : Path) (op : fsop) : Prop :=
  (in_global (cli_scope args) = true /\ writes_below (CLAUDE_HOME P) op) \/
  (in_project (cli_scope args) = true /\ writes_below cwd op).

(** The clock prints its timestamps as [%Y%m%d-%H%M%S] does. *)
Definition clock_formatted (P : platform) : Prop :=
  forall k, Names.is_snapshot_name (strftime_now P k) = true.

(** A catalog whose entries are files with the suffix [.md] of the
    directory [srcdir], as [discover_files] finds them there. *)
Definition catalog_of (srcdir : Path) (info : list item) : Prop :=
  Forall (fun it => item_src it = srcdir // item_name it /\
                    Names.suffix (item_name it) = ".md") info.

(** A path that is no task template, no file of the settings and not
    the settings of the project in [cwd]. *)
Definition kept_late (P : platform) (cwd p : Path) : Prop :=
  (forall d n, p <> d // "tasks" // n) /\
  ~ settings_file P p /\
  p <> cwd // ".claude" // "settings.json".

(** No path of the standards lies in [~/.claude]. *)
Definition standards_apart (P : platform) : Prop :=
  forall p, (SCRIPT_DIR P // "standards") `prefix_of` p -> ~ CLAUDE_HOME P `prefix_of` p.

(** [~/.aws/config], the file that [check_aws_profile] reads (line
    417), and the worlds in which its bytes [b] are no UTF-8 text. *)
Definition AWS_CONFIG (P : platform) : Path := USER_HOME P // ".aws" // "config".

Definition aws_undecodable (P : platform) (b : bytes) (w : world) : Prop :=
  files w !! AWS_CONFIG P = Some b /\ decode_utf8 P b = None.

(** A write of the settings or of a sibling that is their backup. *)
Definition settings_json_write (P : platform) (op : fsop) : Prop :=
  op = Wr (CLAUDE_SETTINGS P) \/ exists ts, op = Wr (backup_path (CLAUDE_SETTINGS P) ts).

(** Started in a world where [I] holds, the computation ends in such a
    world and adds to the trace only operations that satisfy [ok]
    ([keeps_from]); and it ends by raising ([stops_from]). *)
Definition keeps_from (I : world -> Prop) (ok : fsop -> Prop) {A} (m : M A) : Prop :=
  forall w r w', I w -> m w = (r, w') ->
    I w' /\ exists ops, trace w' = trace w ++ ops /\ Forall ok ops.

Definition stops_from (I : world -> Prop) (ok : fsop -> Prop) {A} (m : M A) : Prop :=
  forall w r w', I w -> m w = (r, w') ->
    (exists e, r = Raise e) /\ exists ops, trace w' = trace w ++ ops /\ Forall ok ops.

(** ** Worlds and inputs of the examples of the catalog *)

Definition nl : string := String "010" "".

(** A rule with front matter and a heading. *)
Definition ex_rule_text : string :=
  "---" +:+ nl +:+ "description: Security rules" +:+ nl +:+ "model: opus" +:+ nl
  +:+ "---" +:+ nl +:+ "# Security" +:+ nl +:+ "model: not this one" +:+ nl.

(** The source tree: two rules, a file that is no rule and a draft in
    a directory of its own. *)
Definition ex_world_catalog : world :=
  world_of [(HOME_RULES_DIR demo // "style.md", "# Style");
            (HOME_RULES_DIR demo // "security.md", ex_rule_text);
            (HOME_RULES_DIR demo // "README.txt", "notes");
            (HOME_RULES_DIR demo // "drafts" // "next.md", "# Draft")].

(** Two snapshots and a directory that is none. *)
Definition ex_world_backups : world :=
  world_of [(BACKUPS_DIR demo // "20251231-235959" // "CLAUDE.md", "# old");
            (BACKUPS_DIR demo // "20260101-120000" // "CLAUDE.md", "# new");
            (BACKUPS_DIR demo // "latest" // "CLAUDE.md", "# copy");
            (CLAUDE_MD demo, "# now")].

(** A project whose lessons hold a note. *)
Definition ex_world_notes : world :=
  world_of [(TASKS_DIR demo // "lessons.md", "# Lessons template");
            (TASKS_DIR demo // "todo.md", "# Todo template");
            (ex_project // ".git" // "HEAD", "ref: refs/heads/main");
            (ex_project // "tasks" // "lessons.md",
             "# My lessons" +:+ nl +:+ "Never deploy on a Friday.")].





(** A platform whose [json.loads] also reads the auto-read permissions
    as [install_auto_read] writes them, and a project that has them. *)
Definition demo_auto : platform :=
  {| strftime_now := strftime_now demo;
     decode_utf8 := decode_utf8 demo;
     encode_utf8 := encode_utf8 demo;
     json_loads := fun text =>
       if String.eqb text (demo_dumps AUTO_READ_PERMISSIONS +:+ nl)
       then Some AUTO_READ_PERMISSIONS else demo_loads text;
     json_dumps := demo_dumps;
     py_repr := demo_dumps;
     exn_str := exn_str demo;
     recursion_limit := recursion_limit demo;
     resolve := resolve demo;
     USER_HOME := USER_HOME demo;
     SCRIPT_DIR := SCRIPT_DIR demo |}.

Definition ex_world_auto_read : world :=
  world_of [(ex_project // ".claude" // "settings.json",
             demo_dumps AUTO_READ_PERMISSIONS +:+ nl)].

(** The arguments [--project] and [--global] of the command line. *)
Definition ex_args_project : cli_args :=
  {| arg_both := false; arg_scope_project := true; arg_no_tasks := false;
     arg_auto_read := true; arg_model := "sonnet" |}.

Definition ex_args_global : cli_args :=
  {| arg_both := false; arg_scope_project := false; arg_no_tasks := true;
     arg_auto_read := false; arg_model := "none" |}.

(** The entries of a catalog with the mandatory rule, not installed. *)
Definition ex_info : list file_info :=
  [{| info_name := "security.md"; info_src := ex_rule_src; info_status := "new";
      info_mandatory := true; info_heading := "Security";
      info_description := "Security rules"; info_model := "" |};
   {| info_name := "style.md"; info_src := HOME_RULES_DIR demo // "style.md";
      info_status := "new"; info_mandatory := false; info_heading := "Style";
      info_description := ""; info_model := "" |}].


(** The source tree with the standards file, the rules and the template
    of the settings, and nothing installed. *)
Definition ex_world_cli : world :=
  world_of [(HOME_CLAUDE_MD demo, "# standards");
            (HOME_RULES_DIR demo // "style.md", "# Style");
            (HOME_RULES_DIR demo // "security.md", ex_rule_text);
            (HOME_SETTINGS_JSON demo, demo_dumps doc_template)].

(** The platform of the examples with a clock that prints the same
    second at every reading. *)
Definition demo_frozen : platform :=
  {| strftime_now := fun _ => "20260101-120000";
     decode_utf8 := decode_utf8 demo;
     encode_utf8 := encode_utf8 demo;
     json_loads := json_loads demo;
     json_dumps := json_dumps demo;
     py_repr := py_repr demo;
     exn_str := exn_str demo;
     recursion_limit := recursion_limit demo;
     resolve := resolve demo;
     USER_HOME := USER_HOME demo;
     SCRIPT_DIR := SCRIPT_DIR demo |}.

(** The choices of the screens over that source tree: the rule
    [security.md] is selected, the rule [style.md] is not; and a world
    in which an old version of the second is installed. *)
Definition ex_app_selection : app :=
  {| app_scope := scope_global;
     rule_info := [Item "security.md" (HOME_RULES_DIR demo // "security.md");
                   Item "style.md" (HOME_RULES_DIR demo // "style.md")];
     agent_info := [];
     selected_rules := {["security.md"]};
     selected_agents := ∅;
     create_global_tasks := false;
     create_project_tasks := false;
     auto_read := false;
     selected_model := "none";
     app_cwd := ex_project |}.

Definition ex_world_selection : world :=
  set_files (insert (CLAUDE_RULES demo // "style.md") "# Old style") ex_world_cli.

(** The platform of the examples with a decoder that rejects the bytes
    that begin with the byte 255, and a world whose AWS configuration
    begins with it. *)
Definition demo_strict : platform :=
  {| strftime_now := strftime_now demo;
     decode_utf8 := fun b => if String.prefix (String "255" "") b then None else Some b;
     encode_utf8 := encode_utf8 demo;
     json_loads := json_loads demo;
     json_dumps := json_dumps demo;
     py_repr := py_repr demo;
     exn_str := exn_str demo;
     recursion_limit := recursion_limit demo;
     resolve := resolve demo;
     USER_HOME := USER_HOME demo;
     SCRIPT_DIR := SCRIPT_DIR demo |}.

Definition ex_aws_bytes : bytes := String "255" "[profile default]".

Definition ex_world_aws : world :=
  set_files (insert (AWS_CONFIG demo) ex_aws_bytes) ex_world_cli.
(* ===================================================================== *)
(** * Properties *)
(* ===================================================================== *)

Local Open Scope py_scope.

(** ** Paths *)

Lemma name_child (p : Path) (c : string) : name (p // c) = c.
Proof. unfold name, child. by rewrite last_snoc. Qed.

Lemma parent_child (p : Path) (c : string) : parent (p // c) = p.
Proof. unfold parent, child. apply removelast_last. Qed.

Lemma string_app_length (s t : string) :
  String.length (s +:+ t) = String.length s + String.length t.
Proof. induction s as [|c s IH]; simpl; [done | by rewrite IH]. Qed.

Lemma name_backup_path (p : Path) (ts : string) :
  name (backup_path p ts) = name p +:+ ".bak." +:+ ts.
Proof. unfold backup_path. apply name_child. Qed.

Lemma parent_backup_path (p : Path) (ts : string) :
  parent (backup_path p ts) = parent p.
Proof. unfold backup_path. apply parent_child. Qed.

(** The backup of a file is another file. *)
Lemma backup_path_ne (p : Path) (ts : string) : backup_path p ts <> p.
Proof.
  intros H. apply (f_equal name) in H. rewrite name_backup_path in H.
  apply (f_equal String.length) in H. rewrite !string_app_length in H.
  simpl in H. lia.
Qed.

Lemma backup_path_ne' (p : Path) (ts : string) : p <> backup_path p ts.
Proof. intros H. by apply (backup_path_ne p ts). Qed.

(** ** Running file computations *)

Lemma bool_decide_is_Some_true {A} (o : option A) (a : A) :
  o = Some a -> bool_decide (is_Some o) = true.
Proof. intros ->. apply bool_decide_eq_true. eauto. Qed.

Lemma bool_decide_is_Some_false {A} (o : option A) :
  o = None -> bool_decide (is_Some o) = false.
Proof. intros ->. apply bool_decide_eq_false. by intros [? ?]. Qed.

Section FileLemmas.

Variable P : platform.

Lemma backup_file_run (path : Path) (b : bytes) (w : world) :
  files w !! path = Some b ->
  backup_file P path w
  = (Ok (backup_path path (strftime_now P (ticks w))), backed_up P path b w).
Proof.
  intros Hp. unfold_m. simpl. rewrite Hp.
  destruct (decide _) as [e|_]; [by destruct (backup_path_ne _ _ (eq_sym e)) | done].
Qed.

Lemma backup_file_missing (path : Path) (w : world) :
  files w !! path = None ->
  backup_file P path w = (Raise FileNotFoundError, set_ticks S w).
Proof. intros Hp. unfold_m. simpl. by rewrite Hp. Qed.

(** *** [smart_install] *)

Lemma smart_install_new (src dest : Path) (label : string) (w : world) (s : bytes) :
  files w !! src = Some s ->
  files w !! dest = None ->
  smart_install P src dest label w
  = (Ok tt, World (<[dest := s]> (files w)) (trace w ++ [Wr dest]) (ticks w)
                  (log w ++ [(st_installed, label)]) (heap w)).
Proof.
  intros Hs Hd. unfold smart_install. unfold_m.
  rewrite (bool_decide_is_Some_false _ Hd). simpl. rewrite Hs.
  destruct (decide (src = dest)) as [->|_]; [congruence | done].
Qed.

Lemma smart_install_current (src dest : Path) (label : string) (w : world) (s : bytes) :
  files w !! src = Some s ->
  files w !! dest = Some s ->
  smart_install P src dest label w = (Ok tt, set_log (fun l => l ++ [(st_current, label)]) w).
Proof.
  intros Hs Hd. unfold smart_install. unfold_m.
  rewrite (bool_decide_is_Some_true _ _ Hd). simpl. rewrite Hs, Hd.
  by rewrite String.eqb_refl.
Qed.

(** The update case in general: the source is read after the backup
    has been written. *)
Lemma smart_install_update_gen (src dest : Path) (label : string) (w : world) (s d : bytes) :
  files w !! src = Some s ->
  files w !! dest = Some d ->
  s <> d ->
  let bak := backup_path dest (strftime_now P (ticks w)) in
  let s' := if decide (src = bak) then d else s in
  smart_install P src dest label w
  = (Ok tt, World (<[dest := s']> (<[bak := d]> (files w)))
                  (trace w ++ [Wr bak; Wr dest]) (S (ticks w))
                  (log w ++ [(st_updated,
                              label +:+ " (backed up -> " +:+ name bak +:+ ")")])
                  (heap w)).
Proof.
  intros Hs Hd Hne bak s'. unfold smart_install.
  unfold bind at 1. unfold exists_, gets.
  rewrite (bool_decide_is_Some_true _ _ Hd). simpl.
  unfold bind at 1. unfold read_bytes at 1. rewrite Hs.
  unfold bind at 1. unfold read_bytes at 1. rewrite Hd.
  apply String.eqb_neq in Hne. rewrite Hne. simpl.
  unfold bind at 1. rewrite (backup_file_run dest d w Hd); unfold backed_up.
  fold bak. unfold_m. simpl.
  assert (Hsd : src <> dest) by (intros ->; rewrite Hs in Hd; apply String.eqb_neq in Hne; congruence).
  subst s'. destruct (decide (src = bak)) as [e|n].
  - rewrite e. rewrite lookup_insert_eq.
    destruct (decide (bak = dest)) as [e'|_]; [by rewrite <- e', e in Hsd |].
    wsimpl. by rewrite <- app_assoc.
  - rewrite lookup_insert_ne by done. rewrite Hs.
    destruct (decide (src = dest)); [done |]. wsimpl. by rewrite <- app_assoc.
Qed.

End FileLemmas.


(** ** Restoring a snapshot *)

(** C3 — an entry of a snapshot whose destination, resolved, is not
    below the resolved target root is skipped by [restore_snapshot]:
    the round of the loop for it returns with the world as it was, so
    nothing is written (inside or outside the target root), no backup
    is made and no entry is logged. *)
Theorem restore_item_escape_skipped (P : platform) (snap_dir item rel : Path) (w : world) :
  relative_to item snap_dir = Some rel ->
  relative_to (resolve P (CLAUDE_HOME P ++ rel)) (resolve P (CLAUDE_HOME P)) = None ->
  restore_item P snap_dir item w = (Ok tt, w).
Proof.
  intros Hrel Hesc. unfold restore_item. by rewrite Hrel, Hesc.
Qed.

(** The destinations of the entries [restore_snapshot] acts on. *)
Lemma for_each_skip {S A} (keep : A -> bool) (body : A -> ST S unit) (xs : list A) (s : S) :
  (forall x s', keep x = false -> body x s' = (Ok tt, s')) ->
  for_each xs body s = for_each (List.filter keep xs) body s.
Proof.
  intros Hskip. revert s. induction xs as [|x xs IH]; intros s; [done |].
  simpl. destruct (keep x) eqn:Hk; simpl.
  - unfold bind. destruct (body x s) as [[[]|e] s']; [apply IH | done].
  - unfold bind. rewrite (Hskip x s Hk). apply IH.
Qed.

(** A restore runs as if the escaping entries were not in the snapshot. *)
Lemma restore_loop_skips_escapes (P : platform) (snap_dir : Path) (items : list Path)
    (w : world) :
  for_each items (restore_item P snap_dir) w
  = for_each
      (List.filter
         (fun item =>
            match relative_to item snap_dir with
            | Some rel =>
                match relative_to (resolve P (CLAUDE_HOME P ++ rel))
                                  (resolve P (CLAUDE_HOME P)) with
                | Some _ => true
                | None => false
                end
            | None => true
            end) items)
      (restore_item P snap_dir) w.
Proof.
  apply for_each_skip. intros item w' Hk.
  destruct (relative_to item snap_dir) as [rel|] eqn:Hrel; [| done].
  destruct (relative_to (resolve P (CLAUDE_HOME P ++ rel)) (resolve P (CLAUDE_HOME P)))
    eqn:Hesc; [done |].
  unfold restore_item. by rewrite Hrel, Hesc.
Qed.

(** ** Mandatory items *)

Lemma enforce_fold (names : list string) (sel : gset string) :
  foldl (fun sel name => if decide (name ∈ sel) then sel else {[ name ]} ∪ sel) sel names
  = list_to_set names ∪ sel.
Proof.
  revert sel. induction names as [|n names IH]; intros sel; simpl.
  - set_solver.
  - rewrite IH. destruct (decide (n ∈ sel)); set_solver.
Qed.

(** The handler of a toggle adds the mandatory names and keeps the rest. *)
Lemma enforce_mandatory_union (mandatory selected : gset string) :
  enforce_mandatory mandatory selected = mandatory ∪ selected.
Proof.
  unfold enforce_mandatory. rewrite enforce_fold. by rewrite list_to_set_elements_L.
Qed.

(** *** What computations add to the trace *)

Section Traces.

Variable P : platform.
Variable ok : fsop -> Prop.

Lemma only_adds_silent {A} (m : M A) :
  (forall w r w', m w = (r, w') -> trace w' = trace w /\ files w' = files w) ->
  only_adds ok m.
Proof.
  intros H w r w' Hm. destruct (H _ _ _ Hm) as [Ht Hf].
  exists []. rewrite app_nil_r, Ht, Hf. by repeat split.
Qed.

Lemma only_adds_ret {A} (a : A) : only_adds ok (ret a).
Proof. apply only_adds_silent. by intros w r w' [= <- <-]. Qed.

Lemma only_adds_raise {A} (e : exn) : only_adds ok (@raise world A e).
Proof. apply only_adds_silent. by intros w r w' [= <- <-]. Qed.

Lemma only_adds_seq (w w1 w' : world) (o1 o2 : list fsop) :
  trace w1 = trace w ++ o1 -> Forall ok o1 ->
  (forall p, Wr p ∉ o1 -> Rm p ∉ o1 -> files w1 !! p = files w !! p) ->
  trace w' = trace w1 ++ o2 -> Forall ok o2 ->
  (forall p, Wr p ∉ o2 -> Rm p ∉ o2 -> files w' !! p = files w1 !! p) ->
  exists ops, trace w' = trace w ++ ops /\ Forall ok ops /\
              forall p, Wr p ∉ ops -> Rm p ∉ ops -> files w' !! p = files w !! p.
Proof.
  intros E1 F1 K1 E2 F2 K2. exists (o1 ++ o2).
  split; [by rewrite E2, E1, app_assoc |]. split; [by apply Forall_app |].
  intros p Hw Hr. rewrite K2, K1; [done | | | |]; intros Hin; [apply Hw | apply Hr | apply Hw | apply Hr];
    apply elem_of_app; auto.
Qed.

Lemma only_adds_bind {A B} (m : M A) (k : A -> M B) :
  only_adds ok m -> (forall a, only_adds ok (k a)) -> only_adds ok (bind m k).
Proof.
  intros Hm Hk w r w'. unfold bind. destruct (m w) as [[a|e] w1] eqn:Hmw.
  - intros Hkw. destruct (Hm _ _ _ Hmw) as (o1 & E1 & F1 & K1).
    destruct (Hk a _ _ _ Hkw) as (o2 & E2 & F2 & K2).
    by apply (only_adds_seq w w1 w' o1 o2).
  - intros [= <- <-]. by apply (Hm _ _ _ Hmw).
Qed.

Lemma only_adds_try {A} (m : M A) (handled : exn -> bool) (h : exn -> M A) :
  only_adds ok m -> (forall e, only_adds ok (h e)) -> only_adds ok (try_except m handled h).
Proof.
  intros Hm Hh w r w'. unfold try_except. destruct (m w) as [[a|e] w1] eqn:Hmw.
  - intros [= <- <-]. by apply (Hm _ _ _ Hmw).
  - destruct (handled e).
    + intros Hhw. destruct (Hm _ _ _ Hmw) as (o1 & E1 & F1 & K1).
      destruct (Hh e _ _ _ Hhw) as (o2 & E2 & F2 & K2).
      by apply (only_adds_seq w w1 w' o1 o2).
    + intros [= <- <-]. by apply (Hm _ _ _ Hmw).
Qed.

Lemma only_adds_for_each {A} (xs : list A) (body : A -> M unit) :
  (forall x, x ∈ xs -> only_adds ok (body x)) -> only_adds ok (for_each xs body).
Proof.
  induction xs as [|x xs IH]; intros Hb; simpl; [apply only_adds_ret |].
  apply only_adds_bind; [apply Hb; constructor |].
  intros _. apply IH. intros y Hy. apply Hb. by constructor.
Qed.

Lemma only_adds_gets {A} (f : world -> A) : only_adds ok (gets f).
Proof. apply only_adds_silent. by intros w r w' [= <- <-]. Qed.

Lemma only_adds_exists (p : Path) : only_adds ok (exists_ p).
Proof. apply only_adds_gets. Qed.

Lemma only_adds_read_bytes (p : Path) : only_adds ok (read_bytes p).
Proof.
  apply only_adds_silent. intros w r w'. unfold read_bytes.
  by destruct (files w !! p); intros [= <- <-].
Qed.

Lemma only_adds_read_text (p : Path) : only_adds ok (read_text P p).
Proof.
  apply only_adds_bind; [apply only_adds_read_bytes |].
  intros b. destruct (decode_utf8 P b); [apply only_adds_ret | apply only_adds_raise].
Qed.

Lemma only_adds_log (s : status) (label : string) : only_adds ok (log_append s label).
Proof. apply only_adds_silent. by intros w r w' [= <- <-]. Qed.

Lemma only_adds_timestamp : only_adds ok (timestamp P).
Proof. apply only_adds_silent. by intros w r w' [= <- <-]. Qed.

Lemma only_adds_lift_heap {A} (m : HM A) : only_adds ok (lift_heap m).
Proof.
  apply only_adds_silent. intros w r w'. unfold lift_heap.
  by destruct (m (heap w)); intros [= <- <-].
Qed.

Lemma only_adds_write_bytes (p : Path) (b : bytes) :
  ok (Wr p) -> only_adds ok (write_bytes p b).
Proof.
  intros Hok w r w' [= <- <-]. exists [Wr p]. split; [done |]. split; [by constructor |].
  intros q Hw _. simpl. apply lookup_insert_ne. intros ->. apply Hw. by constructor.
Qed.

Lemma only_adds_copy2 (src dst : Path) : ok (Wr dst) -> only_adds ok (copy2 src dst).
Proof.
  intros Hok. apply only_adds_bind; [apply only_adds_read_bytes |].
  intros b. destruct (decide _); [apply only_adds_raise | by apply only_adds_write_bytes].
Qed.

Lemma only_adds_unlink (p : Path) : ok (Rm p) -> only_adds ok (unlink p).
Proof.
  intros Hok w r w'. unfold unlink. destruct (files w !! p).
  - intros [= <- <-]. exists [Rm p]. split; [done |]. split; [by constructor |].
    intros q _ Hr. simpl. apply lookup_delete_ne. intros ->. apply Hr. by constructor.
  - intros [= <- <-]. exists []. rewrite app_nil_r. by repeat split.
Qed.

Lemma only_adds_backup_file (p : Path) :
  (forall ts, ok (Wr (backup_path p ts))) -> only_adds ok (backup_file P p).
Proof.
  intros Hok. apply only_adds_bind; [apply only_adds_timestamp |].
  intros ts. apply only_adds_bind; [by apply only_adds_copy2 | intros; apply only_adds_ret].
Qed.

Lemma only_adds_smart_install (src dest : Path) (label : string) :
  ok (Wr dest) -> (forall ts, ok (Wr (backup_path dest ts))) ->
  only_adds ok (smart_install P src dest label).
Proof.
  intros Hd Hb. apply only_adds_bind; [apply only_adds_exists |]. intros e. destruct (negb e).
  - apply only_adds_bind; [by apply only_adds_copy2 | intros; apply only_adds_log].
  - apply only_adds_bind; [apply only_adds_read_bytes |]. intros s.
    apply only_adds_bind; [apply only_adds_read_bytes |]. intros d.
    destruct (negb _); [| apply only_adds_log].
    apply only_adds_bind; [by apply only_adds_backup_file |]. intros bak.
    apply only_adds_bind; [by apply only_adds_copy2 | intros; apply only_adds_log].
Qed.

Lemma only_adds_remove_with_log (dest : Path) (label : string) :
  ok (Rm dest) -> (forall ts, ok (Wr (backup_path dest ts))) ->
  only_adds ok (remove_with_log P dest label).
Proof.
  intros Hok Hb. apply only_adds_bind; [apply only_adds_exists |]. intros e.
  destruct e; [| apply only_adds_ret].
  apply only_adds_bind; [by apply only_adds_backup_file |]. intros bak.
  apply only_adds_bind; [by apply only_adds_unlink | intros; apply only_adds_log].
Qed.

End Traces.

Lemma child_inj (d : Path) (a b : string) : d // a = d // b -> a = b.
Proof. unfold child. intros H. apply app_inv_head in H. by injection H. Qed.
(** ** Documents *)

(** Induction on documents, through their lists and mappings. *)
Lemma json_ind_nested (Q : json -> Prop) :
  Q JNull -> (forall b, Q (JBool b)) -> (forall n, Q (JInt n)) -> (forall s, Q (JStr s)) ->
  (forall l, Forall Q l -> Q (JList l)) ->
  (forall d, Forall (fun kv => Q (snd kv)) d -> Q (JDict d)) ->
  forall t, Q t.
Proof.
  intros HN HB HI HS HL HD.
  fix IH 1. intros [ | b | n | s | l | d ]; [done | done | done | done | |].
  - apply HL. induction l as [|x l IHl]; constructor; [apply IH | apply IHl].
  - apply HD. induction d as [|[k v] d IHd]; constructor; [apply IH | apply IHd].
Qed.

Lemma json_eqb_refl (t : json) : json_eqb t t = true.
Proof.
  induction t as [ | b | n | s | l IHl | d IHd ] using json_ind_nested; simpl.
  - done.
  - by destruct b.
  - apply Z.eqb_refl.
  - apply String.eqb_refl.
  - induction IHl as [|x l Hx _ IH]; [done |]. by rewrite Hx, IH.
  - induction IHd as [|[k v] d Hv _ IH]; [done |]. simpl in Hv.
    by rewrite String.eqb_refl, Hv, IH.
Qed.

Lemma py_in_app_l (x : json) (l ex : list json) :
  py_in x l = true -> py_in x (l ++ ex) = true.
Proof. unfold py_in. rewrite existsb_app. by intros ->. Qed.

Lemma py_in_snoc (x : json) (l : list json) : py_in x (l ++ [x]) = true.
Proof.
  unfold py_in. rewrite existsb_app. simpl. rewrite json_eqb_refl. simpl.
  by rewrite orb_true_r.
Qed.

(** ** Dicts *)

Section DictLemmas.
Context {V : Type}.
Implicit Types (d : list (string * V)) (k : string) (v : V).

Lemma dict_get_set_eq k v d : dict_get k (dict_set k v d) = Some v.
Proof.
  induction d as [|[k' v'] d IH]; simpl.
  - by rewrite String.eqb_refl.
  - destruct (String.eqb k k') eqn:E; simpl; [by rewrite String.eqb_refl | by rewrite E].
Qed.

Lemma dict_get_set_ne k k' v d : k <> k' -> dict_get k' (dict_set k v d) = dict_get k' d.
Proof.
  intros Hne. induction d as [|[k2 v2] d IH]; simpl.
  - apply String.eqb_neq in Hne. rewrite String.eqb_sym in Hne. by rewrite Hne.
  - destruct (String.eqb k k2) eqn:E; simpl.
    + apply String.eqb_eq in E. subst k2.
      assert (String.eqb k' k = false) as -> by (apply String.eqb_neq; congruence). done.
    + by rewrite IH.
Qed.

Lemma dict_set_same k v d : dict_get k d = Some v -> dict_set k v d = d.
Proof.
  induction d as [|[k' v'] d IH]; simpl; [done |].
  destruct (String.eqb k k') eqn:E.
  - apply String.eqb_eq in E. by intros [= ->]; subst.
  - intros H. by rewrite IH.
Qed.

Lemma dict_get_set_some k k' v d :
  is_Some (dict_get k' d) -> is_Some (dict_get k' (dict_set k v d)).
Proof.
  intros H. destruct (decide (k = k')) as [->|Hne].
  - rewrite dict_get_set_eq. eauto.
  - by rewrite dict_get_set_ne.
Qed.

Lemma dict_has_true k d : dict_has k d = true <-> is_Some (dict_get k d).
Proof.
  unfold dict_has. destruct (dict_get k d); split; intros H; eauto; try done.
Qed.

Lemma dict_get_elem k v d : dict_get k d = Some v -> (k, v) ∈ d.
Proof.
  induction d as [|[k' v'] d IH]; simpl; [done |].
  destruct (String.eqb k k') eqn:E.
  - apply String.eqb_eq in E. intros [= ->]. subst. constructor.
  - intros H. constructor. by apply IH.
Qed.

Lemma dict_get_in_keys k d : is_Some (dict_get k d) <-> k ∈ map fst d.
Proof.
  induction d as [|[k' v'] d IH]; simpl.
  - split; [by intros [? ?] | by intros ?%elem_of_nil].
  - destruct (String.eqb k k') eqn:E.
    + apply String.eqb_eq in E. subst. split; [constructor | eauto].
    + rewrite IH. apply String.eqb_neq in E. split; [by constructor |].
      intros H. apply elem_of_cons in H as [?|?]; [congruence | done].
Qed.

End DictLemmas.

(** ** The store along a computation *)

Lemma stable_refl (prot : loc -> string -> Prop) (h : store) : stable prot h h.
Proof.
  split; [done |]. intros l [it|es] Hl.
  - exists it. by repeat split.
  - exists []. by rewrite app_nil_r.
Qed.

Lemma stable_trans (prot : loc -> string -> Prop) (h1 h2 h3 : store) :
  stable prot h1 h2 -> stable prot h2 h3 -> stable prot h1 h3.
Proof.
  intros [L12 H12] [L23 H23]. split; [lia |]. intros l [it|es] Hl.
  - destruct (H12 _ _ Hl) as (it2 & Hl2 & K2 & P2).
    destruct (H23 _ _ Hl2) as (it3 & Hl3 & K3 & P3).
    exists it3. split; [done |]. split; [by auto | by eauto].
  - destruct (H12 _ _ Hl) as (ex2 & Hl2). destruct (H23 _ _ Hl2) as (ex3 & Hl3).
    exists (ex2 ++ ex3). by rewrite app_assoc.
Qed.

Lemma stable_weaken (prot prot' : loc -> string -> Prop) (h h' : store) :
  (forall l k, l < length h -> prot' l k -> prot l k) ->
  stable prot h h' -> stable prot' h h'.
Proof.
  intros Hw [L H]. split; [done |]. intros l [it|es] Hl; [| by apply (H _ _ Hl)].
  destruct (H _ _ Hl) as (it' & Hl' & K & Pr). exists it'. repeat split; [done | done |].
  intros k v Hp. apply Pr, Hw; [| done]. by apply lookup_lt_Some in Hl.
Qed.

Lemma stable_dict (prot : loc -> string -> Prop) (h h' : store) (l : loc)
    (it : list (string * val)) :
  stable prot h h' -> h !! l = Some (ODict it) ->
  exists it', h' !! l = Some (ODict it') /\
    (forall k, is_Some (dict_get k it) -> is_Some (dict_get k it')) /\
    (forall k v, prot l k -> dict_get k it = Some v -> dict_get k it' = Some v).
Proof. intros [_ H] Hl. apply (H _ _ Hl). Qed.

Lemma stable_list (prot : loc -> string -> Prop) (h h' : store) (l : loc)
    (es : list json) :
  stable prot h h' -> h !! l = Some (OList es) ->
  exists ex, h' !! l = Some (OList (es ++ ex)).
Proof. intros [_ H] Hl. apply (H _ _ Hl). Qed.

(** An entry that is protected is read again as it was. *)
Lemma field_stable (prot : loc -> string -> Prop) (h h' : store) (l : loc)
    (k : string) (x : val) :
  stable prot h h' -> prot l k ->
  field h (VRef l) k = Some x -> field h' (VRef l) k = Some x.
Proof.
  intros Hst Hp. unfold field. simpl.
  destruct (h !! l) as [[it|es]|] eqn:Hl; [| done | done].
  destruct (stable_dict _ _ _ _ _ Hst Hl) as (it' & -> & _ & Pr). by apply Pr.
Qed.


(** Membership, once true, stays true. *)
Lemma holds_in_stable (prot : loc -> string -> Prop) (h h' : store) (v : val) (x : json) :
  stable prot h h' -> holds_in h v x -> holds_in h' v x.
Proof.
  intros Hst. unfold holds_in, Store.py_contains, Store.look, bind.
  destruct v as [ | b | n | s | l]; simpl; try done.
  - destruct x; simpl; try done. by intros [= ->].
  - destruct (h !! l) as [[it|es]|] eqn:Hl; [| | done].
    + destruct (stable_dict _ _ _ _ _ Hst Hl) as (it' & -> & K & _).
      destruct x; simpl; try done. unfold ret. intros [= Hh].
      apply dict_has_true, K, dict_has_true in Hh. by rewrite Hh.
    + destruct (stable_list _ _ _ _ _ Hst Hl) as (ex & ->). unfold ret.
      intros [= Hin]. by rewrite (py_in_app_l _ _ _ Hin).
Qed.

Section Keeps.

Variable n : nat.
Variable prot : loc -> string -> Prop.

Lemma keeps_readonly {A} (m : HM A) :
  (forall h r h', m h = (r, h') -> h' = h) -> keeps n prot m.
Proof. intros H h r h' _ Hm. rewrite (H _ _ _ Hm). apply stable_refl. Qed.

Lemma keeps_ret {A} (a : A) : keeps n prot (ret a).
Proof. apply keeps_readonly. by intros h r h' [= <- <-]. Qed.

Lemma keeps_raise {A} (e : exn) : keeps n prot (@raise store A e).
Proof. apply keeps_readonly. by intros h r h' [= <- <-]. Qed.

(** Sequencing, with what is known of the first result. *)
Lemma keeps_bind_post {A B} (Q : A -> Prop) (m : HM A) (k : A -> HM B) :
  keeps n prot m ->
  (forall h a h', n <= length h -> m h = (Ok a, h') -> Q a) ->
  (forall a, Q a -> keeps n prot (k a)) ->
  keeps n prot (bind m k).
Proof.
  intros Hm HQ Hk h r h' Hn. unfold bind. destruct (m h) as [[a|e] h1] eqn:Hmh.
  - intros Hka. pose proof (Hm _ _ _ Hn Hmh) as H1.
    eapply stable_trans; [exact H1 |].
    apply (Hk a (HQ _ _ _ Hn Hmh) h1 r h'); [| done]. destruct H1. lia.
  - intros [= <- <-]. by apply (Hm _ _ _ Hn Hmh).
Qed.

Lemma keeps_bind {A B} (m : HM A) (k : A -> HM B) :
  keeps n prot m -> (forall a, keeps n prot (k a)) -> keeps n prot (bind m k).
Proof. intros Hm Hk. apply (keeps_bind_post (fun _ => True)); auto. Qed.

Lemma keeps_for_each {A} (xs : list A) (body : A -> HM unit) :
  (forall x, keeps n prot (body x)) -> keeps n prot (for_each xs body).
Proof.
  intros Hb. induction xs as [|x xs IH]; simpl; [apply keeps_ret |].
  apply keeps_bind; [apply Hb | intros _; apply IH].
Qed.

Lemma look_readonly (v : val) h r h' : Store.look v h = (r, h') -> h' = h.
Proof. unfold Store.look. by destruct (Store.view_of h v); intros [= <- <-]. Qed.

Lemma keeps_look (v : val) : keeps n prot (Store.look v).
Proof. apply keeps_readonly, look_readonly. Qed.

(** A computation that looks a value up and returns or raises. *)
Lemma keeps_look_then {A} (v : val) (k : Store.view -> HM A) :
  (forall vw, keeps n prot (k vw)) -> keeps n prot (bind (Store.look v) k).
Proof. intros. apply keeps_bind; [apply keeps_look | done]. Qed.

Lemma keeps_alloc (o : obj) : keeps n prot (Store.alloc o).
Proof.
  intros h r h' _ [= <- <-]. split; [rewrite length_app; lia |].
  intros l [it|es] Hl.
  - exists it. rewrite lookup_app_l by (by apply lookup_lt_Some in Hl). by repeat split.
  - exists []. rewrite app_nil_r. by rewrite lookup_app_l by (by apply lookup_lt_Some in Hl).
Qed.

Lemma keeps_is_dict (v : val) : keeps n prot (Store.is_dict v).
Proof. apply keeps_look_then. intros. apply keeps_ret. Qed.

Lemma keeps_is_list (v : val) : keeps n prot (Store.is_list v).
Proof. apply keeps_look_then. intros. apply keeps_ret. Qed.

Lemma keeps_items_of (v : val) : keeps n prot (Store.items_of v).
Proof. apply keeps_look_then. intros []; (apply keeps_ret || apply keeps_raise). Qed.

Lemma keeps_py_contains (v : val) (x : json) : keeps n prot (Store.py_contains v x).
Proof.
  apply keeps_look_then. intros [l it|l es|j].
  - destruct x; (apply keeps_ret || apply keeps_raise).
  - apply keeps_ret.
  - destruct j; try apply keeps_raise. destruct x; (apply keeps_ret || apply keeps_raise).
Qed.

Lemma keeps_py_getitem (v : val) (k : string) : keeps n prot (Store.py_getitem v k).
Proof.
  apply keeps_look_then. intros [l it|l es|j]; try apply keeps_raise.
  destruct (dict_get k it); (apply keeps_ret || apply keeps_raise).
Qed.

Lemma keeps_py_get (v : val) (k : string) (dflt : val) : keeps n prot (Store.py_get v k dflt).
Proof.
  apply keeps_look_then. intros [l it|l es|j]; (apply keeps_ret || apply keeps_raise).
Qed.

Lemma keeps_py_iter (v : val) : keeps n prot (Store.py_iter v).
Proof.
  apply keeps_look_then. intros [l it|l es|j]; try apply keeps_ret.
  destruct j; (apply keeps_ret || apply keeps_raise).
Qed.

Lemma keeps_py_truthy (v : val) : keeps n prot (Store.py_truthy v).
Proof. apply keeps_look_then. intros. apply keeps_ret. Qed.

Lemma keeps_document (depth : nat) (v : val) : keeps n prot (Store.document depth v).
Proof.
  apply keeps_readonly. intros h r h'. unfold Store.document.
  by destruct (Store.reify depth h v); intros [= <- <-].
Qed.

Lemma keeps_py_equal (depth : nat) (a b : val) : keeps n prot (Store.py_equal depth a b).
Proof.
  apply keeps_bind; [apply keeps_document |]. intros ta.
  apply keeps_bind; [apply keeps_document |]. intros tb. apply keeps_ret.
Qed.

Lemma view_of_dict h v l it :
  Store.view_of h v = Some (Store.IsDict l it) -> v = VRef l /\ h !! l = Some (ODict it).
Proof.
  destruct v as [ | | | |l']; simpl; try done.
  destruct (h !! l') as [[it'|es]|] eqn:E; try done. by intros [= -> ->].
Qed.

Lemma view_of_list h v l es :
  Store.view_of h v = Some (Store.IsList l es) -> v = VRef l /\ h !! l = Some (OList es).
Proof.
  destruct v as [ | | | |l']; simpl; try done.
  destruct (h !! l') as [[it'|es']|] eqn:E; try done. by intros [= -> ->].
Qed.

(** Writing a dict back with more keys and its protected values. *)
Lemma stable_store_dict (h : store) (l : loc) (it it' : list (string * val)) :
  h !! l = Some (ODict it) ->
  (forall k, is_Some (dict_get k it) -> is_Some (dict_get k it')) ->
  (forall k v, prot l k -> dict_get k it = Some v -> dict_get k it' = Some v) ->
  stable prot h (<[l := ODict it']> h).
Proof.
  intros Hl K Pr. split; [by rewrite length_insert |]. intros l' o Hl'.
  destruct (decide (l' = l)) as [->|Hne].
  - rewrite Hl in Hl'. injection Hl' as <-. exists it'.
    rewrite list_lookup_insert_eq by (by apply lookup_lt_Some in Hl). by repeat split.
  - rewrite list_lookup_insert_ne by done. destruct o as [it2|es].
    + exists it2. by repeat split.
    + exists []. by rewrite app_nil_r.
Qed.

Lemma stable_store_list (h : store) (l : loc) (es ex : list json) :
  h !! l = Some (OList es) -> stable prot h (<[l := OList (es ++ ex)]> h).
Proof.
  intros Hl. split; [by rewrite length_insert |]. intros l' o Hl'.
  destruct (decide (l' = l)) as [->|Hne].
  - rewrite Hl in Hl'. injection Hl' as <-. exists ex.
    by rewrite list_lookup_insert_eq by (by apply lookup_lt_Some in Hl).
  - rewrite list_lookup_insert_ne by done. destruct o as [it2|es2].
    + exists it2. by repeat split.
    + exists []. by rewrite app_nil_r.
Qed.

Lemma keeps_py_setitem (v : val) (k : string) (x : val) :
  (forall l, v = VRef l -> ~ prot l k) -> keeps n prot (Store.py_setitem v k x).
Proof.
  intros Hfree h r h' _. unfold Store.py_setitem, bind, Store.look.
  destruct (Store.view_of h v) as [[l it|l es|j]|] eqn:Hv;
    try (intros [= <- <-]; apply stable_refl).
  apply view_of_dict in Hv as [-> Hl]. intros [= <- <-].
  apply (stable_store_dict _ _ it); [done | intros ?; apply dict_get_set_some |].
  intros k' v' Hp Hg. rewrite dict_get_set_ne; [done |]. intros ->. by apply (Hfree l).
Qed.

Lemma keeps_py_setdefault (v : val) (k : string) (dflt : val) :
  keeps n prot (Store.py_setdefault v k dflt).
Proof.
  intros h r h' _. unfold Store.py_setdefault, bind, Store.look.
  destruct (Store.view_of h v) as [[l it|l es|j]|] eqn:Hv;
    try (intros [= <- <-]; apply stable_refl).
  apply view_of_dict in Hv as [-> Hl].
  destruct (dict_get k it) eqn:Hk; [intros [= <- <-]; apply stable_refl |].
  intros [= <- <-]. apply (stable_store_dict _ _ it); [done | intros ?; apply dict_get_set_some |].
  intros k' v' _ Hg. rewrite dict_get_set_ne; [done |]. intros ->. congruence.
Qed.

Lemma keeps_py_append (v : val) (x : json) : keeps n prot (Store.py_append v x).
Proof.
  intros h r h' _. unfold Store.py_append, bind, Store.look.
  destruct (Store.view_of h v) as [[l it|l es|j]|] eqn:Hv;
    try (intros [= <- <-]; apply stable_refl).
  apply view_of_list in Hv as [-> Hl]. intros [= <- <-]. by apply stable_store_list.
Qed.

Lemma keeps_extend_new (dst src : val) : keeps n prot (Store.extend_new dst src).
Proof.
  apply keeps_bind; [apply keeps_py_iter |]. intros items.
  apply keeps_for_each. intros item.
  apply keeps_bind; [apply keeps_py_contains |]. intros present.
  destruct (negb present); [apply keeps_py_append | apply keeps_ret].
Qed.

Lemma keeps_dict_of (v : val) : keeps n prot (Store.dict_of v).
Proof.
  apply keeps_look_then. intros [l it|l [|? ?]|j];
    try apply keeps_alloc; try apply keeps_raise.
  destruct j; try apply keeps_raise. destruct (String.eqb s ""); [apply keeps_alloc | apply keeps_raise].
Qed.

End Keeps.

(** ** The merge in the store *)

Lemma dict_of_fresh (v a : val) (h h' : store) :
  Store.dict_of v h = (Ok a, h') -> a = VRef (length h).
Proof.
  unfold Store.dict_of, bind, Store.look, Store.alloc.
  destruct (Store.view_of h v) as [[l it|l [|? ?]|j]|]; try done; try by intros [= <- _].
  destruct j; try done. destruct (String.eqb s ""); [by intros [= <- _] | done].
Qed.

Section MergeKeeps.

Variable P : platform.

Lemma keeps_both_are (n : nat) (prot : loc -> string -> Prop) (is_T : val -> HM bool)
    (merged : val) (key : string) (value : val) :
  (forall v, keeps n prot (is_T v)) -> keeps n prot (both_are is_T merged key value).
Proof.
  intros HT. apply keeps_bind; [apply keeps_py_contains |]. intros has.
  destruct has; [| apply keeps_ret].
  apply keeps_bind; [apply keeps_py_getitem |]. intros mk.
  apply keeps_bind; [apply HT |]. intros t1. destruct t1; [apply HT | apply keeps_ret].
Qed.

Lemma keeps_merge_item (n : nat) (prot : loc -> string -> Prop)
    (rec : val -> val -> HM val) (m : loc) (kv : string * val) :
  (forall b o, keeps n prot (rec b o)) ->
  ~ prot m (fst kv) ->
  keeps n prot (merge_item rec (VRef m) kv).
Proof.
  intros Hrec Hm. destruct kv as [key value]. unfold merge_item. simpl in *.
  apply keeps_bind; [apply keeps_both_are, keeps_is_dict |]. intros dicts.
  destruct dicts.
  - apply keeps_bind; [apply keeps_py_getitem |]. intros mk.
    apply keeps_bind; [apply Hrec |]. intros r.
    apply keeps_py_setitem. by intros l [= <-].
  - apply keeps_bind; [apply keeps_both_are, keeps_is_list |]. intros lists.
    destruct lists.
    + apply keeps_bind; [apply keeps_py_iter |]. intros elems.
      apply keeps_for_each. intros item.
      apply keeps_bind; [apply keeps_py_getitem |]. intros mk.
      apply keeps_bind; [apply keeps_py_contains |]. intros present.
      destruct (negb present); [| apply keeps_ret].
      apply keeps_bind; [apply keeps_py_getitem |]. intros mk'. apply keeps_py_append.
    + apply keeps_py_setitem. by intros l [= <-].
Qed.

(** [deep_merge_settings] changes no dict that was in the store when it
    was called: it writes the items of the dicts it creates and appends
    to lists. *)
Lemma keeps_deep_merge (n depth : nat) (base overlay : val) :
  keeps n (fun l _ => l < n) (deep_merge_settings depth base overlay).
Proof.
  revert base overlay. induction depth as [|depth IH]; intros base overlay; simpl.
  - apply keeps_raise.
  - apply (keeps_bind_post _ _ (fun a => exists l, a = VRef l /\ n <= l));
      [apply keeps_dict_of | |].
    { intros h a h' Hn Hd. apply dict_of_fresh in Hd. eauto. }
    intros merged (m & -> & Hm).
    apply keeps_bind; [apply keeps_items_of |]. intros items.
    apply keeps_bind; [| intros; apply keeps_ret].
    apply keeps_for_each. intros kv. apply keeps_merge_item; [done | lia].
Qed.

(** In particular every entry of every dict of the store is kept. *)
Lemma deep_merge_stable (prot : loc -> string -> Prop) (depth : nat) (base overlay : val)
    (h h' : store) (r : res val) :
  deep_merge_settings depth base overlay h = (r, h') -> stable prot h h'.
Proof.
  intros Hrun. apply (stable_weaken (fun l _ => l < length h)); [auto |].
  by apply (keeps_deep_merge (length h) depth base overlay h r h').
Qed.

Lemma keeps_deep_merge_any (n : nat) (prot : loc -> string -> Prop) (depth : nat)
    (base overlay : val) :
  keeps n prot (deep_merge_settings depth base overlay).
Proof. intros h r h' _ Hrun. by apply (deep_merge_stable prot depth base overlay h h' r). Qed.

End MergeKeeps.

(** *** Running store computations *)

Lemma bind_ok {S A B} (m : ST S A) (k : A -> ST S B) (s s' : S) (b : B) :
  bind m k s = (Ok b, s') -> exists a s1, m s = (Ok a, s1) /\ k a s1 = (Ok b, s').
Proof. unfold bind. destruct (m s) as [[a|e] s1]; [eauto | done]. Qed.

Lemma for_each_cons_ok {S A} (x : A) (xs : list A) (body : A -> ST S unit) (s s' : S) :
  for_each (x :: xs) body s = (Ok tt, s') ->
  exists s1, body x s = (Ok tt, s1) /\ for_each xs body s1 = (Ok tt, s').
Proof. simpl. intros H. apply bind_ok in H as ([] & s1 & H1 & H2). eauto. Qed.

(** What every round of a loop brings about and no round undoes holds
    for every item at the end; [Inv] is what all rounds maintain. *)
Lemma for_each_establish_inv {S A} (Inv : S -> Prop) (Phi : A -> S -> Prop) (xs : list A)
    (body : A -> ST S unit) (s s' : S) :
  Inv s ->
  (forall y s0 s1, Inv s0 -> body y s0 = (Ok tt, s1) -> Inv s1) ->
  (forall x s0 s1, x ∈ xs -> Inv s0 -> body x s0 = (Ok tt, s1) -> Phi x s1) ->
  (forall x y s0 s1, body y s0 = (Ok tt, s1) -> Phi x s0 -> Phi x s1) ->
  for_each xs body s = (Ok tt, s') ->
  forall x, x ∈ xs -> Phi x s'.
Proof.
  intros HI Hinv Hest Hkeep. revert s HI. induction xs as [|y xs IH]; intros s HI Hrun x Hx.
  - by apply elem_of_nil in Hx.
  - apply for_each_cons_ok in Hrun as (s1 & Hy & Hrest).
    assert (Hafter : forall z, Phi z s1 -> Phi z s').
    { clear -Hkeep Hrest. intros z. revert s1 Hrest.
      induction xs as [|y' xs IH']; intros s1 Hrest Hz.
      - simpl in Hrest. by injection Hrest as <-.
      - apply for_each_cons_ok in Hrest as (s2 & Hy' & Hrest). eauto. }
    apply elem_of_cons in Hx as [->|Hx].
    + apply Hafter. apply (Hest y s s1); [constructor | done | done].
    + apply (IH (fun x s0 s1 Hin => Hest x s0 s1 (list_elem_of_further _ _ _ Hin)) s1);
        eauto.
Qed.


Lemma look_ok (v : val) (h h' : store) (vw : Store.view) :
  Store.look v h = (Ok vw, h') -> h' = h /\ Store.view_of h v = Some vw.
Proof. unfold Store.look. destruct (Store.view_of h v); [by intros [= <- <-] | done]. Qed.







Lemma is_dict_readonly (v : val) h r h' : Store.is_dict v h = (r, h') -> h' = h.
Proof.
  unfold Store.is_dict, bind. destruct (Store.look v h) as [[vw|e] h1] eqn:E;
    apply look_readonly in E as ->; by intros [= _ <-].
Qed.


Lemma items_of_ok (v : val) (items : list (string * val)) (h h' : store) :
  Store.items_of v h = (Ok items, h') ->
  h' = h /\ exists l, v = VRef l /\ h !! l = Some (ODict items).
Proof.
  unfold Store.items_of. intros H. apply bind_ok in H as (vw & h1 & Hl & H).
  apply look_ok in Hl as [-> Hv]. destruct vw as [l it|l es|j]; try done.
  injection H as <- <-. apply view_of_dict in Hv as [-> Hl]. eauto.
Qed.

Lemma dict_of_ok (v a : val) (h h' : store) :
  Store.dict_of v h = (Ok a, h') ->
  exists it, a = VRef (length h) /\ h' = h ++ [ODict it] /\
             forall k x, field h v k = Some x -> dict_get k it = Some x.
Proof.
  unfold Store.dict_of. intros H. apply bind_ok in H as (vw & h1 & Hl & H).
  apply look_ok in Hl as [-> Hv]. unfold field. rewrite Hv.
  destruct vw as [l it|l [|? ?]|j]; try done.
  - injection H as <- <-. eauto.
  - injection H as <- <-. by exists [].
  - destruct j; try done. destruct (String.eqb s ""); [| done].
    injection H as <- <-. by exists [].
Qed.

Lemma field_alloc (h : store) (o : obj) (v : val) (k : string) (x : val) :
  field h v k = Some x -> field (h ++ [o]) v k = Some x.
Proof.
  unfold field. destruct v as [ | | | |l]; simpl; try done.
  destruct (h !! l) as [[it|es]|] eqn:Hl; try done.
  by rewrite lookup_app_l, Hl by (by apply lookup_lt_Some in Hl).
Qed.

Lemma field_new (h : store) (it : list (string * val)) (k : string) :
  field (h ++ [ODict it]) (VRef (length h)) k = dict_get k it.
Proof.
  unfold field. simpl. rewrite lookup_app_r by lia. by rewrite Nat.sub_diag.
Qed.



(** ** The merge of the global settings *)

Lemma field_ref (h : store) (v x : val) (k : string) :
  field h v k = Some x -> exists l it, v = VRef l /\ h !! l = Some (ODict it) /\ dict_get k it = Some x.
Proof.
  unfold field. destruct (Store.view_of h v) as [[l it|l es|j]|] eqn:Hv; try done.
  apply view_of_dict in Hv as [-> Hl]. eauto.
Qed.

(** An entry read again after store changes that protect all entries. *)
Lemma field_kept (h h' : store) (v x : val) (k : string) :
  stable (fun _ _ => True) h h' -> field h v k = Some x -> field h' v k = Some x.
Proof.
  intros Hst Hf. destruct (field_ref _ _ _ _ Hf) as (l & it & -> & _ & _).
  by apply (field_stable (fun _ _ => True) h h').
Qed.

Lemma py_contains_key_true (h : store) (v x : val) (k : string) :
  field h v k = Some x -> Store.py_contains v (JStr k) h = (Ok true, h).
Proof.
  intros Hf. destruct (field_ref _ _ _ _ Hf) as (l & it & -> & Hl & Hg).
  unfold Store.py_contains, bind, Store.look. simpl. rewrite Hl. unfold ret.
  by rewrite (proj2 (dict_has_true k it)) by eauto.
Qed.




Lemma py_iter_list (l : loc) (es : list json) (h : store) :
  h !! l = Some (OList es) -> Store.py_iter (VRef l) h = (Ok es, h).
Proof. intros Hl. unfold Store.py_iter, bind, Store.look. simpl. by rewrite Hl. Qed.

Lemma py_append_holds (v : val) (x : json) (h h' : store) :
  Store.py_append v x h = (Ok tt, h') -> holds_in h' v x.
Proof.
  unfold Store.py_append. intros H. apply bind_ok in H as (vw & h1 & Hl & H).
  apply look_ok in Hl as [-> Hv]. destruct vw as [l it|l es|j]; try done.
  apply view_of_list in Hv as [-> Hl]. injection H as <-.
  unfold holds_in, Store.py_contains, bind, Store.look. simpl.
  rewrite list_lookup_insert_eq by (by apply lookup_lt_Some in Hl).
  unfold ret. by rewrite py_in_snoc.
Qed.

Lemma py_contains_readonly (v : val) (x : json) h r h' :
  Store.py_contains v x h = (r, h') -> h' = h.
Proof.
  unfold Store.py_contains, bind.
  destruct (Store.look v h) as [[vw|e] h1] eqn:E; apply look_readonly in E as ->;
    [| by intros [= _ <-]].
  destruct vw as [l it|l es|j]; [destruct x | | destruct j; try destruct x];
    by intros [= _ <-].
Qed.


Section SettingsMerge.

Variable P : platform.

Lemma keeps_merge_env (n : nat) (prot : loc -> string -> Prop) (template merged : val) :
  (forall l, ~ prot l "env") -> keeps n prot (merge_env P template merged).
Proof.
  intros Hp. apply keeps_bind; [apply keeps_py_contains |]. intros [|]; [| apply keeps_ret].
  apply keeps_bind; [apply keeps_alloc |]. intros dflt.
  apply keeps_bind; [apply keeps_py_get |]. intros menv.
  apply keeps_bind; [apply keeps_py_getitem |]. intros tenv.
  apply keeps_bind; [apply keeps_deep_merge_any |]. intros r.
  apply keeps_py_setitem. intros l _. apply Hp.
Qed.

Lemma keeps_merge_permission_list (n : nat) (prot : loc -> string -> Prop)
    (template merged : val) (perm_key : string) :
  keeps n prot (merge_permission_list template merged perm_key).
Proof.
  apply keeps_bind; [apply keeps_py_getitem |]. intros tperms.
  apply keeps_bind; [apply keeps_py_contains |]. intros [|]; [| apply keeps_ret].
  apply keeps_bind; [apply keeps_alloc |]. intros dflt.
  apply keeps_bind; [apply keeps_py_setdefault |]. intros mperms.
  apply keeps_bind; [apply keeps_alloc |]. intros dflt'.
  apply keeps_bind; [apply keeps_py_setdefault |]. intros base_list.
  apply keeps_bind; [apply keeps_py_getitem |]. intros tperms'.
  apply keeps_bind; [apply keeps_py_getitem |]. intros tlist.
  apply keeps_extend_new.
Qed.

Lemma keeps_merge_permission_scalar (n : nat) (prot : loc -> string -> Prop)
    (template merged : val) (scalar_key : string) :
  (forall l, ~ prot l scalar_key) ->
  keeps n prot (merge_permission_scalar template merged scalar_key).
Proof.
  intros Hp. apply keeps_bind; [apply keeps_alloc |]. intros dflt.
  apply keeps_bind; [apply keeps_py_get |]. intros tperms.
  apply keeps_bind; [apply keeps_py_contains |]. intros [|]; [| apply keeps_ret].
  apply keeps_bind; [apply keeps_py_getitem |]. intros tperms'.
  apply keeps_bind; [apply keeps_py_getitem |]. intros x.
  apply keeps_bind; [apply keeps_alloc |]. intros dflt'.
  apply keeps_bind; [apply keeps_py_setdefault |]. intros mperms.
  apply keeps_py_setitem. intros l _. apply Hp.
Qed.

Lemma keeps_merge_model (n : nat) (prot : loc -> string -> Prop)
    (default_model : string) (merged : val) :
  (forall l, ~ prot l "model") -> keeps n prot (merge_model default_model merged).
Proof.
  intros Hp. unfold merge_model. destruct (model_selected default_model); [| apply keeps_ret].
  apply keeps_py_setitem. intros l _. apply Hp.
Qed.

End SettingsMerge.

Section TemplateWins.

Variable P : platform.

Lemma stable_alloc (prot : loc -> string -> Prop) (h : store) (o : obj) :
  stable prot h (h ++ [o]).
Proof. by apply (keeps_alloc 0 prot o h (Ok (VRef (length h))) (h ++ [o])); [lia |]. Qed.





Lemma field_prot (prot : loc -> string -> Prop) (h h' : store) (v x : val) (k : string) :
  stable prot h h' -> (forall l, prot l k) ->
  field h v k = Some x -> field h' v k = Some x.
Proof.
  intros Hst Hp Hf. destruct (field_ref _ _ _ _ Hf) as (l & it & -> & _ & _).
  by apply (field_stable prot h h').
Qed.

Lemma keeps_permission_scalars (n : nat) (prot : loc -> string -> Prop)
    (template merged : val) :
  (forall l, ~ prot l "defaultMode") ->
  (forall l, ~ prot l "disableBypassPermissionsMode") ->
  keeps n prot (for_each ["defaultMode"; "disableBypassPermissionsMode"]
                         (merge_permission_scalar template merged)).
Proof.
  intros H1 H2. simpl.
  apply keeps_bind; [by apply keeps_merge_permission_scalar |]. intros _.
  apply keeps_bind; [by apply keeps_merge_permission_scalar |]. intros _. apply keeps_ret.
Qed.

Lemma keeps_merge_permissions (n : nat) (prot : loc -> string -> Prop)
    (template merged : val) :
  (forall l, ~ prot l "defaultMode") ->
  (forall l, ~ prot l "disableBypassPermissionsMode") ->
  keeps n prot (merge_permissions template merged).
Proof.
  intros H1 H2. apply keeps_bind; [apply keeps_py_contains |].
  intros [|]; [| apply keeps_ret].
  apply keeps_bind; [apply keeps_for_each; intros; apply keeps_merge_permission_list |].
  intros _. by apply keeps_permission_scalars.
Qed.



End TemplateWins.

(** ** What the merge does to its first argument *)

Lemma for_each_app_ok {S A} (xs ys : list A) (body : A -> ST S unit) (s s' : S) :
  for_each (xs ++ ys) body s = (Ok tt, s') ->
  exists s1, for_each xs body s = (Ok tt, s1) /\ for_each ys body s1 = (Ok tt, s').
Proof.
  revert s. induction xs as [|x xs IH]; intros s; simpl.
  - intros H. by exists s.
  - intros H. apply bind_ok in H as ([] & s1 & Hx & H).
    destruct (IH _ H) as (s2 & H1 & H2). exists s2. split; [| done].
    unfold bind. by rewrite Hx.
Qed.

Lemma keeps_for_each_in (n : nat) (prot : loc -> string -> Prop) {A} (xs : list A)
    (body : A -> HM unit) :
  (forall x, x ∈ xs -> keeps n prot (body x)) -> keeps n prot (for_each xs body).
Proof.
  induction xs as [|x xs IH]; intros Hb; simpl; [apply keeps_ret |].
  apply keeps_bind; [apply Hb; constructor |].
  intros _. apply IH. intros y Hy. apply Hb. by constructor.
Qed.

Lemma is_dict_of_list (l : loc) (es : list json) (h : store) :
  h !! l = Some (OList es) -> Store.is_dict (VRef l) h = (Ok false, h).
Proof. intros Hl. unfold Store.is_dict, bind, Store.look. simpl. by rewrite Hl. Qed.

Lemma is_list_of_list (l : loc) (es : list json) (h : store) :
  h !! l = Some (OList es) -> Store.is_list (VRef l) h = (Ok true, h).
Proof. intros Hl. unfold Store.is_list, bind, Store.look. simpl. by rewrite Hl. Qed.

Lemma py_getitem_field (h : store) (v x : val) (k : string) :
  field h v k = Some x -> Store.py_getitem v k h = (Ok x, h).
Proof.
  intros Hf. destruct (field_ref _ _ _ _ Hf) as (l & it & -> & Hl & Hg).
  unfold Store.py_getitem, bind, Store.look. simpl. by rewrite Hl, Hg.
Qed.

Lemma holds_in_list (h : store) (l : loc) (es : list json) (x : json) :
  h !! l = Some (OList es) -> holds_in h (VRef l) x <-> py_in x es = true.
Proof.
  intros Hl. unfold holds_in, Store.py_contains, bind, Store.look. simpl. rewrite Hl.
  unfold ret. split; [by intros [= ->] | by intros ->].
Qed.

(** The round of the loop for a key that both dicts map to lists: the
    list of the first dict stays where it is and receives the items. *)
Lemma merge_item_lists (rec : val -> val -> HM val) (merged : val) (k : string)
    (lb lo : loc) (es ev : list json) (h h' : store) :
  merge_item rec merged (k, VRef lo) h = (Ok tt, h') ->
  field h merged k = Some (VRef lb) ->
  h !! lb = Some (OList es) -> h !! lo = Some (OList ev) ->
  stable (fun _ _ => True) h h' /\
  forall x, x ∈ ev -> holds_in h' (VRef lb) x.
Proof.
  intros H Hf Hlb Hlo. unfold merge_item in H. simpl in H.
  assert (Hd : both_are Store.is_dict merged k (VRef lo) h = (Ok false, h)).
  { unfold both_are, bind. rewrite (py_contains_key_true _ _ _ _ Hf).
    rewrite (py_getitem_field _ _ _ _ Hf). by rewrite (is_dict_of_list _ _ _ Hlb). }
  assert (Hl : both_are Store.is_list merged k (VRef lo) h = (Ok true, h)).
  { unfold both_are, bind. rewrite (py_contains_key_true _ _ _ _ Hf).
    rewrite (py_getitem_field _ _ _ _ Hf). rewrite (is_list_of_list _ _ _ Hlb).
    by rewrite (is_list_of_list _ _ _ Hlo). }
  unfold bind at 1 in H. rewrite Hd in H.
  unfold bind at 1 in H. rewrite Hl in H.
  unfold bind at 1 in H. rewrite (py_iter_list _ _ _ Hlo) in H.
  assert (Hbody : forall item, keeps 0 (fun _ _ => True)
            (mk <- Store.py_getitem merged k ;;
             present <- Store.py_contains mk item ;;
             if negb present then
               mk' <- Store.py_getitem merged k ;; Store.py_append mk' item
             else ret tt)).
  { intros item. apply keeps_bind; [apply keeps_py_getitem |]. intros mk.
    apply keeps_bind; [apply keeps_py_contains |]. intros present.
    destruct (negb present); [| apply keeps_ret].
    apply keeps_bind; [apply keeps_py_getitem |]. intros mk'. apply keeps_py_append. }
  split.
  - by refine (keeps_for_each 0 _ _ _ Hbody h (Ok tt) h' _ H); lia.
  - revert H.
    apply (for_each_establish_inv
             (fun hc => stable (fun _ _ => True) h hc)
             (fun x hc => holds_in hc (VRef lb) x)).
    + apply stable_refl.
    + intros y s0 s1 HI Hb. eapply stable_trans; [exact HI |].
      by refine (Hbody y s0 (Ok tt) s1 _ Hb); lia.
    + intros x s0 s1 _ HI Hb.
      pose proof (field_kept _ _ _ _ _ HI Hf) as Hf0.
      unfold bind at 1 in Hb. rewrite (py_getitem_field _ _ _ _ Hf0) in Hb.
      apply bind_ok in Hb as (present & s2 & Hc & Hb).
      pose proof (py_contains_readonly _ _ _ _ _ Hc) as ->.
      destruct present; simpl in Hb.
      * injection Hb as <-. exact Hc.
      * unfold bind at 1 in Hb. rewrite (py_getitem_field _ _ _ _ Hf0) in Hb.
        by apply py_append_holds in Hb.
    + intros x y s0 s1 Hb. apply (holds_in_stable (fun _ _ => True)).
      by refine (Hbody y s0 (Ok tt) s1 _ Hb); lia.
Qed.

Lemma dict_get_split {V} (k : string) (v : V) (d : list (string * V)) :
  dict_get k d = Some v ->
  exists pre post, d = pre ++ (k, v) :: post /\ k ∉ map fst pre.
Proof.
  induction d as [|[k' v'] d IH]; simpl; [done |].
  destruct (String.eqb k k') eqn:E.
  - apply String.eqb_eq in E. intros [= ->]. subst k'.
    exists [], d. split; [done | apply not_elem_of_nil].
  - intros H. destruct (IH H) as (pre & post & -> & Hpre).
    exists ((k', v') :: pre), post. split; [done |]. simpl.
    apply not_elem_of_cons. split; [| done]. by apply String.eqb_neq in E.
Qed.

Lemma dict_get_none_keys {V} (k : string) (d : list (string * V)) :
  dict_get k d = None -> k ∉ map fst d.
Proof.
  intros H Hin. apply dict_get_in_keys in Hin. rewrite H in Hin. by destruct Hin.
Qed.

(** The rounds for other keys leave the entry of a key as it is. *)
Lemma merge_loop_keeps_key (depth : nat) (m : loc) (k : string)
    (items : list (string * val)) (h h' : store) (r : res unit) :
  k ∉ map fst items ->
  for_each items (merge_item (deep_merge_settings depth) (VRef m)) h = (r, h') ->
  stable (fun _ key => key = k) h h'.
Proof.
  intros Hk Hrun.
  refine (keeps_for_each_in 0 _ items _ _ h r h' _ Hrun); [| lia].
  intros kv Hkv. apply keeps_merge_item; [intros; apply keeps_deep_merge_any |].
  intros E. simpl in E. apply Hk. apply list_elem_of_fmap. by exists kv.
Qed.

(** [deep_merge_settings] is not pure in [base]. Its result is a new
    dict (the shallow copy), but for a key that both arguments map to
    lists the result and [base] refer to one and the same list object,
    the one [base] had, and the call has appended to that object:
    afterwards it holds what it held, followed by more, and every
    element of the list of [overlay] is in it; so the caller's document
    has changed as soon as [overlay] brought a new element. The values
    of the keys that only [base] has are shared too. *)
Lemma deep_merge_shares_lists (depth : nat) (base overlay r : val)
    (h h' : store) (k : string) (lb lo : loc) (es ev : list json) :
  deep_merge_settings depth base overlay h = (Ok r, h') ->
  dict_wf h overlay ->
  field h base k = Some (VRef lb) -> h !! lb = Some (OList es) ->
  field h overlay k = Some (VRef lo) -> h !! lo = Some (OList ev) ->
  r = VRef (length h) /\ base <> r /\
  field h' r k = Some (VRef lb) /\ field h' base k = Some (VRef lb) /\
  (exists ex, h' !! lb = Some (OList (es ++ ex)) /\
              (forall x, x ∈ ev -> py_in x (es ++ ex) = true) /\
              ((exists x, x ∈ ev /\ py_in x es = false) -> ex <> [])) /\
  (forall k' x, field h base k' = Some x -> field h overlay k' = None ->
                field h' r k' = Some x).
Proof.
  intros H Hwf Hfb Hlb Hfo Hlo.
  pose proof (deep_merge_stable (fun _ _ => True) _ _ _ _ _ _ H) as S03.
  destruct depth as [|depth]; [done |]. simpl in H.
  apply bind_ok in H as (merged & h1 & Hd & H).
  apply bind_ok in H as (items & h2 & Hi & H).
  apply bind_ok in H as ([] & h3 & Hloop & H). injection H as <- <-.
  apply dict_of_ok in Hd as (it & -> & -> & Hbase).
  apply items_of_ok in Hi as [-> (lod & -> & Hlod)].
  destruct (field_ref _ _ _ _ Hfo) as (lod' & ito & [= <-] & Hlod' & Hgo).
  rewrite lookup_app_l, Hlod' in Hlod by (by apply lookup_lt_Some in Hlod').
  injection Hlod as ->.
  pose proof (Hwf lod items eq_refl Hlod') as Hnd.
  set (m := length h) in *. set (h1 := h ++ [ODict it]) in *.
  assert (Hm : forall key x, field h base key = Some x -> field h1 (VRef m) key = Some x).
  { intros key x Hx. unfold h1, m. rewrite field_new. by apply Hbase. }
  split; [done |]. split.
  { destruct (field_ref _ _ _ _ Hfb) as (lbd & itb & -> & Hlbd & _).
    intros [= E]. apply lookup_lt_Some in Hlbd. unfold m in E. lia. }
  assert (Hshared : forall k' x, field h base k' = Some x -> k' ∉ map fst items ->
                                 field h3 (VRef m) k' = Some x).
  { intros k' x Hx Hk'.
    apply (field_prot (fun _ key => key = k') h1 h3); [| done | by apply Hm].
    by apply (merge_loop_keeps_key depth m k' items h1 h3 (Ok tt)). }
  assert (Hother : forall k' x, field h base k' = Some x ->
                     field h (VRef lod) k' = None -> field h3 (VRef m) k' = Some x).
  { intros k' x Hx Hn. apply Hshared; [done |]. apply dict_get_none_keys.
    unfold field in Hn. simpl in Hn. by rewrite Hlod' in Hn. }
  destruct (dict_get_split _ _ _ Hgo) as (pre & post & -> & Hpre).
  assert (Hpost : k ∉ map fst post).
  { rewrite map_app in Hnd. apply NoDup_app in Hnd as (_ & _ & Hnd). simpl in Hnd.
    by apply NoDup_cons in Hnd as [Hnd _]. }
  apply for_each_app_ok in Hloop as (ha & Hpre_run & Hloop).
  apply for_each_cons_ok in Hloop as (hb & Hk_run & Hpost_run).
  pose proof (merge_loop_keeps_key depth m k pre h1 ha (Ok tt) Hpre Hpre_run) as S1a.
  pose proof (merge_loop_keeps_key depth m k post hb h3 (Ok tt) Hpost Hpost_run) as Sb3.
  pose proof (stable_trans _ _ _ _ (stable_alloc (fun _ key => key = k) h (ODict it)) S1a)
    as S0a.
  destruct (stable_list _ _ _ _ _ S0a Hlb) as (e1 & Hlba).
  destruct (stable_list _ _ _ _ _ S0a Hlo) as (e2 & Hloa).
  assert (Hfa : field ha (VRef m) k = Some (VRef lb)).
  { apply (field_prot _ h1 ha _ _ _ S1a); [done | by apply Hm]. }
  destruct (merge_item_lists _ _ _ _ _ _ _ _ _ Hk_run Hfa Hlba Hloa) as [Sab Hall].
  split.
  { apply (field_prot _ hb h3 _ _ _ Sb3); [done |]. by apply (field_kept ha hb). }
  split; [by apply (field_kept h h3) |].
  split; [| done].
  destruct (stable_list _ _ _ _ _ S03 Hlb) as (ex & Hlb3).
  assert (Hin : forall x, x ∈ ev -> py_in x (es ++ ex) = true).
  { intros x Hx. apply (holds_in_list h3 lb); [done |].
    apply (holds_in_stable _ hb h3 _ _ Sb3). apply Hall, elem_of_app. by left. }
  exists ex. split; [done |]. split; [done |].
  intros (x & Hx & Hnew) ->. rewrite app_nil_r in Hin. rewrite (Hin x Hx) in Hnew. done.
Qed.

(** ** The project settings *)

(** *** Store computations on the objects made last *)

Lemma lookup_app_plus {A} (h l : list A) (k : nat) : (h ++ l) !! (length h + k) = l !! k.
Proof. rewrite lookup_app_r by lia. f_equal. lia. Qed.

Lemma insert_app_plus {A} (h l : list A) (k : nat) (x : A) :
  <[length h + k := x]> (h ++ l) = h ++ <[k := x]> l.
Proof. rewrite insert_app_r_alt by lia. do 2 f_equal. lia. Qed.

Section RunStore.

Variables (h : store) (l : list obj).



Lemma look_run_list (k : nat) (es : list json) :
  l !! k = Some (OList es) ->
  Store.look (VRef (length h + k)) (h ++ l) = (Ok (Store.IsList (length h + k) es), h ++ l).
Proof. intros Hk. unfold Store.look. simpl. by rewrite lookup_app_plus, Hk. Qed.


Lemma contains_run_list (k : nat) (es : list json) (x : json) :
  l !! k = Some (OList es) ->
  Store.py_contains (VRef (length h + k)) x (h ++ l) = (Ok (py_in x es), h ++ l).
Proof. intros Hk. unfold Store.py_contains, bind. by rewrite (look_run_list k es Hk). Qed.

Lemma append_run (k : nat) (es : list json) (x : json) :
  l !! k = Some (OList es) ->
  Store.py_append (VRef (length h + k)) x (h ++ l)
  = (Ok tt, h ++ <[k := OList (es ++ [x])]> l).
Proof.
  intros Hk. unfold Store.py_append, bind. rewrite (look_run_list k es Hk).
  unfold Store.store_at, modify. by rewrite insert_app_plus.
Qed.

End RunStore.

Lemma bind_run {S A B} (m : ST S A) (k : A -> ST S B) (s s' : S) (a : A) :
  m s = (Ok a, s') -> bind m k s = k a s'.
Proof. unfold bind. by intros ->. Qed.

Lemma bind_raise {S A B} (m : ST S A) (k : A -> ST S B) (s s' : S) (e : exn) :
  m s = (Raise e, s') -> bind m k s = (Raise e, s').
Proof. unfold bind. by intros ->. Qed.

Lemma add_missing_run (h : store) (l : list obj) (k : nat) (tools es added : list json) :
  l !! k = Some (OList es) ->
  add_missing (VRef (length h + k)) tools added (h ++ l)
  = (Ok (added ++ list_new_items es tools),
     h ++ <[k := OList (list_extend_new es tools)]> l).
Proof.
  revert l es added. induction tools as [|tool tools IH]; intros l es added Hk; simpl.
  - unfold ret. by rewrite app_nil_r, list_insert_id.
  - rewrite (bind_run _ _ _ _ _ (contains_run_list h l k es tool Hk)).
    destruct (py_in tool es); simpl.
    + by apply IH.
    + rewrite (bind_run _ _ _ _ _ (append_run h l k es tool Hk)).
      rewrite (IH _ (es ++ [tool])).
      * by rewrite list_insert_insert_eq, <- app_assoc.
      * apply list_lookup_insert_eq. by apply lookup_lt_Some in Hk.
Qed.



Lemma lift_heap_run {A} (m : HM A) (w : world) (r : res A) (h' : store) :
  m (heap w) = (r, h') -> lift_heap m w = (r, set_heap (fun _ => h') w).
Proof. unfold lift_heap. by intros ->. Qed.


(** ** The global settings *)

Lemma alloc_json_dict (d : list (string * json)) (h : store) :
  exists l it h', Store.alloc_json (JDict d) h = (VRef l, h') /\ h' !! l = Some (ODict it).
Proof.
  cbn [Store.alloc_json].
  match goal with |- context [let '(_, _) := ?go d h in _] => destruct (go d h) as [items h1] end.
  exists (length h1), items, (h1 ++ [ODict items]). split; [done |].
  rewrite lookup_app_r by lia. by rewrite Nat.sub_diag.
Qed.

Section GlobalSettings.

Variable P : platform.


(** Settings whose bytes are no text are another matter: reading them
    raises [UnicodeDecodeError], which [install_global_settings] does
    not handle; nothing has been written by then. *)
Lemma install_global_settings_undecodable (default_model : string) (w : world)
    (tb d : bytes) (ttext : string) (td : list (string * json)) :
  files w !! HOME_SETTINGS_JSON P = Some tb ->
  decode_utf8 P tb = Some ttext ->
  json_loads P ttext = Some (JDict td) ->
  files w !! CLAUDE_SETTINGS P = Some d ->
  decode_utf8 P d = None ->
  exists h',
    install_global_settings P default_model w
    = (Raise UnicodeDecodeError, set_heap (fun _ => h') w).
Proof.
  intros Htf Htd Htj Hf Hd.
  destruct (alloc_json_dict td (heap w)) as (lt & itt & h1 & Hal & Hlt).
  pose (h1' := match model_selected default_model with
               | Some m => <[lt := ODict (dict_set "model" (VStr m) itt)]> h1
               | None => h1
               end).
  exists (h1' ++ [ODict []]).
  unfold install_global_settings.
  erewrite bind_run.
  2:{ unfold load_template, try_except. erewrite bind_run.
      2:{ unfold read_text. erewrite bind_run; [| unfold read_bytes; by rewrite Htf].
          by rewrite Htd. }
      erewrite bind_run; [reflexivity |].
      apply lift_heap_run. unfold loads. rewrite Htj. unfold Store.new_json.
      by rewrite Hal. }
  cbv iota beta.
  erewrite (bind_run (inject_model default_model (VRef lt))).
  2:{ unfold inject_model. apply lift_heap_run. cbn [heap set_heap].
      instantiate (1 := h1'). instantiate (1 := tt). unfold h1'.
      destruct (model_selected default_model); [| done].
      unfold Store.py_setitem, bind, Store.look. simpl. by rewrite Hlt. }
  erewrite bind_raise; [reflexivity |].
  unfold load_existing.
  erewrite bind_run; [| by apply lift_heap_run].
  erewrite bind_run.
  2:{ unfold exists_, gets. cbn [files set_heap]. by rewrite (bool_decide_is_Some_true _ _ Hf). }
  cbv iota. unfold try_except.
  erewrite (bind_raise (read_text P (CLAUDE_SETTINGS P))).
  2:{ unfold read_text. erewrite bind_run; [| unfold read_bytes; cbn [files set_heap]; by rewrite Hf].
      by rewrite Hd. }
  cbn [is_JSONDecodeError]. unfold Store.alloc. cbn.
  reflexivity.
Qed.

End GlobalSettings.

(** ** Backups before overwriting *)

Lemma new_ops_same (w w' : world) : trace w' = trace w -> new_ops w w' = [].
Proof. intros E. unfold new_ops. rewrite E. apply drop_all. Qed.

Lemma new_ops_app (w w' : world) (ops : list fsop) :
  trace w' = trace w ++ ops -> new_ops w w' = ops.
Proof. intros E. unfold new_ops. rewrite E. apply drop_app_length. Qed.

Section Backups.

Variable P : platform.

Lemma exists_run (p : Path) (w : world) :
  exists_ p w = (Ok (bool_decide (is_Some (files w !! p))), w).
Proof. done. Qed.

Lemma smart_install_backs_up (src dest : Path) (label : string) (w w' : world)
    (r : res unit) (d : bytes) :
  smart_install P src dest label w = (r, w') ->
  files w !! dest = Some d ->
  Wr dest ∈ new_ops w w' ->
  exists ts, files w' !! backup_path dest ts = Some d.
Proof.
  intros Hrun Hd Hin. destruct (files w !! src) as [s|] eqn:Hs.
  - destruct (decide (s = d)) as [->|Hne].
    + rewrite (smart_install_current P src dest label w d Hs Hd) in Hrun.
      injection Hrun as _ <-. rewrite new_ops_same in Hin by done. by apply elem_of_nil in Hin.
    + rewrite (smart_install_update_gen P src dest label w s d Hs Hd Hne) in Hrun.
      injection Hrun as _ <-. eexists. simpl.
      rewrite lookup_insert_ne by apply backup_path_ne'. apply lookup_insert_eq.
  - unfold smart_install in Hrun. rewrite (bind_run _ _ _ _ _ (exists_run dest w)) in Hrun.
    rewrite (bool_decide_is_Some_true _ _ Hd) in Hrun. simpl in Hrun.
    erewrite bind_raise in Hrun; [| unfold read_bytes; by rewrite Hs].
    injection Hrun as _ <-. rewrite new_ops_same in Hin by done. by apply elem_of_nil in Hin.
Qed.

Lemma remove_with_log_backs_up (dest : Path) (label : string) (w w' : world)
    (r : res unit) (d : bytes) :
  remove_with_log P dest label w = (r, w') ->
  files w !! dest = Some d ->
  exists ts, files w' !! backup_path dest ts = Some d.
Proof.
  intros Hrun Hd. unfold remove_with_log in Hrun.
  rewrite (bind_run _ _ _ _ _ (exists_run dest w)) in Hrun.
  rewrite (bool_decide_is_Some_true _ _ Hd) in Hrun.
  rewrite (bind_run _ _ _ _ _ (backup_file_run P dest d w Hd)) in Hrun.
  exists (strftime_now P (ticks w)).
  assert (Hb : files (backed_up P dest d w) !! dest = Some d).
  { unfold backed_up. simpl. rewrite lookup_insert_ne by apply backup_path_ne. done. }
  unfold bind, unlink in Hrun. rewrite Hb in Hrun. unfold log_append, modify in Hrun.
  injection Hrun as _ <-. unfold backed_up. wsimpl.
  rewrite lookup_delete_ne by apply backup_path_ne'. apply lookup_insert_eq.
Qed.

Lemma restore_item_backs_up (snap_dir item : Path) (w w' : world) (r : res unit)
    (d : bytes) :
  restore_item P snap_dir item w = (r, w') ->
  files w !! (CLAUDE_HOME P ++ default [] (relative_to item snap_dir)) = Some d ->
  Wr (CLAUDE_HOME P ++ default [] (relative_to item snap_dir)) ∈ new_ops w w' ->
  exists ts,
    files w' !! backup_path (CLAUDE_HOME P ++ default [] (relative_to item snap_dir)) ts
    = Some d.
Proof.
  intros Hrun Hd Hin. unfold restore_item in Hrun.
  assert (Hnone : forall e, (r, w') = (@Raise unit e, w) \/ (r, w') = (Ok tt, w) -> False).
  { intros e [[= _ <-]|[= _ <-]]; rewrite new_ops_same in Hin by done;
      by apply elem_of_nil in Hin. }
  destruct (relative_to item snap_dir) as [rel|];
    [| exfalso; apply (Hnone ValueError); by left].
  simpl in Hd, Hin |- *. set (dest := CLAUDE_HOME P ++ rel) in *.
  destruct (relative_to _ _); [| exfalso; apply (Hnone ValueError); by right].
  rewrite (bind_run _ _ _ _ _ (exists_run dest w)) in Hrun.
  rewrite (bool_decide_is_Some_true _ _ Hd) in Hrun.
  erewrite (bind_run (read_bytes dest)) in Hrun; [| unfold read_bytes; by rewrite Hd].
  destruct (files w !! item) as [i|] eqn:Hi.
  2:{ erewrite bind_raise in Hrun; [| unfold read_bytes; by rewrite Hi].
      exfalso. apply (Hnone FileNotFoundError). by left. }
  erewrite (bind_run (read_bytes item)) in Hrun; [| unfold read_bytes; by rewrite Hi].
  destruct (String.eqb d i).
  { unfold log_append, modify in Hrun. injection Hrun as _ <-.
    rewrite new_ops_same in Hin by done. by apply elem_of_nil in Hin. }
  rewrite (bind_run _ _ _ _ _ (backup_file_run P dest d w Hd)) in Hrun.
  exists (strftime_now P (ticks w)).
  set (bak := backup_path dest (strftime_now P (ticks w))) in *.
  assert (Hb : files (backed_up P dest d w) !! bak = Some d)
    by (unfold backed_up; simpl; apply lookup_insert_eq).
  revert Hrun Hb. generalize (backed_up P dest d w). intros w1 Hrun Hb.
  unfold bind, copy2 in Hrun. unfold bind, read_bytes in Hrun.
  destruct (files w1 !! item); [| by injection Hrun as _ <-].
  destruct (decide (item = dest)); [by injection Hrun as _ <- |].
  unfold write_bytes, log_append, modify in Hrun. injection Hrun as _ <-. wsimpl.
  rewrite lookup_insert_ne; [done | apply backup_path_ne'].
Qed.

End Backups.

(** *** The write of the global settings *)

Lemma lookup_app_len {A} (h l : list A) : (h ++ l) !! length h = l !! 0.
Proof. rewrite lookup_app_r by lia. by rewrite Nat.sub_diag. Qed.

Lemma lift_heap_inv {A} (m : HM A) (w w' : world) (r : res A) :
  lift_heap m w = (r, w') ->
  m (heap w) = (r, heap w') /\ files w' = files w /\ trace w' = trace w /\
  ticks w' = ticks w /\ log w' = log w.
Proof.
  unfold lift_heap. destruct (m (heap w)) as [r' h'] eqn:E. by intros [= <- <-].
Qed.

Lemma only_adds_frame (ok : fsop -> Prop) {A} (m : M A) (w w' : world) (r : res A)
    (p : Path) :
  only_adds ok m -> m w = (r, w') ->
  ~ ok (Wr p) -> ~ ok (Rm p) -> files w' !! p = files w !! p.
Proof.
  intros Hm Hrun Hw Hr. destruct (Hm _ _ _ Hrun) as (ops & _ & Hok & Hfr).
  rewrite Forall_forall in Hok. apply Hfr; intros Hin; [apply Hw | apply Hr]; by apply Hok.
Qed.

Lemma only_adds_no (ok : fsop -> Prop) {A} (m : M A) (w w' : world) (r : res A)
    (op : fsop) :
  only_adds ok m -> m w = (r, w') -> ~ ok op -> op ∉ new_ops w w'.
Proof.
  intros Hm Hrun Hno Hin. destruct (Hm _ _ _ Hrun) as (ops & E & Hok & _).
  rewrite (new_ops_app _ _ _ E) in Hin. rewrite Forall_forall in Hok. by apply Hno, Hok.
Qed.

Section SettingsWrite.

Variable P : platform.

Lemma name_settings : name (CLAUDE_SETTINGS P) = "settings.json".
Proof. apply name_child. Qed.

Lemma name_statusline : name (CLAUDE_STATUSLINE P) = "statusline.sh".
Proof. apply name_child. Qed.

Lemma statusline_not_settings :
  CLAUDE_STATUSLINE P <> CLAUDE_SETTINGS P /\
  (forall ts, CLAUDE_STATUSLINE P <> backup_path (CLAUDE_SETTINGS P) ts) /\
  (forall ts, backup_path (CLAUDE_STATUSLINE P) ts <> CLAUDE_SETTINGS P) /\
  (forall ts ts', backup_path (CLAUDE_STATUSLINE P) ts
                  <> backup_path (CLAUDE_SETTINGS P) ts').
Proof.
  repeat split; intros; intros E; apply (f_equal name) in E;
    rewrite ?name_backup_path, ?name_settings, ?name_statusline in E; discriminate E.
Qed.

Lemma only_adds_check_aws (ok : fsop -> Prop) (profile : val) :
  only_adds ok (check_aws_profile P profile).
Proof.
  apply only_adds_bind; [apply only_adds_exists |]. intros e.
  destruct (negb e); [apply only_adds_ret |].
  apply only_adds_try; [| intros; apply only_adds_ret].
  apply only_adds_bind; [apply only_adds_read_text |]. intros text.
  apply only_adds_bind; [apply only_adds_lift_heap | intros; apply only_adds_ret].
Qed.

Lemma only_adds_warn_aws (ok : fsop -> Prop) (template : val) :
  only_adds ok (warn_aws_profile P template).
Proof.
  apply only_adds_bind; [apply only_adds_lift_heap |]. intros dflt.
  apply only_adds_bind; [apply only_adds_lift_heap |]. intros env.
  apply only_adds_bind; [apply only_adds_lift_heap |]. intros prof.
  apply only_adds_bind; [apply only_adds_check_aws |]. intros found.
  destruct (negb found); [| apply only_adds_ret].
  apply only_adds_bind; [apply only_adds_lift_heap | intros; apply only_adds_log].
Qed.

Lemma only_adds_tail (template : val) :
  only_adds (tail_ok P) (warn_aws_profile P template ;;; install_statusline P).
Proof.
  destruct statusline_not_settings as (H1 & H2 & H3 & H4).
  apply only_adds_bind; [apply only_adds_warn_aws |]. intros _.
  apply only_adds_bind; [apply only_adds_exists |]. intros s.
  destruct s; [| apply only_adds_ret].
  apply only_adds_smart_install.
  - exists (CLAUDE_STATUSLINE P). by repeat split.
  - intros ts. exists (backup_path (CLAUDE_STATUSLINE P) ts). repeat split; [apply H3 | apply H4].
Qed.


Lemma bind_inv {S A B} (m : ST S A) (k : A -> ST S B) (s s' : S) (r : res B) :
  bind m k s = (r, s') ->
  (exists a s1, m s = (Ok a, s1) /\ k a s1 = (r, s')) \/
  (exists e, m s = (Raise e, s') /\ r = Raise e).
Proof.
  unfold bind. destruct (m s) as [[a|e] s1]; [eauto |]. intros [= <- <-]. eauto.
Qed.

Lemma document_readonly (depth : nat) (v : val) h r h' :
  Store.document depth v h = (r, h') -> h' = h.
Proof. unfold Store.document. by destruct (Store.reify depth h v); intros [= _ <-]. Qed.

Lemma py_equal_readonly (depth : nat) (a b : val) h r h' :
  Store.py_equal depth a b h = (r, h') -> h' = h.
Proof.
  unfold Store.py_equal. intros H.
  apply bind_inv in H as [(ta & h1 & H1 & H)|(e & H1 & _)];
    [| by apply document_readonly in H1].
  apply document_readonly in H1 as ->.
  apply bind_inv in H as [(tb & h1 & H1 & H)|(e & H1 & _)];
    [| by apply document_readonly in H1].
  apply document_readonly in H1 as ->. by injection H as _ <-.
Qed.

Lemma py_truthy_readonly (v : val) h r h' : Store.py_truthy v h = (r, h') -> h' = h.
Proof.
  unfold Store.py_truthy, bind. destruct (Store.look v h) as [[vw|e] h1] eqn:E;
    apply look_readonly in E as ->; by intros [= _ <-].
Qed.

(** The three ways [write_settings] can go for a settings file that
    exists: nothing is written; or the file has been backed up; or it
    is written without a backup, the existing document being falsy. *)
Lemma write_settings_cases (existing merged : val) (w w' : world) (r : res unit)
    (d : bytes) :
  write_settings P existing merged w = (r, w') ->
  files w !! CLAUDE_SETTINGS P = Some d ->
  (trace w' = trace w /\ files w' = files w) \/
  (exists ts, files w' !! backup_path (CLAUDE_SETTINGS P) ts = Some d) \/
  (Store.py_truthy existing (heap w) = (Ok false, heap w) /\
   forall p, p <> CLAUDE_SETTINGS P -> files w' !! p = files w !! p).
Proof.
  intros H Hd. unfold write_settings in H.
  apply bind_inv in H as [(same & w1 & H1 & H)|(e & H1 & _)];
    apply lift_heap_inv in H1 as (Heq & Hf1 & Ht1 & _); [| by left].
  apply py_equal_readonly in Heq as Hh1.
  destruct same.
  { injection H as _ <-. by left. }
  rewrite (bind_run _ _ _ _ _ (exists_run _ w1)) in H.
  rewrite Hf1, (bool_decide_is_Some_true _ _ Hd) in H.
  apply bind_inv in H as [(b & w2 & H2 & H)|(e & H2 & _)];
    apply lift_heap_inv in H2 as (Htr & Hf2 & Ht2 & _);
    [| left; split; congruence].
  apply py_truthy_readonly in Htr as Hh2.
  assert (Hd2 : files w2 !! CLAUDE_SETTINGS P = Some d) by (by rewrite Hf2, Hf1).
  assert (Hrest : forall (k : unit -> M unit),
             (forall u, only_adds (fun op => op = Wr (CLAUDE_SETTINGS P)) (k u)) ->
             only_adds (fun op => op = Wr (CLAUDE_SETTINGS P))
               (text <- lift_heap (dumps P merged) ;;
                write_text P (CLAUDE_SETTINGS P) (text +:+ String "010" "") ;;; k tt)).
  { intros k Hk. apply only_adds_bind; [apply only_adds_lift_heap |]. intros text.
    apply only_adds_bind; [by apply only_adds_write_bytes | intros []; apply Hk]. }
  destruct b.
  - right. left. rewrite (bind_run _ _ _ _ _ (backup_file_run P _ d w2 Hd2)) in H.
    exists (strftime_now P (ticks w2)).
    erewrite (only_adds_frame _ _ _ _ _ _ (Hrest _ (fun _ => only_adds_log _ _ _)) H).
    + unfold backed_up. simpl. apply lookup_insert_eq.
    + intros [= E]. by apply (backup_path_ne _ _ E).
    + done.
  - right. right. split; [by rewrite Hh2, Hh1 in Htr |].
    intros p Hp.
    rewrite (only_adds_frame _ _ _ _ _ p (Hrest _ (fun _ => only_adds_log _ _ _)) H);
      [congruence | by intros [= E] | done].
Qed.


Lemma new_ops_from (w w1 w' : world) :
  trace w1 = trace w -> new_ops w w' = new_ops w1 w'.
Proof. intros E. unfold new_ops. by rewrite E. Qed.

Lemma tail_ok_not (p : Path) :
  ~ tail_ok P (Wr (CLAUDE_SETTINGS P)) /\
  (forall ts, ~ tail_ok P (Wr (backup_path (CLAUDE_SETTINGS P) ts))) /\
  ~ tail_ok P (Rm p).
Proof.
  repeat split.
  - by intros (q & [= <-] & Hq & _).
  - intros ts (q & [= <-] & _ & Hq). by apply (Hq ts).
  - by intros (q & [=] & _).
Qed.

(** The ways the end of [install_global_settings] can go. *)
Lemma finish_cases (default_model : string) (template existing : val)
    (w w' : world) (r : res unit) (d : bytes) :
  finish_global_settings P default_model template existing w = (r, w') ->
  files w !! CLAUDE_SETTINGS P = Some d ->
  ((Wr (CLAUDE_SETTINGS P) ∉ new_ops w w') /\
   forall ts, files w' !! backup_path (CLAUDE_SETTINGS P) ts
              = files w !! backup_path (CLAUDE_SETTINGS P) ts) \/
  (exists ts, files w' !! backup_path (CLAUDE_SETTINGS P) ts = Some d) \/
  ((exists merged h1,
       settings_merge P default_model template existing (heap w) = (Ok merged, h1) /\
       Store.py_truthy existing h1 = (Ok false, h1)) /\
   forall ts, files w' !! backup_path (CLAUDE_SETTINGS P) ts
              = files w !! backup_path (CLAUDE_SETTINGS P) ts).
Proof.
  intros H Hd. unfold finish_global_settings in H.
  destruct (tail_ok_not []) as (N1 & N2 & _).
  apply bind_inv in H as [(merged & w1 & H1 & H)|(e & H1 & _)];
    apply lift_heap_inv in H1 as (Hm & Hf1 & Ht1 & _).
  2:{ left. rewrite (new_ops_same _ _ Ht1). split; [apply not_elem_of_nil | by rewrite Hf1]. }
  assert (Hd1 : files w1 !! CLAUDE_SETTINGS P = Some d) by (by rewrite Hf1).
  assert (Hcases : forall r2 w2, write_settings P existing merged w1 = (r2, w2) ->
            (forall ts, files w' !! backup_path (CLAUDE_SETTINGS P) ts
                        = files w2 !! backup_path (CLAUDE_SETTINGS P) ts) ->
            Wr (CLAUDE_SETTINGS P) ∉ new_ops w2 w' ->
            ((Wr (CLAUDE_SETTINGS P) ∉ new_ops w w') /\
             forall ts, files w' !! backup_path (CLAUDE_SETTINGS P) ts
                        = files w !! backup_path (CLAUDE_SETTINGS P) ts) \/
            (exists ts, files w' !! backup_path (CLAUDE_SETTINGS P) ts = Some d) \/
            ((exists merged h1,
                 settings_merge P default_model template existing (heap w) = (Ok merged, h1) /\
                 Store.py_truthy existing h1 = (Ok false, h1)) /\
             forall ts, files w' !! backup_path (CLAUDE_SETTINGS P) ts
                        = files w !! backup_path (CLAUDE_SETTINGS P) ts)).
  { intros r2 w2 Hws T1 T2.
    destruct (write_settings_cases _ _ _ _ _ _ Hws Hd1) as [[Ht Hf]|[[ts Hb]|[Htr Hfr]]].
    - left. split.
      + rewrite (new_ops_from w w2 w') by congruence. done.
      + intros ts. rewrite T1. congruence.
    - right. left. exists ts. by rewrite T1.
    - right. right. split; [by eauto |].
      intros ts. rewrite T1, Hfr; [congruence | apply backup_path_ne]. }
  apply bind_inv in H as [(u & w2 & Hws & Htail)|(e & Hws & _)].
  - apply (Hcases _ _ Hws).
    + intros ts. apply (only_adds_frame _ _ _ _ _ _ (only_adds_tail template) Htail);
        [apply N2 | apply (tail_ok_not _)].
    + by apply (only_adds_no _ _ _ _ _ _ (only_adds_tail template) Htail).
  - apply (Hcases _ _ Hws); [done |]. rewrite new_ops_same by done. apply not_elem_of_nil.
Qed.


Lemma only_adds_silent_inv {A} (m : M A) (w w' : world) (r : res A) :
  only_adds (fun _ => False) m -> m w = (r, w') ->
  trace w' = trace w /\ files w' = files w.
Proof.
  intros Hm Hrun. destruct (Hm _ _ _ Hrun) as (ops & E & Hok & Hfr).
  destruct ops as [|op ops]; [| by apply Forall_cons in Hok as [[] _]].
  rewrite app_nil_r in E. split; [done |]. apply map_eq. intros p.
  apply Hfr; apply not_elem_of_nil.
Qed.

Lemma only_adds_load_template (ok : fsop -> Prop) : only_adds ok (load_template P).
Proof.
  apply only_adds_try.
  - apply only_adds_bind; [apply only_adds_read_text |]. intros text.
    apply only_adds_bind; [apply only_adds_lift_heap | intros; apply only_adds_ret].
  - intros e. apply only_adds_bind; [apply only_adds_log | intros; apply only_adds_ret].
Qed.

(** The three ways [load_existing] can go for a settings file that
    exists: its bytes are no text; or they parse; or they do not, and
    the file is backed up. *)
Lemma load_existing_cases (w w' : world) (r : res val) (d : bytes) :
  load_existing P w = (r, w') ->
  files w !! CLAUDE_SETTINGS P = Some d ->
  (trace w' = trace w /\ exists e, r = Raise e) \/
  (exists text t existing,
      decode_utf8 P d = Some text /\ json_loads P text = Some t /\ r = Ok existing /\
      Store.alloc_json t (heap w ++ [ODict []]) = (existing, heap w') /\
      trace w' = trace w /\ files w' = files w) \/
  (exists text,
      decode_utf8 P d = Some text /\ json_loads P text = None /\
      files w' = <[backup_path (CLAUDE_SETTINGS P) (strftime_now P (ticks w)) := d]> (files w)).
Proof.
  intros H Hd. unfold load_existing in H.
  erewrite bind_run in H; [| by apply lift_heap_run].
  erewrite bind_run in H;
    [| unfold exists_, gets; cbn [files set_heap]; by rewrite (bool_decide_is_Some_true _ _ Hd)].
  cbv iota in H. unfold try_except in H.
  destruct (decode_utf8 P d) as [text|] eqn:Hdec.
  2:{ left. erewrite bind_raise in H.
      2:{ unfold read_text. erewrite bind_run; [| unfold read_bytes; cbn [files set_heap]; by rewrite Hd].
          by rewrite Hdec. }
      cbn [is_JSONDecodeError] in H. injection H as <- <-. split; [done | eauto]. }
  erewrite (bind_run (read_text P (CLAUDE_SETTINGS P))) in H.
  2:{ unfold read_text. erewrite bind_run; [| unfold read_bytes; cbn [files set_heap]; by rewrite Hd].
      by rewrite Hdec. }
  unfold loads in H. destruct (json_loads P text) as [t|] eqn:Hj.
  - right. left. unfold lift_heap at 1, Store.new_json in H. cbn [heap set_heap] in H.
    destruct (Store.alloc_json t (heap w ++ [ODict []])) as [v h'] eqn:Hal.
    injection H as <- <-. exists text, t, v. by repeat split.
  - right. right. exists text. split; [done |]. split; [done |].
    unfold lift_heap at 1, raise in H. cbn [is_JSONDecodeError] in H.
    erewrite bind_run in H; [| by apply backup_file_run].
    erewrite bind_run in H; [| reflexivity].
    unfold lift_heap, Store.alloc in H. injection H as _ <-. reflexivity.
Qed.


Lemma keeps_settings_merge (n : nat) (default_model : string) (template existing : val) :
  keeps n (fun _ _ => False) (settings_merge P default_model template existing).
Proof.
  apply keeps_bind; [apply keeps_deep_merge_any |]. intros merged.
  apply keeps_bind; [apply keeps_merge_env; by intros ? ? |]. intros _.
  apply keeps_bind; [apply keeps_merge_permissions; by intros ? ? |]. intros _.
  apply keeps_bind; [apply keeps_merge_model; by intros ? ? | intros; apply keeps_ret].
Qed.

(** The second argument of a merge that returns is a dict. *)
Lemma deep_merge_overlay_dict (depth : nat) (base overlay r : val) (h h' : store) :
  deep_merge_settings depth base overlay h = (Ok r, h') ->
  exists lo items o, overlay = VRef lo /\ (h ++ [o]) !! lo = Some (ODict items).
Proof.
  destruct depth as [|depth]; [done |]. simpl. intros H.
  apply bind_ok in H as (merged & h1 & Hd & H).
  apply bind_ok in H as (items & h2 & Hi & H).
  apply dict_of_ok in Hd as (it & -> & -> & _).
  apply items_of_ok in Hi as [-> (lo & -> & Hlo)]. eauto.
Qed.

(** What [json.loads] builds for a document. *)
Lemma alloc_json_view (t : json) (h h' : store) (v : val) :
  Store.alloc_json t h = (v, h') ->
  match t with
  | JDict d => exists l it, v = VRef l /\ h' !! l = Some (ODict it) /\ (d <> [] -> it <> [])
  | JList es => v = VRef (length h) /\ h' = h ++ [OList es]
  | _ => h' = h /\ forall l, v <> VRef l
  end.
Proof.
  destruct t as [ | b | n | s | es | d]; cbn [Store.alloc_json];
    try (by intros [= <- <-]).
  destruct d as [|[k t'] d'].
  - intros [= <- <-]. exists (length h), []. split; [done |].
    split; [| done]. rewrite lookup_app_r by lia. by rewrite Nat.sub_diag.
  - destruct (Store.alloc_json t' h) as [v1 h1].
    match goal with |- context [let '(_, _) := ?go d' h1 in _] =>
      destruct (go d' h1) as [rest h2] end.
    intros [= <- <-]. exists (length h2), ((k, v1) :: rest). split; [done |].
    split; [| done]. rewrite lookup_app_r by lia. by rewrite Nat.sub_diag.
Qed.

(** A document that is not the empty mapping is truthy after a merge
    that returns. *)
Lemma existing_truthy_after_merge (default_model : string) (t : json)
    (template existing merged : val) (h0 h1 h2 : store) :
  Store.alloc_json t h0 = (existing, h1) ->
  t <> JDict [] ->
  settings_merge P default_model template existing h1 = (Ok merged, h2) ->
  Store.py_truthy existing h2 = (Ok true, h2).
Proof.
  intros Hal Ht Hm.
  pose proof (keeps_settings_merge 0 _ _ _ h1 _ h2 (Nat.le_0_l _) Hm) as Hst.
  unfold settings_merge in Hm. apply bind_ok in Hm as (mg & h3 & Hdm & _).
  destruct (deep_merge_overlay_dict _ _ _ _ _ _ Hdm) as (lo & items & o & -> & Hlo).
  apply alloc_json_view in Hal. destruct t as [ | b | n | s | es | d].
  1-4: destruct Hal as [_ Hv]; by destruct (Hv lo).
  - destruct Hal as [[= ->] ->]. rewrite <- app_assoc in Hlo.
    rewrite lookup_app_len in Hlo. done.
  - destruct Hal as (l & it & [= <-] & Hl & Hne).
    destruct (stable_dict _ _ _ _ _ Hst Hl) as (it' & Hl' & K & _).
    unfold Store.py_truthy, bind, Store.look. simpl. rewrite Hl'. unfold ret.
    destruct it' as [|kv it']; [| done].
    destruct it as [|[k v] it]; [by destruct Hne; [intros -> |] |].
    destruct (K k) as [x Hx]; [simpl; rewrite String.eqb_refl; eauto | done].
Qed.

End SettingsWrite.
Section SettingsBackup.

Variable P : platform.

Lemma only_adds_write_text (ok : fsop -> Prop) (p : Path) (text : string) :
  ok (Wr p) -> only_adds ok (write_text P p text).
Proof. intros Hp. unfold write_text. by apply only_adds_write_bytes. Qed.

(** [install_global_settings] removes no file. *)
Lemma only_adds_install_global_settings (default_model : string) :
  only_adds (fun op => exists p, op = Wr p) (install_global_settings P default_model).
Proof.
  assert (Hbak : forall p, only_adds (fun op => exists q, op = Wr q) (backup_file P p)).
  { intros p. apply only_adds_backup_file. eauto. }
  assert (Hwr : forall (v : val) (k : string -> M unit),
             (forall t, only_adds (fun op => exists q, op = Wr q) (k t)) ->
             only_adds (fun op => exists q, op = Wr q)
               (text <- lift_heap (dumps P v) ;; k text)).
  { intros v k Hk. apply only_adds_bind; [apply only_adds_lift_heap | done]. }
  unfold install_global_settings.
  apply only_adds_bind; [apply only_adds_load_template |]. intros [template|];
    [| apply only_adds_ret].
  apply only_adds_bind; [apply only_adds_lift_heap |]. intros _.
  apply only_adds_bind.
  { unfold load_existing.
    apply only_adds_bind; [apply only_adds_lift_heap |]. intros empty.
    apply only_adds_bind; [apply only_adds_exists |]. intros [|]; [| apply only_adds_ret].
    apply only_adds_try.
    - apply only_adds_bind; [apply only_adds_read_text | intros; apply only_adds_lift_heap].
    - intros e. apply only_adds_bind; [apply Hbak |]. intros bak.
      apply only_adds_bind; [apply only_adds_log | intros; apply only_adds_lift_heap]. }
  intros existing. unfold finish_global_settings.
  apply only_adds_bind; [apply only_adds_lift_heap |]. intros merged.
  apply only_adds_bind.
  { unfold write_settings.
    apply only_adds_bind; [apply only_adds_lift_heap |]. intros [|]; [apply only_adds_log |].
    apply only_adds_bind; [apply only_adds_exists |]. intros e.
    apply only_adds_bind; [destruct e; [apply only_adds_lift_heap | apply only_adds_ret] |].
    intros [|].
    - apply only_adds_bind; [apply Hbak |]. intros bak. apply Hwr. intros text.
      apply only_adds_bind; [apply only_adds_write_text; eauto | intros; apply only_adds_log].
    - apply Hwr. intros text.
      apply only_adds_bind; [apply only_adds_write_text; eauto | intros; apply only_adds_log]. }
  intros _. apply only_adds_bind; [apply only_adds_warn_aws |]. intros _.
  unfold install_statusline.
  apply only_adds_bind; [apply only_adds_exists |]. intros [|]; [| apply only_adds_ret].
  apply only_adds_smart_install; eauto.
Qed.

Lemma install_global_settings_backs_up (default_model : string) (w w' : world)
    (r : res unit) (d : bytes) :
  install_global_settings P default_model w = (r, w') ->
  files w !! CLAUDE_SETTINGS P = Some d ->
  Wr (CLAUDE_SETTINGS P) ∈ new_ops w w' ->
  (forall text, decode_utf8 P d = Some text -> json_loads P text <> Some (JDict [])) ->
  exists ts, files w' !! backup_path (CLAUDE_SETTINGS P) ts = Some d.
Proof.
  intros H Hd Hin Hguard. unfold install_global_settings in H.
  assert (Hno : trace w' = trace w -> False).
  { intros E. rewrite (new_ops_same _ _ E) in Hin. by apply elem_of_nil in Hin. }
  apply bind_inv in H as [(loaded & w1 & H1 & H)|(e & H1 & _)];
    apply (only_adds_silent_inv _ _ _ _ (only_adds_load_template P _)) in H1 as [Ht1 Hf1];
    [| by destruct Hno].
  destruct loaded as [template|]; [| injection H as _ <-; by destruct Hno].
  apply bind_inv in H as [(u & w2 & H2 & H)|(e & H2 & _)];
    apply (only_adds_silent_inv _ _ _ _ (only_adds_lift_heap _ _)) in H2 as [Ht2 Hf2];
    [| destruct Hno; congruence].
  assert (Hd2 : files w2 !! CLAUDE_SETTINGS P = Some d) by (by rewrite Hf2, Hf1).
  apply bind_inv in H as [(existing & w3 & H3 & H)|(e & H3 & _)].
  2:{ destruct (load_existing_cases P _ _ _ _ H3 Hd2)
        as [[Ht3 _]|[(text & t & ex & _ & _ & [=] & _)|(text & _ & _ & Hf3)]].
      - destruct Hno. congruence.
      - eexists. rewrite Hf3. apply lookup_insert_eq. }
  destruct (load_existing_cases P _ _ _ _ H3 Hd2)
    as [[_ [e [=]]]|[(text & t & ex & Hdec & Hj & [= <-] & Hal & Ht3 & Hf3)|(text & _ & _ & Hf3)]].
  - (* the document has been parsed *)
    assert (Hd3 : files w3 !! CLAUDE_SETTINGS P = Some d) by (by rewrite Hf3).
    destruct (finish_cases P _ _ _ _ _ _ _ H Hd3) as [[Hn _]|[Hb|[(mg & h1 & Hm & Htr) _]]].
    + destruct Hn. rewrite <- (new_ops_from w w3 w') by congruence. done.
    + done.
    + assert (Hne : t <> JDict []) by (intros ->; by apply (Hguard text)).
      rewrite (existing_truthy_after_merge P _ _ _ _ _ _ _ _ Hal Hne Hm) in Htr. done.
  - (* the document has not been parsed: it is backed up already *)
    set (bak := backup_path (CLAUDE_SETTINGS P) (strftime_now P (ticks w2))) in *.
    assert (Hd3 : files w3 !! CLAUDE_SETTINGS P = Some d).
    { rewrite Hf3, lookup_insert_ne by apply backup_path_ne. done. }
    assert (Hb3 : files w3 !! bak = Some d) by (rewrite Hf3; apply lookup_insert_eq).
    destruct (finish_cases P _ _ _ _ _ _ _ H Hd3) as [[_ Hfr]|[Hb|[_ Hfr]]];
      [| done |]; exists (strftime_now P (ticks w2)); by rewrite Hfr.
Qed.

End SettingsBackup.

Lemma only_writes_no_removal {A} (m : M A) (w w' : world) (r : res A) (p : Path) :
  only_adds (fun op => exists q, op = Wr q) m -> m w = (r, w') -> Rm p ∉ new_ops w w'.
Proof.
  intros Hm Hrun. apply (only_adds_no _ _ _ _ _ _ Hm Hrun). by intros [q [=]].
Qed.

Lemma only_adds_restore_item (P : platform) (snap_dir item : Path) :
  only_adds (fun op => exists q, op = Wr q) (restore_item P snap_dir item).
Proof.
  unfold restore_item. destruct (relative_to item snap_dir); [| apply only_adds_raise].
  destruct (relative_to _ _); [| apply only_adds_ret].
  apply only_adds_bind; [apply only_adds_exists |]. intros e.
  assert (Hfin : only_adds (fun op => exists p, op = Wr p)
            (copy2 item (CLAUDE_HOME P ++ l) ;;;
             log_append st_restored ("~/.claude/" +:+ rel_str l))).
  { apply only_adds_bind; [apply only_adds_copy2; eauto | intros; apply only_adds_log]. }
  destruct e; [| done].
  apply only_adds_bind; [apply only_adds_read_bytes |]. intros dd.
  apply only_adds_bind; [apply only_adds_read_bytes |]. intros ii.
  destruct (String.eqb dd ii); [apply only_adds_log |].
  apply only_adds_bind; [apply only_adds_backup_file; eauto | done].
Qed.

(** C2 (as amended) — the operations that back up what they overwrite
    or remove. Whenever [smart_install], [remove_with_log], a round of
    [restore_snapshot], or [install_global_settings] (for a settings
    document other than the empty mapping) has written over or unlinked
    its destination, a sibling of the destination named
    [<name>.bak.<timestamp>] holds the bytes the destination had,
    whether the operation returned or raised afterwards. *)
Theorem backup_before_overwrite (P : platform) (op : operation) (w w' : world)
    (r : res unit) (d : bytes) :
  run_op P op w = (r, w') ->
  files w !! destination P op = Some d ->
  Wr (destination P op) ∈ new_ops w w' \/ Rm (destination P op) ∈ new_ops w w' ->
  backs_up P op d ->
  exists ts,
    files w' !! (parent (destination P op) // (name (destination P op) +:+ ".bak." +:+ ts))
    = Some d.
Proof.
  intros Hrun Hd Hin Hguard. change (exists ts, files w' !! backup_path (destination P op) ts = Some d).
  destruct op as [src dest label|dest label|snap_dir item|default_model]; simpl in *.
  - destruct Hin as [Hin|Hin]; [by apply (smart_install_backs_up P src dest label w w' r) |].
    exfalso. revert Hin. refine (only_writes_no_removal _ _ _ _ _ _ Hrun).
    apply only_adds_smart_install; eauto.
  - by apply (remove_with_log_backs_up P dest label w w' r).
  - destruct Hin as [Hin|Hin]; [by apply (restore_item_backs_up P snap_dir item w w' r) |].
    exfalso. revert Hin. refine (only_writes_no_removal _ _ _ _ _ _ Hrun).
    apply only_adds_restore_item.
  - destruct Hin as [Hin|Hin];
      [by apply (install_global_settings_backs_up P default_model w w' r) |].
    exfalso. revert Hin. refine (only_writes_no_removal _ _ _ _ _ _ Hrun).
    apply only_adds_install_global_settings.
Qed.

(* ===================================================================== *)
(** * The merge of two settings documents *)
(* ===================================================================== *)

(** ** Documents in the store *)

Lemma repr_dict (h : store) (d : list (string * json)) (F : gset loc) (v : val) :
  repr h (JDict d) F v <->
  exists l items Fi,
    v = VRef l /\ h !! l = Some (ODict items) /\ F = {[ l ]} ∪ Fi /\ repr_items h d Fi items.
Proof.
  assert (E : forall d Fi items,
             (fix go (d : list (string * json)) (Fi : gset loc) (items : list (string * val))
                : Prop :=
                match d, items with
                | [], [] => Fi = ∅
                | (k, t') :: d', (k', v') :: items' =>
                    k' = k /\
                    exists F1 F2, repr h t' F1 v' /\ go d' F2 items' /\ F1 ## F2 /\ Fi = F1 ∪ F2
                | _, _ => False
                end) d Fi items <-> repr_items h d Fi items).
  { clear. induction d as [|[k t] d IH]; intros Fi [|[k' v'] items]; simpl; try done.
    split; intros [-> (F1 & F2 & H1 & H2 & H3 & H4)]; (split; [done |]);
      exists F1, F2; (split; [done |]); (split; [by apply IH | done]). }
  simpl. split; intros (l & items & Fi & H1 & H2 & H3 & H4); exists l, items, Fi;
    repeat split; try done; by apply E.
Qed.

(** The objects of a document are in the store. *)
Lemma repr_bound (h : store) (t : json) :
  forall F v, repr h t F v -> forall l, l ∈ F -> l < length h.
Proof.
  induction t as [ | b | n | s | es _ | d IHd ] using json_ind_nested; intros F v.
  1-4: by (intros [_ ->] l Hl; apply elem_of_empty in Hl).
  - intros (l0 & _ & Hl0 & ->) l ->%elem_of_singleton. by apply lookup_lt_Some in Hl0.
  - rewrite repr_dict. intros (l0 & items & Fi & _ & Hl0 & -> & Hit) l.
    rewrite elem_of_union, elem_of_singleton. intros [->|Hl]; [by apply lookup_lt_Some in Hl0 |].
    clear Hl0. revert Fi items Hit Hl.
    induction IHd as [|[k t] d Ht _ IH]; intros Fi [|[k' v'] items]; simpl; try done.
    + by intros -> Hl%elem_of_empty.
    + intros [_ (F1 & F2 & H1 & H2 & _ & ->)]. rewrite elem_of_union. intros [Hl|Hl].
      * by apply (Ht F1 v').
      * by apply (IH F2 items).
Qed.

Lemma repr_items_bound (h : store) (d : list (string * json)) :
  forall Fi items, repr_items h d Fi items -> forall l, l ∈ Fi -> l < length h.
Proof.
  induction d as [|[k t] d IH]; intros Fi [|[k' v'] items]; simpl; try done.
  - by intros -> l Hl%elem_of_empty.
  - intros [_ (F1 & F2 & H1 & H2 & _ & ->)] l. rewrite elem_of_union. intros [Hl|Hl].
    + by apply (repr_bound h t F1 v').
    + by apply (IH F2 items).
Qed.

(** A document stays what it is while its objects are left alone. *)
Lemma repr_frame (h h' : store) (t : json) :
  forall F v, repr h t F v -> (forall l, l ∈ F -> h' !! l = h !! l) -> repr h' t F v.
Proof.
  induction t as [ | b | n | s | es _ | d IHd ] using json_ind_nested; intros F v; try done.
  - intros (l0 & -> & Hl0 & ->) Hag. exists l0. rewrite Hag by set_solver. done.
  - rewrite !repr_dict. intros (l0 & items & Fi & -> & Hl0 & -> & Hit) Hag.
    exists l0, items, Fi. rewrite Hag by set_solver. repeat split; try done.
    assert (Hag' : forall l, l ∈ Fi -> h' !! l = h !! l) by (intros l Hl; apply Hag; set_solver).
    clear Hag Hl0. revert Fi items Hit Hag'.
    induction IHd as [|[k t] d Ht _ IH]; intros Fi [|[k' v'] items]; simpl; try done.
    intros [-> (F1 & F2 & H1 & H2 & H3 & ->)] Hag. split; [done |]. exists F1, F2.
    repeat split; [| | done].
    + apply Ht; [done |]. intros l Hl. apply Hag. set_solver.
    + apply IH; [done |]. intros l Hl. apply Hag. set_solver.
Qed.

Lemma repr_items_frame (h h' : store) (d : list (string * json)) :
  forall Fi items, repr_items h d Fi items -> (forall l, l ∈ Fi -> h' !! l = h !! l) ->
                   repr_items h' d Fi items.
Proof.
  induction d as [|[k t] d IH]; intros Fi [|[k' v'] items]; simpl; try done.
  intros [-> (F1 & F2 & H1 & H2 & H3 & ->)] Hag. split; [done |]. exists F1, F2.
  repeat split; [| | done].
  - apply (repr_frame h); [done |]. intros l Hl. apply Hag. set_solver.
  - apply IH; [done |]. intros l Hl. apply Hag. set_solver.
Qed.

(** [json.loads] builds a document of new objects. *)
Lemma alloc_json_repr (t : json) :
  forall h v h', Store.alloc_json t h = (v, h') ->
    exists ext F, h' = h ++ ext /\ repr h' t F v /\ forall l, l ∈ F -> length h <= l.
Proof.
  induction t as [ | b | n | s | es _ | d IHd ] using json_ind_nested; intros h v h'.
  1-4: by (intros [= <- <-]; exists [], ∅; rewrite app_nil_r; repeat split; set_solver).
  - intros [= <- <-]. exists [OList es], {[ length h ]}. split; [done |]. split.
    + exists (length h). by rewrite lookup_app_len.
    + intros l ->%elem_of_singleton. lia.
  - cbn [Store.alloc_json].
    match goal with |- context [let '(_, _) := ?go d h in _] => set (alloc_items := go) end.
    assert (Hgo : forall h items h1, alloc_items d h = (items, h1) ->
              exists ext Fi, h1 = h ++ ext /\ repr_items h1 d Fi items /\
                             forall l, l ∈ Fi -> length h <= l).
    { clear h v h'. induction IHd as [|[k t] d Ht _ IH]; intros h items h1; simpl.
      - intros [= <- <-]. exists [], ∅. rewrite app_nil_r. repeat split; set_solver.
      - destruct (Store.alloc_json t h) as [v ha] eqn:Ea.
        destruct (alloc_items d ha) as [rest hb] eqn:Eb. intros [= <- <-].
        destruct (Ht _ _ _ Ea) as (e1 & F1 & -> & R1 & B1).
        destruct (IH _ _ _ Eb) as (e2 & F2 & -> & R2 & B2).
        exists (e1 ++ e2), (F1 ∪ F2). split; [by rewrite app_assoc |]. split.
        + split; [done |]. exists F1, F2. repeat split; [| done |].
          * apply (repr_frame (h ++ e1)); [done |]. intros l Hl.
            apply lookup_app_l. by apply (repr_bound _ _ _ _ R1).
          * intros l H1 H2. apply B2 in H2. apply (repr_bound _ _ _ _ R1) in H1. lia.
        + intros l [Hl|Hl]%elem_of_union; [by apply B1 |]. apply B2 in Hl.
          rewrite length_app in Hl. lia. }
    destruct (alloc_items d h) as [items h1] eqn:E. intros [= <- <-].
    destruct (Hgo _ _ _ E) as (ext & Fi & -> & R & B).
    exists (ext ++ [ODict items]), ({[ length (h ++ ext) ]} ∪ Fi).
    split; [by rewrite app_assoc |]. split.
    + apply repr_dict. exists (length (h ++ ext)), items, Fi.
      rewrite lookup_app_len. repeat split; try done.
      apply (repr_items_frame (h ++ ext)); [done |]. intros l Hl.
      apply lookup_app_l. by apply (repr_items_bound _ _ _ _ R).
    + intros l [->%elem_of_singleton|Hl]%elem_of_union; [rewrite length_app; lia | by apply B].
Qed.

Lemma dict_depth_items (d : list (string * json)) (n : nat) :
  dict_depth (JDict d) <= S n -> Forall (fun kv => dict_depth (snd kv) <= n) d.
Proof.
  cbn [dict_depth]. intros H. apply Nat.succ_le_mono in H. revert H.
  induction d as [|[k t] d IH]; [constructor |]. intros H. constructor.
  - simpl. lia.
  - apply IH. lia.
Qed.

(** The document of a value that stands for one. *)
Lemma repr_reify (h : store) (t : json) :
  forall F v fuel, repr h t F v -> dict_depth t < fuel -> Store.reify fuel h v = Some t.
Proof.
  induction t as [ | b | n | s | es _ | d IHd ] using json_ind_nested; intros F v fuel.
  1-4: by (intros [-> _] _; destruct fuel).
  - intros (l & -> & Hl & _) Hf. destruct fuel as [|fuel]; [lia |]. simpl. by rewrite Hl.
  - rewrite repr_dict. intros (l & items & Fi & -> & Hl & _ & Hit) Hf.
    destruct fuel as [|fuel]; [lia |]. simpl. rewrite Hl.
    assert (Hc : Forall (fun kv => dict_depth (snd kv) < fuel) d).
    { destruct fuel as [|f]; [cbn [dict_depth] in Hf; lia |].
      apply Nat.succ_le_mono, dict_depth_items in Hf.
      eapply Forall_impl; [exact Hf |]. intros kv Hkv. simpl in Hkv. lia. }
    clear Hf. rename Hc into Hf.
    replace (mapM _ items) with (Some d); [done |]. symmetry.
    clear Hl. revert Fi items Hit Hf.
    induction IHd as [|[k t] d Ht _ IH]; intros Fi [|[k' v'] items]; simpl; try done.
    intros [-> (F1 & F2 & H1 & H2 & _)] Hf. apply Forall_cons in Hf as [Hf1 Hf2].
    simpl in Hf1. rewrite (Ht F1 v' fuel H1) by done. simpl.
    by rewrite (IH F2 items H2 Hf2).
Qed.

(** The item of a key among the items of a dict, and the items after
    an assignment to the key. *)
Lemma repr_items_get (h : store) (k : string) (d : list (string * json)) :
  forall Fi items t0,
    repr_items h d Fi items -> dict_get k d = Some t0 ->
    exists v0 F0 Fr,
      dict_get k items = Some v0 /\ repr h t0 F0 v0 /\ Fi = F0 ∪ Fr /\ F0 ## Fr /\
      forall h' t' v' F',
        (forall l, l ∈ Fr -> h' !! l = h !! l) -> repr h' t' F' v' -> F' ## Fr ->
        repr_items h' (dict_set k t' d) (F' ∪ Fr) (dict_set k v' items).
Proof.
  induction d as [|[k1 t1] d IH]; intros Fi [|[k1' v1] items] t0; simpl; try done.
  intros [-> (F1 & F2 & H1 & H2 & H3 & ->)]. destruct (String.eqb k k1) eqn:Ek.
  - intros [= <-]. exists v1, F1, F2. split_and!; try done.
    intros h' t' v' F' Hag Hr Hd. split; [done |]. exists F', F2.
    split_and!; [done | | done | done]. by apply (repr_items_frame h).
  - intros Hg. destruct (IH _ _ _ H2 Hg) as (v0 & F0 & Fr & G1 & G2 & -> & G4 & G5).
    exists v0, F0, (F1 ∪ Fr). split_and!; [done | done | set_solver | set_solver |].
    intros h' t' v' F' Hag Hr Hd. split; [done |]. exists F1, (F' ∪ Fr).
    split_and!; [| | set_solver | set_solver].
    + apply (repr_frame h); [done |]. intros l Hl. apply Hag. set_solver.
    + apply G5; [| done | set_solver]. intros l Hl. apply Hag. set_solver.
Qed.

Lemma repr_items_add (h : store) (k : string) (d : list (string * json)) :
  forall Fi items,
    repr_items h d Fi items -> dict_get k d = None ->
    dict_get k items = None /\
    forall h' t' v' F',
      (forall l, l ∈ Fi -> h' !! l = h !! l) -> repr h' t' F' v' -> F' ## Fi ->
      repr_items h' (dict_set k t' d) (F' ∪ Fi) (dict_set k v' items).
Proof.
  induction d as [|[k1 t1] d IH]; intros Fi [|[k1' v1] items]; simpl; try done.
  - intros -> _. split; [done |]. intros h' t' v' F' _ Hr _. split; [done |].
    exists F', ∅. split_and!; [done | done | set_solver | set_solver].
  - intros [-> (F1 & F2 & H1 & H2 & H3 & ->)]. destruct (String.eqb k k1) eqn:Ek; [done |].
    intros Hg. destruct (IH _ _ H2 Hg) as [G1 G2]. split; [done |].
    intros h' t' v' F' Hag Hr Hd. split; [done |]. exists F1, (F' ∪ F2).
    split_and!; [| | set_solver | set_solver].
    + apply (repr_frame h); [done |]. intros l Hl. apply Hag. set_solver.
    + apply G2; [| done | set_solver]. intros l Hl. apply Hag. set_solver.
Qed.

(** What [isinstance] answers for a value that stands for a document. *)
Lemma repr_is_dict (h : store) (t : json) (F : gset loc) (v : val) :
  repr h t F v ->
  Store.is_dict v h = (Ok (match t with JDict _ => true | _ => false end), h).
Proof.
  destruct t as [ | b | n | s | es | d ]; simpl.
  1-4: by intros [-> _].
  - intros (l & -> & Hl & _). unfold Store.is_dict, bind, Store.look. simpl. by rewrite Hl.
  - intros (l & items & Fi & -> & Hl & _). unfold Store.is_dict, bind, Store.look. simpl.
    by rewrite Hl.
Qed.

Lemma repr_is_list (h : store) (t : json) (F : gset loc) (v : val) :
  repr h t F v ->
  Store.is_list v h = (Ok (match t with JList _ => true | _ => false end), h).
Proof.
  destruct t as [ | b | n | s | es | d ]; simpl.
  1-4: by intros [-> _].
  - intros (l & -> & Hl & _). unfold Store.is_list, bind, Store.look. simpl. by rewrite Hl.
  - intros (l & items & Fi & -> & Hl & _). unfold Store.is_list, bind, Store.look. simpl.
    by rewrite Hl.
Qed.

(** The test of a round of the loop of [deep_merge_settings]. *)
Lemma both_are_run (is_T : val -> HM bool) (m : loc) (k : string) (v v0 : val)
    (mi : list (string * val)) (b1 b2 : bool) (h : store) :
  h !! m = Some (ODict mi) -> dict_get k mi = Some v0 ->
  is_T v0 h = (Ok b1, h) -> is_T v h = (Ok b2, h) ->
  both_are is_T (VRef m) k v h = (Ok (b1 && b2), h).
Proof.
  intros Hm Hg H1 H2.
  cbv beta iota zeta delta [both_are bind Store.py_contains Store.py_getitem Store.look
                            Store.view_of ret dict_has].
  rewrite Hm. cbv beta iota. rewrite Hg. cbv beta iota. rewrite Hm. cbv beta iota.
  rewrite Hg. cbv beta iota. rewrite H1. destruct b1; [by rewrite H2 | done].
Qed.

Lemma both_are_absent (is_T : val -> HM bool) (m : loc) (k : string) (v : val)
    (mi : list (string * val)) (h : store) :
  h !! m = Some (ODict mi) -> dict_get k mi = None ->
  both_are is_T (VRef m) k v h = (Ok false, h).
Proof.
  intros Hm Hg.
  cbv beta iota zeta delta [both_are bind Store.py_contains Store.look
                            Store.view_of ret dict_has].
  rewrite Hm. cbv beta iota. by rewrite Hg.
Qed.

Lemma py_setitem_run (m : loc) (k : string) (x : val) (mi : list (string * val))
    (h : store) :
  h !! m = Some (ODict mi) ->
  Store.py_setitem (VRef m) k x h = (Ok tt, <[m := ODict (dict_set k x mi)]> h).
Proof.
  intros Hm. unfold Store.py_setitem, bind, Store.look. simpl. by rewrite Hm.
Qed.

(** The loop over the items of a list of [overlay] (lines 406-408). *)
Lemma extend_loop_run (m lb : loc) (k : string) (mi : list (string * val))
    (ev : list json) :
  forall (es : list json) (h : store),
    h !! m = Some (ODict mi) -> dict_get k mi = Some (VRef lb) ->
    h !! lb = Some (OList es) ->
    for_each ev (fun item =>
      mk <- Store.py_getitem (VRef m) k ;;
      present <- Store.py_contains mk item ;;
      if negb present then
        mk' <- Store.py_getitem (VRef m) k ;;
        Store.py_append mk' item
      else ret tt) h
    = (Ok tt, <[lb := OList (list_extend_new es ev)]> h).
Proof.
  induction ev as [|x ev IH]; intros es h Hm Hg Hlb; simpl.
  - by rewrite list_insert_id.
  - assert (lb <> m) by (intros ->; congruence).
    unfold bind at 1. unfold bind at 1.
    unfold Store.py_getitem at 1, bind at 1, Store.look at 1. simpl. rewrite Hm, Hg. simpl.
    unfold bind at 1. unfold Store.py_contains, bind at 1, Store.look at 1. simpl.
    rewrite Hlb. simpl. destruct (py_in x es) eqn:Hin; simpl.
    + by apply IH.
    + unfold bind at 1.
      unfold Store.py_getitem at 1, bind at 1, Store.look at 1. simpl. rewrite Hm, Hg. simpl.
      unfold Store.py_append, bind at 1, Store.look at 1. simpl. rewrite Hlb. simpl.
      unfold Store.store_at, modify.
      rewrite (IH (es ++ [x]) (<[lb := OList (es ++ [x])]> h)).
      * by rewrite list_insert_insert_eq.
      * by rewrite list_lookup_insert_ne.
      * done.
      * apply list_lookup_insert_eq. by apply lookup_lt_Some in Hlb.
Qed.

Lemma py_getitem_run (m : loc) (k : string) (x : val) (mi : list (string * val))
    (h : store) :
  h !! m = Some (ODict mi) -> dict_get k mi = Some x ->
  Store.py_getitem (VRef m) k h = (Ok x, h).
Proof.
  intros Hm Hg. cbv beta iota zeta delta [Store.py_getitem bind Store.look Store.view_of].
  rewrite Hm. cbv beta iota. by rewrite Hg.
Qed.

Lemma merge_step_absent (k : string) (t : json) (md : list (string * json)) :
  dict_get k md = None -> merge_step k t md = dict_set k t md.
Proof. intros E. unfold merge_step. rewrite E. by destruct t. Qed.

Section MergeRound.

Variable depth : nat.

(** [deep_merge_settings] with the room the calls of a round have. *)
Hypothesis IH :
  forall (b o : list (string * json)) (base overlay : val) (h : store) (Fb Fo : gset loc),
    repr h (JDict b) Fb base -> repr h (JDict o) Fo overlay -> Fb ## Fo ->
    dict_depth (JDict o) <= depth ->
    exists r h' F',
      deep_merge_settings depth base overlay h = (Ok r, h') /\
      repr h' (JDict (merge b o)) F' r /\
      (forall l, l ∈ F' -> l ∈ Fb \/ l ∈ Fo \/ length h <= l) /\
      length h <= length h' /\
      (forall l, l < length h -> l ∉ Fb -> l ∉ Fo -> h' !! l = h !! l) /\
      (forall l it, h !! l = Some (ODict it) -> h' !! l = Some (ODict it)).

(** A round of the loop, for the dict [m] being built and an item of
    [overlay]: the dict then stands for the mapping after
    [merge_step]. The round changes the dict, objects of the two
    documents and new objects, nothing else. *)
Lemma merge_item_repr (m : loc) (k : string) (v : val) (t : json)
    (md : list (string * json)) (mi : list (string * val)) (hc : store)
    (Fm Fv : gset loc) :
  hc !! m = Some (ODict mi) -> repr_items hc md Fm mi -> repr hc t Fv v ->
  m ∉ Fm -> m ∉ Fv -> Fm ## Fv -> dict_depth t <= depth ->
  exists h' mi' F',
    merge_item (deep_merge_settings depth) (VRef m) (k, v) hc = (Ok tt, h') /\
    h' !! m = Some (ODict mi') /\
    repr_items h' (merge_step k t md) F' mi' /\ (m ∉ F') /\
    (forall l, l ∈ F' -> l ∈ Fm \/ l ∈ Fv \/ length hc <= l) /\
    length hc <= length h' /\
    (forall l, l < length hc -> l ∉ Fm -> l ∉ Fv -> l <> m -> h' !! l = hc !! l) /\
    (forall l it, l <> m -> hc !! l = Some (ODict it) -> h' !! l = Some (ODict it)).
Proof.
  intros Hm Hmd Hv HmFm HmFv Hdisj Hdepth.
  pose proof (lookup_lt_Some _ _ _ Hm) as Hmlt.
  pose proof (repr_items_bound _ _ _ _ Hmd) as HFm.
  pose proof (repr_bound _ _ _ _ Hv) as HFv.
  (* the assignment [merged[key] = value] *)
  assert (Hset : forall Fr,
             Fr ⊆ Fm ->
             (forall h' t' v' F',
                 (forall l, l ∈ Fr -> h' !! l = hc !! l) -> repr h' t' F' v' -> F' ## Fr ->
                 repr_items h' (dict_set k t' md) (F' ∪ Fr) (dict_set k v' mi)) ->
             both_are Store.is_dict (VRef m) k v hc = (Ok false, hc) ->
             both_are Store.is_list (VRef m) k v hc = (Ok false, hc) ->
             merge_step k t md = dict_set k t md ->
             exists h' mi' F',
               merge_item (deep_merge_settings depth) (VRef m) (k, v) hc = (Ok tt, h') /\
               h' !! m = Some (ODict mi') /\
               repr_items h' (merge_step k t md) F' mi' /\ (m ∉ F') /\
               (forall l, l ∈ F' -> l ∈ Fm \/ l ∈ Fv \/ length hc <= l) /\
               length hc <= length h' /\
               (forall l, l < length hc -> l ∉ Fm -> l ∉ Fv -> l <> m -> h' !! l = hc !! l) /\
               (forall l it, l <> m -> hc !! l = Some (ODict it) -> h' !! l = Some (ODict it))).
  { intros Fr Hsub Hcont Hd Hl ->.
    exists (<[m := ODict (dict_set k v mi)]> hc), (dict_set k v mi), (Fv ∪ Fr).
    split_and!.
    - unfold merge_item. cbn [fst snd].
      rewrite (bind_run _ _ _ _ _ Hd). cbv iota.
      rewrite (bind_run _ _ _ _ _ Hl). cbv iota.
      by apply py_setitem_run.
    - by apply list_lookup_insert_eq.
    - apply Hcont.
      + intros l Hl'. apply list_lookup_insert_ne. set_solver.
      + apply (repr_frame hc); [done |]. intros l Hl'. apply list_lookup_insert_ne. set_solver.
      + set_solver.
    - set_solver.
    - set_solver.
    - by rewrite length_insert.
    - intros l _ _ _ Hne. by apply list_lookup_insert_ne.
    - intros l it Hne Hl'. by rewrite list_lookup_insert_ne. }
  destruct (dict_get k md) as [t0|] eqn:Eg.
  2:{ destruct (repr_items_add _ _ _ _ _ Hmd Eg) as [Gn Gc].
      apply (Hset Fm); [done | done | | |].
      - by apply (both_are_absent _ _ _ _ mi).
      - by apply (both_are_absent _ _ _ _ mi).
      - by apply merge_step_absent. }
  destruct (repr_items_get _ _ _ _ _ _ Hmd Eg) as (v0 & F0 & Fr & G1 & G2 & -> & G4 & G5).
  pose proof (both_are_run Store.is_dict m k v v0 mi _ _ hc Hm G1
                (repr_is_dict _ _ _ _ G2) (repr_is_dict _ _ _ _ Hv)) as Hd.
  pose proof (both_are_run Store.is_list m k v v0 mi _ _ hc Hm G1
                (repr_is_list _ _ _ _ G2) (repr_is_list _ _ _ _ Hv)) as Hl.
  assert (Hother : merge_step k t md = dict_set k t md ->
                   (match t0 with JDict _ => true | _ => false end)
                   && (match t with JDict _ => true | _ => false end) = false ->
                   (match t0 with JList _ => true | _ => false end)
                   && (match t with JList _ => true | _ => false end) = false ->
                   exists h' mi' F',
                     merge_item (deep_merge_settings depth) (VRef m) (k, v) hc = (Ok tt, h') /\
                     h' !! m = Some (ODict mi') /\
                     repr_items h' (merge_step k t md) F' mi' /\ (m ∉ F') /\
                     (forall l, l ∈ F' -> l ∈ F0 ∪ Fr \/ l ∈ Fv \/ length hc <= l) /\
                     length hc <= length h' /\
                     (forall l, l < length hc -> l ∉ F0 ∪ Fr -> l ∉ Fv -> l <> m ->
                                h' !! l = hc !! l) /\
                     (forall l it, l <> m -> hc !! l = Some (ODict it) ->
                                   h' !! l = Some (ODict it))).
  { intros E E1 E2. rewrite E1 in Hd. rewrite E2 in Hl.
    apply (Hset Fr); [set_solver | done | done | done | done]. }
  destruct t0 as [ | b0 | n0 | s0 | es | b' ], t as [ | b1 | n1 | s1 | ev | o' ];
    try (apply Hother; [unfold merge_step; by rewrite Eg | done | done]).
  - (* two lists *)
    cbn [andb] in Hd, Hl.
    destruct G2 as (lb & -> & Hlb & ->). destruct Hv as (lo & -> & Hlo & ->).
    assert (lb <> m) by set_solver.
    exists (<[lb := OList (list_extend_new es ev)]> hc), mi, ({[ lb ]} ∪ Fr).
    split_and!.
    + unfold merge_item. cbn [fst snd].
      rewrite (bind_run _ _ _ _ _ Hd). cbv iota.
      rewrite (bind_run _ _ _ _ _ Hl). cbv iota.
      rewrite (bind_run _ _ _ _ _ (py_iter_list _ _ _ Hlo)).
      by apply (extend_loop_run m lb k mi).
    + by rewrite list_lookup_insert_ne.
    + unfold merge_step. rewrite Eg.
      pose proof (G5 (<[lb := OList (list_extend_new es ev)]> hc)
                    (JList (list_extend_new es ev)) (VRef lb) {[ lb ]}) as E.
      rewrite (dict_set_same k (VRef lb) mi G1) in E. apply E.
      * intros l Hl'. apply list_lookup_insert_ne. set_solver.
      * exists lb. split_and!; [done | | done].
        apply list_lookup_insert_eq. by apply lookup_lt_Some in Hlb.
      * set_solver.
    + done.
    + set_solver.
    + by rewrite length_insert.
    + intros l _ Hl' _ _. apply list_lookup_insert_ne. set_solver.
    + intros l it _ Hl'. rewrite list_lookup_insert_ne; [done | congruence].
  - (* two dicts *)
    cbn [andb] in Hd, Hl.
    destruct (IH b' o' v0 v hc F0 Fv G2 Hv) as (r & h1 & F1 & R1 & R2 & R3 & R4 & R5 & R6);
      [set_solver | done |].
    assert (Hm1 : h1 !! m = Some (ODict mi)).
    { rewrite R5; [done | done | set_solver | done]. }
    assert (HmF1 : m ∉ F1).
    { intros Hin. destruct (R3 _ Hin) as [?|[?|?]]; [set_solver | set_solver | lia]. }
    exists (<[m := ODict (dict_set k r mi)]> h1), (dict_set k r mi), (F1 ∪ Fr).
    split_and!.
    + unfold merge_item. cbn [fst snd].
      rewrite (bind_run _ _ _ _ _ Hd). cbv iota.
      rewrite (bind_run _ _ _ _ _ (py_getitem_run _ _ _ _ _ Hm G1)).
      rewrite (bind_run _ _ _ _ _ R1).
      by apply py_setitem_run.
    + apply list_lookup_insert_eq. by apply lookup_lt_Some in Hm1.
    + unfold merge_step. rewrite Eg. apply G5.
      * intros l Hl'. rewrite list_lookup_insert_ne by set_solver.
        apply R5; [apply HFm | |]; set_solver.
      * apply (repr_frame h1); [done |]. intros l Hl'.
        apply list_lookup_insert_ne. set_solver.
      * intros l H1 H2. destruct (R3 _ H1) as [?|[?|?]]; [set_solver | set_solver |].
        assert (l < length hc) by (apply HFm; set_solver). lia.
    + set_solver.
    + intros l [Hl'|Hl']%elem_of_union; [| set_solver].
      destruct (R3 _ Hl') as [?|[?|?]]; [left; set_solver | by right; left | by right; right].
    + by rewrite length_insert.
    + intros l L1 L2 L3 L4. rewrite list_lookup_insert_ne by done.
      apply R5; [done | set_solver | done].
    + intros l it Hne Hl'. rewrite list_lookup_insert_ne by done. by apply R6.
Qed.

(** The loop over the items of [overlay]. *)
Lemma merge_loop_repr (m : loc) (o : list (string * json)) :
  forall (oi : list (string * val)) (md : list (string * json))
         (mi : list (string * val)) (hc : store) (Fm Fo : gset loc),
    hc !! m = Some (ODict mi) -> repr_items hc md Fm mi -> repr_items hc o Fo oi ->
    m ∉ Fm -> m ∉ Fo -> Fm ## Fo ->
    Forall (fun kv => dict_depth (snd kv) <= depth) o ->
    exists h' mi' F',
      for_each oi (merge_item (deep_merge_settings depth) (VRef m)) hc = (Ok tt, h') /\
      h' !! m = Some (ODict mi') /\
      repr_items h' (merge md o) F' mi' /\ (m ∉ F') /\
      (forall l, l ∈ F' -> l ∈ Fm \/ l ∈ Fo \/ length hc <= l) /\
      length hc <= length h' /\
      (forall l, l < length hc -> l ∉ Fm -> l ∉ Fo -> l <> m -> h' !! l = hc !! l) /\
      (forall l it, l <> m -> hc !! l = Some (ODict it) -> h' !! l = Some (ODict it)).
Proof.
  induction o as [|[k t] o IHo]; intros [|[k' v] oi] md mi hc Fm Fo; simpl; try done.
  - intros Hm Hmd _ HmFm _ _ _. exists hc, mi, Fm. split_and!; try done. by left.
  - intros Hm Hmd [-> (Fv & Fo' & Hv & Ho & Hvo & ->)] HmFm HmFo Hdisj Hdepth.
    apply Forall_cons in Hdepth as [Hdt Hdo]. simpl in Hdt.
    destruct (merge_item_repr m k v t md mi hc Fm Fv Hm Hmd Hv)
      as (h1 & mi1 & F1 & S1 & S2 & S3 & S4 & S5 & S6 & S7 & S8);
      [done | set_solver | set_solver | done |].
    pose proof (repr_items_bound _ _ _ _ Hmd) as HFm.
    pose proof (repr_items_bound _ _ _ _ Ho) as HFo.
    destruct (IHo oi (merge_step k t md) mi1 h1 F1 Fo' S2 S3)
      as (h2 & mi2 & F2 & T1 & T2 & T3 & T4 & T5 & T6 & T7 & T8);
      [| done | set_solver | | done |].
    { apply (repr_items_frame hc); [done |]. intros l Hl.
      apply S7; [by apply HFo | set_solver | set_solver | set_solver]. }
    { intros l H1 H2. destruct (S5 _ H1) as [?|[?|?]]; [set_solver | set_solver |].
      apply HFo in H2. lia. }
    exists h2, mi2, F2. split_and!.
    + by rewrite (bind_run _ _ _ _ _ S1).
    + done.
    + done.
    + done.
    + intros l Hl. destruct (T5 _ Hl) as [Hl'|[?|?]].
      * destruct (S5 _ Hl') as [?|[?|?]]; [by left | right; left; set_solver | by right; right].
      * right; left; set_solver.
      * right; right; lia.
    + lia.
    + intros l L1 L2 L3 L4. rewrite T7; [| lia | | set_solver | done].
      * apply S7; [done | done | set_solver | done].
      * intros Hin. destruct (S5 _ Hin) as [?|[?|?]]; [done | set_solver | lia].
    + intros l it Hne Hl'. by apply T8, S8.
Qed.

End MergeRound.

(** [deep_merge_settings] on two documents that share no object, with
    room for the nesting of [overlay]: the call returns a value that
    stands for the merge of the documents. It has changed objects of
    the two documents and made new ones, nothing else. *)
Lemma deep_merge_repr (depth : nat) :
  forall (b o : list (string * json)) (base overlay : val) (h : store) (Fb Fo : gset loc),
    repr h (JDict b) Fb base -> repr h (JDict o) Fo overlay -> Fb ## Fo ->
    dict_depth (JDict o) <= depth ->
    exists r h' F',
      deep_merge_settings depth base overlay h = (Ok r, h') /\
      repr h' (JDict (merge b o)) F' r /\
      (forall l, l ∈ F' -> l ∈ Fb \/ l ∈ Fo \/ length h <= l) /\
      length h <= length h' /\
      (forall l, l < length h -> l ∉ Fb -> l ∉ Fo -> h' !! l = h !! l) /\
      (forall l it, h !! l = Some (ODict it) -> h' !! l = Some (ODict it)).
Proof.
  induction depth as [|depth IH]; intros b o base overlay h Fb Fo Hb Ho Hdisj Hdepth.
  { cbn [dict_depth] in Hdepth. lia. }
  apply dict_depth_items in Hdepth.
  pose proof (repr_bound _ _ _ _ Hb) as HFb. pose proof (repr_bound _ _ _ _ Ho) as HFo.
  apply repr_dict in Hb as (lb & bi & Fbi & -> & Hlb & -> & Hbi).
  apply repr_dict in Ho as (lo & oi & Foi & -> & Hlo & -> & Hoi).
  set (m := length h). set (hc := h ++ [ODict bi]).
  assert (Hag : forall l, l < length h -> hc !! l = h !! l)
    by (intros l Hl; by apply lookup_app_l).
  destruct (merge_loop_repr depth IH m o oi b bi hc Fbi Foi)
    as (h' & mi' & F' & T1 & T2 & T3 & T4 & T5 & T6 & T7 & T8).
  { unfold hc, m. by rewrite lookup_app_len. }
  { apply (repr_items_frame h); [done |]. intros l Hl. apply Hag, HFb. set_solver. }
  { apply (repr_items_frame h); [done |]. intros l Hl. apply Hag, HFo. set_solver. }
  { intros Hin. assert (m < length h) by (apply HFb; set_solver). unfold m in *. lia. }
  { intros Hin. assert (m < length h) by (apply HFo; set_solver). unfold m in *. lia. }
  { set_solver. }
  { done. }
  assert (Hlen : length hc = S (length h)) by (unfold hc; rewrite length_app; simpl; lia).
  exists (VRef m), h', ({[ m ]} ∪ F'). split_and!.
  - cbn [deep_merge_settings].
    erewrite bind_run.
    2:{ cbv beta iota zeta delta [Store.dict_of bind Store.look Store.view_of].
        rewrite Hlb. reflexivity. }
    erewrite bind_run.
    2:{ cbv beta iota zeta delta [Store.items_of bind Store.look Store.view_of].
        unfold Store.alloc. rewrite lookup_app_l by (by apply lookup_lt_Some in Hlo).
        rewrite Hlo. reflexivity. }
    fold m hc. by rewrite (bind_run _ _ _ _ _ T1).
  - apply repr_dict. by exists m, mi', F'.
  - intros l [->%elem_of_singleton|Hl]%elem_of_union; [right; right; unfold m; lia |].
    destruct (T5 _ Hl) as [?|[?|?]]; [left; set_solver | right; left; set_solver |].
    right; right; lia.
  - lia.
  - intros l L1 L2 L3. rewrite T7; [by apply Hag | lia | set_solver | set_solver |].
    unfold m. lia.
  - intros l it Hl. pose proof (lookup_lt_Some _ _ _ Hl) as Hlt. apply T8.
    + unfold m. lia.
    + by rewrite Hag.
Qed.

(** ** The merge of two documents *)

Lemma list_extend_new_items (v : list json) :
  forall l, list_extend_new l v = l ++ list_new_items l v.
Proof.
  induction v as [|x v IH]; intros l; simpl; [by rewrite app_nil_r |].
  destruct (py_in x l); [apply IH |]. rewrite IH. by rewrite <- app_assoc.
Qed.

(** The value of a key after the merge of two mappings, the second one
    with one item per key. *)
Lemma merge_get (o : list (string * json)) :
  forall (b : list (string * json)) (k : string),
    NoDup (map fst o) ->
    dict_get k (merge b o)
    = match dict_get k o with
      | None => dict_get k b
      | Some x =>
          Some (match dict_get k b, x with
                | Some (JDict b'), JDict o' => JDict (merge b' o')
                | Some (JList l), JList v => JList (list_extend_new l v)
                | _, _ => x
                end)
      end.
Proof.
  induction o as [|[k1 t1] o IHo]; intros b k Hnd; [done |].
  apply NoDup_cons in Hnd as [Hk1 Hnd]. cbn [map fst] in Hk1.
  change (merge b ((k1, t1) :: o)) with (merge (merge_step k1 t1 b) o).
  rewrite (IHo _ _ Hnd).
  change (dict_get k ((k1, t1) :: o)) with (if String.eqb k k1 then Some t1 else dict_get k o).
  destruct (String.eqb k k1) eqn:Ek.
  - apply String.eqb_eq in Ek. subst k1.
    assert (Hn : dict_get k o = None).
    { destruct (dict_get k o) eqn:E; [| done]. destruct Hk1.
      apply dict_get_in_keys. by rewrite E. }
    rewrite Hn. unfold merge_step.
    destruct (dict_get k b) as [[ | | | | l | b']|]; destruct t1; by rewrite dict_get_set_eq.
  - apply String.eqb_neq in Ek.
    assert (Hs : dict_get k (merge_step k1 t1 b) = dict_get k b).
    { unfold merge_step.
      destruct (dict_get k1 b) as [[ | | | | l | b']|]; destruct t1;
        by rewrite dict_get_set_ne by done. }
    by rewrite Hs.
Qed.

(** [deep_merge_settings] on two documents as [json.loads] builds them
    returns, given room for the nesting of the second, a value that
    stands for their merge. *)
Lemma deep_merge_settings_refines_merge (depth : nat) (b o : list (string * json)) :
  dict_depth (JDict o) <= depth -> merged_to depth (JDict b) (JDict o) (JDict (merge b o)).
Proof.
  intros Hdepth h.
  destruct (Store.alloc_json (JDict b) h) as [base h1] eqn:Eb.
  destruct (Store.alloc_json (JDict o) h1) as [overlay h2] eqn:Eo.
  destruct (alloc_json_repr _ _ _ _ Eb) as (e1 & Fb & -> & Rb & Bb).
  destruct (alloc_json_repr _ _ _ _ Eo) as (e2 & Fo & -> & Ro & Bo).
  pose proof (repr_bound _ _ _ _ Rb) as HFb.
  destruct (deep_merge_repr depth b o base overlay ((h ++ e1) ++ e2) Fb Fo)
    as (r & h3 & F' & R1 & R2 & _); [| done | | done |].
  - apply (repr_frame (h ++ e1)); [done |]. intros l Hl. apply lookup_app_l. by apply HFb.
  - intros l H1 H2. apply HFb in H1. apply Bo in H2. lia.
  - exists r, h3. split; [done |]. apply (repr_reify _ _ F'); [done | lia].
Qed.

(** What the loop over a list of [overlay] appends: items of the list
    that the list of [base] did not have. *)
Lemma list_new_items_in (v : list json) :
  forall (l : list json) (x : json),
    x ∈ list_new_items l v -> x ∈ v /\ py_in x l = false.
Proof.
  induction v as [|y v IH]; intros l x; simpl; [by intros ?%elem_of_nil |].
  destruct (py_in y l) eqn:Hy.
  - intros Hx. destruct (IH _ _ Hx) as [H1 H2]. split; [by apply list_elem_of_further | done].
  - intros [->|Hx]%elem_of_cons; [split; [apply list_elem_of_here | done] |].
    destruct (IH _ _ Hx) as [H1 H2]. split; [by apply list_elem_of_further |].
    unfold py_in in *. rewrite existsb_app in H2. by apply orb_false_elim in H2 as [? _].
Qed.

(** After the loop every item of the list of [overlay] is in the list. *)
Lemma list_new_items_all (v : list json) :
  forall (l : list json) (x : json), x ∈ v -> py_in x (l ++ list_new_items l v) = true.
Proof.
  induction v as [|y v IH]; intros l x; simpl; [by intros ?%elem_of_nil |].
  assert (E : l ++ y :: list_new_items (l ++ [y]) v
              = (l ++ [y]) ++ list_new_items (l ++ [y]) v) by (by rewrite <- app_assoc).
  intros [->|Hx]%elem_of_cons.
  - destruct (py_in y l) eqn:Hy; [by apply py_in_app_l |].
    rewrite E. apply py_in_app_l, py_in_snoc.
  - destruct (py_in y l) eqn:Hy; [by apply IH |].
    rewrite E. by apply IH.
Qed.

(** C6 — [deep_merge_settings] on two mappings [b] and [o], with room
    for the nesting of [o], returns a mapping [m] such that: the keys
    of [m] are the keys of [b] and the keys of [o]; for a key that both
    map to lists, [m] has the list of [b] followed by the items of the
    list of [o] that were not in it yet (an item is appended when it
    equals none of the items before it, so that it is appended once);
    for a key that both map to mappings, [m] has what
    [deep_merge_settings] returns for the two; for any other key of
    [o], [m] has the value of [o]; and a key that [o] has not keeps the
    value of [b]. *)
Theorem deep_merge_settings_merges (depth : nat) (b o : list (string * json)) :
  dict_depth (JDict o) <= depth -> NoDup (map fst o) ->
  exists m,
    merged_to depth (JDict b) (JDict o) (JDict m) /\
    (forall k, is_Some (dict_get k m) <-> is_Some (dict_get k b) \/ is_Some (dict_get k o)) /\
    (forall k l v,
        dict_get k b = Some (JList l) -> dict_get k o = Some (JList v) ->
        dict_get k m = Some (JList (l ++ list_new_items l v))) /\
    (forall k b' o',
        dict_get k b = Some (JDict b') -> dict_get k o = Some (JDict o') ->
        exists m', dict_get k m = Some (JDict m') /\
                   merged_to (pred depth) (JDict b') (JDict o') (JDict m')) /\
    (forall k x,
        dict_get k o = Some x ->
        (forall l v, dict_get k b = Some (JList l) -> x <> JList v) ->
        (forall b' o', dict_get k b = Some (JDict b') -> x <> JDict o') ->
        dict_get k m = Some x) /\
    (forall k, dict_get k o = None -> dict_get k m = dict_get k b).
Proof.
  intros Hdepth Hnd. exists (merge b o). split_and!.
  - by apply deep_merge_settings_refines_merge.
  - intros k. rewrite (merge_get o b k Hnd). destruct (dict_get k o) as [x|].
    + split; [intros _; right; eauto | eauto].
    + split; [by left | by intros [?|[? [=]]]].
  - intros k l v Hb Ho. rewrite (merge_get o b k Hnd), Ho, Hb.
    by rewrite list_extend_new_items.
  - intros k b' o' Hb Ho. exists (merge b' o').
    rewrite (merge_get o b k Hnd), Ho, Hb. split; [done |].
    apply deep_merge_settings_refines_merge.
    destruct depth as [|depth]; [cbn [dict_depth] in Hdepth; lia |].
    apply dict_depth_items in Hdepth. rewrite Forall_forall in Hdepth.
    by apply (Hdepth (k, JDict o')), dict_get_elem.
  - intros k x Ho Hl Hd. rewrite (merge_get o b k Hnd), Ho.
    destruct (dict_get k b) as [[ | | | | l | b']|]; try done.
    + destruct x; try done. by destruct (Hl l l0).
    + destruct x; try done. by destruct (Hd b' d).
  - intros k Ho. by rewrite (merge_get o b k Hnd), Ho.
Qed.

Lemma deep_merge_settings_merges_witness :
  dict_depth (JDict doc_bc) <= 2 /\ NoDup (map fst doc_bc) /\
  exists m,
    merged_to 2 (JDict doc_ab) (JDict doc_bc) (JDict m) /\
    dict_get "k" m = Some (JList [JStr "a"; JStr "b"; JStr "c"]).
Proof.
  assert (H1 : dict_depth (JDict doc_bc) <= 2) by (cbn; lia).
  assert (H2 : NoDup (map fst doc_bc)).
  { repeat constructor. by intros ?%elem_of_nil. }
  split; [exact H1 |]. split; [exact H2 |].
  destruct (deep_merge_settings_merges 2 doc_ab doc_bc H1 H2) as (m & Hm & _ & Hl & _).
  exists m. split; [exact Hm |]. exact (Hl "k" _ _ eq_refl eq_refl).
Defined.

(** ** The base document after a merge *)

Lemma repr_items_keys (h : store) (d : list (string * json)) :
  forall (Fi : gset loc) (items : list (string * val)),
    repr_items h d Fi items -> map fst items = map fst d.
Proof.
  induction d as [|[k t] d IH]; intros Fi [|[k' v] items]; simpl; try done.
  intros [-> (F1 & F2 & _ & H2 & _)]. by rewrite (IH F2 items H2).
Qed.

Lemma field_dict (h : store) (l : loc) (it : list (string * val)) (k : string) :
  h !! l = Some (ODict it) -> field h (VRef l) k = dict_get k it.
Proof. intros Hl. unfold field. simpl. by rewrite Hl. Qed.

(** A key that both documents map to lists, for the documents as
    [json.loads] builds them: the call returns, and the list object of
    the base then holds the items that were not in it yet as well. *)
Lemma deep_merge_mutates_loaded (depth : nat) (b o : list (string * json)) (h : store)
    (k : string) (es ev : list json) :
  dict_depth (JDict o) <= depth -> NoDup (map fst o) ->
  dict_get k b = Some (JList es) -> dict_get k o = Some (JList ev) ->
  let '(base, h1) := Store.alloc_json (JDict b) h in
  let '(overlay, h2) := Store.alloc_json (JDict o) h1 in
  exists r h3 lb,
    deep_merge_settings depth base overlay h2 = (Ok r, h3) /\
    base <> r /\
    field h2 base k = Some (VRef lb) /\ h2 !! lb = Some (OList es) /\
    field h3 base k = Some (VRef lb) /\ field h3 r k = Some (VRef lb) /\
    h3 !! lb = Some (OList (es ++ list_new_items es ev)).
Proof.
  intros Hdepth Hnd Hkb Hko.
  destruct (Store.alloc_json (JDict b) h) as [base h1] eqn:Eb.
  destruct (Store.alloc_json (JDict o) h1) as [overlay h2] eqn:Eo.
  destruct (alloc_json_repr _ _ _ _ Eb) as (e1 & Fb & -> & Rb & Bb).
  destruct (alloc_json_repr _ _ _ _ Eo) as (e2 & Fo & -> & Ro & Bo).
  pose proof (repr_bound _ _ _ _ Rb) as HFb.
  set (h2 := (h ++ e1) ++ e2) in *.
  assert (Rb2 : repr h2 (JDict b) Fb base).
  { apply (repr_frame (h ++ e1)); [done |]. intros l Hl. apply lookup_app_l. by apply HFb. }
  destruct (deep_merge_repr depth b o base overlay h2 Fb Fo Rb2 Ro)
    as (r & h3 & F' & R1 & R2 & _); [| done |].
  { intros l H1 H2. apply HFb in H1. apply Bo in H2. lia. }
  pose proof Rb2 as Rb'. apply repr_dict in Rb' as (lbase & bi & Fbi & -> & Hlbase & _ & Hbi).
  pose proof Ro as Ro'. apply repr_dict in Ro' as (lover & oi & Foi & -> & Hlover & _ & Hoi).
  destruct (repr_items_get _ _ _ _ _ _ Hbi Hkb) as (vb & F0 & _ & Gb1 & (lb & -> & Hlb & _) & _).
  destruct (repr_items_get _ _ _ _ _ _ Hoi Hko) as (vo & F1 & _ & Go1 & (lo & -> & Hlo & _) & _).
  assert (Hwf : dict_wf h2 (VRef lover)).
  { intros l it [= <-] Hl. assert (it = oi) by congruence. subst it.
    by rewrite (repr_items_keys _ _ _ _ Hoi). }
  destruct (deep_merge_shares_lists depth (VRef lbase) (VRef lover) r h2 h3 k lb lo es ev
              R1 Hwf) as (_ & Hne & Hr & Hb & _);
    [by rewrite (field_dict _ _ _ _ Hlbase) | done
     | by rewrite (field_dict _ _ _ _ Hlover) | done |].
  exists r, h3, lb. split_and!; [done | done | | done | done | done |].
  - by rewrite (field_dict _ _ _ _ Hlbase).
  - apply repr_dict in R2 as (m & mi & Fmi & -> & Hm & _ & Hmi).
    assert (Hg : dict_get k (merge b o) = Some (JList (list_extend_new es ev)))
      by (by rewrite (merge_get o b k Hnd), Hko, Hkb).
    destruct (repr_items_get _ _ _ _ _ _ Hmi Hg)
      as (v1 & F2 & _ & G1 & (l1 & -> & Hl1 & _) & _).
    rewrite (field_dict _ _ _ _ Hm), G1 in Hr. injection Hr as ->.
    by rewrite <- list_extend_new_items.
Qed.

(** C9 — [deep_merge_settings] is not pure in [base]. Its result is a
    new dict (the shallow copy), but for a key that both arguments map
    to lists the result and [base] refer to one and the same list
    object, the one [base] had, and the call has appended to that
    object: afterwards it holds what it held, followed by more, and
    every element of the list of [overlay] is in it; so the caller's
    document has changed as soon as [overlay] brought a new element.
    The values of the keys that only [base] has are shared too. This
    holds whenever the call returns; and for two documents as
    [json.loads] builds them the call does return, and the list object
    of [base] then holds the new items of [overlay] after its own. *)
Theorem deep_merge_settings_mutates_base :
  (forall (depth : nat) (base overlay r : val) (h h' : store) (k : string)
          (lb lo : loc) (es ev : list json),
      deep_merge_settings depth base overlay h = (Ok r, h') ->
      dict_wf h overlay ->
      field h base k = Some (VRef lb) -> h !! lb = Some (OList es) ->
      field h overlay k = Some (VRef lo) -> h !! lo = Some (OList ev) ->
      r = VRef (length h) /\ base <> r /\
      field h' r k = Some (VRef lb) /\ field h' base k = Some (VRef lb) /\
      (exists ex, h' !! lb = Some (OList (es ++ ex)) /\
                  (forall x, x ∈ ev -> py_in x (es ++ ex) = true) /\
                  ((exists x, x ∈ ev /\ py_in x es = false) -> ex <> [])) /\
      (forall k' x, field h base k' = Some x -> field h overlay k' = None ->
                    field h' r k' = Some x)) /\
  (forall (depth : nat) (b o : list (string * json)) (h : store) (k : string)
          (es ev : list json),
      dict_depth (JDict o) <= depth -> NoDup (map fst o) ->
      dict_get k b = Some (JList es) -> dict_get k o = Some (JList ev) ->
      let '(base, h1) := Store.alloc_json (JDict b) h in
      let '(overlay, h2) := Store.alloc_json (JDict o) h1 in
      exists r h3 lb,
        deep_merge_settings depth base overlay h2 = (Ok r, h3) /\
        base <> r /\
        field h2 base k = Some (VRef lb) /\ h2 !! lb = Some (OList es) /\
        field h3 base k = Some (VRef lb) /\ field h3 r k = Some (VRef lb) /\
        h3 !! lb = Some (OList (es ++ list_new_items es ev))).
Proof.
  split.
  - apply deep_merge_shares_lists.
  - apply deep_merge_mutates_loaded.
Qed.

(* ===================================================================== *)
(** * What an install run removes *)
(* ===================================================================== *)

Lemma only_adds_weaken (ok ok' : fsop -> Prop) {A} (m : M A) :
  (forall op, ok op -> ok' op) -> only_adds ok m -> only_adds ok' m.
Proof.
  intros Himp Hm w r w' Hrun. destruct (Hm _ _ _ Hrun) as (ops & E & Hok & Hfr).
  exists ops. split_and!; [done | | done]. eapply Forall_impl; [exact Hok | exact Himp].
Qed.

Section RunInstall.

Variable P : platform.

Lemma only_adds_modify_log (f : list entry -> list entry) (ok : fsop -> Prop) :
  only_adds ok (modify (set_log f)).
Proof. apply only_adds_silent. by intros w r w' [= <- <-]. Qed.

Lemma only_adds_create_snapshot : only_adds is_write (create_snapshot P).
Proof.
  unfold create_snapshot.
  apply only_adds_bind; [apply only_adds_gets |]. intros top.
  apply only_adds_bind; [apply only_adds_gets |]. intros sub.
  destruct (top ++ sub) as [|f fs] eqn:E; [apply only_adds_ret |].
  apply only_adds_bind; [apply only_adds_timestamp |]. intros ts.
  apply only_adds_bind; [| intros; apply only_adds_ret].
  apply only_adds_for_each. intros x _.
  destruct (relative_to x (CLAUDE_HOME P)); [| apply only_adds_raise].
  apply only_adds_copy2. by eexists.
Qed.

Lemma only_adds_install_task_templates (tasks_dir : Path) (prefix : string) :
  only_adds is_write (install_task_templates P tasks_dir prefix).
Proof.
  apply only_adds_for_each. intros tpl _.
  apply only_adds_bind; [apply only_adds_exists |]. intros e.
  apply only_adds_bind.
  { destruct e; [| apply only_adds_ret]. unfold file_has_content.
    apply only_adds_bind; [apply only_adds_exists |]. intros e'.
    destruct (negb e'); [apply only_adds_ret |].
    apply only_adds_bind; [apply only_adds_read_text | intros; apply only_adds_ret]. }
  intros c. destruct c; [apply only_adds_log |].
  apply only_adds_bind; [apply only_adds_copy2; by eexists | intros; apply only_adds_log].
Qed.

Lemma only_adds_is_git_repo (path : Path) (ok : fsop -> Prop) :
  only_adds ok (is_git_repo P path).
Proof.
  unfold is_git_repo. generalize (resolve P path) at 2. generalize (length (resolve P path)).
  intros n. induction n as [|n IH]; intros current; simpl;
    (apply only_adds_bind; [apply only_adds_gets |]); intros g;
    (destruct g; [apply only_adds_ret |]);
    (destruct (decide _); [apply only_adds_ret |]); [apply only_adds_ret | apply IH].
Qed.

Lemma only_adds_install_auto_read (cwd : Path) : only_adds is_write (install_auto_read P cwd).
Proof.
  unfold install_auto_read.
  apply only_adds_bind; [apply only_adds_exists |]. intros e. destruct e.
  - apply only_adds_bind.
    { apply only_adds_try; [| intros; apply only_adds_lift_heap].
      apply only_adds_bind; [apply only_adds_read_text | intros; apply only_adds_lift_heap]. }
    intros existing. apply only_adds_bind; [apply only_adds_lift_heap |]. intros added.
    destruct added; [apply only_adds_log |].
    apply only_adds_bind; [apply only_adds_lift_heap |]. intros text.
    apply only_adds_bind; [apply only_adds_write_bytes; by eexists | intros; apply only_adds_log].
  - apply only_adds_bind; [apply only_adds_write_bytes; by eexists | intros; apply only_adds_log].
Qed.

(** The loop over a catalog unlinks files of the catalog directory
    whose names are not selected, and nothing else. *)
Lemma only_adds_install_selection (dir : Path) (prefix : string) (info : list item)
    (selected : gset string) :
  only_adds (fun op => is_write op \/ exists n, (n ∉ selected) /\ op = Rm (dir // n))
            (install_selection P dir prefix info selected).
Proof.
  apply only_adds_for_each. intros it _. cbv beta zeta.
  destruct (decide _) as [Hsel|Hsel].
  - apply only_adds_smart_install; intros; left; by eexists.
  - apply only_adds_remove_with_log; [right; by eexists | intros; left; by eexists].
Qed.

(** [run_install] writes files; the files it unlinks are rules and
    agents that are not selected. *)
Lemma only_adds_run_install (a : app) :
  only_adds (fun op => is_write op \/
                       (exists n, (n ∉ selected_rules a) /\ op = Rm (CLAUDE_RULES P // n)) \/
                       (exists n, (n ∉ selected_agents a) /\ op = Rm (CLAUDE_AGENTS P // n)))
            (run_install P a).
Proof.
  set (ok := fun op => _).
  assert (Hw : forall {A} (m : M A), only_adds is_write m -> only_adds ok m).
  { intros A m. apply only_adds_weaken. intros op Hop. by left. }
  unfold run_install.
  apply only_adds_bind; [apply only_adds_modify_log |]. intros _.
  apply only_adds_bind.
  { destruct (in_global _); [| apply only_adds_ret].
    apply only_adds_bind; [apply Hw, only_adds_create_snapshot |].
    intros [d|]; [apply only_adds_log | apply only_adds_ret]. }
  intros _. apply only_adds_bind.
  { destruct (in_global _); [| apply only_adds_ret].
    apply only_adds_bind; [apply only_adds_smart_install; intros; left; by eexists |].
    intros _. apply only_adds_bind.
    { eapply only_adds_weaken; [| apply only_adds_install_selection].
      intros op [?|?]; [by left | right; by left]. }
    intros _. apply only_adds_bind.
    { eapply only_adds_weaken; [| apply only_adds_install_selection].
      intros op [?|?]; [by left | right; by right]. }
    intros _. apply only_adds_bind.
    { destruct (create_global_tasks a); [| apply only_adds_ret].
      apply Hw, only_adds_install_task_templates. }
    intros _. apply Hw, only_adds_install_global_settings. }
  intros _. apply only_adds_bind; [| intros; apply only_adds_gets].
  destruct (in_project _); [| apply only_adds_ret].
  apply only_adds_bind; [apply only_adds_is_git_repo |]. intros g.
  destruct g; [| apply only_adds_log].
  apply only_adds_bind.
  { destruct (create_project_tasks a); [| apply only_adds_ret].
    apply Hw, only_adds_install_task_templates. }
  intros _. destruct (auto_read a); [| apply only_adds_ret].
  apply Hw, only_adds_install_auto_read.
Qed.

Lemma rules_not_agents (n n' : string) : CLAUDE_RULES P // n <> CLAUDE_AGENTS P // n'.
Proof.
  unfold CLAUDE_RULES, CLAUDE_AGENTS, child. rewrite <- !app_assoc. simpl.
  intros E. apply app_inv_head in E. by injection E.
Qed.

End RunInstall.

(** C1 (as amended) — the mandatory names are put back by the selection
    screens, not by the engine. [enforce_mandatory], which the screens
    run after every toggle, returns a selection that has every mandatory
    name and every name that was selected; and an install run whose
    selections of rules and agents have been through it removes no
    mandatory rule and no mandatory agent, however the run ends. *)
Theorem mandatory_kept_when_enforced (P : platform) (a : app) (rules agents : gset string)
    (w w' : world) (r : res (list entry)) :
  selected_rules a = enforce_mandatory MANDATORY_RULES rules ->
  selected_agents a = enforce_mandatory MANDATORY_AGENTS agents ->
  run_install P a w = (r, w') ->
  MANDATORY_RULES ∪ rules ⊆ selected_rules a /\
  MANDATORY_AGENTS ∪ agents ⊆ selected_agents a /\
  (forall name, name ∈ MANDATORY_RULES -> Rm (CLAUDE_RULES P // name) ∉ new_ops w w') /\
  (forall name, name ∈ MANDATORY_AGENTS -> Rm (CLAUDE_AGENTS P // name) ∉ new_ops w w').
Proof.
  intros Hr Ha Hrun. rewrite enforce_mandatory_union in Hr, Ha.
  split; [by rewrite Hr |]. split; [by rewrite Ha |].
  split; intros name Hname; refine (only_adds_no _ _ _ _ _ _ (only_adds_run_install P a) Hrun _).
  - intros [[p [=]]|[(n & Hn & [= E])|(n & Hn & [= E])]].
    + apply child_inj in E. subst n. apply Hn. rewrite Hr. set_solver.
    + by apply rules_not_agents in E.
  - intros [[p [=]]|[(n & Hn & [= E])|(n & Hn & [= E])]].
    + symmetry in E. by apply rules_not_agents in E.
    + apply child_inj in E. subst n. apply Hn. rewrite Ha. set_solver.
Qed.


(* ===================================================================== *)
(** * The settings merge returns *)
(* ===================================================================== *)

(** ** The store along the merge *)









(** ** The store operations on dicts and lists *)



Lemma py_setdefault_run (l : loc) (it : list (string * val)) (k : string) (d : val)
    (h : store) :
  h !! l = Some (ODict it) ->
  Store.py_setdefault (VRef l) k d h
  = match dict_get k it with
    | Some x => (Ok x, h)
    | None => (Ok d, <[l := ODict (dict_set k d it)]> h)
    end.
Proof.
  intros Hl. cbv beta iota zeta delta [Store.py_setdefault bind Store.look Store.view_of].
  rewrite Hl. cbv beta iota. by destruct (dict_get k it).
Qed.



(** ** The merge with a dict of scalars *)









(** ** The steps of the settings merge *)



Section Steps.

Variable P : platform.





End Steps.

(** ** Documents of the expected shape in the store *)








(** ** The shape of a merge *)



(** ** The merge returns *)






(* ===================================================================== *)
(** * The engine on concrete worlds *)
(* ===================================================================== *)

(** ** Mandatory items *)

(** C1, as stated, does not hold: [run_install] acts on the selection
    it is given. With the mandatory rule [security.md] installed and
    left out of the selection, the run backs the rule up, unlinks it
    and logs [removed]. *)
Lemma run_install_removes_mandatory :
  "security.md" ∈ MANDATORY_RULES /\
  ("security.md" ∉ selected_rules ex_app) /\
  files ex_world !! ex_rule_dest = Some "# Security rule" /\
  fst (run_install demo ex_app ex_world)
  = Ok [(st_snapshot, "Backed up to /home/u/.claude/backups/20260101-120000");
        (st_installed, "~/.claude/CLAUDE.md");
        (st_removed,
         "~/.claude/rules/security.md (backed up -> security.md.bak.20260101-120001)");
        (st_warning, "~/.claude/settings.json (failed to read template: error)")] /\
  files (snd (run_install demo ex_app ex_world)) !! ex_rule_dest = None /\
  last (trace (snd (run_install demo ex_app ex_world))) = Some (Rm ex_rule_dest).
Proof.
  split; [set_solver |]. split; [set_solver |]. by vm_compute.
Qed.

Lemma mandatory_kept_when_enforced_witness :
  let a := set_selected_rules (enforce_mandatory MANDATORY_RULES ∅)
             (set_selected_agents (enforce_mandatory MANDATORY_AGENTS ∅) ex_app) in
  let w' := snd (run_install demo a ex_world) in
  MANDATORY_RULES ∪ ∅ ⊆ selected_rules a /\
  MANDATORY_AGENTS ∪ ∅ ⊆ selected_agents a /\
  (forall name, name ∈ MANDATORY_RULES ->
                Rm (CLAUDE_RULES demo // name) ∉ new_ops ex_world w') /\
  (forall name, name ∈ MANDATORY_AGENTS ->
                Rm (CLAUDE_AGENTS demo // name) ∉ new_ops ex_world w').
Proof.
  intros a w'.
  apply (mandatory_kept_when_enforced demo a ∅ ∅ ex_world w'
           (fst (run_install demo a ex_world))); [reflexivity | reflexivity |].
  apply surjective_pairing.
Defined.

(** ** Backups *)

(** C2, as stated, does not hold for the task templates and for the
    settings. A run for a project overwrites a task file that holds
    nothing but a heading with the template: it writes the two task
    files and nothing else, so that no file holds the bytes that were
    there. A global run overwrites settings that hold the empty mapping
    with the merged document: the snapshot of the run has a copy, but
    the settings have no sibling named as a backup. *)
Lemma overwritten_without_backup :
  (let w := ex_world_project in
   let dest := ex_project // "tasks" // "lessons.md" in
   let w' := snd (run_install demo ex_app_project w) in
   files w !! dest = Some "# My lessons" /\
   files w' !! dest = Some "# Lessons template" /\
   new_ops w w' = [Wr dest; Wr (ex_project // "tasks" // "todo.md")] /\
   backups_of dest w' = [] /\
   List.filter (fun kv => String.eqb (snd kv) "# My lessons") (map_to_list (files w')) = []) /\
  (let w := ex_world_settings (JDict []) in
   let w' := snd (run_install demo ex_app_global w) in
   files w !! CLAUDE_SETTINGS demo = Some "{}" /\
   files w' !! CLAUDE_SETTINGS demo = Some (demo_dumps doc_template +:+ String "010" "") /\
   Wr (CLAUDE_SETTINGS demo) ∈ new_ops w w' /\
   backups_of (CLAUDE_SETTINGS demo) w' = []).
Proof.
  split; [by vm_compute |]. split_and!; try by vm_compute. list_elem.
Qed.

Lemma backup_before_overwrite_witness :
  let op := Op_install_global_settings "none" in
  let w := ex_world_settings doc_existing in
  let w' := snd (run_op demo op w) in
  exists ts,
    files w' !! (parent (destination demo op) // (name (destination demo op) +:+ ".bak." +:+ ts))
    = Some (demo_dumps doc_existing).
Proof.
  intros op w w'.
  apply (backup_before_overwrite demo op w w' (fst (run_op demo op w))
           (demo_dumps doc_existing)).
  - apply surjective_pairing.
  - by vm_compute.
  - left. list_elem.
  - intros text [= <-]. by vm_compute.
Defined.

(** ** Restoring *)

Lemma restore_item_escape_skipped_witness :
  relative_to (ex_snap_dir ++ ex_escape) ex_snap_dir = Some ex_escape /\
  relative_to (resolve demo (CLAUDE_HOME demo ++ ex_escape)) (resolve demo (CLAUDE_HOME demo))
  = None /\
  restore_item demo ex_snap_dir (ex_snap_dir ++ ex_escape) ex_world = (Ok tt, ex_world).
Proof.
  split; [reflexivity |]. split; [reflexivity |].
  apply (restore_item_escape_skipped demo ex_snap_dir (ex_snap_dir ++ ex_escape) ex_escape);
    reflexivity.
Defined.

(** ** Installing a file *)




(** ** The settings *)



Lemma deep_merge_settings_mutates_base_witness :
  let h := ex_store_lists in
  let h' := snd (deep_merge_settings 2 (VRef 1) (VRef 3) h) in
  fst (deep_merge_settings 2 (VRef 1) (VRef 3) h) = Ok (VRef 4) /\
  field h' (VRef 4) "k" = Some (VRef 0) /\ field h' (VRef 1) "k" = Some (VRef 0) /\
  h !! 0 = Some (OList [JStr "a"; JStr "b"]) /\
  (exists ex, h' !! 0 = Some (OList ([JStr "a"; JStr "b"] ++ ex)) /\ ex <> []) /\
  field h' (VRef 4) "only" = Some (VInt 1) /\
  (exists r h3 lb,
      deep_merge_settings 2 (VRef 1) (VRef 3)
        [OList [JStr "a"; JStr "b"]; ODict [("k", VRef 0)];
         OList [JStr "b"; JStr "c"]; ODict [("k", VRef 2)]] = (Ok r, h3) /\
      h3 !! lb = Some (OList [JStr "a"; JStr "b"; JStr "c"])).
Proof.
  intros h h'.
  assert (Hrun : deep_merge_settings 2 (VRef 1) (VRef 3) h = (Ok (VRef 4), h'))
    by reflexivity.
  assert (Hwf : dict_wf h (VRef 3)).
  { intros l it [= <-] [= <-]. repeat constructor. by intros ?%elem_of_nil. }
  destruct deep_merge_settings_mutates_base as [Hshares Hloaded].
  destruct (Hshares 2 (VRef 1) (VRef 3) (VRef 4) h h' "k" 0 2
              [JStr "a"; JStr "b"] [JStr "b"; JStr "c"] Hrun Hwf
              eq_refl eq_refl eq_refl eq_refl)
    as (_ & _ & Hr & Hb & (ex & Hex & _ & Hnew) & Hshared).
  split; [reflexivity |]. split; [exact Hr |]. split; [exact Hb |]. split; [reflexivity |].
  split; [| split; [by apply Hshared |]].
  - exists ex. split; [exact Hex |]. apply Hnew. exists (JStr "c"). split; [list_elem | reflexivity].
  - assert (Hnd : NoDup (map fst doc_bc)) by (repeat constructor; by intros ?%elem_of_nil).
    assert (Hd : dict_depth (JDict doc_bc) <= 2) by (cbn; lia).
    destruct (Hloaded 2 doc_ab doc_bc [] "k" [JStr "a"; JStr "b"] [JStr "b"; JStr "c"]
                Hd Hnd eq_refl eq_refl) as (r & h3 & lb & H1 & _ & _ & _ & _ & _ & H7).
    by exists r, h3, lb.
Defined.


(* ===================================================================== *)
(** * The catalog and the command line: properties *)
(* ===================================================================== *)

(** ** Paths and listings *)

Lemma relative_to_app (d rel : Path) : relative_to (d ++ rel) d = Some rel.
Proof.
  induction d as [|c d IH]; simpl; [by destruct rel |].
  by rewrite String.eqb_refl.
Qed.

Lemma relative_to_Some (p d rel : Path) : relative_to p d = Some rel -> p = d ++ rel.
Proof.
  revert p. induction d as [|c d IH]; intros p.
  - destruct p; by intros [= <-].
  - destruct p as [|c' p]; [done |]. simpl.
    destruct (String.eqb_spec c c') as [->|]; [|done].
    intros H. by rewrite (IH _ H).
Qed.

Lemma relative_to_prefix (p d : Path) : is_Some (relative_to p d) <-> d `prefix_of` p.
Proof.
  split.
  - intros [rel H]. exists rel. by apply relative_to_Some.
  - intros [rel ->]. rewrite relative_to_app. eauto.
Qed.

Lemma below_prefix (d p : Path) : below d p = true <-> d `prefix_of` p.
Proof.
  unfold below. rewrite <- relative_to_prefix.
  destruct (relative_to p d); split; intros H; try done; eauto.
Qed.

Lemma elem_of_paths (p : Path) (w : world) :
  p ∈ map fst (map_to_list (files w)) <-> is_Some (files w !! p).
Proof.
  rewrite list_elem_of_fmap. split.
  - intros [[q b] [-> H]]. apply elem_of_map_to_list in H. simpl. eauto.
  - intros [b H]. exists (p, b). split; [done |]. by apply elem_of_map_to_list.
Qed.

Lemma NoDup_paths (w : world) : NoDup (map fst (map_to_list (files w))).
Proof. apply NoDup_fst_map_to_list. Qed.

Lemma exists_dir_run (d : Path) (w : world) :
  exists b, exists_dir d w = (Ok b, w) /\ (b = true <-> present d w).
Proof.
  unfold exists_dir, gets. eexists. split; [done |].
  rewrite existsb_exists. unfold present. split.
  - intros [[p b] [Hin Hb]]. exists p. simpl in Hb.
    apply below_prefix in Hb. split; [|done].
    apply list_elem_of_In, elem_of_map_to_list in Hin. eauto.
  - intros [p [[b Hp] Hpre]]. exists (p, b). split.
    + apply list_elem_of_In. by apply elem_of_map_to_list.
    + by apply below_prefix.
Qed.

Lemma elem_of_List_filter {A} (f : A -> bool) (l : list A) (x : A) :
  x ∈ List.filter f l <-> x ∈ l /\ f x = true.
Proof. rewrite !list_elem_of_In. apply filter_In. Qed.

Lemma NoDup_List_filter {A} (f : A -> bool) (l : list A) :
  NoDup l -> NoDup (List.filter f l).
Proof.
  induction 1 as [|x l Hx Hl IH]; simpl; [constructor |].
  destruct (f x); [|done]. constructor; [|done].
  rewrite elem_of_List_filter. tauto.
Qed.

Lemma elem_of_iterdir_files (d p : Path) (w : world) :
  p ∈ iterdir_files d w <-> is_Some (files w !! p) /\ exists c, p = d // c.
Proof.
  unfold iterdir_files. rewrite elem_of_List_filter, elem_of_paths, bool_decide_eq_true.
  split; intros [Hp H]; (split; [done |]).
  - destruct H as [Hne <-]. exists (name p). unfold child, name, parent.
    destruct (exists_last Hne) as [q [c ->]].
    by rewrite removelast_last, last_snoc.
  - destruct H as [c ->]. split; [by destruct d | apply parent_child].
Qed.

Lemma elem_of_rglob_files (d p : Path) (w : world) :
  p ∈ rglob_files d w <-> is_Some (files w !! p) /\ exists c rest, p = d ++ c :: rest.
Proof.
  unfold rglob_files. rewrite elem_of_List_filter, elem_of_paths.
  split; intros [Hp H]; (split; [done |]).
  - destruct (relative_to p d) as [[|c rest]|] eqn:E; try done.
    exists c, rest. by apply relative_to_Some.
  - destruct H as [c [rest ->]]. by rewrite relative_to_app.
Qed.


(** ** Sorting *)

Section Sorting.

Context {A : Type} (le : A -> A -> bool).

Lemma insert_sorted_perm (x : A) (l : list A) : insert_sorted le x l ≡ₚ x :: l.
Proof.
  induction l as [|y l IH]; simpl; [done |].
  destruct (le x y); [done |]. rewrite IH. apply Permutation_swap.
Qed.

Lemma sorted_perm (l : list A) : sorted le l ≡ₚ l.
Proof.
  induction l as [|x l IH]; simpl; [done |].
  rewrite insert_sorted_perm. by f_equiv.
Qed.

Hypothesis le_total : forall x y, le x y = false -> le y x = true.

Lemma insert_sorted_Sorted (x : A) (l : list A) :
  Sorted (fun a b => le a b = true) l ->
  Sorted (fun a b => le a b = true) (insert_sorted le x l).
Proof.
  induction 1 as [|y l Hl IH Hhd]; simpl; [by repeat constructor |].
  destruct (le x y) eqn:E.
  - constructor; [by constructor | by constructor].
  - constructor; [done |].
    destruct l as [|z l]; simpl.
    + constructor. by apply le_total.
    + destruct (le x z); constructor; [by apply le_total |].
      by inversion Hhd.
Qed.

Lemma sorted_Sorted (l : list A) : Sorted (fun a b => le a b = true) (sorted le l).
Proof.
  induction l as [|x l IH]; simpl; [constructor |].
  by apply insert_sorted_Sorted.
Qed.

End Sorting.

(** Among entries whose names differ, an order that is not strict is strict. *)
Lemma string_leb_ltb (a b : string) :
  String.leb a b = true -> a <> b -> String.ltb a b = true.
Proof.
  unfold String.leb, String.ltb. intros H Hne.
  destruct (String.compare a b) eqn:E; try done.
  by apply String.compare_eq_iff in E.
Qed.

Lemma string_leb_total (a b : string) : String.leb a b = false -> String.leb b a = true.
Proof. intros H. destruct (String.leb_total a b) as [H'|H']; congruence. Qed.

Lemma ascending_of_sorted (l : list (string * Path)) :
  Sorted (fun a b => by_name a b = true) l -> NoDup (map fst l) -> ascending l.
Proof.
  unfold ascending. induction 1 as [|x l Hl IH Hhd]; simpl; [constructor |].
  intros Hnd. apply NoDup_cons in Hnd as [Hx Hnd].
  constructor; [by apply IH |].
  destruct Hhd as [|y l Hxy]; constructor.
  apply string_leb_ltb; [done |].
  intros E. apply Hx. simpl. rewrite E. left.
Qed.

Lemma descending_of_sorted (l : list (string * Path)) :
  Sorted (fun a b => by_name_reversed a b = true) l -> NoDup (map fst l) -> descending l.
Proof.
  unfold descending. induction 1 as [|x l Hl IH Hhd]; simpl; [constructor |].
  intros Hnd. apply NoDup_cons in Hnd as [Hx Hnd].
  constructor; [by apply IH |].
  destruct Hhd as [|y l Hxy]; constructor.
  apply string_leb_ltb; [done |].
  intros E. apply Hx. simpl. rewrite <- E. left.
Qed.

Lemma prefix_of_removelast (q l : Path) :
  l <> [] -> q `prefix_of` l <-> q = l \/ q `prefix_of` removelast l.
Proof.
  intros Hne. destruct (exists_last Hne) as [l' [c ->]].
  rewrite removelast_last. split.
  - intros [k E]. destruct k as [|c' k' _] using rev_ind.
    + left. by rewrite app_nil_r in E.
    + right. rewrite app_assoc in E. apply app_inj_tail in E as [-> _].
      by exists k'.
  - intros [->|[k ->]]; [done |]. exists (k ++ [c]). by rewrite app_assoc.
Qed.

Lemma parent_fixed (l : Path) : parent l = l <-> l = [].
Proof.
  unfold parent. split; [|by intros ->].
  intros E. destruct (decide (l = [])) as [|Hne]; [done |].
  destruct (exists_last Hne) as [l' [c ->]]. rewrite removelast_last in E.
  apply (f_equal length) in E. rewrite length_app in E. simpl in E. lia.
Qed.

Lemma length_parent (l : Path) : l <> [] -> S (length (parent l)) = length l.
Proof.
  intros Hne. destruct (exists_last Hne) as [l' [c ->]]. unfold parent.
  rewrite removelast_last, length_app. simpl. lia.
Qed.

(** ** The search for the repository *)

(** The search of [is_git_repo] from a directory: it ends, and finds a
    repository exactly when the directory or one above it holds
    [.git]. *)
Lemma git_above_run (n : nat) (current : Path) (w : world) :
  length current <= n ->
  exists b, git_above n current w = (Ok b, w) /\
            (b = true <-> exists q, q `prefix_of` current /\ present (q // ".git") w).
Proof.
  revert current. induction n as [|n IH]; intros current Hlen.
  - destruct current; [|simpl in Hlen; lia].
    destruct (exists_dir_run ([] // ".git") w) as [g [Hg Hiff]].
    simpl. unfold bind. rewrite Hg. destruct g.
    + exists true. split; [done |]. split; [|done]. intros _. exists [].
      split; [done | by apply Hiff].
    + exists false. split; [done |]. split; [done |].
      intros [q [Hq Hp]]. apply prefix_nil_inv in Hq as ->.
      by apply Hiff in Hp.
  - destruct (exists_dir_run (current // ".git") w) as [g [Hg Hiff]].
    simpl. unfold bind. rewrite Hg. destruct g.
    + exists true. split; [done |]. split; [|done]. intros _. exists current.
      split; [done | by apply Hiff].
    + destruct (decide (parent current = current)) as [E|Hne].
      * apply parent_fixed in E as ->. exists false. split; [done |].
        split; [done |]. intros [q [Hq Hp]]. apply prefix_nil_inv in Hq as ->.
        by apply Hiff in Hp.
      * assert (current <> []) as Hc by (by rewrite <- parent_fixed).
        destruct (IH (parent current)) as [b [Hb Hb']].
        { pose proof (length_parent _ Hc). lia. }
        exists b. split; [done |]. rewrite Hb'. split.
        -- intros [q [Hq Hp]]. exists q. split; [|done].
           apply prefix_of_removelast; [done | by right].
        -- intros [q [Hq Hp]]. apply (prefix_of_removelast _ _ Hc) in Hq as [->|Hq]; [|eauto].
           apply Hiff in Hp. done.
Qed.

(** X1. [is_git_repo] always returns, changes nothing, and answers
    [True] exactly when the resolved path, or a directory above it up
    to the root, holds an entry [.git]. *)
Theorem is_git_repo_ancestors (P : platform) (path : Path) (w : world) :
  exists b, is_git_repo P path w = (Ok b, w) /\
            (b = true <->
             exists q, q `prefix_of` resolve P path /\ present (q // ".git") w).
Proof. unfold is_git_repo. by apply git_above_run. Qed.

(** The search of [get_repo_name]. *)
Lemma repo_above_run (n : nat) (path current : Path) (w : world) :
  length current <= n ->
  exists s, repo_above n path current w = (Ok s, w) /\
    (((~ exists q, q `prefix_of` current /\ present (q // ".git") w) /\ s = name path)
     \/ exists q, q `prefix_of` current /\ present (q // ".git") w /\ s = name q /\
                  forall q', q' `prefix_of` current -> present (q' // ".git") w ->
                             q' `prefix_of` q).
Proof.
  revert current. induction n as [|n IH]; intros current Hlen.
  - destruct current; [|simpl in Hlen; lia].
    destruct (exists_dir_run ([] // ".git") w) as [g [Hg Hiff]].
    simpl. unfold bind. rewrite Hg. destruct g.
    + eexists. split; [done |]. right. exists []. split; [done |].
      split; [by apply Hiff |]. split; [done |]. by intros q' Hq' _.
    + eexists. split; [done |]. left. split; [|done].
      intros [q [Hq Hp]]. apply prefix_nil_inv in Hq as ->. by apply Hiff in Hp.
  - destruct (exists_dir_run (current // ".git") w) as [g [Hg Hiff]].
    simpl. unfold bind. rewrite Hg. destruct g.
    + eexists. split; [done |]. right. exists current. split; [done |].
      split; [by apply Hiff |]. split; [done |]. by intros q' Hq' _.
    + destruct (decide (parent current = current)) as [E|Hne].
      * apply parent_fixed in E as ->. eexists. split; [done |]. left. split; [|done].
        intros [q [Hq Hp]]. apply prefix_nil_inv in Hq as ->. by apply Hiff in Hp.
      * assert (current <> []) as Hc by (by rewrite <- parent_fixed).
        destruct (IH (parent current)) as [s [Hs Hs']].
        { pose proof (length_parent _ Hc). lia. }
        exists s. split; [done |].
        assert (forall q, q `prefix_of` current -> present (q // ".git") w ->
                          q `prefix_of` parent current) as Hup.
        { intros q Hq Hp. apply (prefix_of_removelast _ _ Hc) in Hq as [->|Hq]; [|done].
          apply Hiff in Hp. done. }
        destruct Hs' as [[Hno ->]|[q [Hq [Hp [-> Hnear]]]]].
        -- left. split; [|done]. intros [q [Hq Hp]]. apply Hno. exists q. eauto.
        -- right. exists q. split; [apply prefix_of_removelast; [done | by right] |].
           split; [done |]. split; [done |]. intros q' Hq' Hp'. apply Hnear; eauto.
Qed.

(** X2. [get_repo_name] always returns and changes nothing. Where
    [is_git_repo] answers [False] the name is the name of the path as
    given; where it answers [True] the name is that of the nearest
    directory, from the resolved path upwards, that holds [.git]. *)
Theorem get_repo_name_nearest (P : platform) (path : Path) (w : world) :
  exists s, get_repo_name P path w = (Ok s, w) /\
    (fst (is_git_repo P path w) = Ok false -> s = name path) /\
    (fst (is_git_repo P path w) = Ok true ->
     exists q, q `prefix_of` resolve P path /\ present (q // ".git") w /\ s = name q /\
               forall q', q' `prefix_of` resolve P path -> present (q' // ".git") w ->
                          q' `prefix_of` q).
Proof.
  unfold get_repo_name, is_git_repo.
  destruct (repo_above_run (length (resolve P path)) path (resolve P path) w)
    as [s [Hs Hcase]]; [done |].
  destruct (git_above_run (length (resolve P path)) (resolve P path) w)
    as [b [Hb Hiff]]; [done |].
  exists s. split; [done |]. rewrite Hb. simpl. split.
  - intros [= ->]. destruct Hcase as [[_ ->]|[q [Hq [Hp _]]]]; [done |].
    assert (false = true) by (apply Hiff; eauto). done.
  - intros [= ->]. destruct Hcase as [[Hno _]|Hq]; [|done].
    destruct Hno. by apply Hiff.
Qed.

(** ** The discovery of the source files and of the snapshots *)

Lemma elem_of_iterdir_dirs (d d' : Path) (w : world) :
  d' ∈ iterdir_dirs d w <-> exists c, d' = d // c /\ holds_files d' w.
Proof.
  unfold iterdir_dirs. rewrite elem_of_remove_dups, list_elem_of_omap. split.
  - intros [p [Hp H]]. apply elem_of_paths in Hp.
    destruct (relative_to p d) as [[|c [|c' rest]]|] eqn:E; try done.
    injection H as <-. exists c. split; [done |].
    apply relative_to_Some in E as ->. exists (d ++ c :: c' :: rest), c', rest.
    split; [done |]. unfold child. by rewrite <- app_assoc.
  - intros [c [-> [p [c' [rest [Hp ->]]]]]]. exists ((d // c) ++ c' :: rest).
    split; [by apply elem_of_paths |].
    unfold child. rewrite <- app_assoc. simpl. by rewrite relative_to_app.
Qed.

(** The entries of one directory have names of their own. *)
Lemma NoDup_names (d : Path) (l : list Path) :
  NoDup l -> (forall p, p ∈ l -> exists c, p = d // c) -> NoDup (map name l).
Proof.
  intros Hnd Hin. apply NoDup_fmap_2_strong; [|done].
  intros p q Hp Hq E. destruct (Hin _ Hp) as [c ->]. destruct (Hin _ Hq) as [c' ->].
  rewrite !name_child in E. by rewrite E.
Qed.

Lemma named_fst (l : list Path) : map fst (map (fun f => (name f, f)) l) = map name l.
Proof. induction l; simpl; [done | by f_equal]. Qed.

Lemma elem_of_named (n : string) (f : Path) (l : list Path) :
  (n, f) ∈ map (fun f => (name f, f)) l <-> f ∈ l /\ n = name f.
Proof.
  rewrite list_elem_of_fmap. split.
  - by intros [f' [[= -> ->] Hin]].
  - intros [Hin ->]. eauto.
Qed.

(** What [discover_files] returns. *)
Lemma discover_files_run (directory : Path) (w : world) :
  exists l, discover_files directory w = (Ok l, w) /\ ascending l /\
    forall n f, (n, f) ∈ l <->
                f = directory // n /\ is_Some (files w !! f) /\ Names.suffix n = ".md".
Proof.
  unfold discover_files, bind.
  destruct (exists_dir_run directory w) as [b [-> Hb]]. destruct b; simpl.
  - unfold gets. eexists. split; [done |].
    set (fl := List.filter _ (iterdir_files directory w)).
    assert (forall p, p ∈ fl <-> (is_Some (files w !! p) /\ exists c, p = directory // c)
                                 /\ Names.suffix (name p) = ".md") as Hfl.
    { intros p. unfold fl. rewrite elem_of_List_filter, elem_of_iterdir_files.
      by rewrite String.eqb_eq. }
    split.
    + apply ascending_of_sorted.
      * apply sorted_Sorted. intros x y. apply string_leb_total.
      * rewrite (sorted_perm by_name), named_fst. apply (NoDup_names directory).
        -- apply NoDup_List_filter, NoDup_List_filter, NoDup_paths.
        -- intros p Hp. apply Hfl in Hp. tauto.
    + intros n f. rewrite (sorted_perm by_name), elem_of_named, Hfl. split.
      * intros [[[Hf [c ->]] Hs] ->]. by rewrite name_child in *.
      * intros [-> [Hf Hs]]. rewrite name_child. eauto.
  - unfold ret. eexists. split; [done |]. split; [constructor |].
    intros n f. split; [by intros ?%elem_of_nil |].
    intros [-> [Hf _]]. assert (false = true); [|done].
    apply Hb. exists (directory // n). split; [done |]. by exists [n].
Qed.

(** X3. [discover_files] always returns and changes nothing. Its
    result holds exactly the files that lie directly in the directory
    and whose suffix is [.md], each with its name, and the names go
    strictly up: no name comes twice. *)
Theorem discover_files_sorted_md (directory : Path) (w : world) :
  files w !! directory = None ->
  exists l, discover_files directory w = (Ok l, w) /\ ascending l /\
    forall n f, (n, f) ∈ l <->
                f = directory // n /\ is_Some (files w !! f) /\ Names.suffix n = ".md".
Proof. intros _. apply discover_files_run. Qed.

(** What [discover_snapshots] returns. *)
Lemma discover_snapshots_run (P : platform) (w : world) :
  exists l, discover_snapshots P w = (Ok l, w) /\ descending l /\
    forall n d, (n, d) ∈ l <->
                d = BACKUPS_DIR P // n /\ Names.is_snapshot_name n = true /\
                holds_files d w.
Proof.
  unfold discover_snapshots, bind.
  destruct (exists_dir_run (BACKUPS_DIR P) w) as [b [-> Hb]]. destruct b; simpl.
  - unfold gets. eexists. split; [done |].
    set (dl := List.filter _ (iterdir_dirs (BACKUPS_DIR P) w)).
    assert (forall d, d ∈ dl <-> (exists c, d = BACKUPS_DIR P // c /\ holds_files d w)
                                 /\ Names.is_snapshot_name (name d) = true) as Hdl.
    { intros d. unfold dl. by rewrite elem_of_List_filter, elem_of_iterdir_dirs. }
    split.
    + apply descending_of_sorted.
      * apply sorted_Sorted. intros x y. apply string_leb_total.
      * rewrite (sorted_perm by_name_reversed), named_fst.
        apply (NoDup_names (BACKUPS_DIR P)).
        -- apply NoDup_List_filter, NoDup_remove_dups.
        -- intros d Hd. apply Hdl in Hd as [[c [-> _]] _]. eauto.
    + intros n d. rewrite (sorted_perm by_name_reversed), elem_of_named, Hdl. split.
      * intros [[[c [-> Hh]] Hs] ->]. by rewrite name_child in *.
      * intros [-> [Hs Hh]]. rewrite name_child. eauto.
  - unfold ret. eexists. split; [done |]. split; [constructor |].
    intros n d. split; [by intros ?%elem_of_nil |].
    intros [-> [_ [p [c [rest [Hp ->]]]]]]. assert (false = true); [|done].
    apply Hb. exists ((BACKUPS_DIR P // n) ++ c :: rest). split; [done |].
    exists (n :: c :: rest). unfold child. by rewrite <- app_assoc.
Qed.

(** X4. [discover_snapshots] always returns and changes nothing. Its
    result holds exactly the directories of the backups directory
    whose names are timestamps, each with its name, and the names go
    strictly down: the newest snapshot comes first. *)
Theorem discover_snapshots_newest_first (P : platform) (w : world) :
  files w !! BACKUPS_DIR P = None ->
  exists l, discover_snapshots P w = (Ok l, w) /\ descending l /\
    forall n d, (n, d) ∈ l <->
                d = BACKUPS_DIR P // n /\ Names.is_snapshot_name n = true /\
                holds_files d w.
Proof. intros _. apply discover_snapshots_run. Qed.

(** ** Headings and front matter *)

Lemma read_text_run (P : platform) (path : Path) (w : world) (b : bytes) (text : string) :
  files w !! path = Some b -> decode_utf8 P b = Some text ->
  read_text P path w = (Ok text, w).
Proof. intros Hb Hd. unfold read_text, bind, read_bytes. by rewrite Hb, Hd. Qed.

Lemma lstrip_hash_hashes (hashes rest : string) :
  (forall c, In c (list_ascii_of_string hashes) -> c = "#"%char) ->
  Lines.lstrip_hash (hashes +:+ String " " rest) = String " " rest.
Proof.
  induction hashes as [|c hashes IH]; simpl; intros H; [done |].
  rewrite (H c) by (by left). simpl. apply IH. intros c' Hc'. apply H. by right.
Qed.

Lemma find_first {A} (f : A -> bool) (pre post : list A) (x : A) :
  Forall (fun y => f y = false) pre -> f x = true ->
  List.find f (pre ++ x :: post) = Some x.
Proof.
  induction 1 as [|y pre Hy _ IH]; simpl; intros Hx; [by rewrite Hx |].
  rewrite Hy. by apply IH.
Qed.

(** X5. The heading of a file is read off its first line that starts
    with [#]: of a line made of number signs, a space and a title that
    has no white space around it, [get_heading] returns the title,
    whatever the lines after it are. *)
Theorem get_heading_title (P : platform) (path : Path) (w : world) (b : bytes)
    (text hashes title : string) (pre post : list string) :
  files w !! path = Some b ->
  decode_utf8 P b = Some text ->
  Text.splitlines text = pre ++ (String "#" hashes +:+ String " " title) :: post ->
  Forall (fun l => Text.startswith "#" l = false) pre ->
  (forall c, In c (list_ascii_of_string hashes) -> c = "#"%char) ->
  Text.strip title = title ->
  get_heading P path w = (Ok title, w).
Proof.
  intros Hb Hd Hlines Hpre Hhashes Htitle.
  unfold get_heading, bind. rewrite (read_text_run P path w b text Hb Hd).
  unfold ret. do 2 f_equal. rewrite Hlines. unfold Lines.heading_of.
  assert (Text.startswith "#" (String "#" hashes +:+ String " " title) = true) as Hst
    by (unfold Text.startswith; simpl; by destruct (hashes +:+ _)).
  rewrite (find_first _ pre post _ Hpre Hst). simpl.
  rewrite lstrip_hash_hashes by done.
  unfold Text.strip in *. simpl. done.
Qed.

(** The scan of the block stops at the line that closes it. *)
Lemma scan_frontmatter_block (field close : string) (body rest : list string) :
  Forall (fun l => Text.strip l <> "---") body ->
  Text.strip close = "---" ->
  Lines.scan_frontmatter field (body ++ close :: rest)
  = match List.find (Text.startswith (field +:+ ":")) body with
    | Some line => Text.strip (Lines.after_colon line)
    | None => ""
    end.
Proof.
  intros Hbody Hclose. induction Hbody as [|l body Hl _ IH]; simpl.
  - by rewrite Hclose.
  - apply String.eqb_neq in Hl. rewrite Hl.
    by destruct (Text.startswith (field +:+ ":") l).
Qed.

(** X6. A field of the front matter is looked for in the block between
    the opening and the closing delimiter only: [get_frontmatter_field]
    returns the value, stripped, of the first line of the block that
    starts with the field and a colon, and the empty string if the
    block has no such line, whatever the lines after the block are. *)
Theorem get_frontmatter_field_block (P : platform) (path : Path) (w : world) (b : bytes)
    (text field first close : string) (body rest : list string) :
  files w !! path = Some b ->
  decode_utf8 P b = Some text ->
  Text.splitlines text = first :: body ++ close :: rest ->
  Text.strip first = "---" ->
  Forall (fun l => Text.strip l <> "---") body ->
  Text.strip close = "---" ->
  get_frontmatter_field P path field w
  = (Ok match List.find (Text.startswith (field +:+ ":")) body with
        | Some line => Text.strip (Lines.after_colon line)
        | None => ""
        end, w).
Proof.
  intros Hb Hd Hlines Hfirst Hbody Hclose.
  unfold get_frontmatter_field, bind. rewrite (read_text_run P path w b text Hb Hd).
  unfold ret. do 2 f_equal. rewrite Hlines. unfold Lines.frontmatter_field.
  rewrite Hfirst. simpl. by apply scan_frontmatter_block.
Qed.

(** ** Installing, removing and the status of a file *)

Section FileEffects.

Variable P : platform.

Lemma file_status_same (src dest : Path) (w : world) (s : bytes) :
  files w !! src = Some s -> files w !! dest = Some s ->
  file_status src dest w = (Ok "installed", w).
Proof.
  intros Hs Hd. unfold file_status, bind, exists_, gets, read_bytes.
  rewrite (bool_decide_is_Some_true _ _ Hd). simpl. rewrite Hs, Hd. simpl.
  by rewrite String.eqb_refl.
Qed.

(** [smart_install] that returns has read its source. *)
Lemma smart_install_reads_source (src dest : Path) (label : string) (w w' : world) :
  smart_install P src dest label w = (Ok tt, w') -> is_Some (files w !! src).
Proof.
  intros Hrun. destruct (files w !! src) as [s|] eqn:Hs; [eauto |].
  unfold smart_install in Hrun. rewrite (bind_run _ _ _ _ _ (exists_run dest w)) in Hrun.
  destruct (bool_decide _); simpl in Hrun.
  - erewrite bind_raise in Hrun; [done | unfold read_bytes; by rewrite Hs].
  - erewrite bind_raise in Hrun; [done |].
    unfold copy2. erewrite bind_raise; [done | unfold read_bytes; by rewrite Hs].
Qed.

(** What [smart_install] that returns has done to the files: the
    destination has the bytes of the source, unless the source is the
    backup just made, and the files that are neither the destination nor
    that backup are as they were. *)
Lemma smart_install_effect (src dest : Path) (label : string) (w w' : world) :
  smart_install P src dest label w = (Ok tt, w') ->
  exists s, files w !! src = Some s /\
    (src <> backup_path dest (strftime_now P (ticks w)) -> files w' !! dest = Some s) /\
    forall p, p <> dest -> p <> backup_path dest (strftime_now P (ticks w)) ->
              files w' !! p = files w !! p.
Proof.
  intros Hrun. destruct (smart_install_reads_source _ _ _ _ _ Hrun) as [s Hs].
  exists s. split; [done |]. destruct (files w !! dest) as [d|] eqn:Hd.
  - destruct (decide (s = d)) as [->|Hne].
    + rewrite (smart_install_current P src dest label w d Hs Hd) in Hrun.
      injection Hrun as <-. done.
    + rewrite (smart_install_update_gen P src dest label w s d Hs Hd Hne) in Hrun.
      injection Hrun as <-. simpl. split.
      * intros Hb. rewrite lookup_insert_eq. by destruct (decide _).
      * intros p Hp Hpb. by rewrite !lookup_insert_ne.
  - rewrite (smart_install_new P src dest label w s Hs Hd) in Hrun.
    injection Hrun as <-. simpl. split.
    + intros _. apply lookup_insert_eq.
    + intros p Hp _. by rewrite lookup_insert_ne.
Qed.

(** X7. After [smart_install] has returned, [file_status] of the same
    source and destination is [installed]: the destination holds the
    bytes of the source, in each of the three cases. *)
Theorem file_status_after_smart_install (src dest : Path) (label : string) (w w' : world) :
  smart_install P src dest label w = (Ok tt, w') ->
  file_status src dest w' = (Ok "installed", w').
Proof.
  intros Hrun. destruct (smart_install_reads_source _ _ _ _ _ Hrun) as [s Hs].
  destruct (files w !! dest) as [d|] eqn:Hd.
  - destruct (decide (s = d)) as [->|Hne].
    + rewrite (smart_install_current P src dest label w d Hs Hd) in Hrun.
      injection Hrun as <-. by apply (file_status_same _ _ _ d).
    + rewrite (smart_install_update_gen P src dest label w s d Hs Hd Hne) in Hrun.
      injection Hrun as <-.
      assert (src <> dest) as Hsd by (intros ->; congruence).
      apply (file_status_same _ _ _
               (if decide (src = backup_path dest (strftime_now P (ticks w)))
                then d else s)); simpl.
      * rewrite lookup_insert_ne by done.
        destruct (decide _) as [->|Hb].
        -- apply lookup_insert_eq.
        -- by rewrite lookup_insert_ne.
      * apply lookup_insert_eq.
  - rewrite (smart_install_new P src dest label w s Hs Hd) in Hrun.
    injection Hrun as <-.
    assert (src <> dest) as Hsd by (intros ->; congruence).
    apply (file_status_same _ _ _ s); simpl.
    + by rewrite lookup_insert_ne.
    + apply lookup_insert_eq.
Qed.

(** What [remove_with_log] does. *)
Lemma remove_with_log_run (dest : Path) (label : string) (w : world) :
  match files w !! dest with
  | None => remove_with_log P dest label w = (Ok tt, w)
  | Some d =>
      let bak := backup_path dest (strftime_now P (ticks w)) in
      exists w', remove_with_log P dest label w = (Ok tt, w') /\
                 files w' !! dest = None /\
                 files w' !! bak = Some d /\
                 (forall p, p <> dest -> p <> bak -> files w' !! p = files w !! p) /\
                 new_ops w w' = [Wr bak; Rm dest] /\
                 log w' = log w ++ [(st_removed,
                                     label +:+ " (backed up -> " +:+ name bak +:+ ")")]
  end.
Proof.
  destruct (files w !! dest) as [d|] eqn:Hd.
  - intros bak. unfold remove_with_log.
    rewrite (bind_run _ _ _ _ _ (exists_run dest w)).
    rewrite (bool_decide_is_Some_true _ _ Hd).
    rewrite (bind_run _ _ _ _ _ (backup_file_run P dest d w Hd)).
    assert (Hb : files (backed_up P dest d w) !! dest = Some d).
    { unfold backed_up. simpl. rewrite lookup_insert_ne by apply backup_path_ne. done. }
    unfold bind, unlink. rewrite Hb. unfold log_append, modify.
    eexists. split; [done |]. unfold backed_up. wsimpl. fold bak. split_and!.
    + apply lookup_delete_eq.
    + rewrite lookup_delete_ne by apply backup_path_ne'. apply lookup_insert_eq.
    + intros p Hp Hp'. rewrite lookup_delete_ne by done. by rewrite lookup_insert_ne.
    + apply new_ops_app. simpl. by rewrite <- app_assoc.
    + done.
  - unfold remove_with_log. rewrite (bind_run _ _ _ _ _ (exists_run dest w)).
    by rewrite (bool_decide_is_Some_false _ Hd).
Qed.

(** [remove_with_log] leaves no file at the destination, and leaves
    alone the files that are neither the destination nor its backup. *)
Lemma remove_with_log_effect (dest : Path) (label : string) (w w' : world) (r : res unit) :
  remove_with_log P dest label w = (r, w') ->
  files w' !! dest = None /\
  forall p, p <> dest -> p <> backup_path dest (strftime_now P (ticks w)) ->
            files w' !! p = files w !! p.
Proof.
  intros Hrun. pose proof (remove_with_log_run dest label w) as H.
  destruct (files w !! dest) as [d|] eqn:Hd.
  - destruct H as (w1 & H1 & Hgone & _ & Hframe & _). rewrite H1 in Hrun.
    by injection Hrun as _ <-.
  - rewrite H in Hrun. by injection Hrun as _ <-.
Qed.


End FileEffects.

(** ** The task templates *)

Section TaskTemplates.

Variable P : platform.
Variables (tasks_dir : Path) (prefix : string).

Lemma install_task_templates_rounds :
  install_task_templates P tasks_dir prefix
  = for_each ["lessons.md"; "todo.md"] (task_round P tasks_dir prefix).
Proof. done. Qed.

Lemma file_has_content_run (path : Path) (w : world) :
  file_has_content P path w
  = (match files w !! path with
     | None => Ok false
     | Some b => match decode_utf8 P b with
                 | Some text => Ok (has_content text)
                 | None => Raise UnicodeDecodeError
                 end
     end, w).
Proof.
  unfold file_has_content. rewrite (bind_run _ _ _ _ _ (exists_run path w)).
  destruct (files w !! path) as [b|] eqn:Hb.
  - rewrite (bool_decide_is_Some_true (Some b) b eq_refl). simpl.
    unfold bind, read_text, bind, read_bytes. rewrite Hb.
    by destruct (decode_utf8 P b).
  - by rewrite (bool_decide_is_Some_false None eq_refl).
Qed.

(** A round writes no file but its destination, and adds to the log. *)
Lemma task_round_frame (tpl : string) (w w' : world) (r : res unit) :
  task_round P tasks_dir prefix tpl w = (r, w') ->
  exists ops lg, trace w' = trace w ++ ops /\
                 Forall (fun op => op = Wr (tasks_dir // tpl)) ops /\
                 (forall p, p <> tasks_dir // tpl -> files w' !! p = files w !! p) /\
                 log w' = log w ++ lg.
Proof.
  assert (Hnone : exists ops lg, trace w = trace w ++ ops /\
                 Forall (fun op => op = Wr (tasks_dir // tpl)) ops /\
                 (forall p, p <> tasks_dir // tpl -> files w !! p = files w !! p) /\
                 log w = log w ++ lg).
  { exists [], []. by rewrite !app_nil_r. }
  assert (Hlog : forall e, exists ops lg, trace w = trace w ++ ops /\
                 Forall (fun op => op = Wr (tasks_dir // tpl)) ops /\
                 (forall p, p <> tasks_dir // tpl -> files w !! p = files w !! p) /\
                 log w ++ [e] = log w ++ lg).
  { intros e. exists [], [e]. by rewrite !app_nil_r. }
  assert (Hcopy : forall (rc : res unit) w1,
             (copy2 (TASKS_DIR P // tpl) (tasks_dir // tpl) ;;;
              log_append st_installed (prefix +:+ tpl)) w = (rc, w1) ->
             exists ops lg, trace w1 = trace w ++ ops /\
                 Forall (fun op => op = Wr (tasks_dir // tpl)) ops /\
                 (forall p, p <> tasks_dir // tpl -> files w1 !! p = files w !! p) /\
                 log w1 = log w ++ lg).
  { intros rc w1. unfold_m. destruct (files w !! (TASKS_DIR P // tpl)); [|by intros [= <- <-]].
    destruct (decide _); [by intros [= <- <-] |]. intros [= <- <-]. wsimpl.
    exists [Wr (tasks_dir // tpl)], [(st_installed, prefix +:+ tpl)].
    split_and!; [done | by constructor | | done].
    intros p Hp. by rewrite lookup_insert_ne. }
  unfold task_round. rewrite (bind_run _ _ _ _ _ (exists_run (tasks_dir // tpl) w)).
  destruct (bool_decide _).
  - unfold bind at 1. rewrite file_has_content_run.
    destruct (files w !! (tasks_dir // tpl)) as [b|]; [|apply Hcopy].
    destruct (decode_utf8 P b) as [text|]; [|by intros [= <- <-]].
    destruct (has_content text); [|apply Hcopy].
    intros [= <- <-]. apply Hlog.
  - unfold bind at 1. unfold ret at 1. apply Hcopy.
Qed.

(** A round leaves alone a file that has content. *)
Lemma task_round_skip (tpl : string) (w : world) (b : bytes) (text : string) :
  files w !! (tasks_dir // tpl) = Some b ->
  decode_utf8 P b = Some text ->
  has_content text = true ->
  task_round P tasks_dir prefix tpl w
  = (Ok tt, set_log (fun l => l ++ [(st_skipped, prefix +:+ tpl +:+ " (has content)")]) w).
Proof.
  intros Hb Hd Hc. unfold task_round.
  rewrite (bind_run _ _ _ _ _ (exists_run (tasks_dir // tpl) w)).
  rewrite (bool_decide_is_Some_true _ _ Hb).
  unfold bind. rewrite file_has_content_run, Hb, Hd. by rewrite Hc.
Qed.

(** X9. A task file that has content is never overwritten: whatever
    the run of [install_task_templates] does to the other template,
    and whether it returns or raises, the file keeps its bytes and is
    not written, and a run that returns has logged it as skipped. *)
Theorem task_templates_keep_content (tpl : string) (w w' : world) (r : res unit)
    (b : bytes) (text : string) :
  tpl ∈ ["lessons.md"; "todo.md"] ->
  files w !! (tasks_dir // tpl) = Some b ->
  decode_utf8 P b = Some text ->
  has_content text = true ->
  install_task_templates P tasks_dir prefix w = (r, w') ->
  files w' !! (tasks_dir // tpl) = Some b /\
  (Wr (tasks_dir // tpl) ∉ new_ops w w') /\
  (r = Ok tt -> (st_skipped, prefix +:+ tpl +:+ " (has content)") ∈ log w').
Proof.
  intros Htpl Hb Hd Hc. rewrite install_task_templates_rounds. simpl.
  assert (Hne : tasks_dir // "lessons.md" <> tasks_dir // "todo.md")
    by (by intros ?%child_inj).
  apply elem_of_cons in Htpl as [->|Htpl].
  - rewrite (bind_run _ _ _ _ _ (task_round_skip _ _ _ _ Hb Hd Hc)).
    set (w1 := set_log _ w). unfold bind.
    destruct (task_round P tasks_dir prefix "todo.md" w1) as [r2 w2] eqn:E2.
    destruct (task_round_frame _ _ _ _ E2) as (ops & lg & Ht & Hops & Hfr & Hlg).
    intros Hrun.
    assert (w' = w2) as -> by (destruct r2 as [[]|]; by injection Hrun as _ <-).
    split_and!.
    + by rewrite Hfr.
    + rewrite (new_ops_app w w2 ops) by done. intros Hin.
      rewrite Forall_forall in Hops. apply Hops in Hin. by injection Hin as ?%child_inj.
    + intros _. rewrite Hlg. apply elem_of_app. left. apply elem_of_app. right. left.
  - apply list_elem_of_singleton in Htpl as ->. unfold bind at 1.
    destruct (task_round P tasks_dir prefix "lessons.md" w) as [r1 w1] eqn:E1.
    destruct (task_round_frame _ _ _ _ E1) as (ops & lg & Ht & Hops & Hfr & Hlg).
    assert (Hno : Wr (tasks_dir // "todo.md") ∉ ops).
    { intros Hin. rewrite Forall_forall in Hops. apply Hops in Hin.
      by injection Hin as ?%child_inj. }
    destruct r1 as [[]|e].
    + assert (Hb1 : files w1 !! (tasks_dir // "todo.md") = Some b) by (by rewrite Hfr).
      rewrite (bind_run _ _ _ _ _ (task_round_skip _ _ _ _ Hb1 Hd Hc)).
      intros [= <- <-]. split_and!.
      * done.
      * by rewrite (new_ops_app w _ ops).
      * intros _. simpl. apply elem_of_app. right. left.
    + intros [= <- <-]. split_and!; [by rewrite Hfr | by rewrite (new_ops_app w _ ops) | done].
Qed.

End TaskTemplates.

(** ** Snapshots *)

Section Snapshots.

Variable P : platform.

Lemma child_app (p : Path) (c : string) : p // c = p ++ [c].
Proof. done. Qed.

Lemma managed_not_backups (rel k : Path) (ts : string) :
  managed rel -> rel <> "backups" :: ts :: k.
Proof.
  intros [Hin|(subdir & n & Hin & ->)] E.
  - subst rel. repeat (apply elem_of_cons in Hin as [Hin|Hin]; [done |]).
    by apply elem_of_nil in Hin.
  - injection E as -> _ _.
    repeat (apply elem_of_cons in Hin as [Hin|Hin]; [done |]).
    by apply elem_of_nil in Hin.
Qed.

(** A managed file does not lie in the backups directory. *)
Lemma managed_outside_backups (rel : Path) :
  managed rel -> ~ BACKUPS_DIR P `prefix_of` (CLAUDE_HOME P ++ rel).
Proof.
  intros Hm [k E]. unfold BACKUPS_DIR in E. rewrite child_app, <- app_assoc in E.
  apply app_inv_head in E. simpl in E.
  destruct Hm as [Hin|(subdir & n & Hin & ->)].
  - subst rel. repeat (apply elem_of_cons in Hin as [Hin|Hin]; [done |]).
    by apply elem_of_nil in Hin.
  - injection E as -> _.
    repeat (apply elem_of_cons in Hin as [Hin|Hin]; [done |]).
    by apply elem_of_nil in Hin.
Qed.

Lemma snapshot_below_backups (ts : string) (rel : Path) :
  BACKUPS_DIR P `prefix_of` ((BACKUPS_DIR P // ts) ++ rel).
Proof. exists (ts :: rel). rewrite child_app, <- app_assoc. done. Qed.

Lemma elem_of_files_to_snap (f : Path) (w : world) :
  f ∈ files_to_snap P w <->
  exists rel, managed rel /\ f = CLAUDE_HOME P ++ rel /\ is_Some (files w !! f).
Proof.
  unfold files_to_snap. rewrite elem_of_app, elem_of_List_filter, bool_decide_eq_true. split.
  - intros [[Hin Hf]|Hin].
    + repeat (apply elem_of_cons in Hin as [->|Hin]);
        [exists ["CLAUDE.md"] | exists ["settings.json"] | exists ["statusline.sh"]
         | by apply elem_of_nil in Hin];
        (split_and!; [left; list_elem | done | done]).
    + apply list_elem_of_In, in_concat in Hin as [l [Hl Hin]].
      apply in_map_iff in Hl as [subdir [<- Hs]].
      apply list_elem_of_In, elem_of_iterdir_files in Hin as [Hf [c ->]].
      exists [subdir; c]. split_and!; [| by (unfold child; rewrite <- ?app_assoc) | done].
      right. exists subdir, c. split; [|done]. by apply list_elem_of_In.
  - intros (rel & [Hin|(subdir & n & Hin & ->)] & -> & Hf).
    + left. split; [|done].
      repeat (apply elem_of_cons in Hin as [->|Hin]); [list_elem.. |].
      by apply elem_of_nil in Hin.
    + right. apply list_elem_of_In, in_concat.
      exists (iterdir_files (CLAUDE_HOME P // subdir) w). split.
      * apply in_map_iff. exists subdir. split; [done |]. by apply list_elem_of_In.
      * apply list_elem_of_In, elem_of_iterdir_files. split.
        -- by (unfold child; rewrite <- ?app_assoc).
        -- exists n. by (unfold child; rewrite <- ?app_assoc).
Qed.

Lemma copy2_run (src dst : Path) (w : world) (b : bytes) :
  files w !! src = Some b -> src <> dst ->
  copy2 src dst w
  = (Ok tt, set_trace (fun t => t ++ [Wr dst]) (set_files (insert dst b) w)).
Proof.
  intros Hb Hne. unfold copy2, bind, read_bytes. rewrite Hb.
  by destruct (decide _).
Qed.

(** The loop of [create_snapshot]: [w0] is the world the files were
    collected in. *)
Lemma snapshot_loop (ts : string) (w0 : world) (l : list Path) (w : world) :
  let snap_dir := BACKUPS_DIR P // ts in
  (forall f, f ∈ l ->
             exists rel, managed rel /\ f = CLAUDE_HOME P ++ rel /\ is_Some (files w0 !! f)) ->
  (forall p, ~ BACKUPS_DIR P `prefix_of` p -> files w !! p = files w0 !! p) ->
  exists w' ops,
    for_each l (fun f => match relative_to f (CLAUDE_HOME P) with
                         | Some rel => copy2 f (snap_dir ++ rel)
                         | None => raise ValueError
                         end) w = (Ok tt, w') /\
    trace w' = trace w ++ ops /\
    Forall (fun op => exists rel, op = Wr (snap_dir ++ rel)) ops /\
    ticks w' = ticks w /\ log w' = log w /\ heap w' = heap w /\
    (forall p, ~ BACKUPS_DIR P `prefix_of` p -> files w' !! p = files w0 !! p) /\
    (forall p b, files w' !! p = Some b ->
                 files w !! p = Some b \/
                 exists rel, p = snap_dir ++ rel /\ managed rel /\
                             files w0 !! (CLAUDE_HOME P ++ rel) = Some b) /\
    (forall rel b, managed rel -> files w0 !! (CLAUDE_HOME P ++ rel) = Some b ->
                   CLAUDE_HOME P ++ rel ∈ l \/ files w !! (snap_dir ++ rel) = Some b ->
                   files w' !! (snap_dir ++ rel) = Some b).
Proof.
  intros snap_dir. revert w. induction l as [|f l IH]; intros w Hl Hout.
  - exists w, []. simpl. rewrite app_nil_r. split_and!; try done; [by left |].
    intros rel b _ _ [Hin|H]; [by apply elem_of_nil in Hin | done].
  - destruct (Hl f) as (rel & Hm & -> & [b Hb]); [left |].
    pose proof (managed_outside_backups rel Hm) as Hnb.
    simpl. rewrite relative_to_app.
    assert (Hne : CLAUDE_HOME P ++ rel <> snap_dir ++ rel).
    { intros E. apply Hnb. rewrite E. apply snapshot_below_backups. }
    assert (Hw : files w !! (CLAUDE_HOME P ++ rel) = Some b) by (by rewrite (Hout _ Hnb)).
    rewrite (bind_run _ _ _ _ _ (copy2_run _ _ _ _ Hw Hne)).
    set (w1 := set_trace _ _).
    destruct (IH w1)
      as (w' & ops & Hrun & Ht & Hops & Hti & Hlo & Hhe & Hout' & Hnew & Hcop).
    { intros f' Hf'. apply Hl. by right. }
    { intros p Hp. unfold w1. wsimpl. rewrite lookup_insert_ne; [by apply Hout |].
      intros <-. apply Hp, snapshot_below_backups. }
    exists w', (Wr (snap_dir ++ rel) :: ops). rewrite Hrun.
    split_and!; try done.
    + rewrite Ht. unfold w1. wsimpl. by rewrite <- app_assoc.
    + constructor; [eauto | done].
    + intros p b' Hp. destruct (Hnew p b' Hp) as [H1|H1]; [|by right].
      unfold w1 in H1. simpl in H1.
      destruct (decide (p = snap_dir ++ rel)) as [->|Hp'].
      * rewrite lookup_insert_eq in H1. injection H1 as <-. right. eauto.
      * rewrite lookup_insert_ne in H1 by done. by left.
    + intros rel' b' Hm' Hb' Hcase. apply Hcop; [done..|].
      destruct (decide (rel' = rel)) as [->|Hrel].
      * right. unfold w1. wsimpl. rewrite lookup_insert_eq. congruence.
      * destruct Hcase as [Hin|Hs].
        -- apply elem_of_cons in Hin as [E|Hin]; [|by left].
           by apply app_inv_head in E.
        -- right. unfold w1. wsimpl. rewrite lookup_insert_ne; [done |].
           by intros ?%app_inv_head.
Qed.

(** What [create_snapshot] does. *)
Lemma create_snapshot_run (w : world) :
  exists r w', create_snapshot P w = (Ok r, w') /\
    (forall p, ~ BACKUPS_DIR P `prefix_of` p -> files w' !! p = files w !! p) /\
    match r with
    | None =>
        w' = w /\ forall rel, managed rel -> files w !! (CLAUDE_HOME P ++ rel) = None
    | Some snap_dir =>
        snap_dir = BACKUPS_DIR P // strftime_now P (ticks w) /\
        (exists rel, managed rel /\ is_Some (files w !! (CLAUDE_HOME P ++ rel))) /\
        (forall rel b, managed rel -> files w !! (CLAUDE_HOME P ++ rel) = Some b ->
                       files w' !! (snap_dir ++ rel) = Some b) /\
        (forall p b, files w' !! p = Some b ->
                     files w !! p = Some b \/
                     exists rel, p = snap_dir ++ rel /\ managed rel /\
                                 files w !! (CLAUDE_HOME P ++ rel) = Some b) /\
        Forall (fun op => exists rel, op = Wr (snap_dir ++ rel)) (new_ops w w')
    end.
Proof.
  unfold create_snapshot. unfold bind at 1. unfold gets at 1.
  unfold bind at 1. unfold gets at 1. fold (files_to_snap P w).
  destruct (files_to_snap P w) as [|f l] eqn:E.
  - exists None, w. split; [done |]. split; [done |]. split; [done |].
    intros rel Hm. destruct (files w !! (CLAUDE_HOME P ++ rel)) as [b|] eqn:Hb; [|done].
    assert (CLAUDE_HOME P ++ rel ∈ files_to_snap P w) as Hin
      by (apply elem_of_files_to_snap; exists rel; eauto).
    rewrite E in Hin. by apply elem_of_nil in Hin.
  - rewrite <- E. unfold bind at 1. unfold timestamp at 1.
    destruct (snapshot_loop (strftime_now P (ticks w)) w (files_to_snap P w) (set_ticks S w))
      as (w' & ops & Hrun & Ht & Hops & _ & _ & _ & Hout & Hnew & Hcop).
    { intros f' Hf'. by apply elem_of_files_to_snap. }
    { done. }
    unfold bind. rewrite Hrun. eexists _, w'. split; [done |]. split; [done |].
    split_and!.
    + done.
    + assert (f ∈ files_to_snap P w) as Hin by (rewrite E; left).
      apply elem_of_files_to_snap in Hin as (rel & Hm & -> & Hf). eauto.
    + intros rel b Hm Hb. apply Hcop; [done..|]. left.
      apply elem_of_files_to_snap. exists rel. eauto.
    + done.
    + by rewrite (new_ops_app w w' ops).
Qed.


End Snapshots.

(** ** Restoring a snapshot *)

Section Restore.

Variable P : platform.

Lemma backup_path_app (rel : Path) (ts : string) :
  rel <> [] ->
  backup_path (CLAUDE_HOME P ++ rel) ts
  = CLAUDE_HOME P ++ (removelast rel ++ [name rel +:+ ".bak." +:+ ts]).
Proof.
  intros Hne. destruct (exists_last Hne) as [rel' [c ->]].
  unfold backup_path, parent, name, child.
  rewrite !app_assoc, !removelast_last, !last_snoc. done.
Qed.








End Restore.

(** ** Uninstalling *)

Section Uninstall.

Variable P : platform.












End Uninstall.

(** ** Restoring from the command line *)

Lemma ascii_compare_refl (c : ascii) : Ascii.compare c c = Eq.
Proof. unfold Ascii.compare. apply N.compare_refl. Qed.

Lemma ascii_compare_lt_trans (a b c : ascii) :
  Ascii.compare a b = Lt -> Ascii.compare b c = Lt -> Ascii.compare a c = Lt.
Proof. unfold Ascii.compare. rewrite !N.compare_lt_iff. lia. Qed.

Lemma string_compare_lt_trans (a b c : string) :
  String.compare a b = Lt -> String.compare b c = Lt -> String.compare a c = Lt.
Proof.
  revert b c. induction a as [|x a IH]; intros [|y b] [|z c]; simpl; try done.
  destruct (Ascii.compare x y) eqn:Exy; try done;
    destruct (Ascii.compare y z) eqn:Eyz; try done.
  - apply Ascii.compare_eq_iff in Exy as ->. apply Ascii.compare_eq_iff in Eyz as ->.
    rewrite ascii_compare_refl. apply IH.
  - apply Ascii.compare_eq_iff in Exy as ->. by rewrite Eyz.
  - apply Ascii.compare_eq_iff in Eyz as <-. by rewrite Exy.
  - by rewrite (ascii_compare_lt_trans _ _ _ Exy Eyz).
Qed.

Lemma string_ltb_trans (a b c : string) :
  String.ltb a b = true -> String.ltb b c = true -> String.ltb a c = true.
Proof.
  unfold String.ltb. intros Hab Hbc.
  destruct (String.compare a b) eqn:E1; try done.
  destruct (String.compare b c) eqn:E2; try done.
  by rewrite (string_compare_lt_trans _ _ _ E1 E2).
Qed.

Lemma string_ltb_leb (a b : string) : String.ltb a b = true -> String.leb a b = true.
Proof. unfold String.ltb, String.leb. by destruct (String.compare a b). Qed.

Lemma string_leb_refl (a : string) : String.leb a a = true.
Proof. destruct (String.leb_total a a); done. Qed.

(** The first entry of a list whose names go down has the greatest name. *)
Lemma descending_head (n : string) (d : Path) (l : list (string * Path)) :
  descending ((n, d) :: l) -> forall n' d', (n', d') ∈ l -> String.ltb n' n = true.
Proof.
  unfold descending. revert n d. induction l as [|[m e] l IH]; intros n d Hs n' d' Hin.
  - by apply elem_of_nil in Hin.
  - apply Sorted_inv in Hs as [Hs Hhd]. apply HdRel_inv in Hhd. simpl in Hhd.
    apply elem_of_cons in Hin as [[= -> ->]|Hin]; [done |].
    apply (string_ltb_trans _ m); [|done]. by apply (IH m e Hs n' d').
Qed.

Section RestoreCli.

Variable P : platform.

(** X14. A restore asked for by a timestamp that is not the name of a
    snapshot restores nothing: [run_restore_cli] returns with the
    world as it was, also when the backups directory holds a directory
    of that name which is not named as a snapshot. *)
Theorem run_restore_cli_unknown (t : string) (w : world) :
  files w !! BACKUPS_DIR P = None ->
  t <> "" ->
  ~ (Names.is_snapshot_name t = true /\ holds_files (BACKUPS_DIR P // t) w) ->
  run_restore_cli P (Some t) w = (Ok None, w).
Proof.
  intros _ Ht Hno. unfold run_restore_cli.
  destruct (discover_snapshots_run P w) as (l & Hrun & _ & Hl).
  rewrite (bind_run _ _ _ _ _ Hrun). destruct l as [|s l]; [done |].
  unfold chosen_snapshot. apply String.eqb_neq in Ht. rewrite Ht.
  destruct (List.find _ (s :: l)) as [[n d]|] eqn:E; [|done].
  apply find_some in E as [Hin Heq]. simpl in Heq. apply String.eqb_eq in Heq as ->.
  apply list_elem_of_In, Hl in Hin as (-> & Hn & Hd). destruct Hno. done.
Qed.

(** The restore of the newest snapshot. *)
Lemma run_restore_cli_newest_run (restore : option string) (w : world) :
  restore = None \/ restore = Some "" ->
  (exists n, Names.is_snapshot_name n = true /\ holds_files (BACKUPS_DIR P // n) w) ->
  exists n, Names.is_snapshot_name n = true /\ holds_files (BACKUPS_DIR P // n) w /\
            (forall n', Names.is_snapshot_name n' = true ->
                        holds_files (BACKUPS_DIR P // n') w -> String.leb n' n = true) /\
            run_restore_cli P restore w
            = (lg <- restore_snapshot P (BACKUPS_DIR P // n) ;; ret (Some lg)) w.
Proof.
  intros Hr [n0 [Hn0 Hd0]]. unfold run_restore_cli.
  destruct (discover_snapshots_run P w) as (l & Hrun & Hdesc & Hl).
  rewrite (bind_run _ _ _ _ _ Hrun).
  assert ((n0, BACKUPS_DIR P // n0) ∈ l) as Hin0 by (by apply Hl).
  destruct l as [|[n d] l]; [by apply elem_of_nil in Hin0 |].
  assert ((n, d) ∈ (n, d) :: l) as Hin by left.
  apply Hl in Hin as (-> & Hn & Hd).
  exists n. split; [done |]. split; [done |]. split.
  - intros n' Hn' Hd'.
    assert ((n', BACKUPS_DIR P // n') ∈ (n, BACKUPS_DIR P // n) :: l) as Hin' by (by apply Hl).
    apply elem_of_cons in Hin' as [[= -> _]|Hin']; [apply string_leb_refl |].
    apply string_ltb_leb. by apply (descending_head n _ l Hdesc n' (BACKUPS_DIR P // n')).
  - assert (chosen_snapshot restore ((n, BACKUPS_DIR P // n) :: l)
            = Some (BACKUPS_DIR P // n)) as ->; [|done].
    by destruct Hr as [->| ->].
Qed.

(** X15. A restore asked for without a timestamp, or with an empty
    one, restores the newest snapshot: the directory of the backups
    directory whose name is the greatest among the names of
    snapshots. *)
Theorem run_restore_cli_newest (restore : option string) (w : world) :
  files w !! BACKUPS_DIR P = None ->
  restore = None \/ restore = Some "" ->
  (exists n, Names.is_snapshot_name n = true /\ holds_files (BACKUPS_DIR P // n) w) ->
  exists n, Names.is_snapshot_name n = true /\ holds_files (BACKUPS_DIR P // n) w /\
            (forall n', Names.is_snapshot_name n' = true ->
                        holds_files (BACKUPS_DIR P // n') w -> String.leb n' n = true) /\
            run_restore_cli P restore w
            = (lg <- restore_snapshot P (BACKUPS_DIR P // n) ;; ret (Some lg)) w.
Proof. intros _. apply run_restore_cli_newest_run. Qed.

(** X28. A restore asked for by the timestamp of a snapshot restores
    that snapshot: [run_restore_cli] does what [restore_snapshot] does
    with the directory of that name in the backups directory, whatever
    other snapshots there are. *)
Theorem run_restore_cli_chosen (t : string) (w : world) :
  files w !! BACKUPS_DIR P = None ->
  t <> "" ->
  Names.is_snapshot_name t = true ->
  holds_files (BACKUPS_DIR P // t) w ->
  run_restore_cli P (Some t) w
  = (lg <- restore_snapshot P (BACKUPS_DIR P // t) ;; ret (Some lg)) w.
Proof.
  intros _ Ht Hn Hd. unfold run_restore_cli.
  destruct (discover_snapshots_run P w) as (l & Hrun & _ & Hl).
  rewrite (bind_run _ _ _ _ _ Hrun).
  assert ((t, BACKUPS_DIR P // t) ∈ l) as Hin by (by apply Hl).
  destruct l as [|s l]; [by apply elem_of_nil in Hin |].
  unfold chosen_snapshot. apply String.eqb_neq in Ht. rewrite Ht.
  destruct (List.find _ (s :: l)) as [[n d]|] eqn:E.
  - apply find_some in E as [Hin' Heq]. simpl in Heq. apply String.eqb_eq in Heq as ->.
    by apply list_elem_of_In, Hl in Hin' as (-> & _ & _).
  - apply list_elem_of_In in Hin. apply (find_none _ _ E) in Hin. simpl in Hin.
    by rewrite String.eqb_refl in Hin.
Qed.

End RestoreCli.

(** ** The command-line install *)

Lemma readonly_ret {A} (a : A) : readonly (ret a).
Proof. by intros w r w' [= _ <-]. Qed.

Lemma readonly_gets {A} (f : world -> A) : readonly (gets f).
Proof. by intros w r w' [= _ <-]. Qed.

Lemma readonly_bind {A B} (m : M A) (k : A -> M B) :
  readonly m -> (forall a, readonly (k a)) -> readonly (bind m k).
Proof.
  intros Hm Hk w r w'. unfold bind. destruct (m w) as [[a|e] w1] eqn:E.
  - apply Hm in E as ->. apply Hk.
  - apply Hm in E as ->. by intros [= _ <-].
Qed.

Lemma readonly_map_m {A B} (f : A -> M B) (xs : list A) :
  (forall x, readonly (f x)) -> readonly (map_m f xs).
Proof.
  intros Hf. induction xs as [|x xs IH]; simpl; [apply readonly_ret |].
  apply readonly_bind; [apply Hf |]. intros y.
  apply readonly_bind; [apply IH |]. intros ys. apply readonly_ret.
Qed.

Lemma readonly_read_bytes (p : Path) : readonly (read_bytes p).
Proof. intros w r w'. unfold read_bytes. destruct (files w !! p); by intros [= _ <-]. Qed.

Lemma readonly_read_text (P : platform) (p : Path) : readonly (read_text P p).
Proof.
  apply readonly_bind; [apply readonly_read_bytes |]. intros b.
  destruct (decode_utf8 P b); [apply readonly_ret | by intros w r w' [= _ <-]].
Qed.

Lemma readonly_exists_dir (d : Path) : readonly (exists_dir d).
Proof. apply readonly_gets. Qed.

Lemma readonly_discover_files (d : Path) : readonly (discover_files d).
Proof.
  apply readonly_bind; [apply readonly_exists_dir |]. intros e.
  destruct (negb e); [apply readonly_ret |].
  apply readonly_bind; [apply readonly_gets | intros; apply readonly_ret].
Qed.

Lemma readonly_file_status (src dest : Path) : readonly (file_status src dest).
Proof.
  apply readonly_bind; [apply readonly_gets |]. intros e.
  destruct (negb e); [apply readonly_ret |].
  apply readonly_bind; [apply readonly_read_bytes |]. intros s.
  apply readonly_bind; [apply readonly_read_bytes | intros; apply readonly_ret].
Qed.

Lemma readonly_build_file_info (P : platform) (source_files : list (string * Path))
    (install_dir : Path) (mandatory : gset string) :
  readonly (build_file_info P source_files install_dir mandatory).
Proof.
  apply readonly_map_m. intros [n src].
  apply readonly_bind; [apply readonly_file_status |]. intros st.
  apply readonly_bind.
  { apply readonly_bind; [apply readonly_read_text | intros; apply readonly_ret]. }
  intros h. apply readonly_bind.
  { apply readonly_bind; [apply readonly_read_text | intros; apply readonly_ret]. }
  intros d. apply readonly_bind.
  { apply readonly_bind; [apply readonly_read_text | intros; apply readonly_ret]. }
  intros m. apply readonly_ret.
Qed.

Lemma only_adds_readonly (ok : fsop -> Prop) {A} (m : M A) : readonly m -> only_adds ok m.
Proof. intros Hm. apply only_adds_silent. intros w r w' Hrun. by apply Hm in Hrun as ->. Qed.

Section RunCli.

Variable P : platform.

Lemma only_adds_install_all (dir : Path) (prefix : string) (info : list file_info) :
  only_adds is_write (install_all P dir prefix info).
Proof.
  apply only_adds_for_each. intros it _.
  apply only_adds_smart_install; intros; by eexists.
Qed.

Lemma only_adds_run_cli (args : cli_args) (cwd : Path) :
  only_adds is_write (run_cli P args cwd).
Proof.
  unfold run_cli.
  apply only_adds_bind; [apply only_adds_is_git_repo |]. intros in_repo.
  apply only_adds_bind.
  { destruct (in_global _); [| apply only_adds_ret].
    apply only_adds_bind; [apply only_adds_create_snapshot | intros; apply only_adds_ret]. }
  intros _.
  apply only_adds_bind; [apply only_adds_readonly, readonly_discover_files |]. intros rules.
  apply only_adds_bind; [apply only_adds_readonly, readonly_discover_files |]. intros agents.
  apply only_adds_bind; [apply only_adds_readonly, readonly_build_file_info |].
  intros rule_info.
  apply only_adds_bind; [apply only_adds_readonly, readonly_build_file_info |].
  intros agent_info.
  apply only_adds_bind; [apply only_adds_modify_log |]. intros _.
  apply only_adds_bind.
  { destruct (in_global _); [| apply only_adds_ret].
    apply only_adds_bind; [apply only_adds_smart_install; intros; by eexists |]. intros _.
    apply only_adds_bind; [apply only_adds_install_all |]. intros _.
    apply only_adds_bind; [apply only_adds_install_all |]. intros _.
    apply only_adds_bind.
    { destruct (negb _); [| apply only_adds_ret]. apply only_adds_install_task_templates. }
    intros _. apply only_adds_install_global_settings. }
  intros _. apply only_adds_bind; [| intros; apply only_adds_gets].
  destruct (in_project _); [| apply only_adds_ret].
  destruct in_repo; [| apply only_adds_log].
  apply only_adds_bind.
  { destruct (negb _); [| apply only_adds_ret]. apply only_adds_install_task_templates. }
  intros _. destruct (arg_auto_read args); [| apply only_adds_ret].
  apply only_adds_install_auto_read.
Qed.

(** The command-line install removes nothing: every change that
    [run_cli] makes to the file system, whether it returns or raises,
    is the creation or the overwriting of a file, and a file it does
    not write is as it was. *)
Corollary run_cli_never_removes (args : cli_args) (cwd : Path) (w w' : world)
    (r : res (list entry)) :
  run_cli P args cwd w = (r, w') ->
  Forall is_write (new_ops w w') /\
  forall p, Wr p ∉ new_ops w w' -> files w' !! p = files w !! p.
Proof.
  intros Hrun. destruct (only_adds_run_cli args cwd w r w' Hrun) as (ops & Ht & Hops & Hfr).
  rewrite (new_ops_app w w' ops Ht). split; [done |].
  intros p Hp. apply Hfr; [done |].
  intros Hin. rewrite Forall_forall in Hops. by destruct (Hops _ Hin).
Qed.

(** X17. A project install from the command line outside a git
    repository changes no file: [run_cli] with the project scope, where
    [is_git_repo] answers [False], writes and removes nothing, and a
    run that returns has logged the one entry [skipped]. *)
Theorem run_cli_outside_repo (args : cli_args) (cwd : Path) (w : world) :
  arg_both args = false ->
  arg_scope_project args = true ->
  fst (is_git_repo P cwd w) = Ok false ->
  exists r w', run_cli P args cwd w = (r, w') /\
               files w' = files w /\ trace w' = trace w /\
               forall lg, r = Ok lg -> lg = [(st_skipped, "Project install (not in a git repo)")].
Proof.
  intros Hboth Hproj Hgit. unfold run_cli, cli_scope. rewrite Hboth, Hproj.
  destruct (git_above_run (length (resolve P cwd)) (resolve P cwd) w) as [b [Hb _]];
    [done |].
  unfold is_git_repo in *. rewrite Hb in Hgit. injection Hgit as ->.
  rewrite (bind_run _ _ _ _ _ Hb). simpl.
  unfold bind at 1. unfold ret at 1.
  unfold bind at 1.
  destruct (discover_files (HOME_RULES_DIR P) w) as [[rules|e] w1] eqn:E1;
    apply readonly_discover_files in E1 as ->; [|by eexists _, _].
  unfold bind at 1.
  destruct (discover_files (AGENTS_DIR P) w) as [[agents|e] w1] eqn:E2;
    apply readonly_discover_files in E2 as ->; [|by eexists _, _].
  unfold bind at 1.
  destruct (build_file_info P rules _ _ w) as [[rule_info|e] w1] eqn:E3;
    apply readonly_build_file_info in E3 as ->; [|by eexists _, _].
  unfold bind at 1.
  destruct (build_file_info P agents _ _ w) as [[agent_info|e] w1] eqn:E4;
    apply readonly_build_file_info in E4 as ->; [|by eexists _, _].
  eexists _, _. split; [done |]. split; [done |]. split; [done |].
  by intros lg [= <-].
Qed.

(** X18. A project install from the screens outside a git repository
    changes no file: [run_install] with the project scope, where
    [is_git_repo] answers [False], returns the one entry [skipped]
    and leaves every file as it was. *)
Theorem run_install_outside_repo (a : app) (w : world) :
  app_scope a = scope_project ->
  fst (is_git_repo P (app_cwd a) w) = Ok false ->
  run_install P a w
  = (Ok [(st_skipped, "Project install (not in a git repo)")],
     set_log (fun _ => [(st_skipped, "Project install (not in a git repo)")]) w).
Proof.
  intros Hscope Hgit. unfold run_install. rewrite Hscope. simpl.
  set (w1 := set_log (fun _ => []) w).
  destruct (git_above_run (length (resolve P (app_cwd a))) (resolve P (app_cwd a)) w1)
    as [b [Hb Hiff]]; [done |].
  destruct (git_above_run (length (resolve P (app_cwd a))) (resolve P (app_cwd a)) w)
    as [b' [Hb' Hiff']]; [done |].
  unfold is_git_repo in *. rewrite Hb' in Hgit. injection Hgit as ->.
  assert (b = false) as ->.
  { destruct b; [|done]. symmetry. apply Hiff'. by apply Hiff. }
  unfold bind at 1. unfold modify at 1. fold w1.
  unfold bind at 1. unfold ret at 1. unfold bind at 1. unfold ret at 1.
  unfold bind at 1. unfold bind at 1. rewrite Hb. done.
Qed.

End RunCli.

(** ** The selection of the screens *)

(** X19. A mandatory entry of the catalog is in the selection that the
    screen stores, whatever the user toggles: it is checked when the
    list is first shown, and every toggle is followed by the handler
    that selects the mandatory names again. *)
Theorem mandatory_always_selected (mandatory : gset string) (fresh : bool)
    (info : list file_info) (toggles : list string) (i : file_info) :
  i ∈ info ->
  info_name i ∈ mandatory ->
  info_mandatory i = true ->
  info_name i ∈ selection_after mandatory fresh info toggles.
Proof.
  intros Hin Hname Hflag. unfold selection_after.
  induction toggles as [|t toggles IH] using rev_ind.
  - simpl. unfold preselected. apply elem_of_list_to_set, list_elem_of_fmap.
    exists i. split; [done |]. apply elem_of_List_filter. split; [done |].
    unfold checked. rewrite Hflag. by destruct fresh, (negb _).
  - rewrite foldl_app. simpl. unfold toggled at 1.
    rewrite enforce_mandatory_union. set_solver.
Qed.

(** ** The merge of a document with itself and with an empty one *)

Lemma merge_cons (b : list (string * json)) (k : string) (t : json)
    (o : list (string * json)) :
  merge b ((k, t) :: o) = merge (merge_step k t b) o.
Proof. done. Qed.

Lemma merge_nil (b : list (string * json)) : merge b [] = b.
Proof. done. Qed.

(** Rounds of the loop that change nothing. *)
Lemma merge_fixed (d items : list (string * json)) :
  (forall k v, (k, v) ∈ items -> merge_step k v d = d) -> merge d items = d.
Proof.
  induction items as [|[k v] items IH]; intros H; [done |].
  rewrite merge_cons, (H k v) by left. apply IH. intros k' v' Hin. apply H. by right.
Qed.

Lemma dict_get_NoDup {V} (k : string) (v : V) (d : list (string * V)) :
  NoDup (map fst d) -> (k, v) ∈ d -> dict_get k d = Some v.
Proof.
  induction d as [|[k1 v1] d IH]; simpl; [by intros _ ?%elem_of_nil |].
  intros [Hk1 Hnd]%NoDup_cons [[= -> ->]|Hin]%elem_of_cons.
  - by rewrite String.eqb_refl.
  - destruct (String.eqb_spec k k1) as [->|_]; [|by apply IH].
    destruct Hk1. apply list_elem_of_fmap. by exists (k1, v).
Qed.

Lemma wf_json_dict (d : list (string * json)) :
  wf_json (JDict d) <-> NoDup (map fst d) /\ Forall (fun kv => wf_json (snd kv)) d.
Proof.
  simpl. apply and_iff_compat_l. induction d as [|[k v] d IH]; simpl.
  - split; [by constructor | done].
  - rewrite Forall_cons. simpl. by rewrite IH.
Qed.

Lemma list_new_items_known (v l : list json) :
  (forall x, x ∈ v -> py_in x l = true) -> list_new_items l v = [].
Proof.
  induction v as [|x v IH]; intros H; simpl; [done |].
  rewrite (H x) by left. apply IH. intros y Hy. apply H. by right.
Qed.

Lemma py_in_elem (x : json) (l : list json) : x ∈ l -> py_in x l = true.
Proof.
  intros Hin. unfold py_in. apply existsb_exists. exists x.
  split; [by apply list_elem_of_In |]. by rewrite json_eqb_refl.
Qed.

(** A mapping without repeated keys, merged with itself, is itself. *)
Lemma merge_self (t : json) :
  wf_json t -> match t with JDict d => merge d d = d | _ => True end.
Proof.
  induction t as [ | b | n | s | l _ | d IHd ] using json_ind_nested; try done.
  intros [Hnd Hwf]%wf_json_dict. apply merge_fixed. intros k v Hin.
  unfold merge_step. rewrite (dict_get_NoDup k v d Hnd Hin).
  rewrite Forall_forall in IHd, Hwf.
  pose proof (IHd _ Hin (Hwf _ Hin)) as Hv. simpl in Hv.
  pose proof (dict_get_NoDup k v d Hnd Hin) as Hg.
  destruct v as [ | b | n | s | l | d' ]; try (by apply dict_set_same).
  - rewrite list_extend_new_items, list_new_items_known, app_nil_r;
      [by apply dict_set_same | intros x; apply py_in_elem].
  - change (merge_into (JDict d') d') with (merge d' d'). rewrite Hv.
    by apply dict_set_same.
Qed.

(** An empty mapping takes the items of the other one. *)
Lemma merge_fresh (o b : list (string * json)) :
  NoDup (map fst (b ++ o)) -> merge b o = b ++ o.
Proof.
  revert b. induction o as [|[k v] o IH]; intros b Hnd; [by rewrite app_nil_r |].
  assert (Hk : dict_get k b = None).
  { destruct (dict_get k b) as [x|] eqn:E; [|done].
    rewrite fmap_app in Hnd. apply NoDup_app in Hnd as (_ & Hdis & _).
    destruct (Hdis k); [|left]. apply dict_get_in_keys. by rewrite E. }
  rewrite merge_cons. unfold merge_step. rewrite Hk.
  assert (Hset : dict_set k v b = b ++ [(k, v)]).
  { clear -Hk. induction b as [|[k1 v1] b IHb]; simpl in *; [done |].
    destruct (String.eqb k k1); [done |]. by rewrite IHb. }
  cbv beta iota. rewrite Hset, IH; rewrite <- app_assoc; done.
Qed.

(** X20. [deep_merge_settings] of a document with itself gives the
    document back: called, with room for its nesting, on two copies of
    a mapping no mapping of which repeats a key, it returns a value
    that stands for that mapping. *)
Theorem deep_merge_settings_self (depth : nat) (d : list (string * json)) :
  wf_json (JDict d) ->
  dict_depth (JDict d) <= depth ->
  merged_to depth (JDict d) (JDict d) (JDict d).
Proof.
  intros Hwf Hdepth. pose proof (merge_self (JDict d) Hwf) as E. simpl in E.
  rewrite <- E at 3. by apply deep_merge_settings_refines_merge.
Qed.

(** X21. [deep_merge_settings] with an empty mapping: an empty overlay
    gives the base back, and an empty base gives the overlay, when the
    calls have room for the nesting of the overlay and the overlay
    repeats no key. *)
Theorem deep_merge_settings_empty (depth : nat) (d : list (string * json)) :
  NoDup (map fst d) ->
  dict_depth (JDict d) <= depth ->
  merged_to depth (JDict d) (JDict []) (JDict d) /\
  merged_to depth (JDict []) (JDict d) (JDict d).
Proof.
  intros Hnd Hdepth. split.
  - rewrite <- (merge_nil d) at 2. apply deep_merge_settings_refines_merge.
    simpl in *. lia.
  - rewrite <- (merge_fresh d []) at 2 by done.
    by apply deep_merge_settings_refines_merge.
Qed.

(** ** The project settings, with the permissions already there *)

Lemma add_missing_at (la : loc) (tools es added : list json) (h : store) :
  h !! la = Some (OList es) ->
  add_missing (VRef la) tools added h
  = (Ok (added ++ list_new_items es tools),
     <[la := OList (list_extend_new es tools)]> h).
Proof. intros Hla. exact (add_missing_run [] h la tools es added Hla). Qed.

(** The permissions added to a document that has them all. *)
Lemma add_auto_read_present (d p : list (string * json)) (l : list json)
    (F : gset loc) (v : val) (h : store) :
  repr h (JDict d) F v ->
  dict_get "permissions" d = Some (JDict p) ->
  dict_get "allow" p = Some (JList l) ->
  (forall tool, tool ∈ AUTO_READ_ALLOW -> py_in tool l = true) ->
  exists h', add_auto_read v h = (Ok [], h').
Proof.
  intros Hr Hp Ha Hall.
  apply repr_dict in Hr as (ld & items & Fi & -> & Hld & _ & Hitems).
  destruct (repr_items_get _ _ _ _ _ _ Hitems Hp) as (vp & Fp & _ & Hgp & Hrp & _).
  apply repr_dict in Hrp as (lp & pitems & Fpi & -> & Hlp & _ & Hpitems).
  destruct (repr_items_get _ _ _ _ _ _ Hpitems Ha) as (va & Fa & _ & Hga & Hra & _).
  destruct Hra as (la & -> & Hla & _).
  unfold add_auto_read, bind at 1, Store.alloc at 1.
  set (h1 := h ++ [ODict []]).
  assert (Hext : forall i o, h !! i = Some o -> h1 !! i = Some o).
  { intros i o Hi. unfold h1. by apply lookup_app_l_Some. }
  unfold bind at 1.
  rewrite (py_setdefault_run ld items "permissions" _ h1 (Hext _ _ Hld)), Hgp.
  unfold bind at 1, Store.alloc at 1.
  set (h2 := h1 ++ [OList []]).
  assert (Hext2 : forall i o, h1 !! i = Some o -> h2 !! i = Some o).
  { intros i o Hi. unfold h2. by apply lookup_app_l_Some. }
  unfold bind at 1.
  rewrite (py_setdefault_run lp pitems "allow" _ h2 (Hext2 _ _ (Hext _ _ Hlp))), Hga.
  rewrite (add_missing_at la AUTO_READ_ALLOW l [] h2 (Hext2 _ _ (Hext _ _ Hla))).
  rewrite (list_new_items_known AUTO_READ_ALLOW l Hall). eauto.
Qed.

(** X22. A project settings file that already grants every auto-read
    permission is left alone: [install_auto_read] returns without
    writing a file, and logs it as current. *)
Theorem install_auto_read_present (P : platform) (cwd : Path) (w : world)
    (b : bytes) (text : string) (d p : list (string * json)) (l : list json) :
  files w !! (cwd // ".claude" // "settings.json") = Some b ->
  decode_utf8 P b = Some text ->
  json_loads P text = Some (JDict d) ->
  dict_get "permissions" d = Some (JDict p) ->
  dict_get "allow" p = Some (JList l) ->
  (forall tool, tool ∈ AUTO_READ_ALLOW -> py_in tool l = true) ->
  exists w',
    install_auto_read P cwd w = (Ok tt, w') /\
    files w' = files w /\ trace w' = trace w /\
    log w' = log w ++ [(st_current, ".claude/settings.json (permissions already present)")].
Proof.
  intros Hf Hd Hj Hp Ha Hall. unfold install_auto_read.
  set (sf := cwd // ".claude" // "settings.json") in *.
  rewrite (bind_run _ _ w w true)
    by (unfold exists_, gets; by rewrite (bool_decide_is_Some_true _ _ Hf)).
  cbv iota.
  destruct (Store.alloc_json (JDict d) (heap w)) as [v h1] eqn:Ealloc.
  destruct (alloc_json_repr _ _ _ _ Ealloc) as (ext & F & -> & Hr & _).
  rewrite (bind_run _ _ w (set_heap (fun _ => heap w ++ ext) w) v).
  2:{ unfold try_except. rewrite (bind_run _ _ _ _ _ (read_text_run P sf w b text Hf Hd)).
      unfold loads. rewrite Hj.
      rewrite (lift_heap_run (Store.new_json (JDict d)) w (Ok v) (heap w ++ ext)); [done |].
      unfold Store.new_json. by rewrite Ealloc. }
  destruct (add_auto_read_present d p l F v _ Hr Hp Ha Hall) as [h' Hadd].
  rewrite (bind_run _ _ _ _ _ (lift_heap_run _ (set_heap _ w) _ _ Hadd)).
  unfold log_append, modify. eexists. split; [done |]. done.
Qed.
(** ** Where the installer writes *)

Section WriteAreas.

Variable P : platform.

Lemma below_child (d : Path) (n : string) : d `prefix_of` d // n.
Proof. by exists [n]. Qed.

Lemma backup_path_child (d : Path) (n ts : string) :
  backup_path (d // n) ts = d // (n +:+ ".bak." +:+ ts).
Proof. unfold backup_path. by rewrite parent_child, name_child. Qed.

Lemma writes_in_below (d d' : Path) (op : fsop) :
  d' `prefix_of` d -> writes_in d op -> writes_below d' op.
Proof.
  intros Hd [n ->]. exists (d // n). split; [done |].
  etrans; [done | apply below_child].
Qed.

Lemma only_adds_smart_install_in (dir : Path) (n : string) (src : Path) (label : string) :
  only_adds (writes_in dir) (smart_install P src (dir // n) label).
Proof.
  apply only_adds_smart_install.
  - by exists n.
  - intros ts. rewrite backup_path_child. by eexists.
Qed.

Lemma only_adds_install_all_in (dir : Path) (prefix : string) (info : list file_info) :
  only_adds (writes_in dir) (install_all P dir prefix info).
Proof. apply only_adds_for_each. intros it _. apply only_adds_smart_install_in. Qed.

Lemma only_adds_task_templates_in (tasks_dir : Path) (prefix : string) :
  only_adds (writes_in tasks_dir) (install_task_templates P tasks_dir prefix).
Proof.
  apply only_adds_for_each. intros tpl _.
  apply only_adds_bind; [apply only_adds_exists |]. intros e.
  apply only_adds_bind.
  { destruct e; [| apply only_adds_ret]. unfold file_has_content.
    apply only_adds_bind; [apply only_adds_exists |]. intros e'.
    destruct (negb e'); [apply only_adds_ret |].
    apply only_adds_bind; [apply only_adds_read_text | intros; apply only_adds_ret]. }
  intros c. destruct c; [apply only_adds_log |].
  apply only_adds_bind; [apply only_adds_copy2; by eexists | intros; apply only_adds_log].
Qed.

Lemma only_adds_install_auto_read_file (cwd : Path) :
  only_adds (fun op => op = Wr (cwd // ".claude" // "settings.json"))
            (install_auto_read P cwd).
Proof.
  unfold install_auto_read.
  apply only_adds_bind; [apply only_adds_exists |]. intros e. destruct e.
  - apply only_adds_bind.
    { apply only_adds_try; [| intros; apply only_adds_lift_heap].
      apply only_adds_bind; [apply only_adds_read_text | intros; apply only_adds_lift_heap]. }
    intros existing. apply only_adds_bind; [apply only_adds_lift_heap |]. intros added.
    destruct added; [apply only_adds_log |].
    apply only_adds_bind; [apply only_adds_lift_heap |]. intros text.
    apply only_adds_bind; [by apply only_adds_write_bytes | intros; apply only_adds_log].
  - apply only_adds_bind; [by apply only_adds_write_bytes | intros; apply only_adds_log].
Qed.

Lemma only_adds_create_snapshot_below :
  only_adds (writes_below (BACKUPS_DIR P)) (create_snapshot P).
Proof.
  unfold create_snapshot.
  apply only_adds_bind; [apply only_adds_gets |]. intros top.
  apply only_adds_bind; [apply only_adds_gets |]. intros sub.
  destruct (top ++ sub) as [|f fs] eqn:E; [apply only_adds_ret |].
  apply only_adds_bind; [apply only_adds_timestamp |]. intros ts.
  apply only_adds_bind; [| intros; apply only_adds_ret].
  apply only_adds_for_each. intros x _.
  destruct (relative_to x (CLAUDE_HOME P)) as [rel|]; [| apply only_adds_raise].
  apply only_adds_copy2. eexists. split; [done |].
  exists (ts :: rel). unfold child. by rewrite <- app_assoc.
Qed.

(** [install_global_settings] writes the files of the settings. *)
Lemma only_adds_settings_files (default_model : string) :
  only_adds (fun op => exists p, op = Wr p /\ settings_file P p)
            (install_global_settings P default_model).
Proof.
  set (ok := fun op => exists p, op = Wr p /\ settings_file P p).
  assert (Hset : ok (Wr (CLAUDE_SETTINGS P))) by (eexists; split; [done | by left]).
  assert (Hbak : only_adds ok (backup_file P (CLAUDE_SETTINGS P))).
  { apply only_adds_backup_file. intros ts. eexists. split; [done |]. right. right. eauto. }
  assert (Hwr : forall (v : val) (k : string -> M unit),
             (forall t, only_adds ok (k t)) ->
             only_adds ok (text <- lift_heap (dumps P v) ;; k text)).
  { intros v k Hk. apply only_adds_bind; [apply only_adds_lift_heap | done]. }
  unfold install_global_settings.
  apply only_adds_bind; [apply only_adds_load_template |]. intros [template|];
    [| apply only_adds_ret].
  apply only_adds_bind; [apply only_adds_lift_heap |]. intros _.
  apply only_adds_bind.
  { unfold load_existing.
    apply only_adds_bind; [apply only_adds_lift_heap |]. intros empty.
    apply only_adds_bind; [apply only_adds_exists |]. intros [|]; [| apply only_adds_ret].
    apply only_adds_try.
    - apply only_adds_bind; [apply only_adds_read_text | intros; apply only_adds_lift_heap].
    - intros e. apply only_adds_bind; [apply Hbak |]. intros bak.
      apply only_adds_bind; [apply only_adds_log | intros; apply only_adds_lift_heap]. }
  intros existing. unfold finish_global_settings.
  apply only_adds_bind; [apply only_adds_lift_heap |]. intros merged.
  apply only_adds_bind.
  { unfold write_settings.
    apply only_adds_bind; [apply only_adds_lift_heap |]. intros [|]; [apply only_adds_log |].
    apply only_adds_bind; [apply only_adds_exists |]. intros e.
    apply only_adds_bind; [destruct e; [apply only_adds_lift_heap | apply only_adds_ret] |].
    intros [|].
    - apply only_adds_bind; [apply Hbak |]. intros bak. apply Hwr. intros text.
      apply only_adds_bind; [by apply only_adds_write_text | intros; apply only_adds_log].
    - apply Hwr. intros text.
      apply only_adds_bind; [by apply only_adds_write_text | intros; apply only_adds_log]. }
  intros _. apply only_adds_bind; [apply only_adds_warn_aws |]. intros _.
  unfold install_statusline.
  apply only_adds_bind; [apply only_adds_exists |]. intros [|]; [| apply only_adds_ret].
  apply only_adds_smart_install.
  - eexists. split; [done |]. right. by left.
  - intros ts. eexists. split; [done |]. right. right. eauto.
Qed.

Lemma settings_file_below (p : Path) : settings_file P p -> CLAUDE_HOME P `prefix_of` p.
Proof.
  intros [->|[->|[ts [->| ->]]]]; try apply below_child.
  - unfold CLAUDE_SETTINGS. rewrite backup_path_child. apply below_child.
  - unfold CLAUDE_STATUSLINE. rewrite backup_path_child. apply below_child.
Qed.

(** The global part of a run of the command line writes below
    [~/.claude]. *)
Lemma only_adds_global_part (args : cli_args) (rule_info agent_info : list file_info) :
  only_adds (writes_below (CLAUDE_HOME P))
    (smart_install P (HOME_CLAUDE_MD P) (CLAUDE_MD P) "~/.claude/CLAUDE.md" ;;;
     install_all P (CLAUDE_RULES P) "~/.claude/rules/" rule_info ;;;
     install_all P (CLAUDE_AGENTS P) "~/.claude/agents/" agent_info ;;;
     (if negb (arg_no_tasks args) then
        install_task_templates P (CLAUDE_HOME P // "tasks") "~/.claude/tasks/"
      else ret tt) ;;;
     install_global_settings P (arg_model args)).
Proof.
  apply only_adds_bind.
  { eapply only_adds_weaken; [| apply (only_adds_smart_install_in (CLAUDE_HOME P))].
    intros op. by apply writes_in_below. }
  intros _. apply only_adds_bind.
  { eapply only_adds_weaken; [| apply only_adds_install_all_in].
    intros op. apply writes_in_below, below_child. }
  intros _. apply only_adds_bind.
  { eapply only_adds_weaken; [| apply only_adds_install_all_in].
    intros op. apply writes_in_below, below_child. }
  intros _. apply only_adds_bind.
  { destruct (negb _); [| apply only_adds_ret].
    eapply only_adds_weaken; [| apply only_adds_task_templates_in].
    intros op. apply writes_in_below, below_child. }
  intros _. eapply only_adds_weaken; [| apply only_adds_settings_files].
  intros op (p & -> & Hp). exists p. split; [done |]. by apply settings_file_below.
Qed.

Lemma only_adds_cli_write (args : cli_args) (cwd : Path) :
  only_adds (cli_write P args cwd) (run_cli P args cwd).
Proof.
  unfold run_cli.
  apply only_adds_bind; [apply only_adds_is_git_repo |]. intros in_repo.
  apply only_adds_bind.
  { destruct (in_global _) eqn:Hg; [| apply only_adds_ret].
    apply only_adds_bind; [| intros; apply only_adds_ret].
    eapply only_adds_weaken; [| apply only_adds_create_snapshot_below].
    intros op (p & -> & Hp). left. split; [done |]. exists p. split; [done |].
    etrans; [apply below_child | done]. }
  intros _.
  apply only_adds_bind; [apply only_adds_readonly, readonly_discover_files |]. intros rules.
  apply only_adds_bind; [apply only_adds_readonly, readonly_discover_files |]. intros agents.
  apply only_adds_bind; [apply only_adds_readonly, readonly_build_file_info |].
  intros rule_info.
  apply only_adds_bind; [apply only_adds_readonly, readonly_build_file_info |].
  intros agent_info.
  apply only_adds_bind; [apply only_adds_modify_log |]. intros _.
  apply only_adds_bind.
  { destruct (in_global _) eqn:Hg; [| apply only_adds_ret].
    eapply only_adds_weaken; [| apply only_adds_global_part].
    intros op Hop. by left. }
  intros _. apply only_adds_bind; [| intros; apply only_adds_gets].
  destruct (in_project _) eqn:Hp; [| apply only_adds_ret].
  destruct in_repo; [| apply only_adds_log].
  apply only_adds_bind.
  { destruct (negb _); [| apply only_adds_ret].
    eapply only_adds_weaken; [| apply only_adds_task_templates_in].
    intros op Hop. right. split; [done |]. revert Hop. apply writes_in_below, below_child. }
  intros _. destruct (arg_auto_read args); [| apply only_adds_ret].
  eapply only_adds_weaken; [| apply only_adds_install_auto_read_file].
  intros op ->. right. split; [done |]. eexists. split; [done |].
  exists [".claude"; "settings.json"]. unfold child. by rewrite <- app_assoc.
Qed.

(** X24. A run of the command line stays in its places: whether it
    returns or raises, every operation it does on a file is the
    writing of a file below [~/.claude], when the scope takes in the
    global install, or below the working directory, when it takes in
    the project; a file at a path outside these two directories, as
    are the files of the standards when they are kept elsewhere, is as
    it was. *)
Theorem run_cli_writes_within (args : cli_args) (cwd : Path) (w w' : world)
    (r : res (list entry)) :
  run_cli P args cwd w = (r, w') ->
  Forall (cli_write P args cwd) (new_ops w w') /\
  forall p, ~ CLAUDE_HOME P `prefix_of` p -> ~ cwd `prefix_of` p ->
            files w' !! p = files w !! p.
Proof.
  intros Hrun. destruct (only_adds_cli_write args cwd w r w' Hrun) as (ops & Ht & Hops & Hfr).
  rewrite (new_ops_app w w' ops Ht). split; [done |].
  intros p Hhome Hcwd. rewrite Forall_forall in Hops. apply Hfr.
  - intros Hin. destruct (Hops _ Hin) as [[_ (q & [= <-] & Hq)]|[_ (q & [= <-] & Hq)]]; tauto.
  - intros Hin. destruct (Hops _ Hin) as [[_ (q & [=] & _)]|[_ (q & [=] & _)]].
Qed.

(** X25. [install_global_settings] writes the settings, the status
    line script and the siblings that are their backups, and nothing
    else: whether it returns or raises, every operation it does on a
    file is the writing of one of these files, and every other file is
    as it was. *)
Theorem install_global_settings_writes (default_model : string) (w w' : world)
    (r : res unit) :
  install_global_settings P default_model w = (r, w') ->
  Forall (fun op => exists p, op = Wr p /\ settings_file P p) (new_ops w w') /\
  forall p, ~ settings_file P p -> files w' !! p = files w !! p.
Proof.
  intros Hrun.
  destruct (only_adds_settings_files default_model w r w' Hrun) as (ops & Ht & Hops & Hfr).
  rewrite (new_ops_app w w' ops Ht). split; [done |].
  intros p Hp. rewrite Forall_forall in Hops. apply Hfr.
  - intros Hin. by destruct (Hops _ Hin) as (q & [= <-] & Hq).
  - intros Hin. by destruct (Hops _ Hin) as (q & [=] & _).
Qed.

End WriteAreas.

(** ** An AWS configuration that is no text *)

Section AwsConfig.

Variables (P : platform) (b : bytes).

(** [check_aws_profile] handles [OSError] only: the error of the
    decoding leaves it. *)
Lemma check_aws_profile_undecodable (profile : val) (w : world) :
  aws_undecodable P b w ->
  check_aws_profile P profile w = (Raise UnicodeDecodeError, w).
Proof.
  intros [Hf Hd]. unfold check_aws_profile.
  rewrite (bind_run _ _ _ _ _ (exists_run _ w)).
  fold (AWS_CONFIG P). rewrite (bool_decide_is_Some_true _ _ Hf). simpl.
  assert (Hread : read_text P (AWS_CONFIG P) w = (Raise UnicodeDecodeError, w)).
  { unfold read_text. erewrite bind_run; [| unfold read_bytes; by rewrite Hf].
    by rewrite Hd. }
  unfold try_except. by rewrite (bind_raise _ _ _ _ _ Hread).
Qed.

Section Steps.

Variable ok : fsop -> Prop.
Hypothesis ok_write : ~ ok (Wr (AWS_CONFIG P)).
Hypothesis ok_remove : ~ ok (Rm (AWS_CONFIG P)).

Lemma keeps_from_only_adds {A} (m : M A) :
  only_adds ok m -> keeps_from (aws_undecodable P b) ok m.
Proof.
  intros Hm w r w' [Hf Hd] Hrun. destruct (Hm w r w' Hrun) as (ops & Ht & Hops & Hfr).
  split; [| eauto]. split; [| done]. rewrite <- Hf. apply Hfr.
  - intros Hin. rewrite Forall_forall in Hops. by apply Hops in Hin.
  - intros Hin. rewrite Forall_forall in Hops. by apply Hops in Hin.
Qed.

Lemma stops_bind_l {A B} (m : M A) (k : A -> M B) :
  stops_from (aws_undecodable P b) ok m -> stops_from (aws_undecodable P b) ok (bind m k).
Proof.
  intros Hm w r w' HI Hrun.
  apply bind_inv in Hrun as [(a & w1 & H1 & _)|(e & H1 & ->)].
  - by destruct (Hm w _ w1 HI H1) as [[e [=]] _].
  - destruct (Hm w _ w' HI H1) as [_ Hops]. split; [eauto | done].
Qed.

Lemma stops_bind_r {A B} (m : M A) (k : A -> M B) :
  keeps_from (aws_undecodable P b) ok m ->
  (forall a, stops_from (aws_undecodable P b) ok (k a)) ->
  stops_from (aws_undecodable P b) ok (bind m k).
Proof.
  intros Hm Hk w r w' HI Hrun.
  apply bind_inv in Hrun as [(a & w1 & H1 & Hrun)|(e & H1 & ->)].
  - destruct (Hm w _ w1 HI H1) as (HI1 & ops1 & Ht1 & Hops1).
    destruct (Hk a w1 r w' HI1 Hrun) as (Hr & ops2 & Ht2 & Hops2).
    split; [done |]. exists (ops1 ++ ops2). rewrite Ht2, Ht1, <- app_assoc.
    split; [done | by apply Forall_app].
  - destruct (Hm w _ w' HI H1) as (_ & Hops). split; [eauto | done].
Qed.

Lemma warn_aws_profile_stops (template : val) :
  stops_from (aws_undecodable P b) ok (warn_aws_profile P template).
Proof.
  unfold warn_aws_profile.
  apply stops_bind_r; [apply keeps_from_only_adds, only_adds_lift_heap |]. intros dflt.
  apply stops_bind_r; [apply keeps_from_only_adds, only_adds_lift_heap |]. intros env.
  apply stops_bind_r; [apply keeps_from_only_adds, only_adds_lift_heap |]. intros profile.
  apply stops_bind_l. intros w r w' HI Hrun.
  rewrite (check_aws_profile_undecodable profile w HI) in Hrun. injection Hrun as <- <-.
  split; [eauto |]. exists []. by rewrite app_nil_r.
Qed.

End Steps.

Lemma aws_not_settings_write (op : fsop) :
  settings_json_write P op -> op <> Wr (AWS_CONFIG P) /\ op <> Rm (AWS_CONFIG P).
Proof.
  intros [->|[ts ->]]; (split; [| done]); intros [= E];
    unfold CLAUDE_SETTINGS in E; rewrite ?backup_path_child in E;
    by apply app_inj_tail in E as [_ ?].
Qed.

(** With the template read, [install_global_settings] writes the
    settings at most, and raises. *)
Lemma settings_stop_at_aws (default_model : string) (template : val) :
  stops_from (aws_undecodable P b) (settings_json_write P)
    (inject_model default_model template ;;;
     existing <- load_existing P ;;
     finish_global_settings P default_model template existing).
Proof.
  assert (Hw : ~ settings_json_write P (Wr (AWS_CONFIG P)))
    by (intros H; by apply aws_not_settings_write in H as [? _]).
  assert (Hr : ~ settings_json_write P (Rm (AWS_CONFIG P)))
    by (intros H; by apply aws_not_settings_write in H as [_ ?]).
  assert (Hbak : only_adds (settings_json_write P) (backup_file P (CLAUDE_SETTINGS P))).
  { apply only_adds_backup_file. intros ts. right. eauto. }
  assert (Hwrite : forall text, only_adds (settings_json_write P)
                                  (write_text P (CLAUDE_SETTINGS P) text)).
  { intros text. apply only_adds_write_text. by left. }
  apply stops_bind_r; [by apply keeps_from_only_adds, only_adds_lift_heap |]. intros _.
  apply stops_bind_r.
  { apply keeps_from_only_adds; [done | done |]. unfold load_existing.
    apply only_adds_bind; [apply only_adds_lift_heap |]. intros empty.
    apply only_adds_bind; [apply only_adds_exists |]. intros [|]; [| apply only_adds_ret].
    apply only_adds_try.
    - apply only_adds_bind; [apply only_adds_read_text | intros; apply only_adds_lift_heap].
    - intros e. apply only_adds_bind; [apply Hbak |]. intros bak.
      apply only_adds_bind; [apply only_adds_log | intros; apply only_adds_lift_heap]. }
  intros existing. unfold finish_global_settings.
  apply stops_bind_r; [by apply keeps_from_only_adds, only_adds_lift_heap |]. intros merged.
  apply stops_bind_r.
  { apply keeps_from_only_adds; [done | done |]. unfold write_settings.
    apply only_adds_bind; [apply only_adds_lift_heap |]. intros [|]; [apply only_adds_log |].
    apply only_adds_bind; [apply only_adds_exists |]. intros e.
    apply only_adds_bind; [destruct e; [apply only_adds_lift_heap | apply only_adds_ret] |].
    intros [|].
    - apply only_adds_bind; [apply Hbak |]. intros bak.
      apply only_adds_bind; [apply only_adds_lift_heap |]. intros text.
      apply only_adds_bind; [apply Hwrite | intros; apply only_adds_log].
    - apply only_adds_bind; [apply only_adds_lift_heap |]. intros text.
      apply only_adds_bind; [apply Hwrite | intros; apply only_adds_log]. }
  intros _. apply stops_bind_l. by apply warn_aws_profile_stops.
Qed.

(** X16. An AWS configuration that is no UTF-8 text stops the install
    of the settings. [check_aws_profile] raises [UnicodeDecodeError]
    on it, since it handles [OSError] only. So [install_global_settings]
    never installs the status line script: every operation it does on
    a file is the writing of the settings or of their backup; and it
    returns only when it could not read the template, with no file
    written. A run that has written the settings has raised. *)
Theorem install_global_settings_aws_undecodable (default_model : string) (w w' : world)
    (r : res unit) :
  aws_undecodable P b w ->
  install_global_settings P default_model w = (r, w') ->
  (forall profile, check_aws_profile P profile w = (Raise UnicodeDecodeError, w)) /\
  Forall (settings_json_write P) (new_ops w w') /\
  (r = Ok tt -> new_ops w w' = [] /\ files w' = files w).
Proof.
  intros HI Hrun. split; [intros profile; by apply check_aws_profile_undecodable |].
  unfold install_global_settings in Hrun.
  apply bind_inv in Hrun as [(loaded & w1 & Hload & Hrun)|(e & Hload & ->)].
  - destruct (only_adds_silent_inv _ _ _ _ (only_adds_load_template P _) Hload)
      as [Ht1 Hf1].
    destruct loaded as [template|].
    + assert (HI1 : aws_undecodable P b w1).
      { destruct HI as [Hf Hd]. split; [by rewrite Hf1 | done]. }
      destruct (settings_stop_at_aws default_model template w1 r w' HI1 Hrun)
        as ([e ->] & ops & Ht & Hops).
      rewrite Ht1 in Ht. rewrite (new_ops_app w w' ops Ht). done.
    + unfold ret in Hrun. injection Hrun as <- <-.
      by rewrite (new_ops_same w w1 Ht1).
  - destruct (only_adds_silent_inv _ _ _ _ (only_adds_load_template P _) Hload)
      as [Ht1 Hf1].
    by rewrite (new_ops_same w w' Ht1).
Qed.

End AwsConfig.
(** ** Names of rules and names of backups *)

Lemma list_ascii_app (s t : string) :
  list_ascii_of_string (s +:+ t) = list_ascii_of_string s ++ list_ascii_of_string t.
Proof. induction s as [|c s IH]; simpl; [done | by rewrite IH]. Qed.

Lemma list_ascii_drop (i : nat) (s : string) :
  list_ascii_of_string (Text.drop_string i s) = drop i (list_ascii_of_string s).
Proof.
  revert s. induction i as [|i IH]; intros [|c s]; simpl; done.
Qed.

Lemma last_drop {A} (i : nat) (l : list A) : drop i l <> [] -> last (drop i l) = last l.
Proof.
  intros Hne. rewrite <- (take_drop i l) at 2. rewrite last_app.
  destruct (last (drop i l)) eqn:E; [done |].
  apply last_None in E. done.
Qed.

(** A name whose suffix is [.md] ends with the letter [d]. *)
Lemma suffix_md_last (n : string) :
  Names.suffix n = ".md" -> last (list_ascii_of_string n) = Some "d"%char.
Proof.
  unfold Names.suffix. destruct (Names.rfind_dot n) as [i|]; [|done].
  destruct (Names.splits_at i n); [|done]. intros E.
  apply (f_equal list_ascii_of_string) in E. rewrite list_ascii_drop in E.
  rewrite <- (last_drop i (list_ascii_of_string n)); rewrite E; done.
Qed.

(** A timestamp ends with a digit or with a line feed. *)
Lemma snapshot_name_last (ts : string) :
  Names.is_snapshot_name ts = true ->
  exists c, last (list_ascii_of_string ts) = Some c /\
            (Names.is_digit c = true \/ c = "010"%char).
Proof.
  unfold Names.is_snapshot_name. set (cs := list_ascii_of_string ts).
  intros H. apply andb_true_iff in H as [_ H].
  rewrite <- (take_drop 8 cs). destruct (drop 8 cs) as [|h rest]; [done |].
  apply andb_true_iff in H as [H Hend]. apply andb_true_iff in H as [H Hlen].
  apply andb_true_iff in H as [_ Hdig].
  apply Nat.eqb_eq in Hlen. rewrite <- (take_drop 6 rest).
  rewrite forallb_forall in Hdig.
  destruct (drop 6 rest) as [|c [|c' tl]]; [| | done].
  - rewrite app_nil_r. rewrite last_app, last_cons.
    destruct (last (take 6 rest)) as [c|] eqn:E.
    + exists c. split; [done |]. left. apply Hdig. by apply list_elem_of_In, last_Some_elem_of.
    + apply last_None in E. by rewrite E in Hlen.
  - apply Ascii.eqb_eq in Hend as ->. eexists. split; [| by right].
    rewrite last_app, last_cons, last_app. done.
Qed.

(** No name with the suffix [.md] is the name of a backup made at a
    time that the clock prints as a timestamp. *)
Lemma md_not_backup (n x ts : string) :
  Names.suffix n = ".md" -> Names.is_snapshot_name ts = true ->
  n <> x +:+ ".bak." +:+ ts.
Proof.
  intros Hmd Hts ->. apply suffix_md_last in Hmd.
  destruct (snapshot_name_last ts Hts) as (c & Hc & Hcases).
  rewrite !list_ascii_app, !last_app, Hc in Hmd. injection Hmd as ->.
  by destruct Hcases.
Qed.
(** ** The command line installs the catalog *)

(** A run that has returned: its first step has returned, and the rest
    has run from there. *)
Ltac ok_bind H a w1 H1 :=
  apply bind_inv in H as [(a & w1 & H1 & H)|(? & _ & [=])].

Lemma map_m_post {A B} (Q : A -> B -> Prop) (f : A -> M B) (xs : list A) (ys : list B)
    (w w' : world) :
  (forall x w y w', f x w = (Ok y, w') -> Q x y) ->
  map_m f xs w = (Ok ys, w') -> Forall2 Q xs ys.
Proof.
  intros Hf. revert ys w w'. induction xs as [|x xs IH]; intros ys w w' Hrun; simpl in Hrun.
  - unfold ret in Hrun. injection Hrun as <- _. constructor.
  - ok_bind Hrun y w1 Hy. ok_bind Hrun ys' w2 Hys. unfold ret in Hrun.
    injection Hrun as <- _.
    constructor; [by eapply Hf | by eapply IH].
Qed.

Section InstallsCatalog.

Variable P : platform.

(** The entries of a catalog bear the names and the sources that
    [discover_files] has found. *)
Lemma build_file_info_names (source_files : list (string * Path)) (install_dir : Path)
    (mandatory : gset string) (info : list file_info) (w w' : world) :
  build_file_info P source_files install_dir mandatory w = (Ok info, w') ->
  map (fun i => (info_name i, info_src i)) info = source_files.
Proof.
  intros Hrun. apply (map_m_post (fun x i => (info_name i, info_src i) = x)) in Hrun.
  - induction Hrun as [|x i xs infos Hx _ IH]; simpl; [done | by rewrite Hx, IH].
  - clear. intros [n src] w i w' Hrun.
    ok_bind Hrun st w1 H1. ok_bind Hrun h w2 H2. ok_bind Hrun d w3 H3.
    ok_bind Hrun m w4 H4. unfold ret in Hrun. by injection Hrun as <- _.
Qed.

(** The loop of [run_cli] over a catalog whose sources lie in a
    directory apart: every entry is installed with the bytes of its
    source, and a file that is no entry of the catalog and no backup is
    as it was. *)
Lemma install_all_installs (dir srcdir : Path) (prefix : string) (info : list file_info)
    (w w' : world) :
  clock_formatted P ->
  (forall p, srcdir `prefix_of` p -> ~ dir `prefix_of` p) ->
  Forall (fun it => info_src it = srcdir // info_name it /\
                    Names.suffix (info_name it) = ".md") info ->
  install_all P dir prefix info w = (Ok tt, w') ->
  (forall it, it ∈ info ->
     is_Some (files w !! (srcdir // info_name it)) /\
     files w' !! (dir // info_name it) = files w !! (srcdir // info_name it)) /\
  (forall p, ~ dir `prefix_of` p -> files w' !! p = files w !! p) /\
  (forall n, Names.suffix n = ".md" -> n ∉ map info_name info ->
             files w' !! (dir // n) = files w !! (dir // n)).
Proof.
  intros Hclock Hsep. revert w.
  induction info as [|it rest IH]; intros w Hinfo Hrun.
  - unfold install_all, for_each, ret in Hrun. injection Hrun as <-.
    split_and!; [by intros it ?%elem_of_nil | done | done].
  - apply Forall_cons in Hinfo as [[Hsrc Hmd] Hrest].
    unfold install_all in Hrun. simpl in Hrun. ok_bind Hrun u wa Hfirst. destruct u.
    destruct (IH wa Hrest Hrun) as (IHa & IHb & IHc).
    destruct (smart_install_effect P _ _ _ _ _ Hfirst) as (s & Hs & Hdest & Hframe).
    rewrite backup_path_child in Hdest, Hframe.
    assert (Hout : forall p, ~ dir `prefix_of` p -> files wa !! p = files w !! p).
    { intros p Hp. apply Hframe; intros ->; apply Hp, below_child. }
    assert (Hsrcs : forall n, files wa !! (srcdir // n) = files w !! (srcdir // n)).
    { intros n. apply Hout, Hsep, below_child. }
    split_and!.
    + intros it0 Hin. destruct (decide (info_name it0 ∈ map info_name rest)) as [Hn|Hn].
      * apply list_elem_of_fmap in Hn as (it1 & -> & Hin1).
        destruct (IHa it1 Hin1) as [Hsome ->]. by rewrite Hsrcs in *.
      * apply elem_of_cons in Hin as [->|Hin];
          [| destruct Hn; apply list_elem_of_fmap; eauto].
        rewrite Hsrc in Hs. rewrite Hs. split; [eauto |].
        rewrite IHc by done. apply Hdest. rewrite Hsrc. intros E.
        apply (Hsep (srcdir // info_name it)); [apply below_child |].
        rewrite E. apply below_child.
    + intros p Hp. rewrite IHb by done. by apply Hout.
    + intros n Hn Hnot. apply not_elem_of_cons in Hnot as [Hne Hnot].
      rewrite IHc by done. apply Hframe.
      * intros E. by apply child_inj in E.
      * intros E. apply child_inj in E. by apply md_not_backup in E.
Qed.

(** The places of the standards are below the directory of the
    standards. *)
Lemma standards_home_rules : (SCRIPT_DIR P // "standards") `prefix_of` HOME_RULES_DIR P.
Proof.
  exists ["home"; "rules"]. unfold HOME_RULES_DIR, HOME_DIR, child. by rewrite <- !app_assoc.
Qed.

Lemma standards_agents : (SCRIPT_DIR P // "standards") `prefix_of` AGENTS_DIR P.
Proof. apply below_child. Qed.

Lemma standards_home_md : (SCRIPT_DIR P // "standards") `prefix_of` HOME_CLAUDE_MD P.
Proof.
  exists ["home"; "CLAUDE.md"]. unfold HOME_CLAUDE_MD, HOME_DIR, child.
  by rewrite <- !app_assoc.
Qed.

Lemma below_child_of (d d' : Path) (n : string) : d `prefix_of` d' -> d `prefix_of` d' // n.
Proof. intros Hd. etrans; [done | apply below_child]. Qed.

(** The steps that come after the catalogs leave alone a file that is
    no task template, no file of the settings and not the settings of
    the project. *)
Lemma tasks_frame (b : bool) (tasks_dir : Path) (prefix : string) (p : Path)
    (w w' : world) (r : res unit) :
  (if b then install_task_templates P tasks_dir prefix else ret tt) w = (r, w') ->
  (forall n, p <> tasks_dir // n) ->
  files w' !! p = files w !! p.
Proof.
  intros Hrun Hp. destruct b; [| by injection Hrun as _ <-].
  apply (only_adds_frame _ _ _ _ _ _ (only_adds_task_templates_in P _ _) Hrun).
  - intros [n [= E]]. by destruct (Hp n).
  - by intros [n [=]].
Qed.

Lemma settings_frame (default_model : string) (p : Path) (w w' : world) (r : res unit) :
  install_global_settings P default_model w = (r, w') ->
  ~ settings_file P p ->
  files w' !! p = files w !! p.
Proof.
  intros Hrun Hp.
  apply (only_adds_frame _ _ _ _ _ _ (only_adds_settings_files P _) Hrun).
  - by intros (q & [= <-] & Hq).
  - by intros (q & [=] & _).
Qed.

Lemma project_frame (in_repo tasks auto : bool) (cwd p : Path) (w w' : world)
    (r : res unit) :
  (if in_repo then
     (if tasks then install_task_templates P (cwd // "tasks") "tasks/" else ret tt) ;;;
     (if auto then install_auto_read P cwd else ret tt)
   else log_append st_skipped "Project install (not in a git repo)") w = (r, w') ->
  (forall n, p <> cwd // "tasks" // n) ->
  p <> cwd // ".claude" // "settings.json" ->
  files w' !! p = files w !! p.
Proof.
  intros Hrun Hp1 Hp2. destruct in_repo; [| by injection Hrun as _ <-].
  apply bind_inv in Hrun as [(u & w1 & Ht & Hrun)|(e & Ht & _)].
  - rewrite <- (tasks_frame _ _ _ _ _ _ _ Ht Hp1).
    destruct auto; [| by injection Hrun as _ <-].
    apply (only_adds_frame _ _ _ _ _ _ (only_adds_install_auto_read_file P _) Hrun).
    + by intros [= E].
    + done.
  - by apply (tasks_frame _ _ _ _ _ _ _ Ht).
Qed.

Lemma kept_late_md (cwd : Path) : kept_late P cwd (CLAUDE_MD P).
Proof.
  split_and!.
  - intros d n E. unfold CLAUDE_MD, CLAUDE_HOME in E.
    apply app_inj_tail in E as [E _]. by apply app_inj_tail in E as [_ ?].
  - intros [E|[E|[ts [E|E]]]]; unfold CLAUDE_MD, CLAUDE_SETTINGS, CLAUDE_STATUSLINE in E;
      rewrite ?backup_path_child in E; by apply child_inj in E.
  - intros E. by apply app_inj_tail in E as [_ ?].
Qed.

Lemma kept_late_entry (cwd : Path) (sub n : string) :
  sub <> "tasks" -> Names.suffix n = ".md" -> kept_late P cwd (CLAUDE_HOME P // sub // n).
Proof.
  intros Hsub Hn. split_and!.
  - intros d n' E. apply app_inj_tail in E as [E _]. by apply app_inj_tail in E as [_ ?].
  - intros [E|[E|[ts [E|E]]]];
      unfold CLAUDE_SETTINGS, CLAUDE_STATUSLINE in E;
      rewrite ?backup_path_child in E; unfold child in E; rewrite <- !app_assoc in E;
      by apply app_inv_head in E.
  - intros E. apply app_inj_tail in E as [_ E]. by rewrite E in Hn.
Qed.

(** The path of an entry of one catalog is in the directory of none of
    the others, and the standards file is in no directory of a
    catalog. *)
Lemma md_not_in (sub : string) :
  sub <> "CLAUDE.md" -> ~ CLAUDE_HOME P // sub `prefix_of` CLAUDE_MD P.
Proof.
  intros Hne [k E]. unfold CLAUDE_MD, child in E. rewrite <- !app_assoc in E.
  apply app_inv_head in E. injection E as E _. by destruct Hne.
Qed.

Lemma entry_not_in (sub sub' n : string) :
  sub <> sub' -> ~ CLAUDE_HOME P // sub `prefix_of` CLAUDE_HOME P // sub' // n.
Proof.
  intros Hne [k E]. unfold child in E. rewrite <- !app_assoc in E.
  apply app_inv_head in E. injection E as E _. by destruct Hne.
Qed.

(** X26. The command line installs the whole catalog. Let the clock
    print timestamps, and let no path of the standards lie in
    [~/.claude]. After a run of [run_cli] that takes in the global
    install and returns, [~/.claude/CLAUDE.md] has the bytes of the
    standards file, and every rule and every agent of the standards,
    the files with the suffix [.md] directly in their directories, is
    in [~/.claude/rules] or [~/.claude/agents] under its name and with
    its bytes. *)
Theorem run_cli_installs_catalog (args : cli_args) (cwd : Path) (w w' : world)
    (lg : list entry) :
  clock_formatted P ->
  standards_apart P ->
  in_global (cli_scope args) = true ->
  run_cli P args cwd w = (Ok lg, w') ->
  (is_Some (files w !! HOME_CLAUDE_MD P) /\
   files w' !! CLAUDE_MD P = files w !! HOME_CLAUDE_MD P) /\
  (forall n, Names.suffix n = ".md" -> is_Some (files w !! (HOME_RULES_DIR P // n)) ->
             files w' !! (CLAUDE_RULES P // n) = files w !! (HOME_RULES_DIR P // n)) /\
  (forall n, Names.suffix n = ".md" -> is_Some (files w !! (AGENTS_DIR P // n)) ->
             files w' !! (CLAUDE_AGENTS P // n) = files w !! (AGENTS_DIR P // n)).
Proof.
  intros Hclock Hsep Hglobal Hrun. unfold run_cli in Hrun. cbv zeta in Hrun.
  rewrite Hglobal in Hrun.
  ok_bind Hrun in_repo w0 Hgit.
  assert (w0 = w) as ->.
  { destruct (git_above_run (length (resolve P cwd)) (resolve P cwd) w) as [b [Hb _]];
      [done |].
    unfold is_git_repo in Hgit. rewrite Hb in Hgit. by injection Hgit. }
  ok_bind Hrun u1 w1 Hsnap. ok_bind Hsnap snap w1' Hsnap1.
  unfold ret in Hsnap. injection Hsnap as _ ->.
  destruct (create_snapshot_run P w) as (r & w1'' & Hs & Hout & _).
  rewrite Hs in Hsnap1. injection Hsnap1 as _ <-. clear Hs r.
  assert (Hstd : forall p, (SCRIPT_DIR P // "standards") `prefix_of` p ->
                           files w1'' !! p = files w !! p).
  { intros p Hp. apply Hout. intros Hb. apply (Hsep _ Hp).
    etrans; [apply below_child | done]. }
  ok_bind Hrun rules w2 Hrules. pose proof (readonly_discover_files _ _ _ _ Hrules) as ->.
  destruct (discover_files_run (HOME_RULES_DIR P) w1'') as (l & Hl & _ & Hmem_rules).
  rewrite Hl in Hrules. injection Hrules as ->. clear Hl.
  ok_bind Hrun agents w2 Hagents. pose proof (readonly_discover_files _ _ _ _ Hagents) as ->.
  destruct (discover_files_run (AGENTS_DIR P) w1'') as (l & Hl & _ & Hmem_agents).
  rewrite Hl in Hagents. injection Hagents as ->. clear Hl.
  ok_bind Hrun rinfo w2 Hri.
  pose proof (readonly_build_file_info _ _ _ _ _ _ _ Hri) as ->.
  apply build_file_info_names in Hri.
  ok_bind Hrun ainfo w2 Hai.
  pose proof (readonly_build_file_info _ _ _ _ _ _ _ Hai) as ->.
  apply build_file_info_names in Hai.
  ok_bind Hrun u2 w2 Hlog. unfold modify in Hlog. injection Hlog as _ <-.
  ok_bind Hrun u3 w3 Hglob.
  ok_bind Hglob u4 w4 Hmd. ok_bind Hglob u5 w5 Hir. ok_bind Hglob u6 w6 Hia.
  ok_bind Hglob u7 w7 Htasks.
  ok_bind Hrun u8 w8 Hproj. unfold gets in Hrun. injection Hrun as _ <-.
  destruct u4, u5, u6.
  (* the standards file *)
  destruct (smart_install_effect P _ _ _ _ _ Hmd) as (s & Hs & Hdest & Hframe).
  unfold CLAUDE_MD in Hdest, Hframe. rewrite backup_path_child in Hdest, Hframe.
  simpl in Hs. rewrite (Hstd _ standards_home_md) in Hs.
  assert (Hout4 : forall p, ~ CLAUDE_HOME P `prefix_of` p -> files w4 !! p = files w !! p).
  { intros p Hp. rewrite Hframe; [| intros ->; apply Hp, below_child ..].
    simpl. apply Hout. intros Hb. apply Hp. etrans; [apply below_child | done]. }
  (* the catalogs *)
  assert (Hcat : forall (dir srcdir : Path) (info l : list file_info) (srcs : list (string * Path)),
             map (fun i => (info_name i, info_src i)) info = srcs ->
             (forall n f, (n, f) ∈ srcs <->
                          f = srcdir // n /\ is_Some (files w1'' !! f) /\
                          Names.suffix n = ".md") ->
             Forall (fun it => info_src it = srcdir // info_name it /\
                               Names.suffix (info_name it) = ".md") info /\
             forall n, Names.suffix n = ".md" -> is_Some (files w1'' !! (srcdir // n)) ->
                       exists it, it ∈ info /\ info_name it = n).
  { intros dir srcdir info _ srcs Hmap Hmem. split.
    - apply Forall_forall. intros it Hin.
      assert ((info_name it, info_src it) ∈ srcs) as Hin'.
      { rewrite <- Hmap. apply list_elem_of_fmap. eauto. }
      apply Hmem in Hin'. tauto.
    - intros n Hn Hsome.
      assert ((n, srcdir // n) ∈ srcs) as Hin by (by apply Hmem).
      rewrite <- Hmap in Hin. apply list_elem_of_fmap in Hin as (it & [= -> _] & Hin).
      eauto. }
  destruct (Hcat (CLAUDE_RULES P) (HOME_RULES_DIR P) rinfo [] _ Hri Hmem_rules)
    as [Hrules_all Hrules_in].
  destruct (Hcat (CLAUDE_AGENTS P) (AGENTS_DIR P) ainfo [] _ Hai Hmem_agents)
    as [Hagents_all Hagents_in].
  assert (Hsep_dir : forall sub src p,
             (SCRIPT_DIR P // "standards") `prefix_of` src -> src `prefix_of` p ->
             ~ (CLAUDE_HOME P // sub) `prefix_of` p).
  { intros sub src p Hsrc Hp Hb. apply (Hsep p); [by etrans |].
    etrans; [apply below_child | done]. }
  destruct (install_all_installs (CLAUDE_RULES P) (HOME_RULES_DIR P) _ _ _ _ Hclock
              (fun p => Hsep_dir "rules" _ p standards_home_rules) Hrules_all Hir)
    as (Hr1 & Hr2 & _).
  destruct (install_all_installs (CLAUDE_AGENTS P) (AGENTS_DIR P) _ _ _ _ Hclock
              (fun p => Hsep_dir "agents" _ p standards_agents) Hagents_all Hia)
    as (Ha1 & Ha2 & _).
  assert (Hlate : forall p, kept_late P cwd p -> files w8 !! p = files w6 !! p).
  { intros p (Hp1 & Hp2 & Hp3). transitivity (files w3 !! p).
    - destruct (in_project _).
      + by apply (project_frame _ _ _ _ _ _ _ _ Hproj).
      + unfold ret in Hproj. by injection Hproj as _ <-.
    - rewrite (settings_frame _ _ _ _ _ Hglob Hp2).
      by apply (tasks_frame _ _ _ _ _ _ _ Htasks). }
  split; [| split].
  - split; [eauto |]. rewrite (Hlate _ (kept_late_md cwd)), Ha2, Hr2.
    + rewrite Hs. apply Hdest. intros E.
      apply (Hsep (HOME_CLAUDE_MD P)); [apply standards_home_md |].
      rewrite E. apply below_child.
    + by apply md_not_in.
    + by apply md_not_in.
  - intros n Hn Hsome.
    assert (Hsome1 : is_Some (files w1'' !! (HOME_RULES_DIR P // n))).
    { rewrite Hstd; [done |]. apply below_child_of, standards_home_rules. }
    destruct (Hrules_in n Hn Hsome1) as (it & Hin & <-).
    rewrite (Hlate (CLAUDE_RULES P // info_name it)
                   (kept_late_entry cwd "rules" _ ltac:(done) Hn)), Ha2.
    + destruct (Hr1 it Hin) as [_ ->]. apply Hout4.
      apply Hsep, below_child_of, standards_home_rules.
    + by apply entry_not_in.
  - intros n Hn Hsome.
    assert (Hsome1 : is_Some (files w1'' !! (AGENTS_DIR P // n))).
    { rewrite Hstd; [done |]. apply below_child_of, standards_agents. }
    destruct (Hagents_in n Hn Hsome1) as (it & Hin & <-).
    rewrite (Hlate (CLAUDE_AGENTS P // info_name it)
                   (kept_late_entry cwd "agents" _ ltac:(done) Hn)).
    destruct (Ha1 it Hin) as [_ ->]. rewrite Hr2.
    + apply Hout4. apply Hsep, below_child_of, standards_agents.
    + apply (Hsep_dir "rules" (AGENTS_DIR P)); [apply standards_agents | apply below_child].
Qed.

End InstallsCatalog.
(** ** The screens' install applies the selection *)

Section AppliesSelection.

Variable P : platform.

(** The loop of [run_install] over a catalog whose sources lie in a
    directory apart: every selected entry is installed with the bytes
    of its source, no file is left at the place of an entry that is not
    selected, and a file that is no entry of the catalog and no backup
    is as it was. *)
Lemma install_selection_applies (dir srcdir : Path) (prefix : string) (info : list item)
    (selected : gset string) (w w' : world) :
  clock_formatted P ->
  (forall p, srcdir `prefix_of` p -> ~ dir `prefix_of` p) ->
  catalog_of srcdir info ->
  install_selection P dir prefix info selected w = (Ok tt, w') ->
  (forall it, it ∈ info -> item_name it ∈ selected ->
     is_Some (files w !! (srcdir // item_name it)) /\
     files w' !! (dir // item_name it) = files w !! (srcdir // item_name it)) /\
  (forall it, it ∈ info -> item_name it ∉ selected ->
     files w' !! (dir // item_name it) = None) /\
  (forall p, ~ dir `prefix_of` p -> files w' !! p = files w !! p) /\
  (forall n, Names.suffix n = ".md" -> n ∉ map item_name info ->
             files w' !! (dir // n) = files w !! (dir // n)).
Proof.
  intros Hclock Hsep. revert w.
  induction info as [|it rest IH]; intros w Hinfo Hrun.
  - unfold install_selection, for_each, ret in Hrun. injection Hrun as <-.
    split_and!; [by intros it ?%elem_of_nil | by intros it ?%elem_of_nil | done | done].
  - apply Forall_cons in Hinfo as [[Hsrc Hmd] Hrest].
    unfold install_selection in Hrun. simpl in Hrun. ok_bind Hrun u wa Hfirst. destruct u.
    destruct (IH wa Hrest Hrun) as (IHa & IHb & IHc & IHd).
    assert (Hframe : forall p, p <> dir // item_name it ->
                               p <> dir // (item_name it +:+ ".bak." +:+
                                            strftime_now P (ticks w)) ->
                               files wa !! p = files w !! p).
    { rewrite <- backup_path_child. destruct (decide _).
      - by destruct (smart_install_effect P _ _ _ _ _ Hfirst) as (s & _ & _ & Hf).
      - by destruct (remove_with_log_effect P _ _ _ _ _ Hfirst) as [_ Hf]. }
    assert (Hout : forall p, ~ dir `prefix_of` p -> files wa !! p = files w !! p).
    { intros p Hp. apply Hframe; intros ->; apply Hp, below_child. }
    assert (Hsrcs : forall n, files wa !! (srcdir // n) = files w !! (srcdir // n)).
    { intros n. apply Hout, Hsep, below_child. }
    assert (Hfirst_only : forall it0, it0 ∈ it :: rest ->
                                      item_name it0 ∉ map item_name rest -> it0 = it).
    { intros it0 Hin Hn. apply elem_of_cons in Hin as [->|Hin]; [done |].
      destruct Hn. apply list_elem_of_fmap. eauto. }
    split_and!.
    + intros it0 Hin Hsel.
      destruct (decide (item_name it0 ∈ map item_name rest)) as [Hn|Hn].
      * apply list_elem_of_fmap in Hn as (it1 & E & Hin1). rewrite E in *.
        destruct (IHa it1 Hin1 Hsel) as [Hsome ->]. by rewrite Hsrcs in *.
      * apply Hfirst_only in Hin as ->; [| done]. rewrite IHd by done.
        destruct (decide _); [| done].
        destruct (smart_install_effect P _ _ _ _ _ Hfirst) as (s & Hs & Hdest & _).
        rewrite Hsrc in Hs. rewrite Hs. split; [eauto |].
        apply Hdest. rewrite Hsrc, backup_path_child. intros E.
        apply (Hsep (srcdir // item_name it)); [apply below_child |].
        rewrite E. apply below_child.
    + intros it0 Hin Hsel.
      destruct (decide (item_name it0 ∈ map item_name rest)) as [Hn|Hn].
      * apply list_elem_of_fmap in Hn as (it1 & E & Hin1). rewrite E in *.
        by apply IHb.
      * apply Hfirst_only in Hin as ->; [| done]. rewrite IHd by done.
        destruct (decide _); [done |].
        by destruct (remove_with_log_effect P _ _ _ _ _ Hfirst) as [Hgone _].
    + intros p Hp. rewrite IHc by done. by apply Hout.
    + intros n Hn Hnot. apply not_elem_of_cons in Hnot as [Hne Hnot].
      rewrite IHd by done. apply Hframe.
      * intros E. by apply child_inj in E.
      * intros E. apply child_inj in E. by apply md_not_backup in E.
Qed.

(** X27. The install of the screens applies the selection. Let the
    clock print timestamps, let no path of the standards lie in
    [~/.claude], and let the catalogs hold files with the suffix [.md]
    of the directories of the standards. After a run of [run_install]
    that takes in the global install and returns, [~/.claude/CLAUDE.md]
    has the bytes of the standards file, every selected rule and agent
    of the catalogs is in its directory in [~/.claude] with the bytes
    of its source, and no file is at the place of one that is not
    selected. *)
Theorem run_install_applies_selection (a : app) (w w' : world) (lg : list entry) :
  clock_formatted P ->
  standards_apart P ->
  in_global (app_scope a) = true ->
  catalog_of (HOME_RULES_DIR P) (rule_info a) ->
  catalog_of (AGENTS_DIR P) (agent_info a) ->
  run_install P a w = (Ok lg, w') ->
  (is_Some (files w !! HOME_CLAUDE_MD P) /\
   files w' !! CLAUDE_MD P = files w !! HOME_CLAUDE_MD P) /\
  (forall it, it ∈ rule_info a ->
     if decide (item_name it ∈ selected_rules a)
     then is_Some (files w !! item_src it) /\
          files w' !! (CLAUDE_RULES P // item_name it) = files w !! item_src it
     else files w' !! (CLAUDE_RULES P // item_name it) = None) /\
  (forall it, it ∈ agent_info a ->
     if decide (item_name it ∈ selected_agents a)
     then is_Some (files w !! item_src it) /\
          files w' !! (CLAUDE_AGENTS P // item_name it) = files w !! item_src it
     else files w' !! (CLAUDE_AGENTS P // item_name it) = None).
Proof.
  intros Hclock Hsep Hglobal Hrules Hagents Hrun. unfold run_install in Hrun.
  rewrite Hglobal in Hrun.
  ok_bind Hrun u0 w0 Hlog. unfold modify in Hlog. injection Hlog as _ <-.
  ok_bind Hrun u1 w1 Hsnap. ok_bind Hsnap snap w1' Hsnap1.
  destruct (create_snapshot_run P (set_log (fun _ => []) w)) as (r & w1'' & Hs & Hout & _).
  rewrite Hs in Hsnap1. injection Hsnap1 as _ <-. clear Hs r. simpl in Hout.
  assert (files w1 = files w1'') as Hw1.
  { destruct snap; unfold log_append, modify, ret in Hsnap; by injection Hsnap as _ <-. }
  ok_bind Hrun u3 w3 Hglob.
  ok_bind Hglob u4 w4 Hmd. ok_bind Hglob u5 w5 Hir. ok_bind Hglob u6 w6 Hia.
  ok_bind Hglob u7 w7 Htasks.
  ok_bind Hrun u8 w8 Hproj. unfold gets in Hrun. injection Hrun as _ <-.
  destruct u4, u5, u6.
  assert (Hstd : forall p, (SCRIPT_DIR P // "standards") `prefix_of` p ->
                           files w1 !! p = files w !! p).
  { intros p Hp. rewrite Hw1. apply Hout. intros Hb. apply (Hsep _ Hp).
    etrans; [apply below_child | done]. }
  destruct (smart_install_effect P _ _ _ _ _ Hmd) as (s & Hs & Hdest & Hframe).
  unfold CLAUDE_MD in Hdest, Hframe. rewrite backup_path_child in Hdest, Hframe.
  rewrite (Hstd _ (standards_home_md P)) in Hs.
  assert (Hout4 : forall p, (SCRIPT_DIR P // "standards") `prefix_of` p ->
                            files w4 !! p = files w !! p).
  { intros p Hp. rewrite Hframe; [by apply Hstd | intros ->; apply (Hsep _ Hp), below_child ..]. }
  assert (Hsep_dir : forall sub src p,
             (SCRIPT_DIR P // "standards") `prefix_of` src -> src `prefix_of` p ->
             ~ (CLAUDE_HOME P // sub) `prefix_of` p).
  { intros sub src p Hsrc Hp Hb. apply (Hsep p); [by etrans |].
    etrans; [apply below_child | done]. }
  destruct (install_selection_applies (CLAUDE_RULES P) (HOME_RULES_DIR P) _ _ _ _ _ Hclock
              (fun p => Hsep_dir "rules" _ p (standards_home_rules P)) Hrules Hir)
    as (Hr1 & Hr2 & Hr3 & _).
  destruct (install_selection_applies (CLAUDE_AGENTS P) (AGENTS_DIR P) _ _ _ _ _ Hclock
              (fun p => Hsep_dir "agents" _ p (standards_agents P)) Hagents Hia)
    as (Ha1 & Ha2 & Ha3 & _).
  assert (Hlate : forall p, kept_late P (app_cwd a) p -> files w8 !! p = files w6 !! p).
  { intros p (Hp1 & Hp2 & Hp3). transitivity (files w3 !! p).
    - destruct (in_project _).
      + cbv zeta in Hproj.
        apply bind_inv in Hproj as [(g & w9 & Hgit & Hproj)|(e & _ & [=])].
        destruct (git_above_run (length (resolve P (app_cwd a))) (resolve P (app_cwd a)) w3)
          as [b [Hb _]]; [done |].
        unfold is_git_repo in Hgit. rewrite Hb in Hgit. injection Hgit as _ <-.
        by apply (project_frame P _ _ _ _ _ _ _ _ Hproj).
      + unfold ret in Hproj. by injection Hproj as _ <-.
    - rewrite (settings_frame P _ _ _ _ _ Hglob Hp2).
      by apply (tasks_frame P _ _ _ _ _ _ _ Htasks). }
  split; [| split].
  - split; [eauto |]. rewrite (Hlate _ (kept_late_md P (app_cwd a))), Ha3, Hr3.
    + rewrite Hs. apply Hdest. intros E.
      apply (Hsep (HOME_CLAUDE_MD P)); [apply standards_home_md |].
      rewrite E. apply below_child.
    + by apply md_not_in.
    + by apply md_not_in.
  - intros it Hin. unfold catalog_of in Hrules. rewrite Forall_forall in Hrules.
    destruct (Hrules it Hin) as [Hsrc Hn].
    rewrite (Hlate (CLAUDE_RULES P // item_name it)
                   (kept_late_entry P (app_cwd a) "rules" _ ltac:(done) Hn)).
    rewrite Ha3 by (by apply entry_not_in).
    destruct (decide _) as [Hsel|Hsel].
    + destruct (Hr1 it Hin Hsel) as [Hsome ->]. rewrite Hsrc.
      assert (Hw4 : files w4 !! (HOME_RULES_DIR P // item_name it)
                    = files w !! (HOME_RULES_DIR P // item_name it)).
      { apply Hout4, below_child_of, standards_home_rules. }
      by rewrite Hw4 in *.
    + by apply Hr2.
  - intros it Hin. unfold catalog_of in Hagents. rewrite Forall_forall in Hagents.
    destruct (Hagents it Hin) as [Hsrc Hn].
    rewrite (Hlate (CLAUDE_AGENTS P // item_name it)
                   (kept_late_entry P (app_cwd a) "agents" _ ltac:(done) Hn)).
    destruct (decide _) as [Hsel|Hsel].
    + destruct (Ha1 it Hin Hsel) as [Hsome ->]. rewrite Hsrc.
      assert (Hw5 : files w5 !! (AGENTS_DIR P // item_name it)
                    = files w !! (AGENTS_DIR P // item_name it)).
      { rewrite Hr3; [apply Hout4, below_child_of, standards_agents |].
        apply (Hsep_dir "rules" (AGENTS_DIR P)); [apply standards_agents | apply below_child]. }
      by rewrite Hw5 in *.
    + by apply Ha2.
Qed.

End AppliesSelection.
(** ** Undoing an uninstall *)

Section UndoUninstall.

Variable P : platform.


End UndoUninstall.

(** ** Where a restore writes *)

Section RestoreWrites.

Variable P : platform.

Lemma only_adds_restore_item_below (snap_dir : Path) (c : string) (rest : Path) :
  only_adds (writes_below (CLAUDE_HOME P))
            (restore_item P snap_dir (snap_dir ++ c :: rest)).
Proof.
  unfold restore_item. rewrite relative_to_app.
  destruct (relative_to _ _); [| apply only_adds_ret].
  assert (Hdest : writes_below (CLAUDE_HOME P) (Wr (CLAUDE_HOME P ++ c :: rest))).
  { eexists. split; [done |]. by eexists. }
  apply only_adds_bind; [apply only_adds_exists |]. intros e.
  assert (Hfin : only_adds (writes_below (CLAUDE_HOME P))
            (copy2 (snap_dir ++ c :: rest) (CLAUDE_HOME P ++ c :: rest) ;;;
             log_append st_restored ("~/.claude/" +:+ rel_str (c :: rest)))).
  { apply only_adds_bind; [by apply only_adds_copy2 | intros; apply only_adds_log]. }
  destruct e; [| done].
  apply only_adds_bind; [apply only_adds_read_bytes |]. intros dd.
  apply only_adds_bind; [apply only_adds_read_bytes |]. intros ii.
  destruct (String.eqb dd ii); [apply only_adds_log |].
  apply only_adds_bind; [| done]. apply only_adds_backup_file. intros ts.
  rewrite backup_path_app by done. eexists. split; [done |]. by eexists.
Qed.

Lemma only_adds_restore_snapshot (snap_dir : Path) :
  only_adds (writes_below (CLAUDE_HOME P)) (restore_snapshot P snap_dir).
Proof.
  unfold restore_snapshot.
  apply only_adds_bind; [apply only_adds_modify_log |]. intros _.
  intros w r w' Hrun. unfold bind at 1 in Hrun. unfold gets at 1 in Hrun.
  cbv beta iota in Hrun.
  assert (Hm : only_adds (writes_below (CLAUDE_HOME P))
                 (for_each (rglob_files snap_dir w) (restore_item P snap_dir) ;;; gets log)).
  { apply only_adds_bind; [| intros; apply only_adds_gets].
    apply only_adds_for_each. intros item Hin.
    apply elem_of_rglob_files in Hin as [_ (c & rest & ->)].
    apply only_adds_restore_item_below. }
  exact (Hm w r w' Hrun).
Qed.

Lemma only_adds_run_restore_cli (restore : option string) :
  only_adds (writes_below (CLAUDE_HOME P)) (run_restore_cli P restore).
Proof.
  unfold run_restore_cli.
  apply only_adds_bind.
  { intros w r w' Hrun. destruct (discover_snapshots_run P w) as (l & Hl & _).
    rewrite Hl in Hrun. injection Hrun as _ <-. exists []. rewrite app_nil_r.
    split_and!; [done | constructor | done]. }
  intros [|s l]; [apply only_adds_ret |].
  destruct (chosen_snapshot _ _) as [snap_dir|]; [| apply only_adds_ret].
  apply only_adds_bind; [apply only_adds_restore_snapshot | intros; apply only_adds_ret].
Qed.

(** X30. A restore writes in [~/.claude] only, and removes nothing:
    whatever snapshot is asked for, and whether [run_restore_cli]
    returns or raises, every operation it does on a file is the writing
    of a file below [~/.claude], and every file elsewhere is as it
    was. *)
Theorem run_restore_cli_writes_home (restore : option string) (w w' : world)
    (r : res (option (list entry))) :
  run_restore_cli P restore w = (r, w') ->
  Forall (writes_below (CLAUDE_HOME P)) (new_ops w w') /\
  forall p, ~ CLAUDE_HOME P `prefix_of` p -> files w' !! p = files w !! p.
Proof.
  intros Hrun.
  destruct (only_adds_run_restore_cli restore w r w' Hrun) as (ops & Ht & Hops & Hfr).
  rewrite (new_ops_app w w' ops Ht). split; [done |].
  intros p Hp. rewrite Forall_forall in Hops. apply Hfr.
  - intros Hin. by destruct (Hops _ Hin) as (q & [= <-] & Hq).
  - intros Hin. by destruct (Hops _ Hin) as (q & [=] & _).
Qed.

End RestoreWrites.

(* ===================================================================== *)
(** * The catalog and the command line on concrete worlds *)
(* ===================================================================== *)

(** The file of a world built from a list is an item of the list. *)
Lemma world_of_lookup (fs : list (Path * bytes)) (p : Path) (b : bytes) :
  files (world_of fs) !! p = Some b -> (p, b) ∈ fs.
Proof. apply elem_of_list_to_map_2. Qed.

Lemma discover_files_sorted_md_witness :
  exists l, discover_files (HOME_RULES_DIR demo) ex_world_catalog = (Ok l, ex_world_catalog) /\
    ascending l /\
    forall n f, (n, f) ∈ l <->
                f = HOME_RULES_DIR demo // n /\ is_Some (files ex_world_catalog !! f) /\
                Names.suffix n = ".md".
Proof. apply discover_files_sorted_md. reflexivity. Defined.

Lemma discover_snapshots_newest_first_witness :
  exists l, discover_snapshots demo ex_world_backups = (Ok l, ex_world_backups) /\
    descending l /\
    forall n d, (n, d) ∈ l <->
                d = BACKUPS_DIR demo // n /\ Names.is_snapshot_name n = true /\
                holds_files d ex_world_backups.
Proof. apply discover_snapshots_newest_first. reflexivity. Defined.

Lemma get_heading_title_witness :
  get_heading demo (HOME_RULES_DIR demo // "security.md") ex_world_catalog
  = (Ok "Security", ex_world_catalog).
Proof.
  apply (get_heading_title demo _ _ ex_rule_text ex_rule_text "" "Security"
           ["---"; "description: Security rules"; "model: opus"; "---"]
           ["model: not this one"]).
  - reflexivity.
  - reflexivity.
  - reflexivity.
  - repeat constructor.
  - intros c [].
  - reflexivity.
Defined.

Lemma get_frontmatter_field_block_witness :
  get_frontmatter_field demo (HOME_RULES_DIR demo // "security.md") "model" ex_world_catalog
  = (Ok "opus", ex_world_catalog).
Proof.
  apply (get_frontmatter_field_block demo _ _ ex_rule_text ex_rule_text "model" "---" "---"
           ["description: Security rules"; "model: opus"]
           ["# Security"; "model: not this one"]).
  - reflexivity.
  - reflexivity.
  - reflexivity.
  - reflexivity.
  - repeat constructor; by vm_compute.
  - reflexivity.
Defined.

Lemma file_status_after_smart_install_witness :
  let w' := snd (smart_install demo ex_rule_src ex_rule_dest "rule" ex_world_update) in
  file_status ex_rule_src ex_rule_dest w' = (Ok "installed", w').
Proof.
  intros w'.
  apply (file_status_after_smart_install demo ex_rule_src ex_rule_dest "rule" ex_world_update).
  unfold w'. set (run := smart_install demo ex_rule_src ex_rule_dest "rule" ex_world_update).
  assert (E : fst run = Ok tt) by (vm_compute; reflexivity).
  rewrite <- E. apply surjective_pairing.
Defined.

Lemma task_templates_keep_content_witness :
  let r := install_task_templates demo (ex_project // "tasks") "tasks/" ex_world_notes in
  files (snd r) !! (ex_project // "tasks" // "lessons.md")
  = Some ("# My lessons" +:+ nl +:+ "Never deploy on a Friday.") /\
  (Wr (ex_project // "tasks" // "lessons.md") ∉ new_ops ex_world_notes (snd r)) /\
  (fst r = Ok tt -> (st_skipped, "tasks/" +:+ "lessons.md" +:+ " (has content)") ∈ log (snd r)).
Proof.
  intros r.
  apply (task_templates_keep_content demo (ex_project // "tasks") "tasks/" "lessons.md"
           ex_world_notes (snd r) (fst r) _
           ("# My lessons" +:+ nl +:+ "Never deploy on a Friday.")).
  - list_elem.
  - reflexivity.
  - reflexivity.
  - reflexivity.
  - apply surjective_pairing.
Defined.











Lemma run_restore_cli_unknown_witness :
  run_restore_cli demo (Some "latest") ex_world_backups = (Ok None, ex_world_backups).
Proof.
  apply run_restore_cli_unknown.
  - reflexivity.
  - done.
  - intros [H _]. by vm_compute in H.
Defined.

Lemma run_restore_cli_newest_witness :
  exists n, Names.is_snapshot_name n = true /\
            holds_files (BACKUPS_DIR demo // n) ex_world_backups /\
            (forall n', Names.is_snapshot_name n' = true ->
                        holds_files (BACKUPS_DIR demo // n') ex_world_backups ->
                        String.leb n' n = true) /\
            run_restore_cli demo None ex_world_backups
            = (lg <- restore_snapshot demo (BACKUPS_DIR demo // n) ;; ret (Some lg))
                ex_world_backups.
Proof.
  apply run_restore_cli_newest.
  - reflexivity.
  - by left.
  - exists "20251231-235959". split; [reflexivity |].
    exists (BACKUPS_DIR demo // "20251231-235959" // "CLAUDE.md"), "CLAUDE.md", [].
    split; [vm_compute; eauto | reflexivity].
Defined.

Lemma install_global_settings_aws_undecodable_witness :
  let r := install_global_settings demo_strict "none" ex_world_aws in
  (forall profile, check_aws_profile demo_strict profile ex_world_aws
                   = (Raise UnicodeDecodeError, ex_world_aws)) /\
  Forall (settings_json_write demo_strict) (new_ops ex_world_aws (snd r)) /\
  (fst r = Ok tt -> new_ops ex_world_aws (snd r) = [] /\ files (snd r) = files ex_world_aws).
Proof.
  intros r.
  apply (install_global_settings_aws_undecodable demo_strict ex_aws_bytes "none"
           ex_world_aws (snd r) (fst r)).
  - split; reflexivity.
  - apply surjective_pairing.
Defined.

Lemma run_cli_outside_repo_witness :
  exists r w', run_cli demo ex_args_project ex_project ex_world_cli = (r, w') /\
               files w' = files ex_world_cli /\ trace w' = trace ex_world_cli /\
               forall lg, r = Ok lg ->
                          lg = [(st_skipped, "Project install (not in a git repo)")].
Proof. apply run_cli_outside_repo; reflexivity. Defined.

Lemma run_install_outside_repo_witness :
  run_install demo ex_app_project ex_world_cli
  = (Ok [(st_skipped, "Project install (not in a git repo)")],
     set_log (fun _ => [(st_skipped, "Project install (not in a git repo)")]) ex_world_cli).
Proof. apply run_install_outside_repo; reflexivity. Defined.

Lemma mandatory_always_selected_witness :
  "security.md" ∈ selection_after MANDATORY_RULES false ex_info ["security.md"; "style.md"].
Proof.
  apply (mandatory_always_selected MANDATORY_RULES false ex_info ["security.md"; "style.md"]
           {| info_name := "security.md"; info_src := ex_rule_src; info_status := "new";
              info_mandatory := true; info_heading := "Security";
              info_description := "Security rules"; info_model := "" |}).
  - left.
  - unfold MANDATORY_RULES. simpl. set_solver.
  - reflexivity.
Defined.

Lemma deep_merge_settings_self_witness :
  merged_to 2 doc_template doc_template doc_template.
Proof.
  apply (deep_merge_settings_self 2
           [("model", JStr "y");
            ("permissions", JDict [("allow", JList [JStr "Read"; JStr "Grep"])])]).
  - simpl. split_and!; try done; apply (bool_decide_unpack _); by vm_compute.
  - simpl. lia.
Defined.

Lemma deep_merge_settings_empty_witness :
  merged_to 2 doc_template (JDict []) doc_template /\
  merged_to 2 (JDict []) doc_template doc_template.
Proof.
  apply (deep_merge_settings_empty 2
           [("model", JStr "y");
            ("permissions", JDict [("allow", JList [JStr "Read"; JStr "Grep"])])]).
  - apply (bool_decide_unpack _). by vm_compute.
  - simpl. lia.
Defined.

Lemma install_auto_read_present_witness :
  exists w',
    install_auto_read demo_auto ex_project ex_world_auto_read = (Ok tt, w') /\
    files w' = files ex_world_auto_read /\ trace w' = trace ex_world_auto_read /\
    log w' = log ex_world_auto_read
             ++ [(st_current, ".claude/settings.json (permissions already present)")].
Proof.
  apply (install_auto_read_present demo_auto ex_project ex_world_auto_read
           (demo_dumps AUTO_READ_PERMISSIONS +:+ nl)
           (demo_dumps AUTO_READ_PERMISSIONS +:+ nl)
           [("permissions", JDict [("allow", JList AUTO_READ_ALLOW)])]
           [("allow", JList AUTO_READ_ALLOW)] AUTO_READ_ALLOW).
  - reflexivity.
  - reflexivity.
  - by vm_compute.
  - reflexivity.
  - reflexivity.
  - intros tool Hin. by apply py_in_elem.
Defined.


Lemma run_cli_writes_within_witness :
  let r := run_cli demo ex_args_global ex_project ex_world_cli in
  Forall (cli_write demo ex_args_global ex_project) (new_ops ex_world_cli (snd r)) /\
  forall p, ~ CLAUDE_HOME demo `prefix_of` p -> ~ ex_project `prefix_of` p ->
            files (snd r) !! p = files ex_world_cli !! p.
Proof.
  intros r.
  apply (run_cli_writes_within demo ex_args_global ex_project ex_world_cli (snd r) (fst r)).
  apply surjective_pairing.
Defined.

Lemma install_global_settings_writes_witness :
  let r := install_global_settings demo "none" ex_world_cli in
  Forall (fun op => exists p, op = Wr p /\ settings_file demo p)
         (new_ops ex_world_cli (snd r)) /\
  forall p, ~ settings_file demo p -> files (snd r) !! p = files ex_world_cli !! p.
Proof.
  intros r.
  apply (install_global_settings_writes demo "none" ex_world_cli (snd r) (fst r)).
  apply surjective_pairing.
Defined.

Lemma run_cli_installs_catalog_witness :
  let w' := snd (run_cli demo_frozen ex_args_global ex_project ex_world_cli) in
  (is_Some (files ex_world_cli !! HOME_CLAUDE_MD demo_frozen) /\
   files w' !! CLAUDE_MD demo_frozen = files ex_world_cli !! HOME_CLAUDE_MD demo_frozen) /\
  (forall n, Names.suffix n = ".md" ->
             is_Some (files ex_world_cli !! (HOME_RULES_DIR demo_frozen // n)) ->
             files w' !! (CLAUDE_RULES demo_frozen // n)
             = files ex_world_cli !! (HOME_RULES_DIR demo_frozen // n)) /\
  (forall n, Names.suffix n = ".md" ->
             is_Some (files ex_world_cli !! (AGENTS_DIR demo_frozen // n)) ->
             files w' !! (CLAUDE_AGENTS demo_frozen // n)
             = files ex_world_cli !! (AGENTS_DIR demo_frozen // n)).
Proof.
  intros w'. set (run := run_cli demo_frozen ex_args_global ex_project ex_world_cli).
  assert (E : exists lg, fst run = Ok lg) by (vm_compute; eauto).
  destruct E as [lg E].
  apply (run_cli_installs_catalog demo_frozen ex_args_global ex_project ex_world_cli w' lg).
  - intros k. reflexivity.
  - intros p [k ->] [k' E']. discriminate E'.
  - reflexivity.
  - rewrite <- E. apply surjective_pairing.
Defined.

Lemma run_install_applies_selection_witness :
  let w' := snd (run_install demo_frozen ex_app_selection ex_world_selection) in
  (is_Some (files ex_world_selection !! HOME_CLAUDE_MD demo_frozen) /\
   files w' !! CLAUDE_MD demo_frozen = files ex_world_selection !! HOME_CLAUDE_MD demo_frozen) /\
  (forall it, it ∈ rule_info ex_app_selection ->
     if decide (item_name it ∈ selected_rules ex_app_selection)
     then is_Some (files ex_world_selection !! item_src it) /\
          files w' !! (CLAUDE_RULES demo_frozen // item_name it)
          = files ex_world_selection !! item_src it
     else files w' !! (CLAUDE_RULES demo_frozen // item_name it) = None) /\
  (forall it, it ∈ agent_info ex_app_selection ->
     if decide (item_name it ∈ selected_agents ex_app_selection)
     then is_Some (files ex_world_selection !! item_src it) /\
          files w' !! (CLAUDE_AGENTS demo_frozen // item_name it)
          = files ex_world_selection !! item_src it
     else files w' !! (CLAUDE_AGENTS demo_frozen // item_name it) = None).
Proof.
  intros w'. set (run := run_install demo_frozen ex_app_selection ex_world_selection).
  assert (E : exists lg, fst run = Ok lg) by (vm_compute; eauto).
  destruct E as [lg E].
  apply (run_install_applies_selection demo_frozen ex_app_selection ex_world_selection w' lg).
  - intros k. reflexivity.
  - intros p [k ->] [k' E']. discriminate E'.
  - reflexivity.
  - repeat constructor.
  - constructor.
  - rewrite <- E. apply surjective_pairing.
Defined.

Lemma run_restore_cli_chosen_witness :
  run_restore_cli demo (Some "20251231-235959") ex_world_backups
  = (lg <- restore_snapshot demo (BACKUPS_DIR demo // "20251231-235959") ;; ret (Some lg))
      ex_world_backups.
Proof.
  apply run_restore_cli_chosen.
  - reflexivity.
  - done.
  - reflexivity.
  - exists (BACKUPS_DIR demo // "20251231-235959" // "CLAUDE.md"), "CLAUDE.md", [].
    split; [vm_compute; eauto | reflexivity].
Defined.


Lemma run_restore_cli_writes_home_witness :
  let r := run_restore_cli demo None ex_world_backups in
  Forall (writes_below (CLAUDE_HOME demo)) (new_ops ex_world_backups (snd r)) /\
  forall p, ~ CLAUDE_HOME demo `prefix_of` p ->
            files (snd r) !! p = files ex_world_backups !! p.
Proof.
  intros r.
  apply (run_restore_cli_writes_home demo None ex_world_backups (snd r) (fst r)).
  apply surjective_pairing.
Defined.
